(** * lem-in: the ant-farm router of [main.go], embedded and verified

    The development follows the pipeline of [main.go]:
    [readInput] -> [findShortestPaths] -> [calculateSolutionGroups] ->
    [distributeAnts] -> [getAntMoves] -> selection of the shortest log.
    Modelling conventions.
    - Go strings are byte strings ([string]); slices of strings are lists.
    - Go maps are [gmap]s; reading a missing key yields the zero value, which
      is written [default z (m !! k)].
    - Go [int] values that are never negative here (lengths, loads, ant ids,
      path positions) are [nat]; parsed integers are [Z] with the 64-bit
      range check of [strconv.Atoi].  The counter of the ant loop of
      [distributeAnts] is compared with the parsed ant count, which can be
      the largest int: as [main] runs it, that loop has an int counter that
      wraps ([distribute_loop_int]).  The other counters are bounded by the
      number of rooms or paths held in memory.
    - A Go panic or a loop that does not stop is made explicit: functions
      that can panic return [option], loops that can run forever take fuel.
    - The order in which [range] visits a map and the tie order of the
      library's [sort.Slice] are not fixed by the language: they are
      parameters of the model (record [Runtime]). *)
From Stdlib Require Import ZArith Ascii String.

From stdpp Require Import gmap strings list fin_maps sorting pretty.

Open Scope string_scope.

Open Scope list_scope.

Abbreviation path := (list string).

(** ** Compatibility of paths and solution groups *)

(** [solutionsCompatible]: no room of [path1], other than [start] and
    [end], occurs in [path2]. *)
Fixpoint solutionsCompatible (path1 path2 : path) (start end_ : string) : bool :=
  match path1 with
  | [] => true
  | room1 :: rest =>
      if String.eqb room1 start || String.eqb room1 end_
      then solutionsCompatible rest path2 start end_
      else if existsb (String.eqb room1) path2
           then false
           else solutionsCompatible rest path2 start end_
  end.

(** [solutionCompatibleWithGroup]: the candidate is compatible with every
    path already in the group. *)
Fixpoint solutionCompatibleWithGroup (candidate : path) (group : list path)
    (start end_ : string) : bool :=
  match group with
  | [] => true
  | p :: rest =>
      if negb (solutionsCompatible p candidate start end_)
      then false
      else solutionCompatibleWithGroup candidate rest start end_
  end.

(** The inner loop of [calculateSolutionGroups] for the seed at index [i]:
    [j] is the index of the head of [rest]. *)
Fixpoint group_loop (i j : nat) (rest : list path) (group : list path)
    (start end_ : string) : list path :=
  match rest with
  | [] => group
  | path2 :: rest' =>
      let group' :=
        if Nat.eqb i j then group
        else if solutionCompatibleWithGroup path2 group start end_
             then group ++ [path2]
             else group in
      group_loop i (S j) rest' group' start end_
  end.

Definition calculateSolutionGroups (paths : list path) (start end_ : string)
    : list (list path) :=
  if Nat.leb (length paths) 1 then
    (if Nat.eqb (length paths) 1 then [paths] else [])
  else
    imap (fun i path1 => group_loop i 0 paths [path1] start end_) paths.

(** ** The ant distributor *)

(** The min-scan of [distributeAnts]: [(minLoad, minIndex)] after ranging
    over [rest], whose head has index [i]. *)
Fixpoint min_scan (rest : list nat) (i : nat) (minLoad minIndex : nat) : nat * nat :=
  match rest with
  | [] => (minLoad, minIndex)
  | load :: rest' =>
      if Nat.ltb load minLoad
      then min_scan rest' (S i) load i
      else min_scan rest' (S i) minLoad minIndex
  end.

(** One iteration of the ant loop.  [None] is the run-time panic of an index
    out of range ([loads[0]] on an empty slice). *)
Definition distribute_step (paths : list path) (antIndex : nat)
    (st : list nat * gmap nat path) : option (list nat * gmap nat path) :=
  let '(loads, assignment) := st in
  match loads !! 0%nat with
  | None => None
  | Some load0 =>
      let minIndex := snd (min_scan loads 0 load0 0) in
      match paths !! minIndex, loads !! minIndex with
      | Some p, Some l =>
          Some (<[minIndex := S l]> loads, <[antIndex := p]> assignment)
      | _, _ => None
      end
  end.

(** The ant loop [for antIndex := 1; antIndex <= ants; antIndex++], with
    [n] iterations left and the counter as a natural number.  This is the
    loop of the source as long as the counter does not wrap, that is for
    every ant count below the largest int; [distribute_loop_int] below is
    the loop on the ints of the source, as [main] runs it. *)
Fixpoint distribute_loop (paths : list path) (n antIndex : nat)
    (st : list nat * gmap nat path) : option (list nat * gmap nat path) :=
  match n with
  | O => Some st
  | S n' =>
      match distribute_step paths antIndex st with
      | None => None
      | Some st' => distribute_loop paths n' (S antIndex) st'
      end
  end.

Definition initial_loads (paths : list path) : list nat := map (@length string) paths.

Definition distributeAnts (paths : list path) (ants : nat) : option (gmap nat path) :=
  match distribute_loop paths ants 1 (initial_loads paths, ∅) with
  | None => None
  | Some (_, assignment) => Some assignment
  end.

(** ** What the language leaves open *)

(** [sortSlice] is the library's [sort.Slice] (not stable); the two [range]
    fields give the order in which a [range] loop visits the entries of a
    map. *)
Record Runtime := {
  sortSlice : forall A : Type, (A -> A -> bool) -> list A -> list A;
  rangeConnections : gmap string (list string) -> list (string * list string);
  rangeAssignment : gmap nat path -> list (nat * path)
}.

(** The contract of the library and of the language: sorting permutes and
    orders by the key, ranging visits every entry exactly once. *)
Record RuntimeOk (rt : Runtime) : Prop := {
  sort_perm : forall (A : Type) (less : A -> A -> bool) (l : list A),
      sortSlice rt A less l ≡ₚ l;
  sort_sorted : forall (A : Type) (key : A -> nat) (l : list A),
      StronglySorted (fun a b => key a <= key b)
        (sortSlice rt A (fun a b => Nat.ltb (key a) (key b)) l);
  range_connections_perm : forall m, rangeConnections rt m ≡ₚ map_to_list m;
  range_assignment_perm : forall m, rangeAssignment rt m ≡ₚ map_to_list m
}.

(** A concrete run time: insertion sort (what [sort.Slice] does on short
    slices) and maps ranged in the order of [map_to_list]. *)
Fixpoint insert_sorted {A : Type} (less : A -> A -> bool) (x : A) (s : list A) : list A :=
  match s with
  | [] => [x]
  | y :: s' => if less x y then x :: y :: s' else y :: insert_sorted less x s'
  end.

Definition insertion_sort (A : Type) (less : A -> A -> bool) (l : list A) : list A :=
  foldl (fun s x => insert_sorted less x s) [] l.

Definition go_runtime : Runtime := {|
  sortSlice := insertion_sort;
  rangeConnections := map_to_list;
  rangeAssignment := map_to_list
|}.

(** ** The turn simulator *)

Record AntAssignment := { AntID : nat; Path : path }.

#[global] Instance AntAssignment_eq_dec : EqDecision AntAssignment.
Proof. solve_decision. Defined.

(** The variables of [getAntMoves] that live during one turn.
    [antPositions] and [roomFull] survive from turn to turn, the other three
    are fresh at the start of every turn.  A move is kept as the pair
    (ant id, destination) and printed by [move_string]. *)
Record TurnState := {
  antPositions : gmap nat nat;
  roomFull : gmap string bool;
  tunnelsUsed : gmap string string;
  moveStrings : list (nat * string);
  finishedAnts : nat
}.

(** [fmt.Sprintf("L%d-%s", id, room)] *)
Definition move_string (m : nat * string) : string :=
  "L" +:+ pretty (fst m) +:+ "-" +:+ snd m.

(** The body of the loop over the ants, for one ant. *)
Definition ant_step (end_ : string) (st : TurnState) (a : AntAssignment) : TurnState :=
  let currentPosition := default 0 (antPositions st !! AntID a) in
  if Nat.ltb currentPosition (length (Path a) - 1) then
    let nextPosition := currentPosition + 1 in
    let currentRoom := default "" (Path a !! currentPosition) in
    let nextRoom := default "" (Path a !! nextPosition) in
    if negb (default false (roomFull st !! nextRoom))
       && negb (String.eqb (default "" (tunnelsUsed st !! currentRoom)) nextRoom)
    then
      let full1 := if negb (String.eqb nextRoom end_)
                   then <[nextRoom := true]> (roomFull st)
                   else roomFull st in
      {| antPositions := <[AntID a := nextPosition]> (antPositions st);
         roomFull := <[currentRoom := false]> full1;
         tunnelsUsed := <[currentRoom := nextRoom]> (tunnelsUsed st);
         moveStrings := moveStrings st ++ [(AntID a, nextRoom)];
         finishedAnts := finishedAnts st |}
    else st
  else
    {| antPositions := antPositions st;
       roomFull := roomFull st;
       tunnelsUsed := tunnelsUsed st;
       moveStrings := moveStrings st;
       finishedAnts := S (finishedAnts st) |}.

(** One turn: fresh [tunnelsUsed], [moveStrings] and [finishedAnts], then
    every ant in the order of [assignments]. *)
Definition run_turn (end_ : string) (assignments : list AntAssignment)
    (positions : gmap nat nat) (full : gmap string bool) : TurnState :=
  foldl (ant_step end_)
    {| antPositions := positions; roomFull := full; tunnelsUsed := ∅;
       moveStrings := []; finishedAnts := 0 |}
    assignments.

(** The [for { ... }] loop; [log] holds the non-empty turns so far.  Out of
    fuel ([None]) stands for a loop that has not stopped yet. *)
Fixpoint turn_loop (fuel : nat) (end_ : string) (assignments : list AntAssignment)
    (positions : gmap nat nat) (full : gmap string bool)
    (log : list (list (nat * string))) : option (list (list (nat * string))) :=
  match fuel with
  | O => None
  | S fuel' =>
      let st := run_turn end_ assignments positions full in
      let log' := if Nat.ltb 0 (length (moveStrings st))
                  then log ++ [moveStrings st] else log in
      if Nat.eqb (finishedAnts st) (length assignments)
      then Some log'
      else turn_loop fuel' end_ assignments (antPositions st) (roomFull st) log'
  end.

(** [strings.Join(moveStrings, " ") + "\n"] *)
Definition render_turn (ms : list (nat * string)) : string :=
  String.concat " " (map move_string ms) +:+ "
".

Definition render_log (log : list (list (nat * string))) : string :=
  foldl (fun antMoves ms => antMoves +:+ render_turn ms) "" log.

(** The slice of assignments, sorted by ant id. *)
Definition sorted_assignments (rt : Runtime) (originalAssignment : gmap nat path)
    : list AntAssignment :=
  sortSlice rt AntAssignment (fun a b => Nat.ltb (AntID a) (AntID b))
    (map (fun e => {| AntID := fst e; Path := snd e |})
         (rangeAssignment rt originalAssignment)).

(** The movement log as a list of turns. *)
Definition ant_moves_log (rt : Runtime) (fuel : nat)
    (originalAssignment : gmap nat path) (end_ : string)
    : option (list (list (nat * string))) :=
  turn_loop fuel end_ (sorted_assignments rt originalAssignment) ∅ ∅ [].

Definition getAntMoves (rt : Runtime) (fuel : nat)
    (originalAssignment : gmap nat path) (end_ : string) : option string :=
  match ant_moves_log rt fuel originalAssignment end_ with
  | None => None
  | Some log => Some (render_log log)
  end.

(** ** The graph *)

Record Room := {
  Name : string;
  X : Z;
  Y : Z;
  IsStart : bool;
  IsEnd : bool
}.

Record Graph := {
  Rooms : gmap string Room;
  Connections : gmap string (list string);
  AntCount : Z;
  StartRoom : string;
  EndRoom : string
}.

Definition NewGraph : Graph :=
  {| Rooms := ∅; Connections := ∅; AntCount := 0; StartRoom := ""; EndRoom := "" |}.

(** [AddRoom]: [inl msg] is the returned error. *)
Definition AddRoom (g : Graph) (name : string) (x y : Z) (isStart isEnd : bool)
    : string + Graph :=
  match Rooms g !! name with
  | Some _ => inl ("duplicate room: " +:+ name)
  | None =>
      inr {| Rooms := <[name := {| Name := name; X := x; Y := y;
                                   IsStart := isStart; IsEnd := isEnd |}]> (Rooms g);
             Connections := Connections g;
             AntCount := AntCount g;
             StartRoom := if isStart then name else StartRoom g;
             EndRoom := if isEnd then name else EndRoom g |}
  end.

(** [AddConnection]: [inl msg] is the returned error. *)
Definition AddConnection (g : Graph) (roomA roomB : string) : string + Graph :=
  match Rooms g !! roomA with
  | None => inl ("invalid connection: " +:+ roomA +:+ " - " +:+ roomB)
  | Some _ =>
      match Rooms g !! roomB with
      | None => inl ("invalid connection: " +:+ roomA +:+ " - " +:+ roomB)
      | Some _ =>
          let c1 := <[roomA := default [] (Connections g !! roomA) ++ [roomB]]> (Connections g) in
          let c2 := <[roomB := default [] (c1 !! roomB) ++ [roomA]]> c1 in
          inr {| Rooms := Rooms g; Connections := c2; AntCount := AntCount g;
                 StartRoom := StartRoom g; EndRoom := EndRoom g |}
      end
  end.

(** ** The path finder *)

(** The loop over the neighbours in [findAllPaths]; [visit] is the recursive
    call.  The visited map and the list of paths found are threaded. *)
Fixpoint dfs_neighbours
    (visit : string -> gmap string bool -> list path -> option (gmap string bool * list path))
    (neighbours : list string) (visited : gmap string bool) (allPaths : list path)
    : option (gmap string bool * list path) :=
  match neighbours with
  | [] => Some (visited, allPaths)
  | neighbor :: rest =>
      if negb (default false (visited !! neighbor)) then
        match visit neighbor visited allPaths with
        | None => None
        | Some (visited', allPaths') => dfs_neighbours visit rest visited' allPaths'
        end
      else dfs_neighbours visit rest visited allPaths
  end.

(** [findAllPaths]: depth-first enumeration of the simple paths to the end
    room.  [fuel] bounds the depth of the recursion. *)
Fixpoint findAllPaths (fuel : nat) (graph : Graph) (currentRoom : string)
    (visited : gmap string bool) (path_ : path) (allPaths : list path)
    : option (gmap string bool * list path) :=
  match fuel with
  | O => None
  | S fuel' =>
      let visited1 := <[currentRoom := true]> visited in
      let path1 := path_ ++ [currentRoom] in
      let r :=
        if String.eqb currentRoom (EndRoom graph)
        then Some (visited1, allPaths ++ [path1])
        else dfs_neighbours
               (fun neighbor v a => findAllPaths fuel' graph neighbor v path1 a)
               (default [] (Connections graph !! currentRoom)) visited1 allPaths in
      match r with
      | None => None
      | Some (visited2, allPaths2) => Some (<[currentRoom := false]> visited2, allPaths2)
      end
  end.

Definition findShortestPaths (rt : Runtime) (fuel : nat) (graph : Graph) (start : string)
    : option (list path) :=
  match findAllPaths fuel graph start ∅ [] [] with
  | None => None
  | Some (_, allPaths) =>
      Some (sortSlice rt path (fun p q => Nat.ltb (length p) (length q)) allPaths)
  end.

(** ** The process: output streams and exit status *)

Record Streams := { stdout : string; stderr : string }.

(** How a run of (a part of) the program ends: it goes on with a value, the
    process exits with a status, a run-time panic, or the fuel of a loop ran
    out. *)
Inductive Outcome (A : Type) : Type :=
| Running (a : A) (s : Streams)
| Exited (code : Z) (s : Streams)
| Panicked (s : Streams)
| OutOfFuel.

Arguments Running {A} a s.

Arguments Exited {A} code s.

Arguments Panicked {A} s.

Arguments OutOfFuel {A}.

Definition Proc (A : Type) : Type := Streams -> Outcome A.

Definition proc_ret {A : Type} (a : A) : Proc A := fun s => Running a s.

Definition proc_bind {A B : Type} (c : Proc A) (k : A -> Proc B) : Proc B :=
  fun s =>
    match c s with
    | Running a s' => k a s'
    | Exited code s' => Exited code s'
    | Panicked s' => Panicked s'
    | OutOfFuel => OutOfFuel
    end.

Notation "'let*' x ':=' c1 'in' c2" := (proc_bind c1 (fun x => c2))
  (at level 10, x pattern, c1 at level 100, c2 at level 200).

Notation "c1 '>>>' c2" := (proc_bind c1 (fun _ => c2))
  (at level 100, c2 at level 200, right associativity).

(** [fmt.Println(s)] and [fmt.Printf] on the standard output. *)
Definition print (s : string) : Proc unit :=
  fun st => Running tt {| stdout := stdout st +:+ s; stderr := stderr st |}.

Definition newline : string := "
".

Definition println (s : string) : Proc unit := print (s +:+ newline).

(** [fmt.Fprintf(os.Stderr, ...)] *)
Definition eprint (s : string) : Proc unit :=
  fun st => Running tt {| stdout := stdout st; stderr := stderr st +:+ s |}.

(** [os.Exit(code)] *)
Definition exit {A : Type} (code : Z) : Proc A := fun st => Exited code st.

Definition panic {A : Type} : Proc A := fun st => Panicked st.

Definition out_of_fuel {A : Type} : Proc A := fun _ => OutOfFuel.

(** ** Library functions on strings used by the parser *)

(** [strings.HasPrefix(line, "#")] *)
Definition HasPrefix (s prefix : string) : bool := String.prefix prefix s.

(** [strings.Contains(s, "-")], for a separator of one byte *)
Fixpoint Contains (s : string) (sep : ascii) : bool :=
  match s with
  | EmptyString => false
  | String a s' => if Ascii.eqb a sep then true else Contains s' sep
  end.

(** [strings.Split(s, "-")], for a separator of one byte: the pieces between
    the separators, one more than there are separators. *)
Fixpoint Split (s : string) (sep : ascii) : list string :=
  match s with
  | EmptyString => [""]
  | String a s' =>
      if Ascii.eqb a sep then "" :: Split s' sep
      else match Split s' sep with
           | [] => [String a ""]
           | piece :: pieces => String a piece :: pieces
           end
  end.

Definition byte (n : nat) : ascii := ascii_of_nat n.

Definition bytes (l : list nat) : string := fold_right (fun n s => String (byte n) s) "" l.

(** The white space of [unicode.IsSpace] as UTF-8: tab, line feed, vertical
    tab, form feed, carriage return, space, U+0085, U+00A0, U+1680,
    U+2000..U+200A, U+2028, U+2029, U+202F, U+205F, U+3000. *)
Definition white_space : list string :=
  map bytes
    ([[9]; [10]; [11]; [12]; [13]; [32]; [194; 133]; [194; 160]; [225; 154; 128]]
     ++ map (fun n => [226; 128; n]) (seq 128 11)
     ++ [[226; 128; 168]; [226; 128; 169]; [226; 128; 175]; [226; 129; 159];
         [227; 128; 128]]).

(** The length in bytes of the white-space rune at the head of [s], 0 when
    [s] does not start with white space. *)
Definition space_width (s : string) : nat :=
  match filter (fun w => String.prefix w s = true) white_space with
  | [] => 0
  | w :: _ => String.length w
  end.

(** [strings.Fields]: [skip] counts the remaining bytes of a white-space rune,
    [cur] is the field being read. *)
Fixpoint fields_go (skip : nat) (cur : string) (s : string) : list string :=
  match s with
  | EmptyString => if String.eqb cur "" then [] else [cur]
  | String a s' =>
      match skip with
      | S k => fields_go k cur s'
      | O =>
          match space_width s with
          | O => fields_go 0 (cur +:+ String a "") s'
          | S k => (if String.eqb cur "" then [] else [cur]) ++ fields_go k "" s'
          end
      end
  end.

Definition Fields (s : string) : list string := fields_go 0 "" s.

Definition digit_of (a : ascii) : option Z :=
  let n := Z.of_nat (nat_of_ascii a) in
  if Z.leb 48 n && Z.leb n 57 then Some (n - 48)%Z else None.

Fixpoint parse_digits (acc : Z) (s : string) : option Z :=
  match s with
  | EmptyString => Some acc
  | String a s' =>
      match digit_of a with
      | None => None
      | Some d => parse_digits (10 * acc + d)%Z s'
      end
  end.

(** [strconv.Atoi]: an optional sign, then at least one decimal digit, and
    the value in the range of a 64-bit [int]; [None] is the returned error. *)
Definition Atoi (s : string) : option Z :=
  let '(negative, body) :=
    match s with
    | String "-" rest => (true, rest)
    | String "+" rest => (false, rest)
    | _ => (false, s)
    end in
  match body with
  | EmptyString => None
  | _ =>
      match parse_digits 0 body with
      | None => None
      | Some n =>
          let v := if negative then (- n)%Z else n in
          if Z.leb (- 2 ^ 63) v && Z.leb v (2 ^ 63 - 1) then Some v else None
      end
  end.

(** [strings.Count(s, "\n")] *)
Fixpoint Count (s : string) (sep : ascii) : nat :=
  match s with
  | EmptyString => 0
  | String a s' => (if Ascii.eqb a sep then 1 else 0) + Count s' sep
  end.

(** ** The parser *)

(** What opening and scanning the input file yields: [os.Open] fails with a
    message, or the scanner delivers [lines] and then stops, at the end of
    the file ([scanErr = None]) or on a read error. *)
Inductive FileRead :=
| OpenError (msg : string)
| FileLines (lines : list string) (scanErr : option string).

(** The local variables of [readInput] that the loop over the lines updates. *)
Record ParseState := {
  graph : Graph;
  lineNumber : nat;
  start : bool;
  end_ : bool
}.

Definition set_AntCount (g : Graph) (n : Z) : Graph :=
  {| Rooms := Rooms g; Connections := Connections g; AntCount := n;
     StartRoom := StartRoom g; EndRoom := EndRoom g |}.

(** The two nested [range] loops that look for an identical connection. *)
Definition connection_exists (rt : Runtime) (g : Graph) (a b : string) : bool :=
  existsb
    (fun entry : string * list string =>
       existsb
         (fun val =>
            (String.eqb (fst entry) a && String.eqb val b)
            || (String.eqb (fst entry) b && String.eqb val a))
         (snd entry))
    (rangeConnections rt (Connections g)).

(** The body of the scanning loop, for one line. *)
Definition read_line (rt : Runtime) (st : ParseState) (line : string) : Proc ParseState :=
  if HasPrefix line "#" then
    if String.eqb line "##start" then
      proc_ret {| graph := graph st; lineNumber := lineNumber st;
                  start := true; end_ := end_ st |}
    else if String.eqb line "##end" then
      proc_ret {| graph := graph st; lineNumber := lineNumber st;
                  start := start st; end_ := true |}
    else proc_ret st
  else if Nat.eqb (lineNumber st) 0 then
    match Atoi line with
    | None =>
        println "ERROR: invalid data format, number of ants must be a positive integer"
        >>> exit 1
    | Some n =>
        if Z.leb n 0 then
          println "ERROR: invalid data format, number of ants must be a positive integer"
          >>> exit 1
        else
          proc_ret {| graph := set_AntCount (graph st) n;
                      lineNumber := S (lineNumber st);
                      start := start st; end_ := end_ st |}
    end
  else if Contains line "-" then
    match Split line "-" with
    | [part0; part1] =>
        if String.eqb part0 part1 then
          println ("ERROR: self referencing room: " +:+ line) >>> exit 0
        else if connection_exists rt (graph st) part0 part1 then
          println ("ERROR: invalid data format, identical connection already exists: "
                   +:+ line)
          >>> exit 1
        else
          (* the error returned by AddConnection is dropped *)
          let g' := match AddConnection (graph st) part0 part1 with
                    | inr g' => g'
                    | inl _ => graph st
                    end in
          proc_ret {| graph := g'; lineNumber := lineNumber st;
                      start := start st; end_ := end_ st |}
    | _ => println ("ERROR: invalid connection: " +:+ line) >>> exit 1
    end
  else
    match Fields line with
    | [name; xStr; yStr] =>
        match Atoi xStr with
        | None => println "ERROR: invalid x coordinate" >>> exit 1
        | Some x =>
            match Atoi yStr with
            | None => println "ERROR: invalid y coordinate" >>> exit 1
            | Some y =>
                match AddRoom (graph st) name x y (start st) (end_ st) with
                | inl msg => println ("ERROR: " +:+ msg) >>> exit 1
                | inr g' =>
                    proc_ret {| graph := g'; lineNumber := lineNumber st;
                                start := false; end_ := false |}
                end
            end
        end
    | _ => println ("ERROR: invalid room format: " +:+ line) >>> exit 1
    end.

Fixpoint read_lines (rt : Runtime) (st : ParseState) (lines : list string)
    : Proc ParseState :=
  match lines with
  | [] => proc_ret st
  | line :: rest => let* st' := read_line rt st line in read_lines rt st' rest
  end.

Definition initial_parse_state : ParseState :=
  {| graph := NewGraph; lineNumber := 0; start := false; end_ := false |}.

Definition readInput (rt : Runtime) (file : FileRead) : Proc (Graph * string * string * Z) :=
  match file with
  | OpenError msg => eprint ("ERROR: " +:+ msg +:+ newline) >>> exit 1
  | FileLines lines scanErr =>
      println "File opened successfully!" >>>
      println "" >>>
      let* st := read_lines rt initial_parse_state lines in
      match scanErr with
      | Some msg => println ("ERROR: " +:+ msg) >>> exit 0
      | None =>
          if String.eqb (StartRoom (graph st)) "" || String.eqb (EndRoom (graph st)) ""
          then println "ERROR: missing start or end room" >>> exit 0
          else proc_ret (graph st, StartRoom (graph st), EndRoom (graph st),
                         AntCount (graph st))
      end
  end.

(** ** The main program *)

Definition debugAntCount (antCount : Z) : Proc unit :=
  print ("Number of ants: " +:+ pretty antCount +:+ newline).

Definition debugPaths (paths : list path) : Proc unit :=
  println "All paths found:" >>>
  foldl (fun acc line => acc >>> line) (proc_ret tt)
    (imap (fun i p =>
             print ("Path " +:+ pretty (i + 1) +:+ ": " +:+ String.concat " ->" p)
             >>> println "")
          paths).

(** [ants] and the counter [antIndex] of the ant loop are [int]s of 64
    bits, and [antIndex++] wraps at the largest one. *)
Definition max_int : Z := (2 ^ 63 - 1)%Z.

Definition min_int : Z := (- 2 ^ 63)%Z.

Definition int_incr (i : Z) : Z := if (i =? max_int)%Z then min_int else (i + 1)%Z.

(** The ant loop [for antIndex := 1; antIndex <= ants; antIndex++] of
    [distributeAnts] with its counter as an int.  The loop is left when the
    test [antIndex <= ants] fails; with [ants = max_int] no int fails it,
    the counter wraps and the loop is never left.  The map is keyed by the
    id as a natural number, which is the counter itself as long as it has
    not wrapped; when the loop returns, it has not. *)
Fixpoint distribute_loop_int (fuel : nat) (paths : list path) (ants antIndex : Z)
    (st : list nat * gmap nat path) : Proc (gmap nat path) :=
  match fuel with
  | O => out_of_fuel
  | S fuel' =>
      if (antIndex <=? ants)%Z then
        match distribute_step paths (Z.to_nat antIndex) st with
        | None => panic
        | Some st' => distribute_loop_int fuel' paths ants (int_incr antIndex) st'
        end
      else proc_ret (snd st)
  end.

(** [distributeAnts] as [main] calls it, on the ant count of the file. *)
Definition distributeAnts_int (fuel : nat) (paths : list path) (ants : Z)
    : Proc (gmap nat path) :=
  distribute_loop_int fuel paths ants 1 (initial_loads paths, ∅).

(** Steps 5 and 6 of [main] for one solution group. *)
Definition moves_of_group (rt : Runtime) (fuel : nat) (ants : Z) (endRoom : string)
    (solutionGroup : list path) : Proc string :=
  let* assignment := distributeAnts_int fuel solutionGroup ants in
  match getAntMoves rt fuel assignment endRoom with
  | None => out_of_fuel
  | Some antMoves => proc_ret antMoves
  end.

Fixpoint moves_of_groups (rt : Runtime) (fuel : nat) (ants : Z) (endRoom : string)
    (solutionGroups : list (list path)) : Proc (list string) :=
  match solutionGroups with
  | [] => proc_ret []
  | solutionGroup :: rest =>
      let* antMoves := moves_of_group rt fuel ants endRoom solutionGroup in
      let* others := moves_of_groups rt fuel ants endRoom rest in
      proc_ret (antMoves :: others)
  end.

(** The selection loop of [main]: the first solution with the fewest
    newlines. *)
Definition shortest_solution (first : string) (antMovesPerPath : list string) : string :=
  foldl (fun shortestSolution solution =>
           if Nat.ltb (Count solution "010") (Count shortestSolution "010")
           then solution else shortestSolution)
        first antMovesPerPath.

(** The last four prints of [main]. *)
Definition report (shortestSolution : string) : Proc unit :=
  let steps := Count shortestSolution "010" in
  println "" >>>
  println ("Shortest path" +:+ newline +:+ shortestSolution) >>>
  println "Here you go!" >>>
  println ("Quickest path with " +:+ pretty steps +:+ " turns").

(** The part of [main] that follows the path finder. *)
Definition route_from (rt : Runtime) (fuel : nat) (paths : list path)
    (startRoom endRoom : string) (ants : Z) : Proc unit :=
  if Nat.eqb (length paths) 0 then println "ERROR: No valid path found"
  else
    debugPaths paths >>>
    let solutionGroups := calculateSolutionGroups paths startRoom endRoom in
    if Nat.eqb (length solutionGroups) 0
    then println "ERROR: No compatible solution group found"
    else
      let* antMovesPerPath := moves_of_groups rt fuel ants endRoom solutionGroups in
      match antMovesPerPath with
      | [] => panic
      | first :: _ => report (shortest_solution first antMovesPerPath)
      end.

(** The part of [main] that follows the parser. *)
Definition route (rt : Runtime) (fuel : nat) (g : Graph) (startRoom endRoom : string)
    (ants : Z) : Proc unit :=
  match findShortestPaths rt fuel g startRoom with
  | None => out_of_fuel
  | Some paths => route_from rt fuel paths startRoom endRoom ants
  end.

Definition main_body (rt : Runtime) (fuel : nat) (args : list string)
    (fs : string -> FileRead) : Proc unit :=
  match args with
  | [] => println "Usage: go run . <filename.txt>"
  | exampleFile :: _ =>
      let* r := readInput rt (fs exampleFile) in
      let '(g, startRoom, endRoom, ants) := r in
      debugAntCount ants >>>
      route rt fuel g startRoom endRoom ants
  end.

(** A run of the program: [args] are the command-line arguments after the
    program name, [fs] tells what reading a file yields.  Returning from
    [main] ends the process with status 0. *)
Definition main (rt : Runtime) (fuel : nat) (args : list string)
    (fs : string -> FileRead) : Outcome unit :=
  match main_body rt fuel args fs {| stdout := ""; stderr := "" |} with
  | Running _ s => Exited 0 s
  | o => o
  end.

(** * Predicates, measures and example inputs used in the statements *)

(** ** Compatibility and solution groups *)

(** A room other than the two end points occurs in at most one of the two
    paths. *)
Definition internally_disjoint (p q : path) (startRoom endRoom : string) : Prop :=
  forall r, r ∈ p -> r ∈ q -> r = startRoom \/ r = endRoom.

(** Any two members of a group at different indexes are internally disjoint. *)
Definition pairwise_disjoint (group : list path) (s e : string) : Prop :=
  forall i j p q, i <> j -> group !! i = Some p -> group !! j = Some q ->
                  internally_disjoint p q s e.

(** ** The path finder *)

Definition is_visited (v : gmap string bool) (r : string) : bool :=
  default false (v !! r).

(** [r] is a neighbour of some room in the adjacency map. *)
Definition is_neighbour (g : Graph) (r : string) : Prop :=
  exists k ns, Connections g !! k = Some ns /\ r ∈ ns.

(** What a call of [findAllPaths] at room [cur] with the prefix [pre] adds:
    the visited map reads as before, and every new path extends
    [pre ++ [cur]] by fresh, pairwise different rooms up to the end room. *)
Definition dfs_post (g : Graph) (cur : string) (v : gmap string bool) (pre : path)
    (all : list path) (res : gmap string bool * list path) : Prop :=
  (forall r, is_visited res.1 r = is_visited v r)
  /\ exists new, res.2 = all ++ new
      /\ Forall (fun p => exists suffix,
                     p = pre ++ cur :: suffix
                     /\ NoDup (cur :: suffix)
                     /\ last (cur :: suffix) = Some (EndRoom g)
                     /\ Forall (fun r => is_visited v r = false /\ is_neighbour g r) suffix)
                new.

(** A path from the start room to the end room without a repeated room,
    every later room being a neighbour in the graph. *)
Definition simple_path (g : Graph) (startRoom : string) (p : path) : Prop :=
  head p = Some startRoom
  /\ last p = Some (EndRoom g)
  /\ NoDup p
  /\ Forall (is_neighbour g) (tail p).

(** *** The search terminates *)

(** The rooms the search can reach lie among the start room and the
    neighbours listed in the adjacency map. *)
Definition graph_rooms (g : Graph) (startRoom : string) : list string :=
  remove_dups (startRoom :: concat (map snd (map_to_list (Connections g)))).

Definition unvisited (l : list string) (v : gmap string bool) : nat :=
  length (filter (fun r => is_visited v r = false) l).

(** Fuel that always suffices for the search. *)
Definition dfs_fuel (g : Graph) (startRoom : string) : nat :=
  S (length (graph_rooms g startRoom)).

(** ** The ant distributor *)

(** [m] is the first index at which [loads] is smallest. *)
Definition first_min {A : Type} (lt le : A -> A -> Prop) (loads : list A) (m : nat) : Prop :=
  exists lm, loads !! m = Some lm
             /\ forall j x, loads !! j = Some x -> le lm x /\ (j < m -> lt lm x).

(** The loads after the ants listed in [chosen] (by path index) have been
    assigned: the length of each path plus the number of its ants. *)
Definition loads_of (paths : list path) (chosen : list nat) : list nat :=
  imap (fun i p => length p + length (filter (fun c => c = i) chosen)) paths.

(** *** The greedy rule and the makespan *)

(** The number of ants sent to the path of index [i]. *)
Definition ants_on (idx : list nat) (i : nat) : nat :=
  length (filter (fun c => c = i) idx).

(** The cost of a path that carries [n] ants: its number of steps plus [n]. *)
Definition path_cost (p : path) (n : nat) : Z :=
  (Z.of_nat (length p) - 1 + Z.of_nat n)%Z.

Definition costs (paths : list path) (idx : list nat) : list Z :=
  imap (fun i p => path_cost p (ants_on idx i)) paths.

(** The split of the ants over the paths that the choices [idx] amount to. *)
Definition split_of (paths : list path) (idx : list nat) : list nat :=
  map (ants_on idx) (seq 0 (length paths)).

(** The makespan [max_i (len(p_i) - 1 + a_i)] of a split [a]. *)
Definition makespan (paths : list path) (a : list nat) : Z :=
  foldr Z.max (-1)%Z (zip_with path_cost paths a).

(** A path that got an ant carries at most one more than any other path. *)
Definition balanced (paths : list path) (chosen : list nat) : Prop :=
  forall i j li lj,
    i ∈ chosen ->
    loads_of paths chosen !! i = Some li ->
    loads_of paths chosen !! j = Some lj ->
    li <= lj + 1.

(** ** The turn simulator *)

(** The position of an ant, as [getAntMoves] reads it. *)
Definition ant_pos (positions : gmap nat nat) (a : AntAssignment) : nat :=
  default 0 (positions !! AntID a).

Definition is_full (full : gmap string bool) (r : string) : bool :=
  default false (full !! r).

(** The test that lets an ant move: it is not at the end of its path, the
    next room is not full and the tunnel to it was not used in this turn. *)
Definition can_move (st : TurnState) (a : AntAssignment) : bool :=
  let cp := ant_pos (antPositions st) a in
  Nat.ltb cp (length (Path a) - 1)
  && (negb (is_full (roomFull st) (default "" (Path a !! (cp + 1))))
      && negb (String.eqb (default "" (tunnelsUsed st !! default "" (Path a !! cp)))
                          (default "" (Path a !! (cp + 1))))).

(** An ant that has reached the last room of its path. *)
Definition finished (positions : gmap nat nat) (a : AntAssignment) : bool :=
  negb (Nat.ltb (ant_pos positions a) (length (Path a) - 1)).

(** The assignments the simulator is meant for: different ants have
    different ids, and every path starts at [s] and repeats no room. *)
Definition assignments_ok (s : string) (assignments : list AntAssignment) : Prop :=
  NoDup (map AntID assignments)
  /\ Forall (fun a => head (Path a) = Some s /\ NoDup (Path a)) assignments.

(** What holds between the positions and the occupancy map at any moment of
    the simulation: positions stay on the paths, a room is marked full
    exactly when an ant that has left the start sits in it and it is not the
    end room, and no two ants do. *)
Record sim_inv (e : string) (assignments : list AntAssignment)
    (positions : gmap nat nat) (full : gmap string bool) : Prop := {
  inv_bound : forall a, a ∈ assignments -> ant_pos positions a < length (Path a);
  inv_full_occupied : forall r, is_full full r = true ->
      exists a, a ∈ assignments /\ 0 < ant_pos positions a
                /\ Path a !! ant_pos positions a = Some r /\ r <> e;
  inv_occupied_full : forall a r, a ∈ assignments -> 0 < ant_pos positions a ->
      Path a !! ant_pos positions a = Some r -> r <> e -> is_full full r = true;
  inv_one_ant : forall a b r, a ∈ assignments -> b ∈ assignments ->
      0 < ant_pos positions a -> 0 < ant_pos positions b ->
      Path a !! ant_pos positions a = Some r ->
      Path b !! ant_pos positions b = Some r -> r <> e -> a = b
}.

(** The rooms an ant was moved to, in order, according to a list of moves. *)
Definition ant_route (moves : list (nat * string)) (id : nat) : list string :=
  map snd (filter (fun m => fst m = id) moves).

(** Where an ant is after a list of moves: at its last destination, or at
    the start room when it has not moved. *)
Definition location (s : string) (moves : list (nat * string)) (id : nat) : string :=
  default s (last (ant_route moves id)).

(** The steps all ants still have to make. *)
Definition remaining (assignments : list AntAssignment) (positions : gmap nat nat) : nat :=
  sum_list (map (fun a => length (Path a) - 1 - ant_pos positions a) assignments).

(** *** The log follows the paths *)

(** Every ant has been moved through the rooms of its path up to its
    position. *)
Definition routes_ok (assignments : list AntAssignment) (positions : gmap nat nat)
    (moves : list (nat * string)) : Prop :=
  forall a, a ∈ assignments ->
            ant_route moves (AntID a) = take (ant_pos positions a) (tail (Path a)).

(** No two ants are in the same room, unless it is the start or the end. *)
Definition capacity (s e : string) (assignments : list AntAssignment)
    (moves : list (nat * string)) : Prop :=
  forall a b, a ∈ assignments -> b ∈ assignments -> a <> b ->
              location s moves (AntID a) = location s moves (AntID b) ->
              location s moves (AntID a) = s \/ location s moves (AntID a) = e.

(** *** Progress and termination *)

(** Assignments as the pipeline builds them: besides [assignments_ok], every
    path ends at [e] and names no room by the empty string, and two ants
    either share their path or have internally disjoint paths. *)
Definition assignments_routable (s e : string) (assignments : list AntAssignment) : Prop :=
  assignments_ok s assignments
  /\ Forall (fun a => last (Path a) = Some e /\ "" ∉ Path a) assignments
  /\ forall a b, a ∈ assignments -> b ∈ assignments ->
                 Path a = Path b \/ internally_disjoint (Path a) (Path b) s e.

(** *** The loop as a whole *)

(** After each emitted turn the rooms hold at most one ant each. *)
Definition log_ok (s e : string) (assignments : list AntAssignment)
    (log : list (list (nat * string))) : Prop :=
  forall k, k <= length log -> capacity s e assignments (concat (take k log)).

(** *** The assignments of the pipeline *)

(** No room of the graph is named by the empty string (the parser sees to
    that: a room name is a field of a line). *)
Definition graph_named (g : Graph) : Prop :=
  StartRoom g <> "" /\ forall r, is_neighbour g r -> r <> "".

(** Fuel that suffices for the turn loop: one turn per step of every ant,
    and the last turn. *)
Definition sim_fuel (assignment : gmap nat path) : nat :=
  S (sum_list (map (fun e : nat * path => length e.2 - 1) (map_to_list assignment))).

(** ** The parser *)

(** *** What an input file contains *)

(** A data line: not a comment, and not the first line that is not a
    comment (which holds the ant count). *)
Definition data_line (lines : list string) (j : nat) (l : string) : Prop :=
  lines !! j = Some l /\ HasPrefix l "#" = false
  /\ exists i l0, i < j /\ lines !! i = Some l0 /\ HasPrefix l0 "#" = false.

(** Line [j] declares the room [name]. *)
Definition room_line (lines : list string) (j : nat) (name : string) : Prop :=
  exists l xStr yStr,
    data_line lines j l /\ Contains l "-" = false /\ Fields l = [name; xStr; yStr].

(** Line [j] declares the tunnel [a-b]. *)
Definition edge_line (lines : list string) (j : nat) (a b : string) : Prop :=
  exists l, data_line lines j l /\ Contains l "-" = true /\ Split l "-" = [a; b].

(** Line [i] holds the ant count. *)
Definition ant_line (lines : list string) (i : nat) (l : string) : Prop :=
  lines !! i = Some l /\ HasPrefix l "#" = false
  /\ forall k l0, k < i -> lines !! k = Some l0 -> HasPrefix l0 "#" = true.

Definition has_duplicate_room (lines : list string) : Prop :=
  exists i j name, i < j /\ room_line lines i name /\ room_line lines j name.

(** The same tunnel twice (in either direction), between two rooms that are
    both declared before its first occurrence. *)
Definition has_duplicate_edge (lines : list string) : Prop :=
  exists ia ib i j a b,
    ia < i /\ ib < i /\ i < j
    /\ room_line lines ia a /\ room_line lines ib b
    /\ edge_line lines i a b
    /\ (edge_line lines j a b \/ edge_line lines j b a).

Definition has_self_loop (lines : list string) : Prop :=
  exists j a, edge_line lines j a a.

(** Some room line follows a [mark] directive ([##start] or [##end]). *)
Definition marked (mark : string) (lines : list string) (k : nat) : Prop :=
  exists i j name, i < j /\ j < k /\ lines !! i = Some mark /\ room_line lines j name.

Definition missing_source_or_sink (lines : list string) : Prop :=
  ~ marked "##start" lines (length lines) \/ ~ marked "##end" lines (length lines).

Definition nonpositive_ant_count (lines : list string) : Prop :=
  exists i l n, ant_line lines i l /\ Atoi l = Some n /\ (n <= 0)%Z.

(** What the parser has established after the first [k] lines. *)
Record parse_inv (lines : list string) (k : nat) (st : ParseState) : Prop := {
  pi_first : lineNumber st = 0 ->
             forall i l0, i < k -> lines !! i = Some l0 -> HasPrefix l0 "#" = true;
  pi_later : lineNumber st <> 0 ->
             exists i l0, i < k /\ lines !! i = Some l0 /\ HasPrefix l0 "#" = false;
  pi_rooms : forall j name, j < k -> room_line lines j name ->
             is_Some (Rooms (graph st) !! name);
  pi_edges : forall ia ib i a b,
      ia < i -> ib < i -> i < k ->
      room_line lines ia a -> room_line lines ib b -> edge_line lines i a b ->
      b ∈ default [] (Connections (graph st) !! a)
      /\ a ∈ default [] (Connections (graph st) !! b);
  pi_start_flag : start st = true -> exists i, i < k /\ lines !! i = Some "##start";
  pi_end_flag : end_ st = true -> exists i, i < k /\ lines !! i = Some "##end";
  pi_start : StartRoom (graph st) <> "" -> marked "##start" lines k;
  pi_end : EndRoom (graph st) <> "" -> marked "##end" lines k;
  pi_names : forall name, is_Some (Rooms (graph st) !! name) -> name <> "";
  pi_neighbours : forall r, is_neighbour (graph st) r -> is_Some (Rooms (graph st) !! r)
}.

(** *** How a line is read *)

(** The graph after an edge line: the error of [AddConnection] is dropped. *)
Definition connect (g : Graph) (a b : string) : Graph :=
  match AddConnection g a b with
  | inr g' => g'
  | inl _ => g
  end.

(** *** Rejected inputs *)

(** The output after the two lines printed once the file is open. *)
Definition opened (out : Streams) : Streams :=
  {| stdout := (stdout out +:+ "File opened successfully!" +:+ newline) +:+ "" +:+ newline;
     stderr := stderr out |}.

(** ** Determinism *)


(** ** The whole pipeline returns *)

(** The log of a candidate group. *)
Definition candidate_log (rt : Runtime) (fuel : nat) (ants : Z) (endRoom : string)
    (group : list path) (log : string) : Prop :=
  exists assignment,
    distributeAnts group (Z.to_nat ants) = Some assignment
    /\ getAntMoves rt fuel assignment endRoom = Some log.

(** ** Schedules, after the problem statement *)

(** A schedule lists, turn by turn, the moves (ant, destination).  It obeys
    the constraints of the problem statement when: every move takes an ant
    1..ants through a tunnel of the graph, no ant moves twice in a turn, no
    tunnel is used twice in a turn (in either direction), at the end of every
    turn every room other than the start and the end holds at most one ant,
    and at the end every ant is in the end room. *)
Definition tunnel_used (used : list (string * string)) (a b : string) : bool :=
  existsb (fun t : string * string =>
             (String.eqb t.1 a && String.eqb t.2 b)
             || (String.eqb t.1 b && String.eqb t.2 a)) used.

Definition adjacent (g : Graph) (a b : string) : bool :=
  existsb (String.eqb b) (default [] (Connections g !! a)).

Fixpoint play_turn (g : Graph) (s : string) (ants : nat) (moves : list (nat * string))
    (loc : gmap nat string) (moved : list nat) (used : list (string * string))
    : option (gmap nat string) :=
  match moves with
  | [] => Some loc
  | m :: rest =>
      let cur := default s (loc !! m.1) in
      if Nat.leb 1 m.1 && Nat.leb m.1 ants
         && negb (existsb (Nat.eqb m.1) moved)
         && adjacent g cur m.2
         && negb (tunnel_used used cur m.2)
      then play_turn g s ants rest (<[m.1 := m.2]> loc) (m.1 :: moved) ((cur, m.2) :: used)
      else None
  end.

Definition rooms_hold_one (s e : string) (ants : nat) (loc : gmap nat string) : bool :=
  bool_decide
    (NoDup (filter (fun r => r <> s /\ r <> e)
                   (map (fun id => default s (loc !! id)) (seq 1 ants)))).

Fixpoint play (g : Graph) (s e : string) (ants : nat)
    (schedule : list (list (nat * string))) (loc : gmap nat string)
    : option (gmap nat string) :=
  match schedule with
  | [] => Some loc
  | turn :: rest =>
      match play_turn g s ants turn loc [] [] with
      | None => None
      | Some loc' =>
          if rooms_hold_one s e ants loc' then play g s e ants rest loc' else None
      end
  end.

Definition valid_schedule (g : Graph) (s e : string) (ants : nat)
    (schedule : list (list (nat * string))) : bool :=
  match play g s e ants schedule ∅ with
  | None => false
  | Some loc => forallb (fun id => String.eqb (default s (loc !! id)) e) (seq 1 ants)
  end.

(** [suffix] ends [s]. *)
Definition ends_with (s suffix : string) : bool :=
  String.eqb (String.substring (String.length s - String.length suffix)
                               (String.length suffix) s) suffix.

(** ** All the ways of sorting a list *)

Fixpoint picks {A : Type} (l : list A) : list (A * list A) :=
  match l with
  | [] => []
  | x :: l' => (x, l') :: map (fun p : A * list A => (p.1, x :: p.2)) (picks l')
  end.

(** The lists that hold the elements of [l] in an order of non-decreasing
    key; [n] is the length of [l]. *)
Fixpoint sorted_perms {A : Type} (key : A -> nat) (n : nat) (l : list A)
    : list (list A) :=
  match n with
  | O => [[]]
  | S n' =>
      flat_map (fun p : A * list A =>
                  if forallb (fun y => Nat.leb (key p.1) (key y)) p.2
                  then map (cons p.1) (sorted_perms key n' p.2)
                  else [])
               (picks l)
  end.

(** ** Example inputs *)

Definition no_output : Streams := {| stdout := ""; stderr := "" |}.

(** Two lanes of the same length and four ants. *)
Definition two_lanes : list string :=
  ["4"; "##start"; "S 0 0"; "a 1 0"; "b 1 1"; "##end"; "T 2 0";
   "S-a"; "a-T"; "S-b"; "b-T"].

(** The graph that the parser builds from [lines]. *)
Definition parsed_graph (lines : list string) : Graph :=
  match readInput go_runtime (FileLines lines None) no_output with
  | Running r _ => r.1.1.1
  | _ => NewGraph
  end.

Definition parsed_output (lines : list string) : Streams :=
  match readInput go_runtime (FileLines lines None) no_output with
  | Running _ out => out
  | _ => no_output
  end.

(** Three lanes S-x_i-..-y_i-T of 4, 6 and 5 tunnels, and three short cuts
    x1-y2, x3-y2 and x1-y3, each of which crosses two lanes; 15 ants. *)
Definition crossed_lanes : list string :=
  ["15"; "##start"; "S 0 0";
   "x1 1 0"; "n1 2 0"; "y1 3 0";
   "x2 1 1"; "n2 2 1"; "n3 3 1"; "n4 4 1"; "y2 5 1";
   "x3 1 2"; "n5 2 2"; "n6 3 2"; "y3 4 2";
   "##end"; "T 6 1";
   "S-x1"; "x1-n1"; "n1-y1"; "y1-T";
   "S-x2"; "x2-n2"; "n2-n3"; "n3-n4"; "n4-y2"; "y2-T";
   "S-x3"; "x3-n5"; "n5-n6"; "n6-y3"; "y3-T";
   "x1-y2"; "x3-y2"; "x1-y3"].

(** Nine turns that bring the 15 ants through the three lanes. *)
Definition three_lane_schedule : list (list (nat * string)) :=
  [[(1, "x1"); (3, "x3"); (6, "x2")];
   [(1, "n1"); (2, "x1"); (3, "n5"); (5, "x3"); (6, "n2"); (9, "x2")];
   [(1, "y1"); (2, "n1"); (3, "n6"); (4, "x1"); (5, "n5"); (6, "n3"); (8, "x3");
    (9, "n2"); (12, "x2")];
   [(1, "T"); (2, "y1"); (3, "y3"); (4, "n1"); (5, "n6"); (6, "n4"); (7, "x1");
    (8, "n5"); (9, "n3"); (11, "x3"); (12, "n2"); (15, "x2")];
   [(2, "T"); (3, "T"); (4, "y1"); (5, "y3"); (6, "y2"); (7, "n1"); (8, "n6");
    (9, "n4"); (10, "x1"); (11, "n5"); (12, "n3"); (14, "x3"); (15, "n2")];
   [(4, "T"); (5, "T"); (6, "T"); (7, "y1"); (8, "y3"); (9, "y2"); (10, "n1");
    (11, "n6"); (12, "n4"); (13, "x1"); (14, "n5"); (15, "n3")];
   [(7, "T"); (8, "T"); (9, "T"); (10, "y1"); (11, "y3"); (12, "y2"); (13, "n1");
    (14, "n6"); (15, "n4")];
   [(10, "T"); (11, "T"); (12, "T"); (13, "y1"); (14, "y3"); (15, "y2")];
   [(13, "T"); (14, "T"); (15, "T")]].

(** The program ended normally (or goes on) with an output that ends with
    [suffix]. *)
Definition ends_run (o : Outcome unit) (suffix : string) : bool :=
  match o with
  | Running _ out => ends_with (stdout out) suffix
  | Exited code out => Z.eqb code 0 && ends_with (stdout out) suffix
  | _ => false
  end.

(** The paths of [crossed_lanes] in the order of the search. *)
Definition crossed_paths : list path :=
  match findAllPaths 60 (parsed_graph crossed_lanes) "S" ∅ [] [] with
  | Some r => r.2
  | None => []
  end.

Definition ten_turns : string := "Quickest path with 10 turns
".





(** Two ants on paths that cross each other in opposite directions. *)
Definition head_on : gmap nat path :=
  <[1 := ["S"; "a"; "b"; "T"]]> (<[2 := ["S"; "b"; "a"; "T"]]> ∅).

(** Two ants on the chain A-B-C-D, and the state in which their second
    turn starts: ant 1 sits in B, ant 2 is still in A. *)
Definition chain_ant (id : nat) : AntAssignment :=
  {| AntID := id; Path := ["A"; "B"; "C"; "D"] |}.

Definition chain_assignment : gmap nat path :=
  <[1 := ["A"; "B"; "C"; "D"]]> (<[2 := ["A"; "B"; "C"; "D"]]> ∅).

Definition chain_second_turn : TurnState :=
  let st := run_turn "D" [chain_ant 1; chain_ant 2] ∅ ∅ in
  {| antPositions := antPositions st; roomFull := roomFull st;
     tunnelsUsed := ∅; moveStrings := []; finishedAnts := 0 |}.

(** ** Instances of the theorems on small farms *)

Definition lane_paths : list path := [["S"; "a"; "T"]; ["S"; "b"; "T"]].

Definition lane_ants : list AntAssignment :=
  [{| AntID := 1; Path := ["S"; "a"; "T"] |}; {| AntID := 2; Path := ["S"; "b"; "T"] |};
   {| AntID := 3; Path := ["S"; "a"; "T"] |}].

Definition lane_assignment : gmap nat path :=
  <[1 := ["S"; "a"; "T"]]> (<[2 := ["S"; "b"; "T"]]>
    (<[3 := ["S"; "a"; "T"]]> (<[4 := ["S"; "b"; "T"]]> ∅))).

Definition self_loop_lines : list string :=
  ["1"; "##start"; "A 0 0"; "##end"; "B 1 0"; "A-A"].

(** ** Further notions *)

(** A comment line that is not one of the two markers. *)
Definition is_comment (line : string) : bool :=
  HasPrefix line "#" && negb (String.eqb line "##start") && negb (String.eqb line "##end").

(** The neighbours of a room, as [findAllPaths] reads them. *)
Definition adj (g : Graph) (a : string) : list string :=
  default [] (Connections g !! a).

(** The bytes of white space of one byte. *)
Definition ascii_space : list ascii := map byte [9; 10; 11; 12; 13; 32].

(** A name that the parser can read back: it is not empty and holds no
    [-] and no white space of one byte. *)
Definition token (name : string) : Prop :=
  name <> "" /\ Contains name "-" = false
  /\ Forall (fun c => Contains name c = false) ascii_space.

(** The record kept for the room [name]. *)
Definition room_ok (name : string) (r : Room) : Prop :=
  Name r = name /\ token name
  /\ (0 <= X r <= max_int)%Z /\ (0 <= Y r <= max_int)%Z.

(** A simple undirected graph on the declared rooms. *)
Record graph_wf (g : Graph) : Prop := {
  wf_rooms : forall name r, Rooms g !! name = Some r -> room_ok name r;
  wf_adj_rooms : forall a b, b ∈ adj g a ->
                             is_Some (Rooms g !! a) /\ is_Some (Rooms g !! b);
  wf_sym : forall a b, b ∈ adj g a -> a ∈ adj g b;
  wf_irrefl : forall a, a ∉ adj g a;
  wf_nodup : forall a, NoDup (adj g a);
  wf_start : StartRoom g <> "" ->
             exists r, Rooms g !! StartRoom g = Some r /\ IsStart r = true;
  wf_end : EndRoom g <> "" ->
           exists r, Rooms g !! EndRoom g = Some r /\ IsEnd r = true
}.

(** What the scanning loop keeps besides [parse_inv]. *)
Record parse_wf (lines : list string) (k : nat) (st : ParseState) : Prop := {
  pw_graph : graph_wf (graph st);
  pw_first : lineNumber st = 0 -> Rooms (graph st) = ∅;
  pw_count : lineNumber st <> 0 -> (1 <= AntCount (graph st) <= max_int)%Z;
  pw_declared : forall name, is_Some (Rooms (graph st) !! name) ->
                             exists j, j < k /\ room_line lines j name
}.

(** The value of a decimal numeral without a sign, in the range of an
    [int]. *)
Definition unsigned_value (body : string) : option Z :=
  match body with
  | EmptyString => None
  | _ =>
      match parse_digits 0 body with
      | None => None
      | Some n => if Z.leb (- 2 ^ 63) n && Z.leb n (2 ^ 63 - 1) then Some n else None
      end
  end.

(** Every room of [p] is followed by one of its neighbours. *)
Fixpoint chain (g : Graph) (p : path) : Prop :=
  match p with
  | [] => True
  | a :: rest => (forall b, head rest = Some b -> b ∈ adj g a) /\ chain g rest
  end.

(** A path through the tunnels from [s] to the end room that enters no room
    twice. *)
Definition route_of (g : Graph) (s : string) (p : path) : Prop :=
  head p = Some s /\ last p = Some (EndRoom g) /\ NoDup p /\ chain g p.

(** The rest of such a path, through rooms that are not marked visited. *)
Definition open_route (g : Graph) (v : gmap string bool) (q : path) : Prop :=
  NoDup q /\ last q = Some (EndRoom g)
  /\ Forall (fun r => is_visited v r = false) q /\ chain g q.

(** What a call of [findAllPaths] at [cur] adds to the paths found: exactly
    the extensions of the prefix by an open route from [cur], each once when
    no room lists a neighbour twice. *)
Definition dfs_exact (g : Graph) (cur : string) (v : gmap string bool) (pre : path)
    (all : list path) (res : gmap string bool * list path) : Prop :=
  (forall r, is_visited res.1 r = is_visited v r)
  /\ exists new,
       res.2 = all ++ new
       /\ (forall p, p ∈ new <-> exists q, p = pre ++ q /\ head q = Some cur
                                           /\ open_route g v q)
       /\ ((forall a, NoDup (adj g a)) -> NoDup new).

(** A step of the program that leaves the error stream as it is. *)
Definition quiet {A : Type} (c : Proc A) : Prop :=
  forall s, match c s with
            | Running _ s' | Exited _ s' | Panicked s' => stderr s' = stderr s
            | OutOfFuel => True
            end.

(** The number of ants on the path of [a] that the simulator processes
    before [a]; [l] is the list of assignments in the order of processing. *)
Fixpoint rank (l : list AntAssignment) (a : AntAssignment) : nat :=
  match l with
  | [] => 0
  | b :: l' =>
      if decide (b = a) then 0
      else (if decide (Path b = Path a) then 1 else 0) + rank l' a
  end.

(** Where ant [a] stands after [t] turns when it leaves the start room in
    turn [rank l a + 1] and then advances in every turn. *)
Definition posf (l : list AntAssignment) (t : nat) (a : AntAssignment) : nat :=
  Nat.min (length (Path a) - 1) (t - rank l a).

(** The move of ant [a] in turn [t + 1], if it has one. *)
Definition move_of (l : list AntAssignment) (t : nat) (a : AntAssignment)
    : option (nat * string) :=
  if decide (posf l t a < posf l (S t) a)
  then (fun r => (AntID a, r)) <$> Path a !! posf l (S t) a
  else None.

(** The moves of the ants of [k] in turn [t + 1], in the order of [k]. *)
Definition turn_moves (l : list AntAssignment) (t : nat) (k : list AntAssignment)
    : list (nat * string) :=
  omap (move_of l t) k.

(** The turn in which the last ant arrives. *)
Definition turns_needed (l : list AntAssignment) : nat :=
  max_list (map (fun a => rank l a + (length (Path a) - 1)) l).

(** The state of the simulator in turn [t + 1], when the ants of [done_]
    have been processed and those of [todo] have not. *)
Record mid_turn (e : string) (l : list AntAssignment) (t : nat)
    (done_ todo : list AntAssignment) (st : TurnState) : Prop := {
  mt_done : forall a, a ∈ done_ -> ant_pos (antPositions st) a = posf l (S t) a;
  mt_todo : forall a, a ∈ todo -> ant_pos (antPositions st) a = posf l t a;
  mt_inv : sim_inv e l (antPositions st) (roomFull st);
  mt_tunnels : forall c n, tunnelsUsed st !! c = Some n ->
      exists b, b ∈ done_ /\ posf l (S t) b = S (posf l t b)
                /\ Path b !! posf l t b = Some c
                /\ Path b !! S (posf l t b) = Some n;
  mt_moves : moveStrings st = turn_moves l t done_
}.

(** A farm with a direct tunnel from the start to the end room and a
    second path, and four ants. *)
Definition direct_tunnel : list string :=
  ["4"; "##start"; "S 0 0"; "a 1 0"; "##end"; "T 2 0"; "S-T"; "S-a"; "a-T"].

Definition initial_turn : TurnState :=
  {| antPositions := ∅; roomFull := ∅; tunnelsUsed := ∅; moveStrings := [];
     finishedAnts := 0 |}.

(** A line that is neither a room line nor a tunnel line. *)
Definition malformed (line : string) : Prop :=
  (Contains line "-" = true /\ length (Split line "-") <> 2)
  \/ (Contains line "-" = false
      /\ (length (Fields line) <> 3
          \/ exists name xStr yStr,
               Fields line = [name; xStr; yStr]
               /\ (Atoi xStr = None \/ Atoi yStr = None))).

(** Some line of the file cannot be read: the line of the ant count is not a
    number, or a later line is malformed. *)
Definition has_malformed_line (lines : list string) : Prop :=
  (exists i l, ant_line lines i l /\ Atoi l = None)
  \/ (exists j l, data_line lines j l /\ malformed l).

(** The output after one more line [ERROR: msg] on the standard output. *)
Definition with_error (out : Streams) (msg : string) : Streams :=
  {| stdout := stdout out +:+ "ERROR: " +:+ msg +:+ newline; stderr := stderr out |}.

(** The room at position [i] of the path of [a]. *)
Definition room_at (s : string) (a : AntAssignment) (i : nat) : string :=
  default s (Path a !! i).

(** * Properties *)

(** ** Compatibility and solution groups *)

Lemma existsb_eqb_elem_of (r : string) (q : path) :
  existsb (String.eqb r) q = true <-> r ∈ q.
Proof.
  rewrite existsb_exists. split.
  - intros (x & Hin & Heq). apply String.eqb_eq in Heq. subst.
    by apply list_elem_of_In.
  - intros Hin. exists r. split; [by apply list_elem_of_In | apply String.eqb_refl].
Qed.

Lemma solutionsCompatible_spec (p q : path) (s e : string) :
  solutionsCompatible p q s e = true <-> internally_disjoint p q s e.
Proof.
  unfold internally_disjoint. induction p as [|room1 rest IH]; simpl.
  - split; [intros _ r Hr; by apply elem_of_nil in Hr | done].
  - destruct (String.eqb room1 s || String.eqb room1 e) eqn:Hends.
    + rewrite IH. split.
      * intros H r Hr Hq. apply elem_of_cons in Hr as [-> | Hr]; [|by apply H].
        apply orb_true_iff in Hends as [Hs | He]; [left | right];
          by apply String.eqb_eq.
      * intros H r Hr Hq. apply H; [by apply elem_of_cons; right | done].
    + apply orb_false_iff in Hends as [Hs He].
      apply String.eqb_neq in Hs, He.
      destruct (existsb (String.eqb room1) q) eqn:Hex.
      * split; [done |]. intros H. apply existsb_eqb_elem_of in Hex.
        destruct (H room1) as [? | ?]; [by apply elem_of_cons; left | done | done | done].
      * rewrite IH. split.
        -- intros H r Hr Hq. apply elem_of_cons in Hr as [-> | Hr]; [|by apply H].
           apply existsb_eqb_elem_of in Hq. congruence.
        -- intros H r Hr Hq. apply H; [by apply elem_of_cons; right | done].
Qed.

Lemma internally_disjoint_sym (p q : path) (s e : string) :
  internally_disjoint p q s e -> internally_disjoint q p s e.
Proof. intros H r Hq Hp. by apply H. Qed.

Lemma solutionCompatibleWithGroup_spec (c : path) (group : list path) (s e : string) :
  solutionCompatibleWithGroup c group s e = true
  <-> Forall (fun p => internally_disjoint p c s e) group.
Proof.
  induction group as [|p rest IH]; simpl.
  - split; [constructor | done].
  - destruct (solutionsCompatible p c s e) eqn:Hc; simpl.
    + rewrite IH. apply solutionsCompatible_spec in Hc. split.
      * intros H. by constructor.
      * intros H. by inversion H.
    + split; [done |]. intros H. inversion H as [|? ? Hp _]; subst.
      apply solutionsCompatible_spec in Hp. congruence.
Qed.

Lemma pairwise_disjoint_singleton (p : path) (s e : string) :
  pairwise_disjoint [p] s e.
Proof.
  intros i j p1 q1 Hne Hi Hj.
  apply lookup_lt_Some in Hi as Hi', Hj as Hj'. simpl in *. lia.
Qed.

Lemma pairwise_disjoint_snoc (group : list path) (c : path) (s e : string) :
  pairwise_disjoint group s e ->
  Forall (fun p => internally_disjoint p c s e) group ->
  pairwise_disjoint (group ++ [c]) s e.
Proof.
  intros Hpd Hall i j p q Hne Hi Hj.
  rewrite Forall_lookup in Hall.
  destruct (decide (i < length group)) as [Hil | Hil];
    destruct (decide (j < length group)) as [Hjl | Hjl].
  - rewrite lookup_app_l in Hi, Hj by done. by eapply Hpd.
  - rewrite lookup_app_l in Hi by done. rewrite lookup_app_r in Hj by lia.
    apply list_lookup_singleton_Some in Hj as [_ <-]. by eapply Hall.
  - rewrite lookup_app_l in Hj by done. rewrite lookup_app_r in Hi by lia.
    apply list_lookup_singleton_Some in Hi as [_ <-].
    apply internally_disjoint_sym. by eapply Hall.
  - rewrite lookup_app_r in Hi, Hj by lia.
    apply list_lookup_singleton_Some in Hi as [Hi _], Hj as [Hj _]. lia.
Qed.

Lemma group_loop_pairwise_disjoint (i j : nat) (rest group : list path) (s e : string) :
  pairwise_disjoint group s e ->
  pairwise_disjoint (group_loop i j rest group s e) s e.
Proof.
  revert j group. induction rest as [|path2 rest IH]; intros j group Hpd; simpl; [done |].
  apply IH. destruct (Nat.eqb i j); [done |].
  destruct (solutionCompatibleWithGroup path2 group s e) eqn:Hc; [| done].
  apply pairwise_disjoint_snoc; [done |]. by apply solutionCompatibleWithGroup_spec.
Qed.

(** Every member of a group is one of the given paths. *)
Lemma group_loop_subset (i j : nat) (rest group : list path) (s e : string) (p : path) :
  p ∈ group_loop i j rest group s e -> p ∈ group \/ p ∈ rest.
Proof.
  revert j group. induction rest as [|path2 rest IH]; intros j group; simpl.
  - by left.
  - intros Hp. apply IH in Hp as [Hp | Hp]; [| right; by apply elem_of_cons; right].
    destruct (Nat.eqb i j); [by left |].
    destruct (solutionCompatibleWithGroup path2 group s e); [| by left].
    apply elem_of_app in Hp as [Hp | Hp]; [by left |].
    apply list_elem_of_singleton in Hp as ->. right. by apply elem_of_cons; left.
Qed.

Lemma group_loop_nonempty (i j : nat) (rest group : list path) (s e : string) :
  group <> [] -> group_loop i j rest group s e <> [].
Proof.
  revert j group. induction rest as [|path2 rest IH]; intros j group Hne; simpl; [done |].
  apply IH. destruct (Nat.eqb i j); [done |].
  destruct (solutionCompatibleWithGroup path2 group s e); [| done].
  by destruct group.
Qed.

Lemma calculateSolutionGroups_elem (paths : list path) (s e : string) (group : list path) :
  group ∈ calculateSolutionGroups paths s e ->
  (paths = group /\ length paths = 1)
  \/ (1 < length paths
      /\ exists i path1, paths !! i = Some path1
                         /\ group = group_loop i 0 paths [path1] s e).
Proof.
  unfold calculateSolutionGroups.
  destruct (Nat.leb (length paths) 1) eqn:Hle.
  - destruct (Nat.eqb (length paths) 1) eqn:Heq.
    + intros H. apply list_elem_of_singleton in H as ->. left.
      apply Nat.eqb_eq in Heq. done.
    + intros H. by apply elem_of_nil in H.
  - intros H. right. apply Nat.leb_gt in Hle. split; [done |].
    apply list_elem_of_lookup in H as [i Hi].
    rewrite list_lookup_imap in Hi.
    destruct (paths !! i) as [path1|] eqn:Hp; simpl in Hi; [| done].
    exists i, path1. split; [done | congruence].
Qed.

Lemma calculateSolutionGroups_pairwise_disjoint (paths : list path) (s e : string)
    (group : list path) :
  group ∈ calculateSolutionGroups paths s e -> pairwise_disjoint group s e.
Proof.
  intros H. apply calculateSolutionGroups_elem in H as [[<- Hlen] | (_ & i & p1 & _ & ->)].
  - intros i j p q Hne Hi Hj.
    apply lookup_lt_Some in Hi, Hj. lia.
  - apply group_loop_pairwise_disjoint, pairwise_disjoint_singleton.
Qed.

Lemma calculateSolutionGroups_subset (paths : list path) (s e : string)
    (group : list path) (p : path) :
  group ∈ calculateSolutionGroups paths s e -> p ∈ group -> p ∈ paths.
Proof.
  intros H Hp. apply calculateSolutionGroups_elem in H as [[<- _] | (_ & i & p1 & Hi & ->)].
  - done.
  - apply group_loop_subset in Hp as [Hp | Hp]; [| done].
    apply list_elem_of_singleton in Hp as ->. by eapply list_elem_of_lookup_2.
Qed.

Lemma calculateSolutionGroups_nonempty (paths : list path) (s e : string)
    (group : list path) :
  group ∈ calculateSolutionGroups paths s e -> group <> [].
Proof.
  intros H. apply calculateSolutionGroups_elem in H as [[<- Hlen] | (_ & i & p1 & _ & ->)].
  - by destruct paths.
  - by apply group_loop_nonempty.
Qed.

(** ** The path finder *)

Lemma is_visited_insert (v : gmap string bool) (k r : string) (b : bool) :
  is_visited (<[k := b]> v) r = if decide (k = r) then b else is_visited v r.
Proof.
  unfold is_visited. rewrite lookup_insert. by destruct (decide (k = r)).
Qed.

Lemma dfs_neighbours_spec (g : Graph) (pre : path)
    (visit : string -> gmap string bool -> list path -> option (gmap string bool * list path))
    (ns : list string) (v : gmap string bool) (all : list path)
    (res : gmap string bool * list path) :
  (forall n v0 a0 res0, is_visited v0 n = false -> visit n v0 a0 = Some res0 ->
                        dfs_post g n v0 pre a0 res0) ->
  Forall (is_neighbour g) ns ->
  dfs_neighbours visit ns v all = Some res ->
  (forall r, is_visited res.1 r = is_visited v r)
  /\ exists new, res.2 = all ++ new
      /\ Forall (fun p => exists suffix,
                     p = pre ++ suffix
                     /\ NoDup suffix
                     /\ last suffix = Some (EndRoom g)
                     /\ Forall (fun r => is_visited v r = false /\ is_neighbour g r) suffix)
                new.
Proof.
  intros Hvisit. revert v all.
  induction ns as [|n rest IH]; intros v all Hns Hrun; simpl in Hrun.
  - inversion Hrun; subst; simpl. split; [done |]. exists [].
    split; [by rewrite app_nil_r | constructor].
  - inversion Hns as [|? ? Hn Hrest]; subst.
    fold (is_visited v n) in Hrun.
    destruct (is_visited v n) eqn:Hvn; simpl in Hrun.
    + by apply IH.
    + destruct (visit n v all) as [[v1 all1]|] eqn:Hcall; [| done].
      apply Hvisit in Hcall as [Hreads (new1 & Hall1 & Hnew1)]; [| done].
      simpl in Hreads, Hall1.
      apply IH in Hrun as [Hreads2 (new2 & Hall2 & Hnew2)]; [| done].
      split; [intros r; by rewrite Hreads2, Hreads |].
      exists (new1 ++ new2). split; [by rewrite Hall2, Hall1, app_assoc |].
      apply Forall_app. split.
      * eapply Forall_impl; [exact Hnew1 |]. simpl.
        intros p (suffix & -> & Hnd & Hlast & Hfresh).
        exists (n :: suffix). repeat split; try done.
        by constructor.
      * eapply Forall_impl; [exact Hnew2 |]. simpl.
        intros p (suffix & -> & Hnd & Hlast & Hfresh).
        exists suffix. repeat split; try done.
        eapply Forall_impl; [exact Hfresh |]. simpl.
        intros r [Hr ?]. by rewrite Hreads in Hr.
Qed.

Lemma connections_neighbours (g : Graph) (cur : string) :
  Forall (is_neighbour g) (default [] (Connections g !! cur)).
Proof.
  destruct (Connections g !! cur) as [ns|] eqn:Hc; simpl; [| constructor].
  apply Forall_forall. intros r Hr. by exists cur, ns.
Qed.

Lemma findAllPaths_spec (fuel : nat) (g : Graph) (cur : string)
    (v : gmap string bool) (pre : path) (all : list path)
    (res : gmap string bool * list path) :
  is_visited v cur = false ->
  findAllPaths fuel g cur v pre all = Some res ->
  dfs_post g cur v pre all res.
Proof.
  revert cur v pre all res.
  induction fuel as [|fuel IH]; intros cur v pre all res Hcur Hrun; [done |].
  simpl in Hrun.
  destruct (String.eqb cur (EndRoom g)) eqn:Hend.
  - apply String.eqb_eq in Hend. inversion Hrun; subst; clear Hrun.
    split; simpl.
    + intros r. rewrite !is_visited_insert.
      destruct (decide (EndRoom g = r)) as [<- | Hne]; [done |].
      by destruct (decide (EndRoom g = r)).
    + exists [pre ++ [EndRoom g]]. split; [done |].
      constructor; [| constructor]. exists []. repeat split; try done.
      apply NoDup_singleton.
  - destruct (dfs_neighbours _ _ _ _) as [[v2 all2]|] eqn:Hloop; [| done].
    inversion Hrun; subst; clear Hrun.
    apply (dfs_neighbours_spec g (pre ++ [cur])) in Hloop
      as [Hreads (new & Hall & Hnew)].
    + simpl in Hreads, Hall. split; simpl.
      * intros r. rewrite is_visited_insert.
        destruct (decide (cur = r)) as [<- | Hne]; [done |].
        rewrite Hreads, is_visited_insert. by destruct (decide (cur = r)).
      * exists new. split; [done |].
        eapply Forall_impl; [exact Hnew |]. simpl.
        intros p (suffix & -> & Hnd & Hlast & Hfresh).
        exists suffix. split; [by rewrite <- app_assoc |].
        assert (Hnotin : cur ∉ suffix).
        { intros Hin. rewrite Forall_forall in Hfresh.
          destruct (Hfresh cur Hin) as [Hv _].
          rewrite is_visited_insert in Hv. by destruct (decide (cur = cur)). }
        split; [by constructor |].
        split.
        { destruct suffix; [done |]. done. }
        eapply Forall_impl; [exact Hfresh |]. simpl.
        intros r [Hr ?]. split; [| done].
        rewrite is_visited_insert in Hr. by destruct (decide (cur = r)).
    + intros n v0 a0 res0 Hn Hcall. by apply IH.
    + apply connections_neighbours.
Qed.

Lemma findAllPaths_simple (fuel : nat) (g : Graph) (startRoom : string)
    (v : gmap string bool) (all : list path) :
  findAllPaths fuel g startRoom ∅ [] [] = Some (v, all) ->
  Forall (simple_path g startRoom) all.
Proof.
  intros Hrun. apply findAllPaths_spec in Hrun as [_ (new & Hall & Hnew)]; [| done].
  simpl in Hall. subst all.
  eapply Forall_impl; [exact Hnew |]. simpl.
  intros p (suffix & -> & Hnd & Hlast & Hfresh). repeat split; try done.
  simpl. eapply Forall_impl; [exact Hfresh |]. by intros r [_ ?].
Qed.

(** *** The search terminates *)

Lemma neighbour_in_graph_rooms (g : Graph) (startRoom r : string) :
  is_neighbour g r -> r ∈ graph_rooms g startRoom.
Proof.
  intros (k & ns & Hk & Hr). unfold graph_rooms.
  apply elem_of_remove_dups, elem_of_cons. right.
  apply list_elem_of_In, in_concat. exists ns. split.
  - apply list_elem_of_In, list_elem_of_fmap. exists (k, ns). split; [done |].
    by apply elem_of_map_to_list.
  - by apply list_elem_of_In.
Qed.

Lemma unvisited_ext (l : list string) (v v' : gmap string bool) :
  (forall r, is_visited v' r = is_visited v r) -> unvisited l v' = unvisited l v.
Proof.
  intros H. unfold unvisited. induction l as [|x l IH]; [done |].
  rewrite !filter_cons, H. destruct (decide (is_visited v x = false)); simpl; lia.
Qed.

Lemma unvisited_insert_le (l : list string) (v : gmap string bool) (cur : string) :
  unvisited l (<[cur := true]> v) <= unvisited l v.
Proof.
  unfold unvisited. induction l as [|x l IH]; [done |].
  rewrite !filter_cons, is_visited_insert.
  destruct (decide (cur = x)); simpl.
  - destruct (decide (true = false)); [done |].
    destruct (decide (is_visited v x = false)); simpl; lia.
  - destruct (decide (is_visited v x = false)); simpl; lia.
Qed.

Lemma unvisited_insert_lt (l : list string) (v : gmap string bool) (cur : string) :
  cur ∈ l -> is_visited v cur = false ->
  unvisited l (<[cur := true]> v) < unvisited l v.
Proof.
  intros Hin Hcur. induction l as [|x l IH]; [by apply elem_of_nil in Hin |].
  pose proof (unvisited_insert_le l v cur) as Hle.
  unfold unvisited in *. rewrite !filter_cons, is_visited_insert.
  destruct (decide (cur = x)) as [<- | Hne]; simpl.
  - destruct (decide (true = false)); [done |].
    destruct (decide (is_visited v cur = false)); [simpl; lia | done].
  - apply elem_of_cons in Hin as [? | Hin]; [done |]. specialize (IH Hin).
    destruct (decide (is_visited v x = false)); simpl; lia.
Qed.

Lemma dfs_neighbours_total (rooms : list string)
    (visit : string -> gmap string bool -> list path -> option (gmap string bool * list path))
    (ns : list string) (v : gmap string bool) (all : list path) :
  (forall n v0 a0, n ∈ ns -> is_visited v0 n = false ->
                   (forall r, is_visited v0 r = is_visited v r) ->
                   exists res0, visit n v0 a0 = Some res0
                                /\ forall r, is_visited res0.1 r = is_visited v0 r) ->
  exists res, dfs_neighbours visit ns v all = Some res
              /\ forall r, is_visited res.1 r = is_visited v r.
Proof.
  revert v all. induction ns as [|n rest IH]; intros v all Hvisit; simpl.
  - by eexists.
  - fold (is_visited v n). destruct (is_visited v n) eqn:Hvn; simpl.
    + apply IH. intros n0 v0 a0 Hn0. apply Hvisit. by apply elem_of_cons; right.
    + destruct (Hvisit n v all) as ([v1 all1] & Hcall & Hreads);
        [by apply elem_of_cons; left | done | done |].
      rewrite Hcall. simpl in Hreads.
      destruct (IH v1 all1) as (res & Hrun & Hreads2).
      * intros n0 v0 a0 Hn0 Hv0 Hsame. apply Hvisit; [by apply elem_of_cons; right | done |].
        intros r. by rewrite Hsame, Hreads.
      * exists res. split; [done |]. intros r. by rewrite Hreads2, Hreads.
Qed.

Lemma findAllPaths_total (g : Graph) (startRoom : string) (fuel : nat) (cur : string)
    (v : gmap string bool) (pre : path) (all : list path) :
  cur ∈ graph_rooms g startRoom ->
  is_visited v cur = false ->
  unvisited (graph_rooms g startRoom) v < S fuel ->
  exists res, findAllPaths (S fuel) g cur v pre all = Some res
              /\ forall r, is_visited res.1 r = is_visited v r.
Proof.
  revert cur v pre all.
  induction fuel as [|fuel IH]; intros cur v pre all Hin Hcur Hfuel.
  - pose proof (unvisited_insert_lt _ v cur Hin Hcur). lia.
  - remember (S fuel) as f eqn:Hf. simpl.
    destruct (String.eqb cur (EndRoom g)) eqn:Hend.
    + eexists. split; [done |]. simpl. intros r.
      rewrite !is_visited_insert. destruct (decide (cur = r)) as [<- | ?]; done.
    + destruct (dfs_neighbours_total (graph_rooms g startRoom)
                  (fun neighbor v0 a => findAllPaths f g neighbor v0 (pre ++ [cur]) a)
                  (default [] (Connections g !! cur)) (<[cur := true]> v) all)
        as ([v2 all2] & Hrun & Hreads).
      * intros n v0 a0 Hn Hv0 Hsame. subst f. apply IH; [| done |].
        -- apply neighbour_in_graph_rooms.
           pose proof (connections_neighbours g cur) as Hall.
           rewrite Forall_forall in Hall. by apply Hall.
        -- rewrite (unvisited_ext _ _ v0 Hsame).
           pose proof (unvisited_insert_lt _ v cur Hin Hcur). lia.
      * rewrite Hrun. eexists. split; [done |]. simpl in *. intros r.
        rewrite is_visited_insert. destruct (decide (cur = r)) as [<- | Hne]; [done |].
        rewrite Hreads, is_visited_insert. by destruct (decide (cur = r)).
Qed.

Lemma findAllPaths_terminates (g : Graph) (startRoom : string) :
  exists res, findAllPaths (dfs_fuel g startRoom) g startRoom ∅ [] [] = Some res.
Proof.
  destruct (findAllPaths_total g startRoom (length (graph_rooms g startRoom))
              startRoom ∅ [] []) as (res & Hrun & _).
  - unfold graph_rooms. apply elem_of_remove_dups, elem_of_cons. by left.
  - done.
  - unfold unvisited. pose proof (length_filter (fun r => is_visited ∅ r = false)
                                    (graph_rooms g startRoom)). lia.
  - by exists res.
Qed.

(** More fuel does not change the result. *)
Lemma dfs_neighbours_ext
    (visit visit' : string -> gmap string bool -> list path -> option (gmap string bool * list path))
    (ns : list string) (v : gmap string bool) (all : list path)
    (res : gmap string bool * list path) :
  (forall n v0 a0 res0, visit n v0 a0 = Some res0 -> visit' n v0 a0 = Some res0) ->
  dfs_neighbours visit ns v all = Some res ->
  dfs_neighbours visit' ns v all = Some res.
Proof.
  intros Hext. revert v all. induction ns as [|n rest IH]; intros v all; simpl; [done |].
  destruct (negb (default false (v !! n))); [| by apply IH].
  destruct (visit n v all) as [[v1 all1]|] eqn:Hcall; [| done].
  rewrite (Hext _ _ _ _ Hcall). by apply IH.
Qed.

Lemma findAllPaths_fuel_mono (fuel fuel' : nat) (g : Graph) (cur : string)
    (v : gmap string bool) (pre : path) (all : list path)
    (res : gmap string bool * list path) :
  fuel <= fuel' ->
  findAllPaths fuel g cur v pre all = Some res ->
  findAllPaths fuel' g cur v pre all = Some res.
Proof.
  revert fuel' cur v pre all res.
  induction fuel as [|fuel IH]; intros fuel' cur v pre all res Hle Hrun; [done |].
  destruct fuel' as [|fuel']; [lia |]. simpl in *.
  destruct (String.eqb cur (EndRoom g)); [done |].
  destruct (dfs_neighbours _ _ _ _) as [[v2 all2]|] eqn:Hloop; [| done].
  rewrite (dfs_neighbours_ext _
             (fun neighbor v0 a => findAllPaths fuel' g neighbor v0 (pre ++ [cur]) a)
             _ _ _ _ ltac:(intros n v0 a0 res0; apply IH; lia) Hloop).
  exact Hrun.
Qed.

(** ** The concrete run time meets the contract *)

Lemma insert_sorted_perm {A : Type} (less : A -> A -> bool) (x : A) (s : list A) :
  insert_sorted less x s ≡ₚ x :: s.
Proof.
  induction s as [|y s IH]; simpl; [done |].
  destruct (less x y); [done |]. rewrite IH. apply Permutation_swap.
Qed.

Lemma insertion_sort_perm (A : Type) (less : A -> A -> bool) (l : list A) :
  insertion_sort A less l ≡ₚ l.
Proof.
  unfold insertion_sort.
  assert (H : forall acc, foldl (fun s x => insert_sorted less x s) acc l ≡ₚ acc ++ l).
  { induction l as [|x l IH]; intros acc; simpl; [by rewrite app_nil_r |].
    rewrite IH, insert_sorted_perm. simpl. apply Permutation_middle. }
  apply (H []).
Qed.

Lemma insert_sorted_sorted {A : Type} (key : A -> nat) (x : A) (s : list A) :
  StronglySorted (fun a b => key a <= key b) s ->
  StronglySorted (fun a b => key a <= key b)
    (insert_sorted (fun a b => Nat.ltb (key a) (key b)) x s).
Proof.
  induction s as [|y s IH]; intros Hs; simpl.
  - repeat constructor.
  - inversion Hs as [|? ? Hs' Hall]; subst.
    destruct (Nat.ltb (key x) (key y)) eqn:Hlt.
    + apply Nat.ltb_lt in Hlt. constructor; [done |].
      constructor; [lia |]. eapply Forall_impl; [exact Hall |]. simpl. lia.
    + apply Nat.ltb_ge in Hlt. constructor; [by apply IH |].
      rewrite insert_sorted_perm. by constructor.
Qed.

Lemma insertion_sort_sorted (A : Type) (key : A -> nat) (l : list A) :
  StronglySorted (fun a b => key a <= key b)
    (insertion_sort A (fun a b => Nat.ltb (key a) (key b)) l).
Proof.
  unfold insertion_sort.
  assert (H : forall acc, StronglySorted (fun a b => key a <= key b) acc ->
                          StronglySorted (fun a b => key a <= key b)
                            (foldl (fun s x => insert_sorted
                                                 (fun a b => Nat.ltb (key a) (key b)) x s)
                                   acc l)).
  { induction l as [|x l IH]; intros acc Hacc; simpl; [done |].
    by apply IH, insert_sorted_sorted. }
  apply H. constructor.
Qed.

Lemma go_runtime_ok : RuntimeOk go_runtime.
Proof.
  constructor; simpl.
  - apply insertion_sort_perm.
  - apply insertion_sort_sorted.
  - done.
  - done.
Qed.


(** ** Paths handed to the groups *)

Lemma findShortestPaths_simple (rt : Runtime) (fuel : nat) (g : Graph)
    (startRoom : string) (paths : list path) :
  RuntimeOk rt ->
  findShortestPaths rt fuel g startRoom = Some paths ->
  Forall (simple_path g startRoom) paths.
Proof.
  intros Hrt Hrun. unfold findShortestPaths in Hrun.
  destruct (findAllPaths fuel g startRoom ∅ [] []) as [[v all]|] eqn:Hdfs; [| done].
  inversion Hrun; subst. apply findAllPaths_simple in Hdfs.
  by rewrite (sort_perm rt Hrt).
Qed.

Lemma findShortestPaths_terminates (rt : Runtime) (g : Graph) (startRoom : string) :
  exists paths, findShortestPaths rt (dfs_fuel g startRoom) g startRoom = Some paths.
Proof.
  destruct (findAllPaths_terminates g startRoom) as ([v all] & Hrun).
  unfold findShortestPaths. rewrite Hrun. by eexists.
Qed.

Lemma simple_path_start (g : Graph) (startRoom : string) (p : path) :
  simple_path g startRoom p -> startRoom ∈ p.
Proof.
  intros (Hhead & _). destruct p as [|x p]; [done |]. inversion Hhead; subst.
  by apply elem_of_cons; left.
Qed.

Lemma simple_path_end (g : Graph) (startRoom : string) (p : path) :
  simple_path g startRoom p -> EndRoom g ∈ p.
Proof.
  intros (_ & Hlast & _). apply last_Some in Hlast as [l' ->].
  apply elem_of_app. right. by apply list_elem_of_singleton.
Qed.

(** C3.  For every graph the path finder returns (with the fuel [dfs_fuel],
    and with the same result for any fuel that suffices), and any two paths
    at different places of any solution group built from its result share
    exactly the start room and the end room. *)
Theorem solution_groups_disjoint (rt : Runtime) (g : Graph) (Hrt : RuntimeOk rt) :
  (exists paths, findShortestPaths rt (dfs_fuel g (StartRoom g)) g (StartRoom g) = Some paths)
  /\ forall fuel paths group i j p q,
       findShortestPaths rt fuel g (StartRoom g) = Some paths ->
       group ∈ calculateSolutionGroups paths (StartRoom g) (EndRoom g) ->
       i <> j -> group !! i = Some p -> group !! j = Some q ->
       forall r, (r ∈ p /\ r ∈ q) <-> (r = StartRoom g \/ r = EndRoom g).
Proof.
  split; [apply findShortestPaths_terminates |].
  intros fuel paths group i j p q Hpaths Hgroup Hne Hi Hj r.
  pose proof (findShortestPaths_simple rt fuel g _ paths Hrt Hpaths) as Hsimple.
  rewrite Forall_forall in Hsimple.
  assert (Hp : simple_path g (StartRoom g) p).
  { apply Hsimple. eapply calculateSolutionGroups_subset; [exact Hgroup |].
    by eapply list_elem_of_lookup_2. }
  assert (Hq : simple_path g (StartRoom g) q).
  { apply Hsimple. eapply calculateSolutionGroups_subset; [exact Hgroup |].
    by eapply list_elem_of_lookup_2. }
  split.
  - intros [Hrp Hrq].
    by eapply (calculateSolutionGroups_pairwise_disjoint _ _ _ _ Hgroup i j p q).
  - intros [-> | ->]; split;
      eauto using simple_path_start, simple_path_end.
Qed.

(** ** The ant distributor *)

Lemma min_scan_spec (loads : list nat) (rest : list nat) (i minLoad minIndex : nat) :
  drop i loads = rest ->
  loads !! minIndex = Some minLoad ->
  minIndex <= i ->
  (forall j x, j < i -> loads !! j = Some x ->
               minLoad <= x /\ (j < minIndex -> minLoad < x)) ->
  first_min lt le loads (min_scan rest i minLoad minIndex).2.
Proof.
  revert i minLoad minIndex.
  induction rest as [|load rest IH]; intros i ml mi Hdrop Hmi Hle Hinv; simpl.
  - exists ml. split; [done |]. intros j x Hj. apply Hinv; [| done].
    apply lookup_lt_Some in Hj.
    assert (length (drop i loads) = 0) as Hlen by (by rewrite Hdrop).
    rewrite length_drop in Hlen. lia.
  - assert (Hi : loads !! i = Some load).
    { rewrite <- (Nat.add_0_r i), <- lookup_drop, Hdrop. done. }
    assert (Hdrop' : drop (S i) loads = rest).
    { rewrite (drop_S _ _ _ Hi) in Hdrop. by inversion Hdrop. }
    destruct (Nat.ltb load ml) eqn:Hlt.
    + apply Nat.ltb_lt in Hlt. apply IH; [done | done | lia |].
      intros j x Hj Hx. destruct (decide (j = i)) as [-> | Hne].
      * rewrite Hi in Hx. inversion Hx; subst. lia.
      * destruct (Hinv j x) as [H1 H2]; [lia | done |]. lia.
    + apply Nat.ltb_ge in Hlt. apply IH; [done | done | lia |].
      intros j x Hj Hx. destruct (decide (j = i)) as [-> | Hne].
      * rewrite Hi in Hx. inversion Hx; subst. lia.
      * apply Hinv; [lia | done].
Qed.

Lemma min_scan_first_min (loads : list nat) (load0 : nat) :
  loads !! 0 = Some load0 ->
  first_min lt le loads (min_scan loads 0 load0 0).2.
Proof.
  intros H0. apply min_scan_spec; [done | done | lia |]. intros j x Hj. lia.
Qed.

Lemma loads_of_lookup (paths : list path) (chosen : list nat) (i : nat) :
  loads_of paths chosen !! i
  = (fun p => length p + length (filter (fun c => c = i) chosen)) <$> paths !! i.
Proof. unfold loads_of. by rewrite list_lookup_imap. Qed.

Lemma loads_of_nil (paths : list path) : loads_of paths [] = initial_loads paths.
Proof.
  apply list_eq. intros i. rewrite loads_of_lookup. unfold initial_loads.
  rewrite list_lookup_fmap. destruct (paths !! i); simpl; [f_equal; lia | done].
Qed.

Lemma loads_of_snoc (paths : list path) (chosen : list nat) (m l : nat) :
  loads_of paths chosen !! m = Some l ->
  <[m := S l]> (loads_of paths chosen) = loads_of paths (chosen ++ [m]).
Proof.
  intros Hm. apply list_eq. intros i.
  destruct (decide (i = m)) as [-> | Hne].
  - rewrite list_lookup_insert_eq by (by eapply lookup_lt_Some).
    rewrite loads_of_lookup in *. destruct (paths !! m); simpl in *; [| done].
    inversion Hm; subst. f_equal.
    rewrite filter_app, length_app, filter_cons, filter_nil. simpl.
    destruct (decide (m = m)); [simpl; lia | done].
  - rewrite list_lookup_insert_ne by done. rewrite !loads_of_lookup.
    destruct (paths !! i); simpl; [| done]. f_equal.
    rewrite filter_app, length_app, filter_cons, filter_nil. simpl.
    destruct (decide (m = i)); [congruence | simpl; lia].
Qed.

(** The ant loop never panics on a non-empty path list; [idx] lists the
    path index chosen for each ant. *)
Lemma distribute_loop_trace (paths : list path) (n k : nat) (chosen : list nat)
    (a : gmap nat path) :
  paths <> [] ->
  exists idx a',
    length idx = n
    /\ distribute_loop paths n k (loads_of paths chosen, a)
       = Some (loads_of paths (chosen ++ idx), a')
    /\ (forall t i, idx !! t = Some i ->
          first_min lt le (loads_of paths (chosen ++ take t idx)) i
          /\ exists p, paths !! i = Some p /\ a' !! (k + t) = Some p)
    /\ (forall j, j < k \/ k + n <= j -> a' !! j = a !! j).
Proof.
  intros Hne. revert k chosen a.
  induction n as [|n IH]; intros k chosen a; simpl.
  - exists [], a. rewrite app_nil_r. repeat split; try done.
  - unfold distribute_step.
    destruct (loads_of paths chosen !! 0) as [load0|] eqn:H0.
    2:{ rewrite loads_of_lookup in H0. destruct paths; [done | done]. }
    pose proof (min_scan_first_min _ _ H0) as Hmin.
    set (m := (min_scan (loads_of paths chosen) 0 load0 0).2) in *.
    destruct Hmin as (lm & Hlm & Hmin).
    rewrite Hlm.
    assert (exists p, paths !! m = Some p) as [p Hp].
    { rewrite loads_of_lookup in Hlm. destruct (paths !! m); [by eexists | done]. }
    rewrite Hp. rewrite (loads_of_snoc _ _ _ _ Hlm).
    destruct (IH (S k) (chosen ++ [m]) (<[k := p]> a)) as (idx & a' & Hlen & Hrun & Htrace & Hout).
    exists (m :: idx), a'. split; [simpl; lia |].
    split; [by rewrite Hrun, <- app_assoc |].
    split.
    + intros t i Ht. destruct t as [|t]; simpl in Ht.
      * inversion Ht; subst i. simpl. rewrite app_nil_r. split.
        -- by exists lm.
        -- exists p. split; [done |]. rewrite Hout by lia.
           rewrite Nat.add_0_r. apply lookup_insert_eq.
      * destruct (Htrace t i Ht) as [Hfm (p' & Hp' & Ha')]. split.
        -- simpl. by rewrite <- app_assoc in Hfm.
        -- exists p'. split; [done |]. by replace (k + S t) with (S k + t) by lia.
    + intros j Hj. rewrite Hout by lia. apply lookup_insert_ne. lia.
Qed.

Lemma distributeAnts_trace (paths : list path) (ants : nat) :
  paths <> [] ->
  exists idx assignment,
    length idx = ants
    /\ distributeAnts paths ants = Some assignment
    /\ (forall t i, idx !! t = Some i ->
          first_min lt le (loads_of paths (take t idx)) i
          /\ exists p, paths !! i = Some p /\ assignment !! (S t) = Some p)
    /\ (forall j, j < 1 \/ 1 + ants <= j -> assignment !! j = None).
Proof.
  intros Hne.
  destruct (distribute_loop_trace paths ants 1 [] ∅ Hne)
    as (idx & a' & Hlen & Hrun & Htrace & Hout).
  exists idx, a'. unfold distributeAnts. rewrite <- loads_of_nil, Hrun.
  split; [done |]. split; [done |]. split.
  - intros t i Hi. by apply Htrace.
  - intros j Hj. by rewrite Hout.
Qed.

(** C10.  With at least one ant, the distributor panics on an empty path
    list (the read of [loads[0]]); on a non-empty one it returns an
    assignment whose keys are exactly the ant ids 1..ants, each mapped to one
    of the given paths. *)
Theorem distributeAnts_requires_paths (paths : list path) (ants : nat)
    (Hants : 1 <= ants) :
  (paths = [] -> distributeAnts paths ants = None)
  /\ (paths <> [] ->
      exists assignment,
        distributeAnts paths ants = Some assignment
        /\ (forall k, is_Some (assignment !! k) <-> 1 <= k <= ants)
        /\ (forall k p, assignment !! k = Some p -> p ∈ paths)).
Proof.
  split.
  - intros ->. destruct ants as [|ants]; [lia | done].
  - intros Hne.
    destruct (distributeAnts_trace paths ants Hne)
      as (idx & assignment & Hlen & Hrun & Htrace & Hout).
    exists assignment. split; [done |].
    assert (Hin : forall k, 1 <= k <= ants ->
                            exists p, assignment !! k = Some p /\ p ∈ paths).
    { intros k Hk. destruct (lookup_lt_is_Some_2 idx (k - 1)) as [i Hi]; [lia |].
      destruct (Htrace _ _ Hi) as [_ (p & Hp & Ha)].
      replace (S (k - 1)) with k in Ha by lia.
      exists p. split; [done |]. by eapply list_elem_of_lookup_2. }
    split.
    + intros k. split.
      * intros [p Hp]. destruct (decide (1 <= k <= ants)); [done |].
        rewrite Hout in Hp by lia. done.
      * intros Hk. destruct (Hin k Hk) as (p & Hp & _). by eexists.
    + intros k p Hp. destruct (decide (1 <= k <= ants)) as [Hk | Hk].
      * destruct (Hin k Hk) as (p' & Hp' & Hin'). congruence.
      * rewrite Hout in Hp by lia. done.
Qed.

(** *** The greedy rule and the makespan *)

Lemma first_min_costs (paths : list path) (chosen : list nat) (m : nat) :
  first_min lt le (loads_of paths chosen) m ->
  first_min Z.lt Z.le (costs paths chosen) m.
Proof.
  intros (lm & Hlm & Hmin). unfold costs, first_min.
  rewrite loads_of_lookup in Hlm. rewrite list_lookup_imap.
  destruct (paths !! m) as [pm|] eqn:Hpm; simpl in *; [| done].
  inversion Hlm; subst lm. eexists. split; [done |].
  intros j x Hj. rewrite list_lookup_imap in Hj.
  destruct (paths !! j) as [pj|] eqn:Hpj; simpl in Hj; [| done].
  inversion Hj; subst x.
  destruct (Hmin j (length pj + length (filter (fun c => c = j) chosen))) as [H1 H2].
  { rewrite loads_of_lookup, Hpj. done. }
  unfold path_cost, ants_on. split; [lia |]. intros Hlt. specialize (H2 Hlt). lia.
Qed.

Lemma loads_of_snoc_lookup (paths : list path) (chosen : list nat) (m i l' : nat) :
  loads_of paths (chosen ++ [m]) !! i = Some l' ->
  exists l, loads_of paths chosen !! i = Some l
            /\ l' = if decide (m = i) then S l else l.
Proof.
  rewrite !loads_of_lookup. destruct (paths !! i) as [p|]; simpl; [| done].
  intros H. inversion H; subst. eexists. split; [done |].
  rewrite filter_app, length_app, filter_cons, filter_nil.
  destruct (decide (m = i)); simpl; lia.
Qed.

Lemma balanced_snoc (paths : list path) (chosen : list nat) (m : nat) :
  balanced paths chosen ->
  first_min lt le (loads_of paths chosen) m ->
  balanced paths (chosen ++ [m]).
Proof.
  intros Hbal (lm & Hlm & Hmin) i j li' lj' Hi Hli Hlj.
  apply loads_of_snoc_lookup in Hli as (li & Hli & ->).
  apply loads_of_snoc_lookup in Hlj as (lj & Hlj & ->).
  destruct (decide (m = i)) as [-> | Hne].
  - rewrite Hlm in Hli. inversion Hli; subst li.
    destruct (Hmin j lj Hlj) as [Hle _]. destruct (decide (i = j)); lia.
  - apply elem_of_app in Hi as [Hi | Hi].
    + specialize (Hbal i j li lj Hi Hli Hlj). destruct (decide (m = j)); lia.
    + apply list_elem_of_singleton in Hi. congruence.
Qed.

Lemma balanced_trace (paths : list path) (idx : list nat) :
  (forall t i, idx !! t = Some i -> first_min lt le (loads_of paths (take t idx)) i) ->
  balanced paths idx.
Proof.
  intros Htrace.
  assert (H : forall t, t <= length idx -> balanced paths (take t idx)).
  { induction t as [|t IH]; intros Ht.
    - intros i j li lj Hi. by apply elem_of_nil in Hi.
    - destruct (lookup_lt_is_Some_2 idx t) as [m Hm]; [lia |].
      rewrite (take_S_r _ _ _ Hm). apply balanced_snoc; [apply IH; lia |].
      by apply Htrace. }
  specialize (H (length idx) (Nat.le_refl _)). by rewrite firstn_all in H.
Qed.

Lemma exists_greater (a b : list nat) :
  length a = length b ->
  sum_list a < sum_list b
  \/ (sum_list a <= sum_list b
      /\ exists i ai bi, a !! i = Some ai /\ b !! i = Some bi /\ bi < ai) ->
  exists j aj bj, a !! j = Some aj /\ b !! j = Some bj /\ aj < bj.
Proof.
  revert b. induction a as [|a0 a IH]; intros [|b0 b] Hlen H; simpl in *; try done.
  - destruct H as [H | (_ & i & ai & bi & Hi & _)]; [lia | done].
  - destruct (decide (a0 < b0)) as [Hlt | Hge].
    + exists 0, a0, b0. done.
    + destruct (IH b) as (j & aj & bj & Hj1 & Hj2 & Hj3); [lia | |].
      * destruct H as [H | (Hle & i & ai & bi & Hi1 & Hi2 & Hi3)]; [left; lia |].
        destruct i as [|i]; simpl in *.
        -- inversion Hi1; inversion Hi2; subst. left. lia.
        -- right. split; [lia |]. by exists i, ai, bi.
      * by exists (S j), aj, bj.
Qed.

Lemma sum_list_append (l k : list nat) :
  sum_list (l ++ k) = sum_list l + sum_list k.
Proof. induction l as [|x l IH]; simpl; lia. Qed.

Lemma sum_list_indicator (x k : nat) :
  sum_list (map (fun i => length (filter (fun c => c = i) [x])) (seq 0 k))
  = if decide (x < k) then 1 else 0.
Proof.
  induction k as [|k IH]; [done |].
  rewrite seq_S, map_app, sum_list_append, IH. simpl.
  rewrite filter_cons, filter_nil.
  destruct (decide (x = k)); destruct (decide (x < k)); destruct (decide (x < S k));
    simpl; lia.
Qed.

Lemma sum_list_map_add {A : Type} (f g : A -> nat) (l : list A) :
  sum_list (map (fun i => f i + g i) l) = sum_list (map f l) + sum_list (map g l).
Proof. induction l as [|x l IH]; simpl; lia. Qed.

Lemma sum_split_of (paths : list path) (idx : list nat) :
  Forall (fun i => i < length paths) idx ->
  sum_list (split_of paths idx) = length idx.
Proof.
  unfold split_of, ants_on. induction idx as [|x idx IH]; intros Hall.
  - simpl. induction (seq 0 (length paths)); simpl; [done | lia].
  - inversion Hall as [|? ? Hx Hrest]; subst.
    transitivity (sum_list (map (fun i => length (filter (fun c => c = i) [x])
                                          + length (filter (fun c => c = i) idx))
                                (seq 0 (length paths)))).
    { f_equal. apply map_ext. intros i.
      change (x :: idx) with ([x] ++ idx). by rewrite filter_app, length_app. }
    rewrite sum_list_map_add, sum_list_indicator, IH by done.
    destruct (decide (x < length paths)); [simpl; lia | done].
Qed.

Lemma split_of_lookup (paths : list path) (idx : list nat) (i : nat) (p : path) :
  paths !! i = Some p -> split_of paths idx !! i = Some (ants_on idx i).
Proof.
  intros Hp. unfold split_of. rewrite list_lookup_fmap, lookup_seq_lt; [done |].
  by eapply lookup_lt_Some.
Qed.

Lemma foldr_max_ge (d : Z) (l : list Z) (x : Z) :
  x ∈ l -> (x <= foldr Z.max d l)%Z.
Proof.
  induction l as [|y l IH]; intros Hx; [by apply elem_of_nil in Hx |].
  simpl. apply elem_of_cons in Hx as [-> | Hx]; [lia |]. specialize (IH Hx). lia.
Qed.

Lemma foldr_max_base (d : Z) (l : list Z) : (d <= foldr Z.max d l)%Z.
Proof. induction l as [|y l IH]; simpl; lia. Qed.

Lemma foldr_max_le (d : Z) (la lb : list Z) :
  (forall x, x ∈ la -> exists y, y ∈ lb /\ (x <= y)%Z) ->
  (foldr Z.max d la <= foldr Z.max d lb)%Z.
Proof.
  induction la as [|x la IH]; intros H; simpl.
  - apply foldr_max_base.
  - destruct (H x) as (y & Hy & Hxy); [by apply elem_of_cons; left |].
    pose proof (foldr_max_ge d lb y Hy).
    assert (foldr Z.max d la <= foldr Z.max d lb)%Z.
    { apply IH. intros x' Hx'. apply H. by apply elem_of_cons; right. }
    lia.
Qed.

Lemma greedy_makespan_optimal (paths : list path) (idx b : list nat) :
  Forall (fun i => i < length paths) idx ->
  balanced paths idx ->
  length b = length paths ->
  sum_list b = length idx ->
  (makespan paths (split_of paths idx) <= makespan paths b)%Z.
Proof.
  intros Hidx Hbal Hlen Hsum. unfold makespan. apply foldr_max_le.
  intros x Hx. apply list_elem_of_lookup in Hx as [i Hx].
  apply lookup_zip_with_Some in Hx as (p & ai & -> & Hp & Hai).
  rewrite (split_of_lookup _ _ _ _ Hp) in Hai. inversion Hai; subst ai; clear Hai.
  destruct (lookup_lt_is_Some_2 b i) as [bi Hbi].
  { rewrite Hlen. by eapply lookup_lt_Some. }
  destruct (decide (ants_on idx i <= bi)) as [Hle | Hgt].
  - exists (path_cost p bi). split.
    + apply list_elem_of_lookup. exists i. apply lookup_zip_with_Some. by exists p, bi.
    + unfold path_cost. lia.
  - destruct (exists_greater (split_of paths idx) b) as (j & aj & bj & Haj & Hbj & Hlt).
    { unfold split_of. rewrite length_map, length_seq. done. }
    { right. rewrite sum_split_of by done. split; [lia |].
      exists i, (ants_on idx i), bi. split; [by eapply split_of_lookup |].
      split; [done | lia]. }
    destruct (lookup_lt_is_Some_2 paths j) as [pj Hpj].
    { rewrite <- Hlen. by eapply lookup_lt_Some. }
    rewrite (split_of_lookup _ _ _ _ Hpj) in Haj. inversion Haj; subst aj; clear Haj.
    exists (path_cost pj bj). split.
    + apply list_elem_of_lookup. exists j. apply lookup_zip_with_Some. by exists pj, bj.
    + assert (Hin : i ∈ idx).
      { unfold ants_on in Hgt. destruct (filter (fun c => c = i) idx) as [|c l] eqn:Hf.
        - simpl in Hgt. lia.
        - assert (Hc : c ∈ filter (fun c => c = i) idx) by (rewrite Hf; by apply elem_of_cons; left).
          apply list_elem_of_filter in Hc as [-> Hc]. done. }
      specialize (Hbal i j (length p + ants_on idx i) (length pj + ants_on idx j) Hin).
      rewrite !loads_of_lookup, Hp, Hpj in Hbal. specialize (Hbal eq_refl eq_refl).
      unfold path_cost. lia.
Qed.

(** C4.  On a non-empty path list and for at least one ant, the distributor
    sends ant [t+1] to the path of smallest current cost (length minus one
    plus the ants already on it), the first such path when several tie, and
    the split reached has the least makespan among all splits of the ants
    over the paths. *)
Theorem distributeAnts_greedy_optimal (paths : list path) (ants : nat)
    (Hpaths : paths <> []) (Hants : 1 <= ants) :
  exists idx assignment,
    length idx = ants
    /\ distributeAnts paths ants = Some assignment
    /\ (forall t i, idx !! t = Some i ->
          first_min Z.lt Z.le (costs paths (take t idx)) i
          /\ exists p, paths !! i = Some p /\ assignment !! (S t) = Some p)
    /\ (forall b, length b = length paths -> sum_list b = ants ->
          (makespan paths (split_of paths idx) <= makespan paths b)%Z).
Proof.
  destruct (distributeAnts_trace paths ants Hpaths)
    as (idx & assignment & Hlen & Hrun & Htrace & _).
  exists idx, assignment. split; [done |]. split; [done |]. split.
  - intros t i Hi. destruct (Htrace t i Hi) as [Hmin Hp]. split; [| done].
    by apply first_min_costs.
  - intros b Hb Hsum. apply greedy_makespan_optimal; [| | done | lia].
    + apply Forall_forall. intros i Hi. apply list_elem_of_lookup in Hi as [t Ht].
      destruct (Htrace t i Ht) as [_ (p & Hp & _)]. by eapply lookup_lt_Some.
    + apply balanced_trace. intros t i Hi. by apply Htrace.
Qed.

(** ** The turn simulator *)

Lemma ant_step_move (e : string) (st : TurnState) (a : AntAssignment) :
  can_move st a = true ->
  let cp := ant_pos (antPositions st) a in
  let cur := default "" (Path a !! cp) in
  let nxt := default "" (Path a !! (cp + 1)) in
  ant_step e st a =
  {| antPositions := <[AntID a := cp + 1]> (antPositions st);
     roomFull := <[cur := false]>
                   (if negb (String.eqb nxt e) then <[nxt := true]> (roomFull st)
                    else roomFull st);
     tunnelsUsed := <[cur := nxt]> (tunnelsUsed st);
     moveStrings := moveStrings st ++ [(AntID a, nxt)];
     finishedAnts := finishedAnts st |}.
Proof.
  unfold can_move, ant_step, ant_pos, is_full. intros H.
  apply andb_true_iff in H as [H1 H2]. rewrite H1, H2. done.
Qed.

Lemma ant_step_stay (e : string) (st : TurnState) (a : AntAssignment) :
  can_move st a = false ->
  ant_step e st a =
  {| antPositions := antPositions st;
     roomFull := roomFull st;
     tunnelsUsed := tunnelsUsed st;
     moveStrings := moveStrings st;
     finishedAnts := if finished (antPositions st) a
                     then S (finishedAnts st) else finishedAnts st |}.
Proof.
  unfold can_move, ant_step, finished, ant_pos, is_full. intros H.
  destruct (Nat.ltb _ _) eqn:H1; simpl in *; [| done].
  rewrite H. by destruct st.
Qed.

Lemma same_id (assignments : list AntAssignment) (a b : AntAssignment) :
  NoDup (map AntID assignments) ->
  a ∈ assignments -> b ∈ assignments -> AntID a = AntID b -> a = b.
Proof.
  induction assignments as [|x l IH]; intros Hnd Ha Hb Hid.
  - by apply elem_of_nil in Ha.
  - simpl in Hnd. apply NoDup_cons in Hnd as [Hx Hnd].
    apply elem_of_cons in Ha as [-> | Ha]; apply elem_of_cons in Hb as [-> | Hb].
    + done.
    + exfalso. apply Hx. rewrite Hid. apply list_elem_of_fmap. by exists b.
    + exfalso. apply Hx. rewrite <- Hid. apply list_elem_of_fmap. by exists a.
    + by apply IH.
Qed.

Lemma ant_pos_insert (positions : gmap nat nat) (a b : AntAssignment) (n : nat) :
  ant_pos (<[AntID a := n]> positions) b
  = if decide (AntID a = AntID b) then n else ant_pos positions b.
Proof.
  unfold ant_pos. rewrite lookup_insert. by destruct (decide (AntID a = AntID b)).
Qed.

Lemma is_full_insert (full : gmap string bool) (k r : string) (b : bool) :
  is_full (<[k := b]> full) r = if decide (k = r) then b else is_full full r.
Proof.
  unfold is_full. rewrite lookup_insert. by destruct (decide (k = r)).
Qed.

(** A room at a later position of a path is not the start room. *)
Lemma later_room_not_start (s : string) (p : path) (i : nat) (r : string) :
  head p = Some s -> NoDup p -> 0 < i -> p !! i = Some r -> r <> s.
Proof.
  intros Hhead Hnd Hi Hr ->. destruct p as [|x p]; [done |].
  inversion Hhead; subst x. destruct i as [|i]; [lia |]. simpl in Hr.
  apply NoDup_cons in Hnd as [Hnotin _]. apply Hnotin.
  by eapply list_elem_of_lookup_2.
Qed.

Lemma can_move_inv (st : TurnState) (a : AntAssignment) :
  can_move st a = true ->
  exists cur nxt,
    Path a !! ant_pos (antPositions st) a = Some cur
    /\ Path a !! (ant_pos (antPositions st) a + 1) = Some nxt
    /\ S (ant_pos (antPositions st) a) < length (Path a)
    /\ is_full (roomFull st) nxt = false
    /\ default "" (tunnelsUsed st !! cur) <> nxt.
Proof.
  unfold can_move. intros H. set (cp := ant_pos (antPositions st) a) in *.
  apply andb_true_iff in H as [H1 H2]. apply andb_true_iff in H2 as [H2 H3].
  apply Nat.ltb_lt in H1.
  destruct (lookup_lt_is_Some_2 (Path a) cp) as [cur Hcur]; [lia |].
  destruct (lookup_lt_is_Some_2 (Path a) (cp + 1)) as [nxt Hnxt]; [lia |].
  rewrite Hcur, Hnxt in *. simpl in *.
  exists cur, nxt. repeat split; try done; try lia.
  - by apply negb_true_iff in H2.
  - apply negb_true_iff in H3. by apply String.eqb_neq in H3.
Qed.

Lemma sim_inv_move (s e : string) (assignments : list AntAssignment)
    (positions : gmap nat nat) (full : gmap string bool)
    (a : AntAssignment) (cur nxt : string) :
  assignments_ok s assignments ->
  a ∈ assignments ->
  sim_inv e assignments positions full ->
  Path a !! ant_pos positions a = Some cur ->
  Path a !! (ant_pos positions a + 1) = Some nxt ->
  is_full full nxt = false ->
  sim_inv e assignments
    (<[AntID a := ant_pos positions a + 1]> positions)
    (<[cur := false]> (if negb (String.eqb nxt e) then <[nxt := true]> full else full)).
Proof.
  intros [Hids Hpaths] Ha Hinv Hcur Hnxt Hfree.
  rewrite Forall_forall in Hpaths.
  set (cp := ant_pos positions a) in *.
  assert (Hne : cur <> nxt).
  { intros ->. destruct (Hpaths a Ha) as [_ Hnd].
    pose proof (NoDup_lookup _ _ _ _ Hnd Hcur Hnxt). lia. }
  assert (Hpos : forall b, b ∈ assignments ->
            ant_pos (<[AntID a := cp + 1]> positions) b
            = if decide (a = b) then cp + 1 else ant_pos positions b).
  { intros b Hb. rewrite ant_pos_insert.
    destruct (decide (AntID a = AntID b)) as [Hid | Hid].
    - rewrite (same_id _ _ _ Hids Ha Hb Hid). by destruct (decide (b = b)).
    - destruct (decide (a = b)) as [-> | _]; done. }
  assert (Hfull : forall r,
            is_full (<[cur := false]>
                       (if negb (String.eqb nxt e) then <[nxt := true]> full else full)) r
            = if decide (cur = r) then false
              else if decide (nxt = r) then (if decide (nxt = e) then is_full full r else true)
                   else is_full full r).
  { intros r. rewrite is_full_insert. destruct (decide (cur = r)); [done |].
    destruct (String.eqb nxt e) eqn:He; simpl.
    - apply String.eqb_eq in He. destruct (decide (nxt = r)); [| done].
      by destruct (decide (nxt = e)).
    - apply String.eqb_neq in He. rewrite is_full_insert.
      destruct (decide (nxt = r)); [| done]. by destruct (decide (nxt = e)). }
  assert (Hleft : forall b r, b ∈ assignments -> a <> b -> 0 < ant_pos positions b ->
            Path b !! ant_pos positions b = Some r -> r <> e -> cur <> r).
  { intros b r Hb Hab Hpb Hr Hre ->. destruct (decide (cp = 0)) as [H0 | H0].
    - destruct (Hpaths a Ha) as [Hhead _]. destruct (Hpaths b Hb) as [Hheadb Hndb].
      rewrite H0 in Hcur. rewrite <- head_lookup, Hhead in Hcur. inversion Hcur; subst r.
      by eapply (later_room_not_start s (Path b)).
    - apply Hab. eapply (inv_one_ant _ _ _ _ Hinv a b r); try done. lia. }
  constructor.
  - intros b Hb. rewrite (Hpos b Hb). destruct (decide (a = b)) as [<- | _].
    + by eapply lookup_lt_Some.
    + by apply (inv_bound _ _ _ _ Hinv).
  - intros r Hr. rewrite Hfull in Hr.
    destruct (decide (cur = r)) as [| Hcr]; [done |].
    assert (Hold : is_full full r = true ->
              exists b, b ∈ assignments
                        /\ 0 < ant_pos (<[AntID a := cp + 1]> positions) b
                        /\ Path b !! ant_pos (<[AntID a := cp + 1]> positions) b = Some r
                        /\ r <> e).
    { intros Hf. destruct (inv_full_occupied _ _ _ _ Hinv r Hf) as (b & Hb & Hpb & Hrb & Hre).
      exists b. rewrite (Hpos b Hb). destruct (decide (a = b)) as [<- | _]; [| done].
      fold cp in Hrb. congruence. }
    destruct (decide (nxt = r)) as [<- | Hnr]; [| by apply Hold].
    destruct (decide (nxt = e)) as [| Hne']; [by apply Hold |].
    exists a. rewrite (Hpos a Ha). destruct (decide (a = a)); [| done].
    split; [done |]. split; [lia |]. done.
  - intros b r Hb Hpb Hrb Hre. rewrite (Hpos b Hb) in Hpb, Hrb. rewrite Hfull.
    destruct (decide (a = b)) as [<- | Hab].
    + assert (r = nxt) as -> by congruence.
      destruct (decide (cur = nxt)); [done |].
      destruct (decide (nxt = nxt)); [| done]. by destruct (decide (nxt = e)).
    + pose proof (inv_occupied_full _ _ _ _ Hinv b r Hb Hpb Hrb Hre) as Hf.
      destruct (decide (cur = r)) as [Hcr |].
      { exfalso. by eapply (Hleft b r). }
      destruct (decide (nxt = r)) as [<- |]; [| done]. congruence.
  - intros b1 b2 r Hb1 Hb2 Hp1 Hp2 Hr1 Hr2 Hre.
    rewrite (Hpos b1 Hb1) in Hp1, Hr1. rewrite (Hpos b2 Hb2) in Hp2, Hr2.
    destruct (decide (a = b1)) as [<- | Hab1]; destruct (decide (a = b2)) as [<- | Hab2].
    + done.
    + assert (r = nxt) as -> by congruence.
      pose proof (inv_occupied_full _ _ _ _ Hinv b2 nxt Hb2 Hp2 Hr2 Hre). congruence.
    + assert (r = nxt) as -> by congruence.
      pose proof (inv_occupied_full _ _ _ _ Hinv b1 nxt Hb1 Hp1 Hr1 Hre). congruence.
    + by eapply (inv_one_ant _ _ _ _ Hinv b1 b2 r).
Qed.

Lemma sim_inv_step (s e : string) (assignments : list AntAssignment)
    (st : TurnState) (a : AntAssignment) :
  assignments_ok s assignments ->
  a ∈ assignments ->
  sim_inv e assignments (antPositions st) (roomFull st) ->
  sim_inv e assignments (antPositions (ant_step e st a)) (roomFull (ant_step e st a)).
Proof.
  intros Hok Ha Hinv. destruct (can_move st a) eqn:Hmove.
  - rewrite (ant_step_move e st a Hmove). simpl.
    destruct (can_move_inv st a Hmove) as (cur & nxt & Hcur & Hnxt & _ & Hfree & _).
    rewrite Hcur, Hnxt. simpl. by eapply sim_inv_move.
  - by rewrite (ant_step_stay e st a Hmove).
Qed.

Lemma sim_inv_fold (s e : string) (assignments : list AntAssignment)
    (l : list AntAssignment) (st : TurnState) :
  assignments_ok s assignments ->
  l ⊆ assignments ->
  sim_inv e assignments (antPositions st) (roomFull st) ->
  sim_inv e assignments (antPositions (foldl (ant_step e) st l))
    (roomFull (foldl (ant_step e) st l)).
Proof.
  intros Hok. revert st. induction l as [|a l IH]; intros st Hsub Hinv; simpl; [done |].
  apply IH.
  - intros x Hx. apply Hsub. by apply elem_of_cons; right.
  - eapply sim_inv_step; [done | | done]. apply Hsub. by apply elem_of_cons; left.
Qed.

Lemma sim_inv_initial (s e : string) (assignments : list AntAssignment) :
  assignments_ok s assignments ->
  sim_inv e assignments ∅ ∅.
Proof.
  intros [_ Hpaths]. rewrite Forall_forall in Hpaths. constructor.
  - intros a Ha. destruct (Hpaths a Ha) as [Hhead _]. unfold ant_pos.
    rewrite lookup_empty. simpl. destruct (Path a); [done | simpl; lia].
  - intros r Hr. unfold is_full in Hr. by rewrite lookup_empty in Hr.
  - intros a r _ Hpos. unfold ant_pos in Hpos. rewrite lookup_empty in Hpos.
    simpl in Hpos. lia.
  - intros a b r _ _ Hpos. unfold ant_pos in Hpos. rewrite lookup_empty in Hpos.
    simpl in Hpos. lia.
Qed.

(** *** The log follows the paths *)

Lemma ant_route_snoc (moves : list (nat * string)) (id id' : nat) (r : string) :
  ant_route (moves ++ [(id, r)]) id'
  = ant_route moves id' ++ (if decide (id = id') then [r] else []).
Proof.
  unfold ant_route. rewrite filter_app, map_app, filter_cons, filter_nil. simpl.
  by destruct (decide (id = id')).
Qed.

Lemma routes_ok_step (s e : string) (assignments : list AntAssignment)
    (prev : list (nat * string)) (st : TurnState) (a : AntAssignment) :
  assignments_ok s assignments ->
  a ∈ assignments ->
  routes_ok assignments (antPositions st) (prev ++ moveStrings st) ->
  routes_ok assignments (antPositions (ant_step e st a))
    (prev ++ moveStrings (ant_step e st a)).
Proof.
  intros [Hids _] Ha Hroutes. destruct (can_move st a) eqn:Hmove.
  - rewrite (ant_step_move e st a Hmove). simpl.
    destruct (can_move_inv st a Hmove) as (cur & nxt & Hcur & Hnxt & _).
    rewrite Hnxt. simpl. intros b Hb.
    rewrite app_assoc, ant_route_snoc, ant_pos_insert, (Hroutes b Hb).
    destruct (decide (AntID a = AntID b)) as [Hid | Hid].
    + rewrite <- (same_id _ _ _ Hids Ha Hb Hid).
      rewrite Nat.add_1_r. erewrite take_S_r; [done |].
      by rewrite lookup_tail, <- Nat.add_1_r.
    + by rewrite app_nil_r.
  - by rewrite (ant_step_stay e st a Hmove).
Qed.

Lemma routes_ok_fold (s e : string) (assignments : list AntAssignment)
    (prev : list (nat * string)) (l : list AntAssignment) (st : TurnState) :
  assignments_ok s assignments ->
  l ⊆ assignments ->
  routes_ok assignments (antPositions st) (prev ++ moveStrings st) ->
  routes_ok assignments (antPositions (foldl (ant_step e) st l))
    (prev ++ moveStrings (foldl (ant_step e) st l)).
Proof.
  intros Hok. revert st. induction l as [|a l IH]; intros st Hsub Hr; simpl; [done |].
  apply IH.
  - intros x Hx. apply Hsub. by apply elem_of_cons; right.
  - eapply routes_ok_step; [done | | done]. apply Hsub. by apply elem_of_cons; left.
Qed.

Lemma location_on_path (s : string) (p : path) (i : nat) :
  head p = Some s -> i < length p ->
  p !! i = Some (default s (last (take i (tail p)))).
Proof.
  intros Hhead Hi. destruct p as [|x p]; [done |]. inversion Hhead; subst x.
  simpl. destruct i as [|i]; [done |]. simpl in *.
  destruct (lookup_lt_is_Some_2 p i) as [r Hr]; [lia |].
  rewrite (take_S_r _ _ _ Hr), last_snoc. done.
Qed.

Lemma location_of_ant (s e : string) (assignments : list AntAssignment)
    (positions : gmap nat nat) (full : gmap string bool)
    (moves : list (nat * string)) (a : AntAssignment) :
  assignments_ok s assignments ->
  sim_inv e assignments positions full ->
  routes_ok assignments positions moves ->
  a ∈ assignments ->
  Path a !! ant_pos positions a = Some (location s moves (AntID a)).
Proof.
  intros [_ Hpaths] Hinv Hroutes Ha. rewrite Forall_forall in Hpaths.
  unfold location. rewrite (Hroutes a Ha).
  apply location_on_path; [by apply Hpaths | by apply (inv_bound _ _ _ _ Hinv)].
Qed.

Lemma capacity_of_inv (s e : string) (assignments : list AntAssignment)
    (positions : gmap nat nat) (full : gmap string bool)
    (moves : list (nat * string)) :
  assignments_ok s assignments ->
  sim_inv e assignments positions full ->
  routes_ok assignments positions moves ->
  capacity s e assignments moves.
Proof.
  intros Hok Hinv Hroutes a b Ha Hb Hab Hloc.
  pose proof (location_of_ant s e _ _ _ _ a Hok Hinv Hroutes Ha) as Hla.
  pose proof (location_of_ant s e _ _ _ _ b Hok Hinv Hroutes Hb) as Hlb.
  rewrite <- Hloc in Hlb.
  destruct Hok as [_ Hpaths]. rewrite Forall_forall in Hpaths.
  destruct (decide (ant_pos positions a = 0)) as [H0 | H0].
  { left. rewrite H0, <- head_lookup in Hla.
    destruct (Hpaths a Ha) as [Hhead _]. congruence. }
  destruct (decide (ant_pos positions b = 0)) as [H0' | H0'].
  { left. rewrite H0', <- head_lookup in Hlb.
    destruct (Hpaths b Hb) as [Hhead _]. congruence. }
  destruct (decide (location s moves (AntID a) = e)) as [| Hne]; [by right |].
  exfalso. apply Hab.
  eapply (inv_one_ant _ _ _ _ Hinv a b); try done; lia.
Qed.

(** *** Counting the finished ants *)

Lemma can_move_ext (st st' : TurnState) (a : AntAssignment) :
  antPositions st' = antPositions st -> roomFull st' = roomFull st ->
  tunnelsUsed st' = tunnelsUsed st ->
  can_move st' a = can_move st a.
Proof. unfold can_move. by intros -> -> ->. Qed.

Lemma finished_cannot_move (st : TurnState) (a : AntAssignment) :
  finished (antPositions st) a = true -> can_move st a = false.
Proof.
  unfold finished, can_move. intros H. apply negb_true_iff in H. by rewrite H.
Qed.

Lemma moves_mono (e : string) (l : list AntAssignment) (st : TurnState) :
  length (moveStrings st) <= length (moveStrings (foldl (ant_step e) st l)).
Proof.
  revert st. induction l as [|a l IH]; intros st; simpl; [done |].
  etrans; [| apply IH]. destruct (can_move st a) eqn:Hmove.
  - rewrite (ant_step_move e st a Hmove). simpl. rewrite length_app. simpl. lia.
  - by rewrite (ant_step_stay e st a Hmove).
Qed.

Lemma finished_count_le (e : string) (l : list AntAssignment) (st : TurnState) :
  finishedAnts (foldl (ant_step e) st l) <= finishedAnts st + length l.
Proof.
  revert st. induction l as [|a l IH]; intros st; simpl; [lia |].
  etrans; [apply IH |]. destruct (can_move st a) eqn:Hmove.
  - rewrite (ant_step_move e st a Hmove). simpl. lia.
  - rewrite (ant_step_stay e st a Hmove). simpl.
    destruct (finished (antPositions st) a); lia.
Qed.

(** A turn in which no ant moves leaves the state as it was. *)
Lemma quiet_turn (e : string) (l : list AntAssignment) (st : TurnState) :
  length (moveStrings (foldl (ant_step e) st l)) = length (moveStrings st) ->
  Forall (fun a => can_move st a = false) l
  /\ antPositions (foldl (ant_step e) st l) = antPositions st
  /\ roomFull (foldl (ant_step e) st l) = roomFull st
  /\ moveStrings (foldl (ant_step e) st l) = moveStrings st.
Proof.
  revert st. induction l as [|a l IH]; intros st Hlen; simpl in *; [done |].
  pose proof (moves_mono e l (ant_step e st a)) as Hmono.
  destruct (can_move st a) eqn:Hmove.
  - rewrite (ant_step_move e st a Hmove) in Hmono, Hlen. simpl in Hmono.
    rewrite length_app in Hmono. simpl in Hmono. lia.
  - rewrite (ant_step_stay e st a Hmove) in *. simpl in *.
    destruct (IH _ Hlen) as (Hall & Hp & Hf & Hm). simpl in *.
    repeat split; try done. constructor; [done |].
    eapply Forall_impl; [exact Hall |]. simpl. intros b Hb.
    by rewrite <- Hb.
Qed.

(** When all ants are finished the turn counts them all and moves none. *)
Lemma all_finished_turn (e : string) (l : list AntAssignment) (st : TurnState) :
  Forall (fun a => finished (antPositions st) a = true) l ->
  finishedAnts (foldl (ant_step e) st l) = finishedAnts st + length l
  /\ antPositions (foldl (ant_step e) st l) = antPositions st
  /\ roomFull (foldl (ant_step e) st l) = roomFull st
  /\ moveStrings (foldl (ant_step e) st l) = moveStrings st.
Proof.
  revert st. induction l as [|a l IH]; intros st Hall; simpl; [by rewrite Nat.add_0_r |].
  inversion Hall as [|? ? Ha Hrest]; subst.
  rewrite (ant_step_stay e st a (finished_cannot_move st a Ha)), Ha.
  destruct (IH {| antPositions := antPositions st; roomFull := roomFull st;
                  tunnelsUsed := tunnelsUsed st; moveStrings := moveStrings st;
                  finishedAnts := S (finishedAnts st) |}) as (Hc & Hp & Hf & Hm);
    [done |]. simpl in *. repeat split; try done. lia.
Qed.

(** When the turn counts all ants as finished, they all were. *)
Lemma counted_all_finished (e : string) (l : list AntAssignment) (st : TurnState) :
  finishedAnts (foldl (ant_step e) st l) = finishedAnts st + length l ->
  Forall (fun a => finished (antPositions st) a = true) l.
Proof.
  revert st. induction l as [|a l IH]; intros st Hc; simpl in *; [constructor |].
  pose proof (finished_count_le e l (ant_step e st a)) as Hle.
  destruct (can_move st a) eqn:Hmove.
  - rewrite (ant_step_move e st a Hmove) in Hle, Hc. simpl in Hle. lia.
  - rewrite (ant_step_stay e st a Hmove) in *. simpl in *.
    destruct (finished (antPositions st) a) eqn:Hfin; [| lia].
    constructor; [done |].
    apply (IH {| antPositions := antPositions st; roomFull := roomFull st;
                 tunnelsUsed := tunnelsUsed st; moveStrings := moveStrings st;
                 finishedAnts := S (finishedAnts st) |}). simpl. lia.
Qed.

(** *** Progress and termination *)

Lemma exists_front (positions : gmap nat nat) (l : list AntAssignment) :
  (exists a, a ∈ l /\ finished positions a = false) ->
  exists a, a ∈ l /\ finished positions a = false
            /\ forall b, b ∈ l -> finished positions b = false ->
                         ant_pos positions b <= ant_pos positions a.
Proof.
  induction l as [|x l IH]; intros (a & Ha & Hfin).
  - by apply elem_of_nil in Ha.
  - destruct (decide (Exists (fun a => finished positions a = false) l)) as [Hex | Hnone].
    + apply Exists_exists in Hex.
      destruct (IH Hex) as (m & Hm & Hmfin & Hmax).
      destruct (finished positions x) eqn:Hx.
      * exists m. split; [by apply elem_of_cons; right |]. split; [done |].
        intros b Hb Hbfin. apply elem_of_cons in Hb as [-> | Hb]; [congruence |].
        by apply Hmax.
      * destruct (decide (ant_pos positions m <= ant_pos positions x)) as [Hle | Hgt].
        -- exists x. split; [by apply elem_of_cons; left |]. split; [done |].
           intros b Hb Hbfin. apply elem_of_cons in Hb as [-> | Hb]; [done |].
           specialize (Hmax b Hb Hbfin). lia.
        -- exists m. split; [by apply elem_of_cons; right |]. split; [done |].
           intros b Hb Hbfin. apply elem_of_cons in Hb as [-> | Hb]; [lia |].
           by apply Hmax.
    + rewrite Exists_exists in Hnone.
      apply elem_of_cons in Ha as [-> | Ha]; [| exfalso; apply Hnone; by exists a].
      exists x. split; [by apply elem_of_cons; left |]. split; [done |].
      intros b Hb Hbfin. apply elem_of_cons in Hb as [-> | Hb]; [done |].
      exfalso. apply Hnone. by exists b.
Qed.

(** As long as some ant is not finished, a turn moves at least one ant. *)
Lemma turn_progress (s e : string) (assignments : list AntAssignment)
    (positions : gmap nat nat) (full : gmap string bool) :
  assignments_routable s e assignments ->
  sim_inv e assignments positions full ->
  (exists a, a ∈ assignments /\ finished positions a = false) ->
  moveStrings (run_turn e assignments positions full) <> [].
Proof.
  intros (Hok & Hends & Hdisj) Hinv Hex Hnil.
  pose proof Hok as [Hids Hpaths].
  rewrite Forall_forall in Hends, Hpaths.
  unfold run_turn in Hnil.
  set (st0 := {| antPositions := positions; roomFull := full; tunnelsUsed := ∅;
                 moveStrings := []; finishedAnts := 0 |}) in *.
  destruct (quiet_turn e assignments st0) as (Hquiet & _).
  { by rewrite Hnil. }
  rewrite Forall_forall in Hquiet.
  destruct (exists_front positions assignments Hex) as (a & Ha & Hfin & Hmax).
  specialize (Hquiet a Ha).
  assert (Hmove : can_move st0 a = true); [| congruence].
  unfold finished in Hfin. apply negb_false_iff in Hfin.
  unfold can_move. simpl. rewrite Hfin. simpl.
  apply Nat.ltb_lt in Hfin.
  set (cp := ant_pos positions a) in *.
  destruct (lookup_lt_is_Some_2 (Path a) cp) as [cur Hcur]; [lia |].
  destruct (lookup_lt_is_Some_2 (Path a) (cp + 1)) as [nxt Hnxt]; [lia |].
  rewrite Hcur, Hnxt. simpl. rewrite lookup_empty. simpl.
  destruct (Hpaths a Ha) as [Hhead Hnd]. destruct (Hends a Ha) as [Hlast Hnames].
  apply andb_true_iff. split.
  - apply negb_true_iff. destruct (is_full full nxt) eqn:Hfull; [| done]. exfalso.
    destruct (inv_full_occupied _ _ _ _ Hinv nxt Hfull) as (b & Hb & Hpb & Hrb & Hne).
    assert (Hns : nxt <> s).
    { eapply (later_room_not_start s (Path a) (cp + 1)); try done. lia. }
    destruct (Hdisj a b Ha Hb) as [Heq | Hd].
    + rewrite <- Heq in Hrb.
      pose proof (NoDup_lookup _ _ _ _ Hnd Hrb Hnxt) as Hpos.
      assert (Hbfin : finished positions b = false).
      { unfold finished. apply negb_false_iff, Nat.ltb_lt.
        rewrite <- Heq. rewrite last_lookup in Hlast.
        destruct (decide (ant_pos positions b = length (Path a) - 1)) as [Hl | Hl].
        - replace (Init.Nat.pred (length (Path a))) with (length (Path a) - 1) in Hlast by lia.
          rewrite <- Hl, Hrb in Hlast. congruence.
        - lia. }
      specialize (Hmax b Hb Hbfin). lia.
    + destruct (Hd nxt); try done.
      * by eapply list_elem_of_lookup_2.
      * by eapply list_elem_of_lookup_2.
  - destruct nxt as [|c nxt']; [| done]. exfalso. apply Hnames.
    by eapply list_elem_of_lookup_2.
Qed.

Lemma sum_list_update {A : Type} (f f' : A -> nat) (l : list A) (a : A) :
  NoDup l -> a ∈ l ->
  (forall b, b ∈ l -> b <> a -> f' b = f b) ->
  f' a + 1 = f a ->
  sum_list (map f' l) + 1 = sum_list (map f l).
Proof.
  induction l as [|x l IH]; intros Hnd Ha Hsame Hdec; [by apply elem_of_nil in Ha |].
  apply NoDup_cons in Hnd as [Hx Hnd]. simpl.
  apply elem_of_cons in Ha as [-> | Ha].
  - assert (map f' l = map f l) as ->.
    { apply map_ext_in. intros b Hb. apply list_elem_of_In in Hb.
      apply Hsame; [by apply elem_of_cons; right | congruence]. }
    lia.
  - rewrite (Hsame x); [| by apply elem_of_cons; left | congruence].
    rewrite <- IH; [lia | done | done | | done].
    intros b Hb. apply Hsame. by apply elem_of_cons; right.
Qed.

Lemma NoDup_of_ids (assignments : list AntAssignment) :
  NoDup (map AntID assignments) -> NoDup assignments.
Proof. apply (NoDup_fmap_1 AntID). Qed.

Lemma remaining_step (s e : string) (assignments : list AntAssignment)
    (st : TurnState) (a : AntAssignment) :
  assignments_ok s assignments ->
  a ∈ assignments ->
  remaining assignments (antPositions (ant_step e st a))
  + length (moveStrings (ant_step e st a))
  = remaining assignments (antPositions st) + length (moveStrings st).
Proof.
  intros [Hids _] Ha. destruct (can_move st a) eqn:Hmove.
  - rewrite (ant_step_move e st a Hmove). simpl. rewrite length_app. simpl.
    destruct (can_move_inv st a Hmove) as (cur & nxt & _ & _ & Hlt & _).
    unfold remaining.
    rewrite <- (sum_list_update
                  (fun b => length (Path b) - 1 - ant_pos (antPositions st) b)
                  (fun b => length (Path b) - 1
                            - ant_pos (<[AntID a := ant_pos (antPositions st) a + 1]>
                                         (antPositions st)) b)
                  assignments a); [lia | by apply NoDup_of_ids | done | |].
    + intros b Hb Hne. rewrite ant_pos_insert.
      destruct (decide (AntID a = AntID b)) as [Hid | Hid]; [| done].
      exfalso. apply Hne. symmetry. by eapply same_id.
    + rewrite ant_pos_insert. destruct (decide (AntID a = AntID a)); [lia | done].
  - by rewrite (ant_step_stay e st a Hmove).
Qed.

Lemma remaining_fold (s e : string) (assignments : list AntAssignment)
    (l : list AntAssignment) (st : TurnState) :
  assignments_ok s assignments ->
  l ⊆ assignments ->
  remaining assignments (antPositions (foldl (ant_step e) st l))
  + length (moveStrings (foldl (ant_step e) st l))
  = remaining assignments (antPositions st) + length (moveStrings st).
Proof.
  intros Hok. revert st. induction l as [|a l IH]; intros st Hsub; simpl; [done |].
  rewrite IH.
  - eapply remaining_step; [done |]. apply Hsub. by apply elem_of_cons; left.
  - intros x Hx. apply Hsub. by apply elem_of_cons; right.
Qed.

(** The loop stops at the turn that starts with all ants finished. *)
Lemma turn_ends_iff (e : string) (assignments : list AntAssignment)
    (positions : gmap nat nat) (full : gmap string bool) :
  finishedAnts (run_turn e assignments positions full) = length assignments
  <-> Forall (fun a => finished positions a = true) assignments.
Proof.
  unfold run_turn.
  set (st0 := {| antPositions := positions; roomFull := full; tunnelsUsed := ∅;
                 moveStrings := []; finishedAnts := 0 |}).
  split.
  - intros H. by apply (counted_all_finished e assignments st0).
  - intros H. by destruct (all_finished_turn e assignments st0 H) as [-> _].
Qed.

Lemma turn_loop_total (s e : string) (assignments : list AntAssignment) (fuel : nat)
    (positions : gmap nat nat) (full : gmap string bool)
    (log : list (list (nat * string))) :
  assignments_routable s e assignments ->
  sim_inv e assignments positions full ->
  remaining assignments positions < fuel ->
  exists final, turn_loop fuel e assignments positions full log = Some final.
Proof.
  intros Hroutable. pose proof Hroutable as (Hok & _).
  revert positions full log.
  induction fuel as [|fuel IH]; intros positions full log Hinv Hfuel; [lia |].
  simpl.
  destruct (Nat.eqb (finishedAnts (run_turn e assignments positions full))
                    (length assignments)) eqn:Hend; [by eexists |].
  apply Nat.eqb_neq in Hend. rewrite turn_ends_iff in Hend.
  apply not_Forall_Exists in Hend; [| intros a; apply _].
  apply Exists_exists in Hend as (a & Ha & Hfin).
  apply not_true_is_false in Hfin.
  pose proof (turn_progress s e assignments positions full Hroutable Hinv
                (ex_intro _ a (conj Ha Hfin))) as Hprog.
  pose proof (remaining_fold s e assignments assignments
                {| antPositions := positions; roomFull := full; tunnelsUsed := ∅;
                   moveStrings := []; finishedAnts := 0 |} Hok (reflexivity _)) as Hrem.
  fold (run_turn e assignments positions full) in Hrem. simpl in Hrem.
  apply IH.
  - unfold run_turn. by eapply sim_inv_fold.
  - destruct (moveStrings (run_turn e assignments positions full)); [done |].
    simpl in Hrem. lia.
Qed.

(** *** The loop as a whole *)

Lemma turn_loop_sound (s e : string) (assignments : list AntAssignment) (fuel : nat)
    (positions : gmap nat nat) (full : gmap string bool)
    (log final : list (list (nat * string))) :
  assignments_ok s assignments ->
  sim_inv e assignments positions full ->
  routes_ok assignments positions (concat log) ->
  log_ok s e assignments log ->
  Forall (fun t => t <> []) log ->
  turn_loop fuel e assignments positions full log = Some final ->
  log_ok s e assignments final
  /\ Forall (fun t => t <> []) final
  /\ forall a, a ∈ assignments -> ant_route (concat final) (AntID a) = tail (Path a).
Proof.
  intros Hok. revert positions full log.
  induction fuel as [|fuel IH]; intros positions full log Hinv Hroutes Hlog Hne Hrun;
    [done |].
  simpl in Hrun.
  set (st := run_turn e assignments positions full) in *.
  set (log' := if Nat.ltb 0 (length (moveStrings st))
               then log ++ [moveStrings st] else log) in *.
  assert (Hinv' : sim_inv e assignments (antPositions st) (roomFull st)).
  { unfold st, run_turn. by eapply sim_inv_fold. }
  assert (Hconcat : concat log' = concat log ++ moveStrings st).
  { unfold log'. destruct (moveStrings st) as [|m ms]; simpl.
    - by rewrite app_nil_r.
    - rewrite concat_app. simpl. by rewrite app_nil_r. }
  assert (Hroutes' : routes_ok assignments (antPositions st) (concat log')).
  { rewrite Hconcat. unfold st, run_turn.
    eapply routes_ok_fold; [done | done |]. simpl. by rewrite app_nil_r. }
  assert (Hlog' : log_ok s e assignments log').
  { intros k Hk. destruct (decide (k <= length log)) as [Hle | Hgt].
    - unfold log'. destruct (Nat.ltb 0 (length (moveStrings st))); [| by apply Hlog].
      rewrite take_app_le by done. by apply Hlog.
    - rewrite firstn_all2.
      + by eapply capacity_of_inv.
      + unfold log' in *. destruct (Nat.ltb 0 (length (moveStrings st))); [| lia].
        rewrite length_app in *. simpl in *. lia. }
  assert (Hne' : Forall (fun t => t <> []) log').
  { unfold log'. destruct (Nat.ltb 0 (length (moveStrings st))) eqn:Hm; [| done].
    apply Forall_app. split; [done |]. constructor; [| constructor].
    apply Nat.ltb_lt in Hm. destruct (moveStrings st); [simpl in Hm; lia | done]. }
  destruct (Nat.eqb (finishedAnts st) (length assignments)) eqn:Hend.
  - inversion Hrun; subst final. split; [done |]. split; [done |].
    intros a Ha. rewrite (Hroutes' a Ha).
    apply Nat.eqb_eq in Hend. unfold st in Hend. rewrite turn_ends_iff in Hend.
    destruct (all_finished_turn e assignments
                {| antPositions := positions; roomFull := full; tunnelsUsed := ∅;
                   moveStrings := []; finishedAnts := 0 |} Hend) as (_ & Hp & _).
    fold (run_turn e assignments positions full) in Hp. fold st in Hp. simpl in Hp.
    rewrite Hp. rewrite Forall_forall in Hend. specialize (Hend a Ha).
    unfold finished in Hend. apply negb_true_iff, Nat.ltb_ge in Hend.
    apply take_ge. rewrite length_tl. lia.
  - by eapply IH.
Qed.

(** *** The assignments of the pipeline *)

Lemma sorted_assignments_spec (rt : Runtime) (assignment : gmap nat path) :
  RuntimeOk rt ->
  NoDup (map AntID (sorted_assignments rt assignment))
  /\ forall a, a ∈ sorted_assignments rt assignment
               <-> assignment !! AntID a = Some (Path a).
Proof.
  intros Hrt. unfold sorted_assignments.
  set (mk := fun e : nat * path => {| AntID := e.1; Path := e.2 |}).
  assert (Hperm : sortSlice rt AntAssignment
                    (fun a b => Nat.ltb (AntID a) (AntID b))
                    (map mk (rangeAssignment rt assignment))
                  ≡ₚ map mk (map_to_list assignment)).
  { rewrite (sort_perm rt Hrt). apply Permutation_map, (range_assignment_perm rt Hrt). }
  split.
  - rewrite Hperm, map_map. simpl. apply NoDup_fst_map_to_list.
  - intros a. rewrite Hperm. rewrite list_elem_of_fmap. split.
    + intros ([k p] & -> & Hin). simpl. by apply elem_of_map_to_list.
    + intros H. exists (AntID a, Path a). split; [by destruct a |].
      by apply elem_of_map_to_list.
Qed.

Lemma distribute_loop_values (paths : list path) (n k : nat)
    (st st' : list nat * gmap nat path) :
  (forall j p, st.2 !! j = Some p -> p ∈ paths) ->
  distribute_loop paths n k st = Some st' ->
  forall j p, st'.2 !! j = Some p -> p ∈ paths.
Proof.
  revert k st. induction n as [|n IH]; intros k st Hst Hrun; simpl in Hrun.
  - by inversion Hrun; subst.
  - destruct (distribute_step paths k st) as [st1|] eqn:Hstep; [| done].
    eapply IH; [| exact Hrun]. unfold distribute_step in Hstep.
    destruct st as [loads a]. destruct (loads !! 0); [| done].
    destruct (paths !! _) as [p|] eqn:Hp; [| done].
    destruct (loads !! _); [| done]. inversion Hstep; subst st1. simpl.
    intros j q Hq. rewrite lookup_insert in Hq.
    destruct (decide (k = j)); [| by eapply Hst].
    inversion Hq; subst q. by eapply list_elem_of_lookup_2.
Qed.

Lemma distributeAnts_values (paths : list path) (ants : nat) (assignment : gmap nat path) :
  distributeAnts paths ants = Some assignment ->
  forall j p, assignment !! j = Some p -> p ∈ paths.
Proof.
  unfold distributeAnts.
  destruct (distribute_loop paths ants 1 (initial_loads paths, ∅)) as [[loads a]|] eqn:Hrun;
    [| done].
  intros H. inversion H; subst a.
  apply (distribute_loop_values paths ants 1 (initial_loads paths, ∅)
           (loads, assignment)); [| exact Hrun].
  simpl. intros j p Hp. by rewrite lookup_empty in Hp.
Qed.

Lemma simple_path_named (g : Graph) (p : path) :
  graph_named g -> simple_path g (StartRoom g) p -> "" ∉ p.
Proof.
  intros [Hs Hn] (Hhead & _ & _ & Htail) Hin.
  destruct p as [|x p]; [by apply elem_of_nil in Hin |].
  inversion Hhead; subst x. simpl in Htail. rewrite Forall_forall in Htail.
  apply elem_of_cons in Hin as [Hin | Hin]; [done |].
  by apply (Hn "" (Htail _ Hin)).
Qed.

Lemma pipeline_assignments_routable (rt : Runtime) (g : Graph) (fuel : nat)
    (paths group : list path) (ants : nat) (assignment : gmap nat path) :
  RuntimeOk rt ->
  graph_named g ->
  findShortestPaths rt fuel g (StartRoom g) = Some paths ->
  group ∈ calculateSolutionGroups paths (StartRoom g) (EndRoom g) ->
  distributeAnts group ants = Some assignment ->
  assignments_routable (StartRoom g) (EndRoom g) (sorted_assignments rt assignment).
Proof.
  intros Hrt Hnamed Hpaths Hgroup Hdist.
  destruct (sorted_assignments_spec rt assignment Hrt) as [Hnd Hmem].
  pose proof (findShortestPaths_simple rt fuel g _ paths Hrt Hpaths) as Hsimple.
  rewrite Forall_forall in Hsimple.
  assert (Hin : forall a, a ∈ sorted_assignments rt assignment -> Path a ∈ group).
  { intros a Ha. apply Hmem in Ha. by eapply distributeAnts_values. }
  assert (Hsp : forall a, a ∈ sorted_assignments rt assignment ->
                          simple_path g (StartRoom g) (Path a)).
  { intros a Ha. apply Hsimple. eapply calculateSolutionGroups_subset; [done |].
    by apply Hin. }
  split; [split; [done |] |]; [| split].
  - apply Forall_forall. intros a Ha. destruct (Hsp a Ha) as (? & ? & ? & ?). done.
  - apply Forall_forall. intros a Ha. destruct (Hsp a Ha) as (? & ? & ? & ?).
    split; [done |]. eapply simple_path_named; [done |]. by apply Hsp.
  - intros a b Ha Hb.
    pose proof (Hin a Ha) as Hia. pose proof (Hin b Hb) as Hib.
    apply list_elem_of_lookup in Hia as [i Hi]. apply list_elem_of_lookup in Hib as [j Hj].
    destruct (decide (i = j)) as [-> | Hne]; [left; congruence |].
    right. by eapply (calculateSolutionGroups_pairwise_disjoint _ _ _ _ Hgroup i j).
Qed.

Lemma turn_loop_fuel_mono (fuel fuel' : nat) (e : string)
    (assignments : list AntAssignment) (positions : gmap nat nat)
    (full : gmap string bool) (log final : list (list (nat * string))) :
  fuel <= fuel' ->
  turn_loop fuel e assignments positions full log = Some final ->
  turn_loop fuel' e assignments positions full log = Some final.
Proof.
  revert fuel' positions full log.
  induction fuel as [|fuel IH]; intros fuel' positions full log Hle Hrun; [done |].
  destruct fuel' as [|fuel']; [lia |]. simpl in *.
  destruct (Nat.eqb _ _); [done |]. apply IH; [lia | done].
Qed.

Lemma sum_list_perm (l k : list nat) : l ≡ₚ k -> sum_list l = sum_list k.
Proof. induction 1; simpl; lia. Qed.

Lemma remaining_initial (rt : Runtime) (assignment : gmap nat path) :
  RuntimeOk rt ->
  S (remaining (sorted_assignments rt assignment) ∅) = sim_fuel assignment.
Proof.
  intros Hrt. unfold remaining, sim_fuel, sorted_assignments. f_equal.
  erewrite sum_list_perm.
  2:{ apply Permutation_map. rewrite (sort_perm rt Hrt).
      apply Permutation_map, (range_assignment_perm rt Hrt). }
  rewrite map_map. f_equal. apply map_ext. intros [k p]. unfold ant_pos. simpl.
  rewrite ?lookup_empty. simpl. lia.
Qed.

Lemma ant_moves_log_total (rt : Runtime) (s e : string) (assignment : gmap nat path) :
  RuntimeOk rt ->
  assignments_routable s e (sorted_assignments rt assignment) ->
  exists log, ant_moves_log rt (sim_fuel assignment) assignment e = Some log.
Proof.
  intros Hrt Hroutable. unfold ant_moves_log.
  eapply turn_loop_total; [done | | ].
  - apply (sim_inv_initial s). by destruct Hroutable.
  - rewrite <- (remaining_initial rt assignment Hrt). lia.
Qed.

Lemma ant_moves_log_sound (rt : Runtime) (s e : string) (assignment : gmap nat path)
    (fuel : nat) (log : list (list (nat * string))) :
  RuntimeOk rt ->
  assignments_ok s (sorted_assignments rt assignment) ->
  ant_moves_log rt fuel assignment e = Some log ->
  log_ok s e (sorted_assignments rt assignment) log
  /\ Forall (fun t => t <> []) log
  /\ forall id p, assignment !! id = Some p -> ant_route (concat log) id = tail p.
Proof.
  intros Hrt Hok Hrun. unfold ant_moves_log in Hrun.
  destruct (turn_loop_sound s e _ fuel ∅ ∅ [] log Hok) as (Hlog & Hne & Hroutes);
    try done.
  - by apply (sim_inv_initial s).
  - intros k Hk. simpl in Hk. replace k with 0 by lia. simpl.
    intros a b Ha Hb Hab _. by left.
  - split; [done |]. split; [done |]. intros id p Hp.
    destruct (sorted_assignments_spec rt assignment Hrt) as [_ Hmem].
    apply (Hroutes {| AntID := id; Path := p |}). by apply Hmem.
Qed.

(** The properties of the movement log, for any graph whose rooms have
    non-empty names. *)
Lemma log_correct_on_named_graph (rt : Runtime) (g : Graph) (fuel : nat)
    (paths group : list path) (ants : nat) (assignment : gmap nat path)
    (Hrt : RuntimeOk rt) (Hnamed : graph_named g)
    (Hpaths : findShortestPaths rt fuel g (StartRoom g) = Some paths)
    (Hgroup : group ∈ calculateSolutionGroups paths (StartRoom g) (EndRoom g))
    (Hdist : distributeAnts group ants = Some assignment) :
  (exists log, ant_moves_log rt (sim_fuel assignment) assignment (EndRoom g) = Some log)
  /\ forall fuel' log,
       ant_moves_log rt fuel' assignment (EndRoom g) = Some log ->
       (forall k id1 id2,
           k <= length log -> id1 <> id2 ->
           is_Some (assignment !! id1) -> is_Some (assignment !! id2) ->
           location (StartRoom g) (concat (take k log)) id1
           = location (StartRoom g) (concat (take k log)) id2 ->
           location (StartRoom g) (concat (take k log)) id1 = StartRoom g
           \/ location (StartRoom g) (concat (take k log)) id1 = EndRoom g)
       /\ (forall id p, assignment !! id = Some p -> ant_route (concat log) id = tail p)
       /\ (forall id, is_Some (assignment !! id) ->
                      location (StartRoom g) (concat log) id = EndRoom g).
Proof.
  pose proof (pipeline_assignments_routable rt g fuel paths group ants assignment
                Hrt Hnamed Hpaths Hgroup Hdist) as Hroutable.
  split; [by eapply ant_moves_log_total |].
  intros fuel' log Hrun.
  destruct Hroutable as (Hok & Hends & _).
  destruct (ant_moves_log_sound rt _ _ assignment fuel' log Hrt Hok Hrun)
    as (Hlog & _ & Hroutes).
  destruct (sorted_assignments_spec rt assignment Hrt) as [_ Hmem].
  split; [| split].
  - intros k id1 id2 Hk Hne [p1 Hp1] [p2 Hp2] Hloc.
    apply (Hlog k Hk {| AntID := id1; Path := p1 |} {| AntID := id2; Path := p2 |}).
    + by apply Hmem.
    + by apply Hmem.
    + intros H. inversion H. done.
    + done.
  - done.
  - intros id [p Hp]. unfold location. rewrite (Hroutes id p Hp).
    rewrite Forall_forall in Hends.
    destruct (Hends {| AntID := id; Path := p |}) as [Hlast _]; [by apply Hmem |].
    destruct Hok as [_ Hheads]. rewrite Forall_forall in Hheads.
    destruct (Hheads {| AntID := id; Path := p |}) as [Hhead _]; [by apply Hmem |].
    simpl in *. destruct p as [|x p]; [done |]. inversion Hhead; subst x. simpl.
    destruct p as [|y p]; simpl in *; [congruence |]. by rewrite Hlast.
Qed.

(** *** Leaving a room frees it at once *)

(** C6 (amended).  When an ant moves, the room it leaves is marked free at
    once, whatever its position was; an ant processed later in the same turn
    whose next room it is, and whose tunnel to it is unused, can move in. *)
Theorem room_freed_within_turn (e : string) (st : TurnState) (a b : AntAssignment)
    (Hmove : can_move st a = true) :
  let st' := ant_step e st a in
  let cur := default "" (Path a !! ant_pos (antPositions st) a) in
  is_full (roomFull st') cur = false
  /\ (ant_pos (antPositions st') b < length (Path b) - 1 ->
      default "" (Path b !! (ant_pos (antPositions st') b + 1)) = cur ->
      default "" (tunnelsUsed st' !! default "" (Path b !! ant_pos (antPositions st') b))
      <> cur ->
      can_move st' b = true).
Proof.
  intros st' cur.
  assert (Hfree : is_full (roomFull st') cur = false).
  { unfold st', cur. rewrite (ant_step_move e st a Hmove). simpl.
    rewrite is_full_insert. by destruct (decide _). }
  split; [done |]. intros Hlt Hnext Htunnel.
  unfold can_move. rewrite Hnext, Hfree. simpl.
  apply Nat.ltb_lt in Hlt. rewrite Hlt. simpl.
  apply negb_true_iff, String.eqb_neq. done.
Qed.

(** *** The end of the loop *)

(** A turn that moves no ant while some ant is not finished repeats for
    ever: the loop has no exit for it. *)
Lemma stuck_turn_loops (e : string) (assignments : list AntAssignment)
    (positions : gmap nat nat) (full : gmap string bool) :
  moveStrings (run_turn e assignments positions full) = [] ->
  finishedAnts (run_turn e assignments positions full) <> length assignments ->
  forall fuel log, turn_loop fuel e assignments positions full log = None.
Proof.
  intros Hquiet Hfin fuel. induction fuel as [|fuel IH]; intros log; [done |].
  simpl. apply Nat.eqb_neq in Hfin. rewrite Hfin, Hquiet. simpl.
  unfold run_turn in Hquiet.
  destruct (quiet_turn e assignments
              {| antPositions := positions; roomFull := full; tunnelsUsed := ∅;
                 moveStrings := []; finishedAnts := 0 |}) as (_ & Hp & Hf & _).
  { by rewrite Hquiet. }
  unfold run_turn. rewrite Hp, Hf. simpl. apply IH.
Qed.

Lemma turn_loop_nonempty_turns (fuel : nat) (e : string)
    (assignments : list AntAssignment) (positions : gmap nat nat)
    (full : gmap string bool) (log final : list (list (nat * string))) :
  Forall (fun t => t <> []) log ->
  turn_loop fuel e assignments positions full log = Some final ->
  Forall (fun t => t <> []) final.
Proof.
  revert positions full log.
  induction fuel as [|fuel IH]; intros positions full log Hne Hrun; [done |].
  simpl in Hrun.
  set (st := run_turn e assignments positions full) in *.
  assert (Hne' : Forall (fun t => t <> [])
                   (if Nat.ltb 0 (length (moveStrings st))
                    then log ++ [moveStrings st] else log)).
  { destruct (Nat.ltb 0 (length (moveStrings st))) eqn:Hm; [| done].
    apply Forall_app. split; [done |]. constructor; [| constructor].
    apply Nat.ltb_lt in Hm. destruct (moveStrings st); [simpl in Hm; lia | done]. }
  destruct (Nat.eqb (finishedAnts st) (length assignments)).
  - by inversion Hrun; subst.
  - by eapply IH.
Qed.

(** C5 (amended).  The loop stops exactly at a turn that starts with every
    ant at the end of its path; in that turn no ant moves and nothing is
    added to the output, which never holds an empty turn.  For ants on
    pairwise internally disjoint simple paths from [s] to [e] with non-empty
    room names (what the pipeline builds) the loop does stop, and a turn
    moves no ant only when all ants are finished.  There is no abort: for
    any assignment, a turn that moves no ant while some ant is not finished
    makes the loop run for ever. *)
Theorem turn_loop_ends (s e : string) (assignments : list AntAssignment) :
  (forall positions full,
      (finishedAnts (run_turn e assignments positions full) = length assignments
       <-> Forall (fun a => finished positions a = true) assignments)
      /\ (Forall (fun a => finished positions a = true) assignments ->
          moveStrings (run_turn e assignments positions full) = []
          /\ forall fuel log,
               turn_loop (S fuel) e assignments positions full log = Some log)
      /\ (moveStrings (run_turn e assignments positions full) = [] ->
          ~ Forall (fun a => finished positions a = true) assignments ->
          forall fuel log, turn_loop fuel e assignments positions full log = None))
  /\ (forall fuel final,
         turn_loop fuel e assignments ∅ ∅ [] = Some final ->
         Forall (fun t => t <> []) final)
  /\ (assignments_routable s e assignments ->
      (exists final,
          turn_loop (S (remaining assignments ∅)) e assignments ∅ ∅ [] = Some final)
      /\ forall positions full,
           sim_inv e assignments positions full ->
           (moveStrings (run_turn e assignments positions full) = []
            <-> Forall (fun a => finished positions a = true) assignments)).
Proof.
  split; [| split].
  - intros positions full. split; [apply turn_ends_iff |]. split.
    + intros Hall.
      destruct (all_finished_turn e assignments
                  {| antPositions := positions; roomFull := full; tunnelsUsed := ∅;
                     moveStrings := []; finishedAnts := 0 |} Hall)
        as (Hc & _ & _ & Hm).
      fold (run_turn e assignments positions full) in Hc, Hm. simpl in Hc, Hm.
      split; [done |]. intros fuel log. simpl. rewrite Hc, Hm. simpl.
      by rewrite Nat.eqb_refl.
    + intros Hquiet Hnot. apply stuck_turn_loops; [done |].
      by rewrite turn_ends_iff.
  - intros fuel final Hrun. by eapply turn_loop_nonempty_turns.
  - intros Hroutable. split.
    + eapply turn_loop_total; [done | | lia].
      apply (sim_inv_initial s). by destruct Hroutable.
    + intros positions full Hinv. split.
      * intros Hquiet.
        destruct (decide (Forall (fun a => finished positions a = true) assignments))
          as [| Hnot]; [done |]. exfalso.
        apply not_Forall_Exists in Hnot; [| intros a; apply _].
        apply Exists_exists in Hnot as (a & Ha & Hfin).
        apply not_true_is_false in Hfin.
        by apply (turn_progress s e assignments positions full Hroutable Hinv
                    (ex_intro _ a (conj Ha Hfin))).
      * intros Hall. unfold run_turn.
        by destruct (all_finished_turn e assignments
                       {| antPositions := positions; roomFull := full;
                          tunnelsUsed := ∅; moveStrings := [];
                          finishedAnts := 0 |} Hall) as (_ & _ & _ & ->).
Qed.

(** ** The parser *)

(** *** How a line is read *)

Lemma read_line_outcome (rt : Runtime) (st : ParseState) (l : string) (out : Streams) :
  (exists st', read_line rt st l out = Running st' out)
  \/ (exists code out', read_line rt st l out = Exited code out').
Proof.
  unfold read_line.
  repeat (first [ progress case_match
                | by (left; eexists)
                | by (right; do 2 eexists) ]).
Qed.

Lemma read_lines_outcome (rt : Runtime) (lines : list string) (st : ParseState)
    (out : Streams) :
  (exists st', read_lines rt st lines out = Running st' out)
  \/ (exists code out', read_lines rt st lines out = Exited code out').
Proof.
  revert st. induction lines as [|l lines IH]; intros st; simpl.
  - left. by eexists.
  - unfold proc_bind.
    destruct (read_line_outcome rt st l out) as [(st' & ->) | (code & out' & ->)].
    + apply IH.
    + right. by do 2 eexists.
Qed.

Lemma read_lines_snoc (rt : Runtime) (lines : list string) (l : string)
    (st : ParseState) (out : Streams) :
  read_lines rt st (lines ++ [l]) out
  = match read_lines rt st lines out with
    | Running st' out' => read_line rt st' l out'
    | other => other
    end.
Proof.
  revert st out. induction lines as [|x lines IH]; intros st out; simpl.
  - unfold proc_bind. by destruct (read_line rt st l out).
  - unfold proc_bind. destruct (read_line rt st x out); by try done.
Qed.

Lemma read_lines_app_running (rt : Runtime) (pre post : list string)
    (st0 st : ParseState) (out out1 : Streams) :
  read_lines rt st0 (pre ++ post) out = Running st out1 ->
  exists st1 out', read_lines rt st0 pre out = Running st1 out'.
Proof.
  revert st0 out. induction pre as [|x pre IH]; intros st0 out Hrun; simpl in *.
  - by do 2 eexists.
  - unfold proc_bind in *. destruct (read_line rt st0 x out); try done.
    by eapply IH.
Qed.

(** If the scan gets through all lines, it got through every line. *)
Lemma read_lines_prefix (rt : Runtime) (lines : list string) (st0 st : ParseState)
    (out : Streams) (k : nat) (l : string) :
  read_lines rt st0 lines out = Running st out ->
  lines !! k = Some l ->
  exists stk stk',
    read_lines rt st0 (take k lines) out = Running stk out
    /\ read_line rt stk l out = Running stk' out
    /\ read_lines rt st0 (take (S k) lines) out = Running stk' out.
Proof.
  intros Hrun Hk.
  assert (Hsplit : lines = take (S k) lines ++ drop (S k) lines)
    by (by rewrite take_drop).
  rewrite (take_S_r _ _ _ Hk) in Hsplit.
  assert (Hpre : exists stk', read_lines rt st0 (take k lines ++ [l]) out = Running stk' out).
  { rewrite Hsplit in Hrun.
    destruct (read_lines_app_running _ _ _ _ _ _ _ Hrun) as (st1 & out' & Hpre).
    destruct (read_lines_outcome rt (take k lines ++ [l]) st0 out)
      as [? | (code & out'' & Hex)]; [done | congruence]. }
  destruct Hpre as (stk' & Hpre). rewrite (take_S_r _ _ _ Hk), Hpre.
  rewrite read_lines_snoc in Hpre.
  destruct (read_lines_outcome rt (take k lines) st0 out)
    as [(stk & Hk') | (code & out' & Hk')]; rewrite Hk' in Hpre; [| done].
  by exists stk, stk'.
Qed.

(** The four ways in which a line lets the scan go on. *)
Lemma read_line_running (rt : Runtime) (st st' : ParseState) (l : string)
    (out out' : Streams) :
  read_line rt st l out = Running st' out' ->
  out' = out
  /\ ((HasPrefix l "#" = true
       /\ graph st' = graph st /\ lineNumber st' = lineNumber st
       /\ start st' = (String.eqb l "##start" || start st)
       /\ end_ st' = (negb (String.eqb l "##start") && String.eqb l "##end" || end_ st))
      \/ (HasPrefix l "#" = false /\ lineNumber st = 0
          /\ exists n, Atoi l = Some n /\ (0 < n)%Z
                       /\ graph st' = set_AntCount (graph st) n
                       /\ lineNumber st' = 1
                       /\ start st' = start st /\ end_ st' = end_ st)
      \/ (HasPrefix l "#" = false /\ lineNumber st <> 0 /\ Contains l "-" = true
          /\ exists a b, Split l "-" = [a; b] /\ a <> b
                         /\ connection_exists rt (graph st) a b = false
                         /\ graph st' = connect (graph st) a b
                         /\ lineNumber st' = lineNumber st
                         /\ start st' = start st /\ end_ st' = end_ st)
      \/ (HasPrefix l "#" = false /\ lineNumber st <> 0 /\ Contains l "-" = false
          /\ exists name xStr yStr x y g',
               Fields l = [name; xStr; yStr]
               /\ Atoi xStr = Some x /\ Atoi yStr = Some y
               /\ AddRoom (graph st) name x y (start st) (end_ st) = inr g'
               /\ graph st' = g' /\ lineNumber st' = lineNumber st
               /\ start st' = false /\ end_ st' = false)).
Proof.
  unfold read_line. intros Hrun.
  destruct (HasPrefix l "#") eqn:Hc.
  { destruct (String.eqb l "##start") eqn:Hs; [| destruct (String.eqb l "##end") eqn:He];
      inversion Hrun; subst; (split; [done |]); left; simpl;
        repeat split; try done; by destruct (start st), (end_ st). }
  destruct (Nat.eqb (lineNumber st) 0) eqn:Hn.
  { apply Nat.eqb_eq in Hn. destruct (Atoi l) as [n|] eqn:Ha; [| done].
    destruct (Z.leb n 0) eqn:Hle; [done |]. apply Z.leb_gt in Hle.
    inversion Hrun; subst. split; [done |]. right; left. simpl.
    repeat split; try done. exists n. rewrite Hn. done. }
  apply Nat.eqb_neq in Hn.
  destruct (Contains l "-") eqn:Hd.
  { destruct (Split l "-") as [|a [|b [|c rest]]] eqn:Hsp; try done.
    destruct (String.eqb a b) eqn:Hab; [done |]. apply String.eqb_neq in Hab.
    destruct (connection_exists rt (graph st) a b) eqn:Hex; [done |].
    inversion Hrun; subst. split; [done |]. right; right; left. simpl.
    repeat split; try done. by exists a, b. }
  destruct (Fields l) as [|name [|xStr [|yStr [|z rest]]]] eqn:Hf; try done.
  destruct (Atoi xStr) as [x|] eqn:Hx; [| done].
  destruct (Atoi yStr) as [y|] eqn:Hy; [| done].
  destruct (AddRoom (graph st) name x y (start st) (end_ st)) as [msg | g'] eqn:Hadd;
    [done |].
  inversion Hrun; subst. split; [done |]. right; right; right. simpl.
  repeat split; try done. by exists name, xStr, yStr, x, y, g'.
Qed.

Lemma fields_go_nonempty (s : string) (skip : nat) (cur : string) :
  Forall (fun f => f <> "") (fields_go skip cur s).
Proof.
  revert skip cur. induction s as [|a s IH]; intros skip cur; simpl.
  - destruct (String.eqb cur "") eqn:He; [constructor |].
    apply String.eqb_neq in He. by repeat constructor.
  - destruct skip as [|k]; [| apply IH].
    destruct (space_width (String a s)); [apply IH |].
    apply Forall_app. split; [| apply IH].
    destruct (String.eqb cur "") eqn:He; [constructor |].
    apply String.eqb_neq in He. by repeat constructor.
Qed.

Lemma AddRoom_inr (g g' : Graph) (name : string) (x y : Z) (isStart isEnd : bool) :
  AddRoom g name x y isStart isEnd = inr g' ->
  Rooms g !! name = None
  /\ (forall k, is_Some (Rooms g' !! k) <-> k = name \/ is_Some (Rooms g !! k))
  /\ Connections g' = Connections g
  /\ StartRoom g' = (if isStart then name else StartRoom g)
  /\ EndRoom g' = (if isEnd then name else EndRoom g).
Proof.
  unfold AddRoom. destruct (Rooms g !! name) eqn:Hr; [done |].
  intros H. inversion H; subst; simpl. repeat split; try done.
  - rewrite lookup_insert. destruct (decide (name = k)) as [-> | Hne]; [by left |].
    by right.
  - intros [-> | Hk]; rewrite lookup_insert; destruct (decide _); done.
Qed.

Lemma connect_spec (g : Graph) (a b : string) :
  Rooms (connect g a b) = Rooms g
  /\ StartRoom (connect g a b) = StartRoom g
  /\ EndRoom (connect g a b) = EndRoom g
  /\ (forall k r, r ∈ default [] (Connections g !! k) ->
                  r ∈ default [] (Connections (connect g a b) !! k))
  /\ (is_Some (Rooms g !! a) -> is_Some (Rooms g !! b) ->
      b ∈ default [] (Connections (connect g a b) !! a)
      /\ a ∈ default [] (Connections (connect g a b) !! b))
  /\ (forall r, is_neighbour (connect g a b) r ->
                is_neighbour g r \/ is_Some (Rooms g !! r)).
Proof.
  unfold connect, AddConnection.
  destruct (Rooms g !! a) as [ra|] eqn:Ha.
  2:{ do 4 (split; [done |]). split; [by intros [? ?] | intros r Hr; by left]. }
  destruct (Rooms g !! b) as [rb|] eqn:Hb.
  2:{ do 4 (split; [done |]). split; [by intros _ [? ?] | intros r Hr; by left]. }
  simpl.
  set (c1 := <[a := default [] (Connections g !! a) ++ [b]]> (Connections g)).
  set (c2 := <[b := default [] (c1 !! b) ++ [a]]> c1).
  assert (Hgrow1 : forall k r, r ∈ default [] (Connections g !! k) ->
                               r ∈ default [] (c1 !! k)).
  { intros k r Hr. unfold c1. rewrite lookup_insert.
    destruct (decide (a = k)) as [<- | _]; [| done]. simpl.
    apply elem_of_app. by left. }
  assert (Hgrow2 : forall k r, r ∈ default [] (c1 !! k) -> r ∈ default [] (c2 !! k)).
  { intros k r Hr. unfold c2. rewrite lookup_insert.
    destruct (decide (b = k)) as [<- | _]; [| done]. simpl.
    apply elem_of_app. by left. }
  do 3 (split; [done |]). split; [| split].
  - intros k r Hr. by apply Hgrow2, Hgrow1.
  - intros _ _. split.
    + apply Hgrow2. unfold c1. rewrite lookup_insert_eq. simpl.
      apply elem_of_app. right. by apply list_elem_of_singleton.
    + unfold c2. rewrite lookup_insert_eq. simpl.
      apply elem_of_app. right. by apply list_elem_of_singleton.
  - intros r (k & ns & Hk & Hr). simpl in Hk. unfold c2 in Hk.
    rewrite lookup_insert in Hk.
    destruct (decide (b = k)) as [<- | Hbk].
    + inversion Hk; subst ns. apply elem_of_app in Hr as [Hr | Hr].
      * unfold c1 in Hr. rewrite lookup_insert in Hr.
        destruct (decide (a = b)) as [<- | Hab]; simpl in Hr.
        -- apply elem_of_app in Hr as [Hr | Hr].
           ++ left. destruct (Connections g !! a) as [ns|] eqn:Hc; simpl in Hr.
              ** by exists a, ns.
              ** by apply elem_of_nil in Hr.
           ++ apply list_elem_of_singleton in Hr as ->. right. by eexists.
        -- left. destruct (Connections g !! b) as [ns|] eqn:Hc; simpl in Hr.
           ++ by exists b, ns.
           ++ by apply elem_of_nil in Hr.
      * apply list_elem_of_singleton in Hr as ->. right. by eexists.
    + unfold c1 in Hk. rewrite lookup_insert in Hk.
      destruct (decide (a = k)) as [<- | Hak].
      * inversion Hk; subst ns. apply elem_of_app in Hr as [Hr | Hr].
        -- left. destruct (Connections g !! a) as [ns|] eqn:Hc; simpl in Hr.
           ++ by exists a, ns.
           ++ by apply elem_of_nil in Hr.
        -- apply list_elem_of_singleton in Hr as ->. right. by eexists.
      * left. by exists k, ns.
Qed.

Lemma marked_mono (mark : string) (lines : list string) (k k' : nat) :
  k <= k' -> marked mark lines k -> marked mark lines k'.
Proof.
  intros Hle (i & j & name & Hij & Hj & Hi & Hroom).
  exists i, j, name. repeat split; try done. lia.
Qed.

Lemma parse_inv_initial (lines : list string) : parse_inv lines 0 initial_parse_state.
Proof.
  constructor; simpl; try done; try (intros; lia).
  - intros name [r Hr]. by rewrite lookup_empty in Hr.
  - intros r (k & ns & Hk & _). simpl in Hk. by rewrite lookup_empty in Hk.
Qed.

Lemma parse_inv_step (rt : Runtime) (lines : list string) (k : nat)
    (st st' : ParseState) (l : string) (out out' : Streams) :
  parse_inv lines k st ->
  lines !! k = Some l ->
  read_line rt st l out = Running st' out' ->
  parse_inv lines (S k) st'.
Proof.
  intros Hinv Hk Hrun.
  destruct (read_line_running rt st st' l out out' Hrun) as [_ Hcases].
  assert (Hdata : forall j l', j < S k -> lines !! j = Some l' -> j = k -> l' = l).
  { intros j l' _ Hj ->. congruence. }
  destruct Hcases as [Hc | [Hc | [Hc | Hc]]].
  - (* a comment or a directive *)
    destruct Hc as (Hcom & Hg & Hn & Hs & He).
    assert (Hold : forall j, j < S k ->
              (exists l', lines !! j = Some l' /\ HasPrefix l' "#" = false) -> j < k).
    { intros j Hj (l' & Hl' & Hnc). destruct (decide (j = k)) as [-> | ?]; [| lia].
      rewrite Hk in Hl'. inversion Hl'; subst. congruence. }
    constructor; rewrite ?Hg, ?Hn.
    + intros H0 i l0 Hi Hl0. destruct (decide (i = k)) as [-> | ?].
      * rewrite Hk in Hl0. by inversion Hl0; subst.
      * apply (pi_first _ _ _ Hinv H0 i); [lia | done].
    + intros H0. destruct (pi_later _ _ _ Hinv H0) as (i & l0 & Hi & Hl0 & Hnc).
      exists i, l0. repeat split; try done. lia.
    + intros j name Hj Hroom. apply (pi_rooms _ _ _ Hinv j); [| done].
      apply Hold; [done |]. destruct Hroom as (l' & ? & ? & (Hl' & Hnc & _) & _).
      by exists l'.
    + intros ia ib i a b Hia Hib Hi Ha Hb Hedge.
      apply (pi_edges _ _ _ Hinv ia ib i); try done.
      apply Hold; [done |]. destruct Hedge as (l' & (Hl' & Hnc & _) & _).
      by exists l'.
    + rewrite Hs. intros H. apply orb_true_iff in H as [H | H].
      * apply String.eqb_eq in H. subst l. exists k. split; [lia | done].
      * destruct (pi_start_flag _ _ _ Hinv H) as (i & Hi & Hl). exists i. split; [lia | done].
    + rewrite He. intros H. apply orb_true_iff in H as [H | H].
      * apply andb_true_iff in H as [_ H]. apply String.eqb_eq in H. subst l.
        exists k. split; [lia | done].
      * destruct (pi_end_flag _ _ _ Hinv H) as (i & Hi & Hl). exists i. split; [lia | done].
    + intros H. apply (marked_mono _ _ k); [lia |]. by apply (pi_start _ _ _ Hinv).
    + intros H. apply (marked_mono _ _ k); [lia |]. by apply (pi_end _ _ _ Hinv).
    + apply (pi_names _ _ _ Hinv).
    + apply (pi_neighbours _ _ _ Hinv).
  - (* the ant count *)
    destruct Hc as (Hnc & H0 & n & Hatoi & Hpos & Hg & Hn & Hs & He).
    assert (Hold : forall j l', j < S k -> data_line lines j l' -> False).
    { intros j l' Hj (Hl' & _ & i & l0 & Hi & Hl0 & Hnc0).
      pose proof (pi_first _ _ _ Hinv H0 i l0) as Hcom.
      rewrite Hcom in Hnc0; [done | lia | done]. }
    constructor; rewrite ?Hg, ?Hn, ?Hs, ?He; simpl.
    + done.
    + intros _. exists k, l. repeat split; try done. lia.
    + intros j name Hj (l' & ? & ? & Hd & _). exfalso. by eapply Hold.
    + intros ia ib i a b _ _ Hi _ _ (l' & Hd & _). exfalso. by eapply (Hold i).
    + intros H. destruct (pi_start_flag _ _ _ Hinv H) as (i & Hi & Hl).
      exists i. split; [lia | done].
    + intros H. destruct (pi_end_flag _ _ _ Hinv H) as (i & Hi & Hl).
      exists i. split; [lia | done].
    + intros H. apply (marked_mono _ _ k); [lia |]. by apply (pi_start _ _ _ Hinv).
    + intros H. apply (marked_mono _ _ k); [lia |]. by apply (pi_end _ _ _ Hinv).
    + apply (pi_names _ _ _ Hinv).
    + apply (pi_neighbours _ _ _ Hinv).
  - (* a tunnel *)
    destruct Hc as (Hnc & H0 & Hdash & a & b & Hsplit & Hab & Hex & Hg & Hn & Hs & He).
    destruct (connect_spec (graph st) a b)
      as (Hrooms & Hstart & Hend & Hgrow & Hnew & Hneigh).
    constructor; rewrite ?Hg, ?Hn, ?Hs, ?He, ?Hrooms, ?Hstart, ?Hend.
    + done.
    + intros _. exists k, l. repeat split; try done. lia.
    + intros j name Hj Hroom. apply (pi_rooms _ _ _ Hinv j); [| done].
      destruct (decide (j = k)) as [-> | ?]; [| lia].
      destruct Hroom as (l' & ? & ? & (Hl' & _) & Hnd & _).
      rewrite Hk in Hl'. inversion Hl'; subst. congruence.
    + intros ia ib i a' b' Hia Hib Hi Ha Hb Hedge.
      destruct (decide (i = k)) as [-> | Hne].
      * destruct Hedge as (l' & (Hl' & _) & _ & Hsplit').
        rewrite Hk in Hl'. inversion Hl'; subst l'.
        rewrite Hsplit in Hsplit'. inversion Hsplit'; subst a' b'.
        apply Hnew; [apply (pi_rooms _ _ _ Hinv ia); [lia | done]
                    | apply (pi_rooms _ _ _ Hinv ib); [lia | done]].
      * destruct (pi_edges _ _ _ Hinv ia ib i a' b') as [H1 H2]; try done; [lia |].
        split; by apply Hgrow.
    + intros H. destruct (pi_start_flag _ _ _ Hinv H) as (i & Hi & Hl).
      exists i. split; [lia | done].
    + intros H. destruct (pi_end_flag _ _ _ Hinv H) as (i & Hi & Hl).
      exists i. split; [lia | done].
    + intros H. apply (marked_mono _ _ k); [lia |]. by apply (pi_start _ _ _ Hinv).
    + intros H. apply (marked_mono _ _ k); [lia |]. by apply (pi_end _ _ _ Hinv).
    + apply (pi_names _ _ _ Hinv).
    + intros r Hr. destruct (Hneigh r Hr) as [Hn' | Hn']; [| done].
      by apply (pi_neighbours _ _ _ Hinv).
  - (* a room *)
    destruct Hc as (Hnc & H0 & Hdash & name & xStr & yStr & x & y & g' & Hf & Hx & Hy
                    & Hadd & Hg & Hn & Hs & He).
    destruct (AddRoom_inr _ _ _ _ _ _ _ Hadd) as (Hfresh & Hrooms & Hconn & Hstart & Hend).
    assert (Hline : room_line lines k name).
    { exists l, xStr, yStr. repeat split; try done.
      destruct (pi_later _ _ _ Hinv H0) as (i & l0 & Hi & Hl0 & Hnc0). by exists i, l0. }
    constructor; rewrite ?Hg, ?Hn, ?Hs, ?He.
    + done.
    + intros _. exists k, l. repeat split; try done. lia.
    + intros j name' Hj Hroom. apply Hrooms.
      destruct (decide (j = k)) as [-> | ?].
      * left. destruct Hroom as (l' & ? & ? & (Hl' & _) & _ & Hf').
        rewrite Hk in Hl'. inversion Hl'; subst l'. rewrite Hf in Hf'. by inversion Hf'.
      * right. apply (pi_rooms _ _ _ Hinv j); [lia | done].
    + intros ia ib i a b Hia Hib Hi Ha Hb Hedge. rewrite Hconn.
      apply (pi_edges _ _ _ Hinv ia ib i); try done.
      destruct (decide (i = k)) as [-> | ?]; [| lia].
      destruct Hedge as (l' & (Hl' & _) & Hd & _).
      rewrite Hk in Hl'. inversion Hl'; subst. congruence.
    + done.
    + done.
    + rewrite Hstart. destruct (start st) eqn:Hflag.
      * intros _. destruct (pi_start_flag _ _ _ Hinv Hflag) as (i & Hi & Hl).
        exists i, k, name. repeat split; try done. lia.
      * intros H. apply (marked_mono _ _ k); [lia |]. by apply (pi_start _ _ _ Hinv).
    + rewrite Hend. destruct (end_ st) eqn:Hflag.
      * intros _. destruct (pi_end_flag _ _ _ Hinv Hflag) as (i & Hi & Hl).
        exists i, k, name. repeat split; try done. lia.
      * intros H. apply (marked_mono _ _ k); [lia |]. by apply (pi_end _ _ _ Hinv).
    + intros name' Hsome. apply Hrooms in Hsome as [-> | Hsome].
      * pose proof (fields_go_nonempty l 0 "") as Hne. fold (Fields l) in Hne.
        rewrite Hf in Hne. by inversion Hne.
      * by apply (pi_names _ _ _ Hinv).
    + intros r (k0 & ns & Hk0 & Hr). apply Hrooms. right.
      apply (pi_neighbours _ _ _ Hinv). rewrite Hconn in Hk0. by exists k0, ns.
Qed.

Lemma parse_inv_prefix (rt : Runtime) (lines : list string) (k : nat)
    (st : ParseState) (out : Streams) :
  k <= length lines ->
  read_lines rt initial_parse_state (take k lines) out = Running st out ->
  parse_inv lines k st.
Proof.
  revert st. induction k as [|k IH]; intros st Hk Hrun.
  - simpl in Hrun. inversion Hrun; subst. apply parse_inv_initial.
  - destruct (lookup_lt_is_Some_2 lines k) as [l Hl]; [lia |].
    rewrite (take_S_r _ _ _ Hl), read_lines_snoc in Hrun.
    destruct (read_lines_outcome rt (take k lines) initial_parse_state out)
      as [(stk & Hpre) | (code & out' & Hpre)]; rewrite Hpre in Hrun; [| done].
    eapply parse_inv_step; [apply IH; [lia | done] | done | done].
Qed.

(** *** Rejected inputs *)

Lemma readInput_lines (rt : Runtime) (lines : list string) (scanErr : option string)
    (out : Streams) :
  readInput rt (FileLines lines scanErr) out
  = match read_lines rt initial_parse_state lines (opened out) with
    | Running st out' =>
        match scanErr with
        | Some msg => (println ("ERROR: " +:+ msg) >>> exit 0) out'
        | None =>
            if String.eqb (StartRoom (graph st)) "" || String.eqb (EndRoom (graph st)) ""
            then (println "ERROR: missing start or end room" >>> exit 0) out'
            else Running (graph st, StartRoom (graph st), EndRoom (graph st),
                          AntCount (graph st)) out'
        end
    | Exited code out' => Exited code out'
    | Panicked out' => Panicked out'
    | OutOfFuel => OutOfFuel
    end.
Proof.
  unfold readInput, proc_bind, println, print, opened. simpl.
  destruct (read_lines rt initial_parse_state lines _); try done.
  destruct scanErr; [done |]. by destruct (_ || _).
Qed.

Lemma existsb_perm {A : Type} (f : A -> bool) (l k : list A) :
  l ≡ₚ k -> existsb f l = existsb f k.
Proof.
  induction 1 as [|x l k _ IH|x y l|l k m _ IH1 _ IH2]; simpl.
  - done.
  - by rewrite IH.
  - by destruct (f x), (f y).
  - by rewrite IH1.
Qed.

Lemma connection_exists_spec (rt : Runtime) (g : Graph) (a b : string) :
  RuntimeOk rt ->
  connection_exists rt g a b = true
  <-> (b ∈ default [] (Connections g !! a) \/ a ∈ default [] (Connections g !! b)).
Proof.
  intros Hrt. unfold connection_exists.
  rewrite (existsb_perm _ _ _ (range_connections_perm rt Hrt (Connections g))).
  rewrite existsb_exists. split.
  - intros ([key vals] & Hin & Hex). apply list_elem_of_In, elem_of_map_to_list in Hin.
    apply existsb_exists in Hex as (val & Hval & Hm). apply list_elem_of_In in Hval.
    simpl in *. apply orb_true_iff in Hm as [Hm | Hm];
      apply andb_true_iff in Hm as [H1 H2];
      apply String.eqb_eq in H1, H2; subst; rewrite Hin; simpl; first [by left | by right].
  - intros [H | H].
    + destruct (Connections g !! a) as [vals|] eqn:Hc; simpl in H;
        [| by apply elem_of_nil in H].
      exists (a, vals). split; [by apply list_elem_of_In, elem_of_map_to_list |].
      apply existsb_exists. exists b. split; [by apply list_elem_of_In |]. simpl.
      by rewrite !String.eqb_refl.
    + destruct (Connections g !! b) as [vals|] eqn:Hc; simpl in H;
        [| by apply elem_of_nil in H].
      exists (b, vals). split; [by apply list_elem_of_In, elem_of_map_to_list |].
      apply existsb_exists. exists a. split; [by apply list_elem_of_In |]. simpl.
      rewrite !String.eqb_refl. by rewrite orb_true_r.
Qed.

(** A line that the parser takes for a room line or a tunnel line. *)
Lemma data_line_running (rt : Runtime) (lines : list string) (j : nat) (l : string)
    (stj stj' : ParseState) (out : Streams) :
  parse_inv lines j stj ->
  data_line lines j l ->
  read_line rt stj l out = Running stj' out ->
  HasPrefix l "#" = false /\ lineNumber stj <> 0.
Proof.
  intros Hinv (Hl & Hnc & i & l0 & Hi & Hl0 & Hnc0) Hrun. split; [done |].
  intros H0. pose proof (pi_first _ _ _ Hinv H0 i l0 Hi Hl0). congruence.
Qed.

Lemma scan_rejects (rt : Runtime) (lines : list string) (st : ParseState) (out : Streams) :
  RuntimeOk rt ->
  has_duplicate_room lines \/ has_duplicate_edge lines \/ has_self_loop lines
  \/ nonpositive_ant_count lines ->
  read_lines rt initial_parse_state lines out = Running st out -> False.
Proof.
  intros Hrt Hbad Hrun.
  assert (Hat : forall j l, lines !! j = Some l ->
            exists stj stj', parse_inv lines j stj
                             /\ read_line rt stj l out = Running stj' out).
  { intros j l Hl.
    destruct (read_lines_prefix rt lines _ st out j l Hrun Hl) as (stj & stj' & Hpre & Hline & _).
    exists stj, stj'. split; [| done].
    eapply parse_inv_prefix; [| done]. apply lookup_lt_Some in Hl. lia. }
  destruct Hbad as [Hbad | [Hbad | [Hbad | Hbad]]].
  - destruct Hbad as (i & j & name & Hij & Hi & Hj).
    pose proof Hj as (l & xs & ys & Hd & Hnd & Hf).
    destruct (Hat j l) as (stj & stj' & Hinv & Hline); [by destruct Hd |].
    destruct (data_line_running rt lines j l stj stj' out Hinv Hd Hline) as [Hnc H0].
    destruct (read_line_running _ _ _ _ _ _ Hline) as [_ [Hc | [Hc | [Hc | Hc]]]].
    + destruct Hc as (Hc & _). congruence.
    + destruct Hc as (_ & Hc & _). done.
    + destruct Hc as (_ & _ & Hc & _). congruence.
    + destruct Hc as (_ & _ & _ & name' & xs' & ys' & x & y & g' & Hf' & _ & _ & Hadd & _).
      rewrite Hf in Hf'. inversion Hf'; subst name'.
      destruct (AddRoom_inr _ _ _ _ _ _ _ Hadd) as (Hfresh & _).
      destruct (pi_rooms _ _ _ Hinv i name Hij Hi) as [r Hr]. congruence.
  - destruct Hbad as (ia & ib & i & j & a & b & Hia & Hib & Hij & Ha & Hb & Hi & Hj).
    assert (exists l a' b', data_line lines j l /\ Split l "-" = [a'; b']
                            /\ (a' = a /\ b' = b \/ a' = b /\ b' = a))
      as (l & a' & b' & Hd & Hsplit & Hab).
    { destruct Hj as [(l & Hd & _ & Hs) | (l & Hd & _ & Hs)];
        exists l; [exists a, b | exists b, a];
        (split; [exact Hd |]; split; [exact Hs |]); [by left | by right]. }
    destruct (Hat j l) as (stj & stj' & Hinv & Hline); [by destruct Hd |].
    destruct (data_line_running rt lines j l stj stj' out Hinv Hd Hline) as [Hnc H0].
    destruct (pi_edges _ _ _ Hinv ia ib i a b Hia Hib Hij Ha Hb Hi) as [Hin1 Hin2].
    destruct (read_line_running _ _ _ _ _ _ Hline) as [_ [Hc | [Hc | [Hc | Hc]]]].
    + destruct Hc as (Hc & _). congruence.
    + destruct Hc as (_ & Hc & _). done.
    + destruct Hc as (_ & _ & _ & a2 & b2 & Hsplit2 & _ & Hex & _).
      rewrite Hsplit in Hsplit2. inversion Hsplit2; subst a2 b2.
      assert (connection_exists rt (graph stj) a' b' = true); [| congruence].
      apply connection_exists_spec; [done |].
      destruct Hab as [(-> & ->) | (-> & ->)]; by left.
    + destruct Hc as (_ & _ & Hc & name' & xs' & ys' & _).
      destruct Hi as (li & _ & _ & _).
      destruct Hj as [(l2 & (Hl2 & _) & Hd2 & _) | (l2 & (Hl2 & _) & Hd2 & _)];
        destruct Hd as (Hl & _); congruence.
  - destruct Hbad as (j & a & l & Hd & Hdash & Hsplit).
    destruct (Hat j l) as (stj & stj' & Hinv & Hline); [by destruct Hd |].
    destruct (data_line_running rt lines j l stj stj' out Hinv Hd Hline) as [Hnc H0].
    destruct (read_line_running _ _ _ _ _ _ Hline) as [_ [Hc | [Hc | [Hc | Hc]]]].
    + destruct Hc as (Hc & _). congruence.
    + destruct Hc as (_ & Hc & _). done.
    + destruct Hc as (_ & _ & _ & a2 & b2 & Hsplit2 & Hne & _).
      rewrite Hsplit in Hsplit2. inversion Hsplit2; subst. done.
    + destruct Hc as (_ & _ & Hc & _). congruence.
  - destruct Hbad as (i & l & n & (Hl & Hnc & Hfirst) & Hatoi & Hle).
    destruct (Hat i l Hl) as (sti & sti' & Hinv & Hline).
    assert (H0 : lineNumber sti = 0).
    { destruct (decide (lineNumber sti = 0)) as [| Hne]; [done |].
      destruct (pi_later _ _ _ Hinv Hne) as (k & l0 & Hk & Hl0 & Hnc0).
      rewrite (Hfirst k l0 Hk Hl0) in Hnc0. done. }
    destruct (read_line_running _ _ _ _ _ _ Hline) as [_ [Hc | [Hc | [Hc | Hc]]]].
    + destruct Hc as (Hc & _). congruence.
    + destruct Hc as (_ & _ & n' & Hatoi' & Hpos & _).
      rewrite Hatoi in Hatoi'. inversion Hatoi'; subst. lia.
    + destruct Hc as (_ & Hc & _). done.
    + destruct Hc as (_ & Hc & _). done.
Qed.

Lemma readInput_rejects (rt : Runtime) (lines : list string) (scanErr : option string)
    (out : Streams) :
  RuntimeOk rt ->
  has_duplicate_room lines \/ has_duplicate_edge lines \/ has_self_loop lines
  \/ missing_source_or_sink lines \/ nonpositive_ant_count lines ->
  exists code out', readInput rt (FileLines lines scanErr) out = Exited code out'.
Proof.
  intros Hrt Hbad. rewrite readInput_lines.
  destruct (read_lines_outcome rt lines initial_parse_state (opened out))
    as [(st & Hrun) | (code & out' & Hrun)]; rewrite Hrun; [| by do 2 eexists].
  destruct scanErr as [msg|]; [by do 2 eexists |].
  destruct (String.eqb (StartRoom (graph st)) "" || String.eqb (EndRoom (graph st)) "")
    eqn:Hmiss; [by do 2 eexists |].
  exfalso. apply orb_false_iff in Hmiss as [Hs He]. apply String.eqb_neq in Hs, He.
  destruct Hbad as [Hbad | [Hbad | [Hbad | [Hbad | Hbad]]]];
    try (eapply (scan_rejects rt lines st (opened out)); [done | | done]; tauto).
  assert (Hinv : parse_inv lines (length lines) st).
  { eapply parse_inv_prefix; [done |]. by rewrite firstn_all. }
  destruct Hbad as [Hno | Hno]; apply Hno.
  - by apply (pi_start _ _ _ Hinv).
  - by apply (pi_end _ _ _ Hinv).
Qed.

(** C7 (amended).  An input with a duplicate room, a duplicate tunnel
    between two rooms that are both declared before its first occurrence, a
    self-loop, no source or no sink, or an ant count that is not positive
    ends the process in the parser: [main] stops with the status and the
    output of [readInput], and no routing runs.  (A first occurrence that
    comes before the declaration of one of its rooms is dropped, so that a
    second one is then no duplicate.)
    Several sources are not rejected: marking one more room as the start
    succeeds and replaces the start room (and likewise for the end). *)
Theorem invalid_input_rejected (rt : Runtime) (fuel : nat) (exampleFile : string)
    (args : list string) (fs : string -> FileRead) (lines : list string)
    (scanErr : option string)
    (Hrt : RuntimeOk rt)
    (Hfile : fs exampleFile = FileLines lines scanErr)
    (Hbad : has_duplicate_room lines \/ has_duplicate_edge lines \/ has_self_loop lines
            \/ missing_source_or_sink lines \/ nonpositive_ant_count lines) :
  (exists code out,
      readInput rt (fs exampleFile) {| stdout := ""; stderr := "" |} = Exited code out
      /\ main rt fuel (exampleFile :: args) fs = Exited code out)
  /\ (forall g name x y isEnd,
         Rooms g !! name = None ->
         exists g', AddRoom g name x y true isEnd = inr g' /\ StartRoom g' = name)
  /\ (forall g name x y isStart,
         Rooms g !! name = None ->
         exists g', AddRoom g name x y isStart true = inr g' /\ EndRoom g' = name).
Proof.
  split; [| split].
  - rewrite Hfile.
    destruct (readInput_rejects rt lines scanErr {| stdout := ""; stderr := "" |} Hrt Hbad)
      as (code & out & Hrej).
    exists code, out. split; [done |].
    unfold main, main_body, proc_bind. by rewrite Hfile, Hrej.
  - intros g name x y isEnd Hfresh. unfold AddRoom. rewrite Hfresh. by eexists.
  - intros g name x y isStart Hfresh. unfold AddRoom. rewrite Hfresh. by eexists.
Qed.

(** What the parser hands to the router. *)
Lemma readInput_graph_named (rt : Runtime) (file : FileRead) (out out' : Streams)
    (g : Graph) (startRoom endRoom : string) (ants : Z) :
  readInput rt file out = Running (g, startRoom, endRoom, ants) out' ->
  graph_named g /\ startRoom = StartRoom g /\ endRoom = EndRoom g.
Proof.
  destruct file as [msg | lines scanErr]; [done |].
  rewrite readInput_lines.
  destruct (read_lines_outcome rt lines initial_parse_state (opened out))
    as [(st & Hrun) | (code & out1 & Hrun)]; rewrite Hrun; [| done].
  destruct scanErr as [msg|]; [done |].
  destruct (String.eqb (StartRoom (graph st)) "" || String.eqb (EndRoom (graph st)) "")
    eqn:Hmiss; [done |].
  intros H. inversion H; subst. split; [| done].
  apply orb_false_iff in Hmiss as [Hs _]. apply String.eqb_neq in Hs.
  assert (Hinv : parse_inv lines (length lines) st).
  { eapply parse_inv_prefix; [done |]. by rewrite firstn_all. }
  split; [done |]. intros r Hr.
  apply (pi_names _ _ _ Hinv), (pi_neighbours _ _ _ Hinv), Hr.
Qed.

(** C2.  For an input that the parser accepts, take any solution group of
    the paths found and the assignment the distributor builds on it.  The
    simulator returns a movement log, and in every log it returns: after
    each turn no two ants are in the same room, the start and the end room
    apart; the rooms an ant is moved to are the rooms of its path after the
    first, in order; and after the last turn every ant is in the end room. *)
Theorem movement_log_correct (rt : Runtime) (file : FileRead) (out out' : Streams)
    (g : Graph) (startRoom endRoom : string) (n : Z) (fuel : nat)
    (paths group : list path) (ants : nat) (assignment : gmap nat path)
    (Hrt : RuntimeOk rt)
    (Hparse : readInput rt file out = Running (g, startRoom, endRoom, n) out')
    (Hpaths : findShortestPaths rt fuel g startRoom = Some paths)
    (Hgroup : group ∈ calculateSolutionGroups paths startRoom endRoom)
    (Hdist : distributeAnts group ants = Some assignment) :
  (exists log, ant_moves_log rt (sim_fuel assignment) assignment endRoom = Some log)
  /\ forall fuel' log,
       ant_moves_log rt fuel' assignment endRoom = Some log ->
       (forall k id1 id2,
           k <= length log -> id1 <> id2 ->
           is_Some (assignment !! id1) -> is_Some (assignment !! id2) ->
           location startRoom (concat (take k log)) id1
           = location startRoom (concat (take k log)) id2 ->
           location startRoom (concat (take k log)) id1 = startRoom
           \/ location startRoom (concat (take k log)) id1 = endRoom)
       /\ (forall id p, assignment !! id = Some p -> ant_route (concat log) id = tail p)
       /\ (forall id, is_Some (assignment !! id) ->
                      location startRoom (concat log) id = endRoom).
Proof.
  destruct (readInput_graph_named _ _ _ _ _ _ _ _ Hparse) as (Hnamed & -> & ->).
  by eapply log_correct_on_named_graph.
Qed.

(** ** Determinism *)

Lemma sorted_unique {A : Type} (key : A -> nat) (l1 l2 : list A) :
  StronglySorted (fun a b => key a <= key b) l1 ->
  StronglySorted (fun a b => key a <= key b) l2 ->
  l1 ≡ₚ l2 ->
  NoDup (map key l1) ->
  l1 = l2.
Proof.
  revert l2. induction l1 as [|x1 l1 IH]; intros l2 Hs1 Hs2 Hperm Hnd.
  - by apply Permutation_nil_l in Hperm.
  - destruct l2 as [|x2 l2]; [by apply Permutation_nil_r in Hperm |].
    inversion Hs1 as [|? ? Hs1' Hall1]; subst.
    inversion Hs2 as [|? ? Hs2' Hall2]; subst.
    simpl in Hnd. apply NoDup_cons in Hnd as [Hx1 Hnd].
    rewrite Forall_forall in Hall1, Hall2.
    assert (x1 = x2) as <-.
    { assert (Hin2 : x2 ∈ x1 :: l1) by (rewrite Hperm; by apply elem_of_cons; left).
      assert (Hin1 : x1 ∈ x2 :: l2) by (rewrite <- Hperm; by apply elem_of_cons; left).
      apply elem_of_cons in Hin2 as [-> | Hin2]; [done |].
      apply elem_of_cons in Hin1 as [-> | Hin1]; [done |].
      pose proof (Hall1 x2 Hin2). pose proof (Hall2 x1 Hin1).
      exfalso. apply Hx1. replace (key x1) with (key x2) by lia.
      apply list_elem_of_fmap. by exists x2. }
    f_equal. apply IH; try done. by apply Permutation_cons_inv in Hperm.
Qed.

Lemma sorted_assignments_indep (rt1 rt2 : Runtime) (assignment : gmap nat path) :
  RuntimeOk rt1 -> RuntimeOk rt2 ->
  sorted_assignments rt1 assignment = sorted_assignments rt2 assignment.
Proof.
  intros H1 H2. apply (sorted_unique AntID).
  - apply (sort_sorted rt1 H1 AntAssignment AntID).
  - apply (sort_sorted rt2 H2 AntAssignment AntID).
  - unfold sorted_assignments.
    rewrite (sort_perm rt1 H1), (sort_perm rt2 H2).
    apply Permutation_map.
    by rewrite (range_assignment_perm rt1 H1), (range_assignment_perm rt2 H2).
  - by destruct (sorted_assignments_spec rt1 assignment H1).
Qed.

Lemma connection_exists_indep (rt1 rt2 : Runtime) (g : Graph) (a b : string) :
  RuntimeOk rt1 -> RuntimeOk rt2 ->
  connection_exists rt1 g a b = connection_exists rt2 g a b.
Proof.
  intros H1 H2.
  pose proof (connection_exists_spec rt1 g a b H1) as E1.
  pose proof (connection_exists_spec rt2 g a b H2) as E2.
  destruct (connection_exists rt1 g a b), (connection_exists rt2 g a b); try done.
  - symmetry. apply E2, E1. done.
  - apply E1, E2. done.
Qed.

Lemma read_line_indep (rt1 rt2 : Runtime) (st : ParseState) (l : string) :
  RuntimeOk rt1 -> RuntimeOk rt2 -> read_line rt1 st l = read_line rt2 st l.
Proof.
  intros H1 H2. unfold read_line.
  destruct (HasPrefix l "#"); [done |]. destruct (Nat.eqb (lineNumber st) 0); [done |].
  destruct (Contains l "-"); [| done].
  destruct (Split l "-") as [|a [|b [|c rest]]]; try done.
  by rewrite (connection_exists_indep rt1 rt2 (graph st) a b H1 H2).
Qed.

Lemma read_lines_indep (rt1 rt2 : Runtime) (lines : list string) (st : ParseState)
    (out : Streams) :
  RuntimeOk rt1 -> RuntimeOk rt2 ->
  read_lines rt1 st lines out = read_lines rt2 st lines out.
Proof.
  intros H1 H2. revert st out. induction lines as [|l lines IH]; intros st out; simpl;
    [done |].
  unfold proc_bind. rewrite (read_line_indep rt1 rt2 st l H1 H2).
  destruct (read_line rt2 st l out); by try done.
Qed.

Lemma readInput_indep (rt1 rt2 : Runtime) (file : FileRead) (out : Streams) :
  RuntimeOk rt1 -> RuntimeOk rt2 -> readInput rt1 file out = readInput rt2 file out.
Proof.
  intros H1 H2. destruct file as [msg | lines scanErr]; [done |].
  by rewrite !readInput_lines, (read_lines_indep rt1 rt2 lines _ _ H1 H2).
Qed.

Lemma getAntMoves_indep (rt1 rt2 : Runtime) (fuel : nat) (assignment : gmap nat path)
    (e : string) :
  RuntimeOk rt1 -> RuntimeOk rt2 ->
  getAntMoves rt1 fuel assignment e = getAntMoves rt2 fuel assignment e.
Proof.
  intros H1 H2. unfold getAntMoves, ant_moves_log.
  by rewrite (sorted_assignments_indep rt1 rt2 assignment H1 H2).
Qed.

Lemma moves_of_groups_indep (rt1 rt2 : Runtime) (fuel : nat) (ants : Z) (e : string)
    (groups : list (list path)) (out : Streams) :
  RuntimeOk rt1 -> RuntimeOk rt2 ->
  moves_of_groups rt1 fuel ants e groups out = moves_of_groups rt2 fuel ants e groups out.
Proof.
  intros H1 H2. revert out. induction groups as [|group groups IH]; intros out; simpl;
    [done |].
  unfold moves_of_group, proc_bind.
  destruct (distributeAnts_int fuel group ants out) as [assignment out1 | | |]; try done.
  rewrite (getAntMoves_indep rt1 rt2 fuel assignment e H1 H2).
  destruct (getAntMoves rt2 fuel assignment e); [| done]. unfold proc_ret.
  by rewrite IH.
Qed.

Lemma route_from_indep (rt1 rt2 : Runtime) (fuel : nat) (paths : list path)
    (s e : string) (ants : Z) (out : Streams) :
  RuntimeOk rt1 -> RuntimeOk rt2 ->
  route_from rt1 fuel paths s e ants out = route_from rt2 fuel paths s e ants out.
Proof.
  intros H1 H2. unfold route_from.
  destruct (Nat.eqb (length paths) 0); [done |].
  unfold proc_bind. destruct (debugPaths paths out); try done.
  destruct (Nat.eqb (length (calculateSolutionGroups paths s e)) 0); [done |].
  by rewrite (moves_of_groups_indep rt1 rt2 fuel ants e _ _ H1 H2).
Qed.


(** ** The selection of the shortest log *)

Lemma shortest_solution_fold (acc : string) (l : list string) :
  let r := foldl (fun shortestSolution solution =>
                    if Nat.ltb (Count solution "010") (Count shortestSolution "010")
                    then solution else shortestSolution) acc l in
  (forall x, x ∈ l -> Count r "010" <= Count x "010")
  /\ Count r "010" <= Count acc "010"
  /\ (r = acc
      \/ exists i, l !! i = Some r
                   /\ Count r "010" < Count acc "010"
                   /\ forall j x, j < i -> l !! j = Some x ->
                                  Count r "010" < Count x "010").
Proof.
  revert acc. induction l as [|y l IH]; intros acc; simpl.
  - split; [intros x Hx; by apply elem_of_nil in Hx |]. split; [done | by left].
  - destruct (Nat.ltb (Count y "010") (Count acc "010")) eqn:Hlt.
    + apply Nat.ltb_lt in Hlt. destruct (IH y) as (Hmin & Hle & Hfirst).
      split; [| split].
      * intros x Hx. apply elem_of_cons in Hx as [-> | Hx]; [done | by apply Hmin].
      * simpl in *. lia.
      * right. destruct Hfirst as [Heq | (i & Hi & Hlti & Hbefore)].
        -- exists 0. simpl in *. rewrite Heq. split; [done |]. split; [done |].
           intros j x Hj. lia.
        -- exists (S i). simpl in *. split; [done |]. split; [lia |].
           intros j x Hj Hx. destruct j as [|j]; simpl in Hx.
           ++ inversion Hx; subst. done.
           ++ apply (Hbefore j); [lia | done].
    + apply Nat.ltb_ge in Hlt. destruct (IH acc) as (Hmin & Hle & Hfirst).
      split; [| split].
      * intros x Hx. apply elem_of_cons in Hx as [-> | Hx]; [simpl in *; lia | by apply Hmin].
      * done.
      * destruct Hfirst as [Heq | (i & Hi & Hlti & Hbefore)]; [by left |].
        right. exists (S i). simpl in *. split; [done |]. split; [done |].
        intros j x Hj Hx. destruct j as [|j]; simpl in Hx.
        -- inversion Hx; subst. lia.
        -- apply (Hbefore j); [lia | done].
Qed.

(** The solution chosen by [main] is the first of the candidates with the
    fewest lines. *)
Lemma shortest_solution_spec (first : string) (rest : list string) :
  let chosen := shortest_solution first (first :: rest) in
  exists i, (first :: rest) !! i = Some chosen
            /\ (forall j x, j < i -> (first :: rest) !! j = Some x ->
                            Count chosen "010" < Count x "010")
            /\ forall x, x ∈ first :: rest -> Count chosen "010" <= Count x "010".
Proof.
  unfold shortest_solution. cbv zeta.
  pose proof (shortest_solution_fold first (first :: rest)) as H. cbv zeta in H.
  destruct H as (Hmin & Hle & Hfirst).
  destruct Hfirst as [Heq | (i & Hi & Hlt & Hbefore)].
  - exists 0. split; [by rewrite Heq |]. split; [intros j x Hj; lia | done].
  - exists i. done.
Qed.

(** ** The ant loop on ints *)

Lemma distribute_step_runs (paths : list path) (k : nat) (chosen : list nat)
    (a : gmap nat path) :
  paths <> [] ->
  exists i a',
    distribute_step paths k (loads_of paths chosen, a)
    = Some (loads_of paths (chosen ++ [i]), a').
Proof.
  intros Hne.
  destruct (distribute_loop_trace paths 1 k chosen a Hne) as (idx & a' & Hlen & Hrun & _).
  cbn [distribute_loop] in Hrun.
  destruct (distribute_step paths k (loads_of paths chosen, a)) as [st'|]; [| done].
  destruct idx as [|i [|? ?]]; try done. exists i, a'. by inversion Hrun.
Qed.

(** Below the largest int the counter does not wrap, and the loop on ints
    makes the iterations of [distribute_loop]. *)
Lemma distribute_loop_int_spec (paths : list path) (ants : Z) (n k fuel : nat)
    (st : list nat * gmap nat path) (out : Streams) :
  1 <= k ->
  (Z.of_nat k + Z.of_nat n = Z.max ants 0 + 1)%Z ->
  (ants < max_int)%Z ->
  n < fuel ->
  distribute_loop_int fuel paths ants (Z.of_nat k) st out
  = match distribute_loop paths n k st with
    | Some st' => Running st'.2 out
    | None => Panicked out
    end.
Proof.
  revert k fuel st. induction n as [|n IH]; intros k fuel st Hk Hsum Hants Hfuel;
    (destruct fuel as [|fuel]; [lia |]); cbn [distribute_loop_int distribute_loop].
  - destruct (Z.leb_spec (Z.of_nat k) ants) as [Hle | Hgt]; [lia | done].
  - destruct (Z.leb_spec (Z.of_nat k) ants) as [Hle | Hgt]; [| lia].
    rewrite Nat2Z.id.
    destruct (distribute_step paths k st) as [st'|]; [| done].
    unfold int_incr. destruct (Z.eqb_spec (Z.of_nat k) max_int) as [Heq | Hne]; [lia |].
    replace (Z.of_nat k + 1)%Z with (Z.of_nat (S k)) by lia.
    apply IH; lia.
Qed.

Lemma distributeAnts_int_spec (paths : list path) (ants : Z) (fuel : nat) (out : Streams) :
  (ants < max_int)%Z ->
  Z.to_nat ants < fuel ->
  distributeAnts_int fuel paths ants out
  = match distributeAnts paths (Z.to_nat ants) with
    | Some assignment => Running assignment out
    | None => Panicked out
    end.
Proof.
  intros Hants Hfuel. unfold distributeAnts_int, distributeAnts.
  change 1%Z with (Z.of_nat 1).
  rewrite (distribute_loop_int_spec paths ants (Z.to_nat ants) 1 fuel _ out);
    [| lia | lia | done | done].
  by destruct (distribute_loop paths (Z.to_nat ants) 1 (initial_loads paths, ∅))
    as [[loads a]|].
Qed.

(** At the largest int the loop is never left. *)
Lemma distribute_loop_int_wraps (paths : list path) (fuel : nat) (antIndex : Z)
    (chosen : list nat) (a : gmap nat path) (out : Streams) :
  paths <> [] ->
  (antIndex <= max_int)%Z ->
  distribute_loop_int fuel paths max_int antIndex (loads_of paths chosen, a) out
  = OutOfFuel.
Proof.
  intros Hne. revert antIndex chosen a.
  induction fuel as [|fuel IH]; intros antIndex chosen a Hle;
    cbn [distribute_loop_int]; [done |].
  destruct (Z.leb_spec antIndex max_int) as [_ | Hgt]; [| lia].
  destruct (distribute_step_runs paths (Z.to_nat antIndex) chosen a Hne)
    as (i & a' & ->).
  apply IH. unfold int_incr.
  destruct (Z.eqb_spec antIndex max_int) as [Heq | Hneq]; [done | lia].
Qed.

Lemma distributeAnts_int_wraps (paths : list path) (fuel : nat) (out : Streams) :
  paths <> [] -> distributeAnts_int fuel paths max_int out = OutOfFuel.
Proof.
  intros Hne. unfold distributeAnts_int. rewrite <- loads_of_nil.
  by apply distribute_loop_int_wraps.
Qed.

(** On a non-empty path list the loop on ints does not panic, and it prints
    nothing. *)
Lemma distributeAnts_int_outcome (paths : list path) (fuel : nat) (ants : Z)
    (out : Streams) :
  paths <> [] ->
  (exists assignment, distributeAnts_int fuel paths ants out = Running assignment out)
  \/ distributeAnts_int fuel paths ants out = OutOfFuel.
Proof.
  intros Hne. unfold distributeAnts_int. rewrite <- loads_of_nil.
  generalize (@nil nat) as chosen. generalize (∅ : gmap nat path) as a.
  generalize 1%Z as antIndex.
  induction fuel as [|fuel IH]; intros antIndex a chosen;
    cbn [distribute_loop_int]; [by right |].
  destruct (antIndex <=? ants)%Z; [| left; by eexists].
  destruct (distribute_step_runs paths (Z.to_nat antIndex) chosen a Hne)
    as (i & a' & ->).
  apply IH.
Qed.

(** ** The whole pipeline returns *)

Lemma print_runs (s : string) (out : Streams) :
  exists out', print s out = Running tt out'.
Proof. by eexists. Qed.

Lemma debugPaths_runs (paths : list path) (out : Streams) :
  exists out', debugPaths paths out = Running tt out'.
Proof.
  unfold debugPaths, proc_bind, println. simpl.
  generalize ({| stdout := stdout out +:+ "All paths found:" +:+ newline;
                 stderr := stderr out |}).
  assert (H : forall (l : list (Proc unit)) (acc : Proc unit),
             (forall o, exists o', acc o = Running tt o') ->
             Forall (fun p => forall o, exists o', p o = Running tt o') l ->
             forall o, exists o', foldl (fun a line => proc_bind a (fun _ => line)) acc l o
                                  = Running tt o').
  { induction l as [|p l IH]; intros acc Hacc Hall o; simpl; [apply Hacc |].
    inversion Hall as [|? ? Hp Hrest]; subst. apply IH; [| done].
    intros o1. unfold proc_bind. destruct (Hacc o1) as (o2 & ->). apply Hp. }
  apply H; [intros o; by eexists |].
  apply Forall_forall. intros p Hp o.
  apply list_elem_of_lookup in Hp as [i Hi]. rewrite list_lookup_imap in Hi.
  destruct (paths !! i); simpl in Hi; [| done]. inversion Hi; subst. by eexists.
Qed.

Lemma ant_moves_log_fuel (rt : Runtime) (s e : string) (assignment : gmap nat path)
    (fuel : nat) :
  RuntimeOk rt ->
  assignments_routable s e (sorted_assignments rt assignment) ->
  sim_fuel assignment <= fuel ->
  exists log, ant_moves_log rt fuel assignment e = Some log.
Proof.
  intros Hrt Hroutable Hfuel.
  destruct (ant_moves_log_total rt s e assignment Hrt Hroutable) as (log & Hlog).
  exists log. unfold ant_moves_log in *. by eapply turn_loop_fuel_mono.
Qed.

Lemma moves_of_groups_total (rt : Runtime) (g : Graph) (fuel0 : nat)
    (paths : list path) (ants : Z) (groups : list (list path)) :
  RuntimeOk rt ->
  graph_named g ->
  (ants < max_int)%Z ->
  findShortestPaths rt fuel0 g (StartRoom g) = Some paths ->
  Forall (fun group => group ∈ calculateSolutionGroups paths (StartRoom g) (EndRoom g))
         groups ->
  exists fuel1, forall fuel out, fuel1 <= fuel ->
    exists logs,
      moves_of_groups rt fuel ants (EndRoom g) groups out = Running logs out
      /\ Forall2 (candidate_log rt fuel ants (EndRoom g)) groups logs.
Proof.
  intros Hrt Hnamed Hants Hpaths. induction groups as [|group groups IH]; intros Hall.
  - exists 0. intros fuel out _. exists []. split; [done | constructor].
  - inversion Hall as [|? ? Hgroup Hrest]; subst.
    destruct (IH Hrest) as (fuel1 & Hothers).
    destruct (distributeAnts_trace group (Z.to_nat ants)
                (calculateSolutionGroups_nonempty _ _ _ _ Hgroup))
      as (idx & assignment & _ & Hdist & _).
    pose proof (pipeline_assignments_routable rt g fuel0 paths group _ assignment
                  Hrt Hnamed Hpaths Hgroup Hdist) as Hroutable.
    exists (Nat.max (Nat.max fuel1 (sim_fuel assignment)) (S (Z.to_nat ants))).
    intros fuel out Hfuel.
    destruct (ant_moves_log_fuel rt _ _ assignment fuel Hrt Hroutable) as (log & Hlog);
      [lia |].
    destruct (Hothers fuel out) as (logs & Hrun & Hlogs); [lia |].
    exists (render_log log :: logs). split.
    + simpl. unfold moves_of_group, proc_bind, getAntMoves.
      rewrite (distributeAnts_int_spec group ants fuel out Hants) by lia.
      rewrite Hdist, Hlog. unfold proc_ret. by rewrite Hrun.
    + constructor; [| done]. exists assignment. split; [done |].
      unfold getAntMoves. by rewrite Hlog.
Qed.

(** C1 (amended).  For an input that the parser accepts with an ant count
    below the largest int, and in which the path finder finds a path, the
    program ends with status 0 (given enough fuel for its loops), and the log
    it prints is one of the logs of the candidate groups: the first one with
    the fewest lines.  It need not be a schedule with the fewest turns
    possible.  (At the largest int itself the ant loop of the distributor
    is never left: its counter wraps.) *)
Theorem shortest_candidate_emitted (rt : Runtime) (exampleFile : string)
    (args : list string) (fs : string -> FileRead)
    (g : Graph) (startRoom endRoom : string) (n : Z) (out0 : Streams)
    (paths : list path)
    (Hrt : RuntimeOk rt)
    (Hparse : readInput rt (fs exampleFile) {| stdout := ""; stderr := "" |}
              = Running (g, startRoom, endRoom, n) out0)
    (Hants : (n < max_int)%Z)
    (Hpaths : findShortestPaths rt (dfs_fuel g startRoom) g startRoom = Some paths)
    (Hreach : paths <> []) :
  exists fuel0, forall fuel, fuel0 <= fuel ->
    exists logs chosen i out1 out2,
      Forall2 (candidate_log rt fuel n endRoom)
              (calculateSolutionGroups paths startRoom endRoom) logs
      /\ logs !! i = Some chosen
      /\ (forall j x, j < i -> logs !! j = Some x ->
                      Count chosen "010" < Count x "010")
      /\ (forall x, x ∈ logs -> Count chosen "010" <= Count x "010")
      /\ report chosen out1 = Running tt out2
      /\ main rt fuel (exampleFile :: args) fs = Exited 0 out2.
Proof.
  destruct (readInput_graph_named _ _ _ _ _ _ _ _ Hparse) as (Hnamed & -> & ->).
  destruct (moves_of_groups_total rt g _ paths n
              (calculateSolutionGroups paths (StartRoom g) (EndRoom g))
              Hrt Hnamed Hants Hpaths) as (fuel1 & Hgroups).
  { apply Forall_forall. done. }
  exists (Nat.max fuel1 (dfs_fuel g (StartRoom g))). intros fuel Hfuel.
  assert (Hpaths' : findShortestPaths rt fuel g (StartRoom g) = Some paths).
  { unfold findShortestPaths in *.
    destruct (findAllPaths (dfs_fuel g (StartRoom g)) g (StartRoom g) ∅ [] [])
      as [[v all]|] eqn:Hdfs; [| done].
    assert (Hle : dfs_fuel g (StartRoom g) <= fuel) by lia.
    by rewrite (findAllPaths_fuel_mono _ fuel _ _ _ _ _ _ Hle Hdfs). }
  destruct (debugPaths_runs paths
              {| stdout := stdout out0 +:+ "Number of ants: " +:+ pretty n +:+ newline;
                 stderr := stderr out0 |}) as (out1 & Hdebug).
  destruct (Hgroups fuel out1) as (logs & Hrun & Hlogs); [lia |].
  assert (Hne : calculateSolutionGroups paths (StartRoom g) (EndRoom g) <> []).
  { unfold calculateSolutionGroups. destruct paths as [|p [|q rest]]; simpl; done. }
  destruct logs as [|first rest].
  { inversion Hlogs as [Hnil |]. by rewrite <- Hnil in Hne. }
  destruct (shortest_solution_spec first rest) as (i & Hi & Hbefore & Hmin).
  set (chosen := shortest_solution first (first :: rest)) in *.
  assert (exists out2, report chosen out1 = Running tt out2) as (out2 & Hreport)
    by (by eexists).
  exists (first :: rest), chosen, i, out1, out2.
  repeat split; try done.
  unfold main, main_body, proc_bind. rewrite Hparse.
  unfold debugAntCount, print, route. rewrite Hpaths'. unfold route_from.
  destruct (Nat.eqb (length paths) 0) eqn:Hlen.
  { apply Nat.eqb_eq in Hlen. by destruct paths. }
  unfold proc_bind. rewrite Hdebug.
  destruct (Nat.eqb (length (calculateSolutionGroups paths (StartRoom g) (EndRoom g))) 0)
    eqn:Hlen'.
  { apply Nat.eqb_eq in Hlen'. by destruct (calculateSolutionGroups _ _ _). }
  rewrite Hrun. fold chosen. by rewrite Hreport.
Qed.

(** ** All the ways of sorting a list *)

Lemma picks_complete {A : Type} (l1 l2 : list A) (x : A) :
  (x, l1 ++ l2) ∈ picks (l1 ++ x :: l2).
Proof.
  induction l1 as [|y l1 IH]; simpl.
  - by apply elem_of_cons; left.
  - apply elem_of_cons. right. apply list_elem_of_fmap.
    exists (x, l1 ++ l2). split; [done | apply IH].
Qed.

Lemma sorted_perms_complete {A : Type} (key : A -> nat) (n : nat) (l l' : list A) :
  length l = n ->
  l' ≡ₚ l ->
  StronglySorted (fun a b => key a <= key b) l' ->
  l' ∈ sorted_perms key n l.
Proof.
  revert l l'. induction n as [|n IH]; intros l l' Hlen Hperm Hsorted.
  - destruct l; [| done]. apply Permutation_nil_r in Hperm. subst.
    by apply elem_of_cons; left.
  - destruct l' as [|x t].
    { apply Permutation_nil_l in Hperm. by subst. }
    assert (Hx : x ∈ l) by (rewrite <- Hperm; by apply elem_of_cons; left).
    apply list_elem_of_split in Hx as (l1 & l2 & ->).
    apply Permutation_cons_app_inv in Hperm.
    inversion Hsorted as [|? ? Hs Hall]; subst.
    simpl. apply list_elem_of_In, in_flat_map.
    exists (x, l1 ++ l2). split; [apply list_elem_of_In, picks_complete |].
    simpl.
    assert (Hle : forallb (fun y => Nat.leb (key x) (key y)) (l1 ++ l2) = true).
    { apply forallb_forall. intros y Hy. apply Nat.leb_le.
      rewrite Forall_forall in Hall. apply Hall. rewrite Hperm.
      by apply list_elem_of_In. }
    rewrite Hle. apply in_map. apply list_elem_of_In, IH; try done.
    rewrite length_app in *. simpl in Hlen. lia.
Qed.

(** ** Counterexamples to claims of the specification *)

(** C1, as stated, fails.  On [crossed_lanes] the program prints a log of 10
    turns, while [three_lane_schedule] obeys every constraint and takes 9. *)
Lemma greedy_grouping_not_optimal :
  ends_run (main go_runtime 60 ["farm.txt"] (fun _ => FileLines crossed_lanes None))
           ten_turns = true
  /\ valid_schedule (parsed_graph crossed_lanes) "S" "T" 15 three_lane_schedule = true
  /\ length three_lane_schedule = 9.
Proof. repeat split; vm_compute; reflexivity. Qed.

(** The 10 turns do not depend on how [sort.Slice] orders paths of equal
    length, nor on the order of the map iterations. *)
Lemma tie_order_irrelevant_on_crossed_lanes (rt : Runtime) :
  RuntimeOk rt ->
  ends_run (main rt 60 ["farm.txt"] (fun _ => FileLines crossed_lanes None))
           ten_turns = true.
Proof.
  intros Hrt. unfold main, main_body, proc_bind.
  rewrite (readInput_indep rt go_runtime _ _ Hrt go_runtime_ok).
  assert (Hparse : readInput go_runtime (FileLines crossed_lanes None)
                     {| stdout := ""; stderr := "" |}
                   = Running (parsed_graph crossed_lanes, "S", "T", 15%Z)
                             (parsed_output crossed_lanes))
    by (vm_compute; reflexivity).
  rewrite Hparse. unfold debugAntCount, print, route, findShortestPaths.
  assert (Hdfs : exists v, findAllPaths 60 (parsed_graph crossed_lanes) "S" ∅ [] []
                           = Some (v, crossed_paths))
    by (eexists; vm_compute; reflexivity).
  destruct Hdfs as (v & ->).
  set (out1 := {| stdout := _; stderr := _ |}).
  set (sorted := sortSlice rt path _ crossed_paths).
  assert (Hin : sorted ∈ sorted_perms (@length string) 16 crossed_paths).
  { apply sorted_perms_complete.
    - vm_compute; reflexivity.
    - apply (sort_perm rt Hrt).
    - apply (sort_sorted rt Hrt path (@length string)). }
  rewrite (route_from_indep rt go_runtime 60 sorted "S" "T" 15 out1 Hrt go_runtime_ok).
  assert (Hall : forallb (fun l => ends_run (route_from go_runtime 60 l "S" "T" 15 out1)
                                            ten_turns)
                         (sorted_perms (@length string) 16 crossed_paths) = true)
    by (vm_compute; reflexivity).
  rewrite forallb_forall in Hall. apply list_elem_of_In in Hin.
  specialize (Hall sorted Hin).
  destruct (route_from go_runtime 60 sorted "S" "T" 15 out1) as [[] out | | |];
    simpl in *; done.
Qed.


(** C5, as stated, fails.  For the two ants of [head_on] the loop never
    ends, and there is no abort: after the first turn each ant waits for the
    room of the other. *)
Lemma head_on_never_ends :
  ~ exists fuel antMoves, getAntMoves go_runtime fuel head_on "T" = Some antMoves.
Proof.
  intros (fuel & antMoves & Hrun). unfold getAntMoves, ant_moves_log in Hrun.
  set (l := sorted_assignments go_runtime head_on) in *.
  destruct (turn_loop fuel "T" l ∅ ∅ []) as [log|] eqn:Hloop; [| done].
  clear Hrun. destruct fuel as [|fuel]; [done |]. simpl in Hloop.
  assert (Hfirst : Nat.eqb (finishedAnts (run_turn "T" l ∅ ∅)) (length l) = false)
    by (vm_compute; reflexivity).
  rewrite Hfirst in Hloop.
  rewrite (stuck_turn_loops "T" l) in Hloop; [done | |]; vm_compute; [reflexivity | lia].
Qed.

(** C6, as stated, fails.  In the second turn of two ants on a chain, ant 1
    (at position 1) leaves room B, which is marked free at once, and ant 2,
    processed next, moves into B in the same turn. *)
Lemma room_reused_in_same_turn :
  ant_pos (antPositions chain_second_turn) (chain_ant 1) = 1
  /\ is_full (roomFull chain_second_turn) "B" = true
  /\ is_full (roomFull (ant_step "D" chain_second_turn (chain_ant 1))) "B" = false
  /\ moveStrings (foldl (ant_step "D") chain_second_turn [chain_ant 1; chain_ant 2])
     = [(1, "C"); (2, "B")]
  /\ getAntMoves go_runtime 10 chain_assignment "D" = Some "L1-B
L1-C L2-B
L1-D L2-C
L2-D
".
Proof. repeat split; vm_compute; reflexivity. Qed.

(** C7, as stated, fails.  An input with two rooms marked as start, and one
    with two rooms marked as end, are accepted and routed: the room marked
    last wins. *)
Lemma several_sources_accepted :
  main go_runtime 10 ["farm.txt"]
    (fun _ => FileLines ["1"; "##start"; "A 0 0"; "##start"; "C 0 1"; "##end"; "B 1 0";
                         "A-B"; "C-B"] None)
  = Exited 0 {| stdout := "File opened successfully!

Number of ants: 1
All paths found:
Path 1: C ->B

Shortest path
L1-B

Here you go!
Quickest path with 1 turns
"; stderr := "" |}
  /\ main go_runtime 10 ["farm.txt"]
       (fun _ => FileLines ["1"; "##start"; "A 0 0"; "##end"; "B 1 0"; "##end"; "C 1 1";
                            "A-B"; "A-C"] None)
     = Exited 0 {| stdout := "File opened successfully!

Number of ants: 1
All paths found:
Path 1: A ->C

Shortest path
L1-C

Here you go!
Quickest path with 1 turns
"; stderr := "" |}.
Proof. split; vm_compute; reflexivity. Qed.

(** C8: what the program does on inputs with an error.  A self-loop, a
    missing start room and an unreachable end room all end the process with
    status 0, and an ant count of 0 with status 1; in all four cases the
    message goes to the standard output and nothing to the error stream. *)
Theorem errors_exit_status :
  main go_runtime 10 ["farm.txt"]
    (fun _ => FileLines ["1"; "##start"; "A 0 0"; "##end"; "B 1 0"; "A-A"] None)
  = Exited 0 {| stdout := "File opened successfully!

ERROR: self referencing room: A-A
"; stderr := "" |}
  /\ main go_runtime 10 ["farm.txt"]
       (fun _ => FileLines ["1"; "A 0 0"; "##end"; "B 1 0"; "A-B"] None)
     = Exited 0 {| stdout := "File opened successfully!

ERROR: missing start or end room
"; stderr := "" |}
  /\ main go_runtime 10 ["farm.txt"]
       (fun _ => FileLines ["1"; "##start"; "A 0 0"; "##end"; "B 1 0"] None)
     = Exited 0 {| stdout := "File opened successfully!

Number of ants: 1
ERROR: No valid path found
"; stderr := "" |}
  /\ main go_runtime 10 ["farm.txt"] (fun _ => FileLines ["0"] None)
     = Exited 1 {| stdout := "File opened successfully!

ERROR: invalid data format, number of ants must be a positive integer
"; stderr := "" |}.
Proof. repeat split; vm_compute; reflexivity. Qed.

(** ** Instances of the theorems on small farms *)


Lemma lane_ants_routable : assignments_routable "S" "T" lane_ants.
Proof.
  split; [| split].
  - split; [by apply (bool_decide_unpack _) |].
    repeat constructor; by apply (bool_decide_unpack _).
  - repeat constructor; by apply (bool_decide_unpack _).
  - intros a b Ha Hb.
    destruct (decide (Path a = Path b)) as [| Hne]; [by left | right].
    apply solutionsCompatible_spec.
    unfold lane_ants in Ha, Hb.
    repeat (apply elem_of_cons in Ha as [-> | Ha]); [| | | by apply elem_of_nil in Ha];
      repeat (apply elem_of_cons in Hb as [-> | Hb]); try (by apply elem_of_nil in Hb);
      try reflexivity; by destruct Hne.
Qed.

Lemma turn_loop_ends_witness :
  assignments_routable "S" "T" lane_ants
  /\ exists final, turn_loop (S (remaining lane_ants ∅)) "T" lane_ants ∅ ∅ [] = Some final.
Proof.
  split; [exact lane_ants_routable |].
  destruct (turn_loop_ends "S" "T" lane_ants) as (_ & _ & Hends).
  exact (proj1 (Hends lane_ants_routable)).
Defined.

Lemma invalid_input_rejected_witness :
  RuntimeOk go_runtime
  /\ has_self_loop self_loop_lines
  /\ exists code out,
       readInput go_runtime (FileLines self_loop_lines None) {| stdout := ""; stderr := "" |}
       = Exited code out
       /\ main go_runtime 10 ["farm.txt"] (fun _ => FileLines self_loop_lines None)
          = Exited code out.
Proof.
  assert (Hloop : has_self_loop self_loop_lines).
  { exists 5, "A", "A-A". split; [| split; reflexivity].
    split; [reflexivity |]. split; [reflexivity |].
    exists 0, "1". split; [lia |]. split; reflexivity. }
  split; [exact go_runtime_ok |]. split; [exact Hloop |].
  exact (proj1 (invalid_input_rejected go_runtime 10 "farm.txt" []
                  (fun _ => FileLines self_loop_lines None) self_loop_lines None
                  go_runtime_ok eq_refl (or_intror (or_intror (or_introl Hloop))))).
Defined.

Lemma movement_log_correct_witness :
  readInput go_runtime (FileLines two_lanes None) no_output
  = Running (parsed_graph two_lanes, "S", "T", 4%Z) (parsed_output two_lanes)
  /\ findShortestPaths go_runtime 10 (parsed_graph two_lanes) "S" = Some lane_paths
  /\ lane_paths ∈ calculateSolutionGroups lane_paths "S" "T"
  /\ distributeAnts lane_paths 4 = Some lane_assignment
  /\ exists log,
       ant_moves_log go_runtime (sim_fuel lane_assignment) lane_assignment "T" = Some log
       /\ forall id, is_Some (lane_assignment !! id) -> location "S" (concat log) id = "T".
Proof.
  assert (Hparse : readInput go_runtime (FileLines two_lanes None) no_output
                   = Running (parsed_graph two_lanes, "S", "T", 4%Z)
                             (parsed_output two_lanes)) by (vm_compute; reflexivity).
  assert (Hpaths : findShortestPaths go_runtime 10 (parsed_graph two_lanes) "S"
                   = Some lane_paths) by (vm_compute; reflexivity).
  assert (Hgroup : lane_paths ∈ calculateSolutionGroups lane_paths "S" "T")
    by (vm_compute; apply list_elem_of_here).
  assert (Hdist : distributeAnts lane_paths 4 = Some lane_assignment)
    by (vm_compute; reflexivity).
  do 4 (split; [assumption |]).
  destruct (movement_log_correct go_runtime _ _ _ _ _ _ _ _ _ _ _ _ go_runtime_ok
              Hparse Hpaths Hgroup Hdist) as [(log & Hlog) Hall].
  exists log. split; [exact Hlog |].
  exact (proj2 (proj2 (Hall _ _ Hlog))).
Defined.


Lemma shortest_candidate_emitted_witness :
  (4 < max_int)%Z
  /\ findShortestPaths go_runtime (dfs_fuel (parsed_graph two_lanes) "S")
       (parsed_graph two_lanes) "S" = Some lane_paths
  /\ exists fuel0, forall fuel, fuel0 <= fuel ->
       exists out, main go_runtime fuel ["farm.txt"] (fun _ => FileLines two_lanes None)
                   = Exited 0 out.
Proof.
  assert (Hparse : readInput go_runtime (FileLines two_lanes None)
                     {| stdout := ""; stderr := "" |}
                   = Running (parsed_graph two_lanes, "S", "T", 4%Z)
                             (parsed_output two_lanes)) by (vm_compute; reflexivity).
  assert (Hpaths : findShortestPaths go_runtime (dfs_fuel (parsed_graph two_lanes) "S")
                     (parsed_graph two_lanes) "S" = Some lane_paths)
    by (vm_compute; reflexivity).
  assert (Hants : (4 < max_int)%Z) by reflexivity.
  split; [exact Hants |]. split; [exact Hpaths |].
  destruct (shortest_candidate_emitted go_runtime "farm.txt" []
              (fun _ => FileLines two_lanes None) _ _ _ _ _ _ go_runtime_ok
              Hparse Hants Hpaths) as (fuel0 & Hrun); [done |].
  exists fuel0. intros fuel Hfuel.
  destruct (Hrun fuel Hfuel) as (logs & chosen & i & out1 & out2 & _ & _ & _ & _ & _ & Hmain).
  by exists out2.
Defined.

Lemma solution_groups_disjoint_witness :
  RuntimeOk go_runtime
  /\ forall r, (r ∈ ["S"; "a"; "T"] /\ r ∈ ["S"; "b"; "T"]) <-> (r = "S" \/ r = "T").
Proof.
  split; [exact go_runtime_ok |].
  destruct (solution_groups_disjoint go_runtime (parsed_graph two_lanes) go_runtime_ok)
    as [_ H].
  apply (H 10 [["S"; "a"; "T"]; ["S"; "b"; "T"]] [["S"; "a"; "T"]; ["S"; "b"; "T"]] 0 1).
  - vm_compute; reflexivity.
  - vm_compute. apply list_elem_of_here.
  - lia.
  - reflexivity.
  - reflexivity.
Defined.

Lemma distributeAnts_requires_paths_witness :
  1 <= 3
  /\ exists assignment,
       distributeAnts [["S"; "a"; "T"]; ["S"; "b"; "T"]] 3 = Some assignment
       /\ (forall k, is_Some (assignment !! k) <-> 1 <= k <= 3)
       /\ (forall k p, assignment !! k = Some p -> p ∈ [["S"; "a"; "T"]; ["S"; "b"; "T"]]).
Proof.
  split; [lia |].
  apply (distributeAnts_requires_paths [["S"; "a"; "T"]; ["S"; "b"; "T"]] 3); [lia | done].
Defined.

Lemma distributeAnts_greedy_optimal_witness :
  [["S"; "a"; "T"]; ["S"; "b"; "c"; "T"]] <> [] /\ 1 <= 3
  /\ exists idx assignment,
       length idx = 3
       /\ distributeAnts [["S"; "a"; "T"]; ["S"; "b"; "c"; "T"]] 3 = Some assignment
       /\ (forall t i, idx !! t = Some i ->
             first_min Z.lt Z.le
               (costs [["S"; "a"; "T"]; ["S"; "b"; "c"; "T"]] (take t idx)) i
             /\ exists p, [["S"; "a"; "T"]; ["S"; "b"; "c"; "T"]] !! i = Some p
                          /\ assignment !! (S t) = Some p)
       /\ (forall b, length b = 2 -> sum_list b = 3 ->
             (makespan [["S"; "a"; "T"]; ["S"; "b"; "c"; "T"]]
                (split_of [["S"; "a"; "T"]; ["S"; "b"; "c"; "T"]] idx)
              <= makespan [["S"; "a"; "T"]; ["S"; "b"; "c"; "T"]] b)%Z).
Proof.
  split; [done |]. split; [lia |].
  apply (distributeAnts_greedy_optimal [["S"; "a"; "T"]; ["S"; "b"; "c"; "T"]] 3); [done | lia].
Defined.

Lemma room_freed_within_turn_witness :
  can_move chain_second_turn (chain_ant 1) = true
  /\ is_full (roomFull (ant_step "D" chain_second_turn (chain_ant 1))) "B" = false
  /\ can_move (ant_step "D" chain_second_turn (chain_ant 1)) (chain_ant 2) = true.
Proof.
  split; [reflexivity |].
  destruct (room_freed_within_turn "D" chain_second_turn (chain_ant 1) (chain_ant 2))
    as [Hfree Hnext]; [reflexivity |].
  split; [exact Hfree |]. apply Hnext.
  - vm_compute; lia.
  - reflexivity.
  - vm_compute. discriminate.
Defined.

(** * Further properties of the code *)

(** ** The parser *)

(** *** Comments are ignored *)

Lemma read_lines_comments (rt : Runtime) (lines : list string) (st : ParseState)
    (out : Streams) :
  read_lines rt st (filter (fun l => is_comment l = false) lines) out
  = read_lines rt st lines out.
Proof.
  revert st out. induction lines as [|l lines IH]; intros st out; [done |].
  rewrite filter_cons. destruct (decide (is_comment l = false)) as [Hc | Hc].
  - simpl. unfold proc_bind. destruct (read_line rt st l out); try done; apply IH.
  - apply not_false_is_true in Hc. rewrite IH. simpl. unfold proc_bind, read_line.
    unfold is_comment in Hc. apply andb_prop in Hc as [Hc Hend].
    apply andb_prop in Hc as [Hprefix Hstart].
    rewrite Hprefix. apply negb_true_iff in Hstart, Hend. by rewrite Hstart, Hend.
Qed.

(** X2.  A line that starts with [#] and is neither [##start] nor [##end] has
    no effect, wherever it stands (also before the line of the ant count):
    the parser ends the same way, with the same graph and the same output,
    on the file without these lines. *)
Theorem comments_ignored (rt : Runtime) (lines : list string) (scanErr : option string)
    (out : Streams) :
  readInput rt (FileLines (filter (fun l => is_comment l = false) lines) scanErr) out
  = readInput rt (FileLines lines scanErr) out.
Proof. by rewrite !readInput_lines, read_lines_comments. Qed.

(** *** The graph of an accepted input *)

(** **** Fields and numbers *)

Lemma Contains_app (x y : string) (c : ascii) :
  Contains (x +:+ y) c = Contains x c || Contains y c.
Proof.
  induction x as [|a x IH]; simpl; [done |]. by destruct (Ascii.eqb a c).
Qed.

Lemma prefix_one (c : ascii) (s : string) :
  String.prefix (String c "") (String c s) = true.
Proof. simpl. destruct (ascii_dec c c); [by destruct s | done]. Qed.

Lemma space_width_ascii (c : ascii) (s : string) :
  c ∈ ascii_space -> space_width (String c s) <> 0.
Proof.
  intros Hc. unfold space_width.
  assert (Hin : String c "" ∈ filter (fun w => String.prefix w (String c s) = true)
                                     white_space).
  { apply list_elem_of_filter. split; [apply prefix_one |].
    unfold ascii_space in Hc. simpl in Hc.
    repeat (apply elem_of_cons in Hc as [-> | Hc]); try (by apply elem_of_nil in Hc);
      vm_compute; repeat first [apply list_elem_of_here | apply list_elem_of_further]. }
  destruct (filter _ white_space) as [|w ws] eqn:Hf; [by apply elem_of_nil in Hin |].
  assert (Hw : w ∈ white_space).
  { assert (H : w ∈ filter (fun w => String.prefix w (String c s) = true) white_space)
      by (rewrite Hf; apply list_elem_of_here).
    by apply list_elem_of_filter in H as [_ ?]. }
  assert (Hall : Forall (fun w => String.length w <> 0) white_space)
    by (vm_compute; repeat constructor; discriminate).
  rewrite Forall_forall in Hall. by apply Hall.
Qed.

Lemma fields_go_chars (c : ascii) (s : string) (skip : nat) (cur : string) :
  Contains cur c = false ->
  Contains s c = false \/ c ∈ ascii_space ->
  Forall (fun f => Contains f c = false) (fields_go skip cur s).
Proof.
  revert skip cur. induction s as [|a s IH]; intros skip cur Hcur Hs; simpl.
  - destruct (String.eqb cur ""); by repeat constructor.
  - assert (Hs' : Contains s c = false \/ c ∈ ascii_space).
    { destruct Hs as [Hs | Hs]; [left | by right].
      simpl in Hs. by destruct (Ascii.eqb a c). }
    destruct skip as [|k]; [| by apply IH].
    destruct (space_width (String a s)) as [|k] eqn:Hw.
    + apply IH; [| done]. rewrite Contains_app, Hcur. simpl.
      destruct (Ascii.eqb_spec a c) as [-> | Hne]; [| done].
      destruct Hs as [Hs | Hs].
      * simpl in Hs. by rewrite Ascii.eqb_refl in Hs.
      * by destruct (space_width_ascii c s Hs).
    + apply Forall_app. split; [| by apply IH].
      destruct (String.eqb cur ""); by repeat constructor.
Qed.

Lemma Fields_token (line : string) (f : string) :
  Contains line "-" = false -> f ∈ Fields line -> token f.
Proof.
  intros Hline Hf. unfold token. split; [| split].
  - pose proof (fields_go_nonempty line 0 "") as H. rewrite Forall_forall in H.
    by apply H.
  - pose proof (fields_go_chars "-" line 0 "" eq_refl (or_introl Hline)) as H.
    rewrite Forall_forall in H. by apply H.
  - apply Forall_forall. intros c Hc.
    pose proof (fields_go_chars c line 0 "" eq_refl (or_intror Hc)) as H.
    rewrite Forall_forall in H. by apply H.
Qed.

Lemma parse_digits_nonneg (s : string) (acc n : Z) :
  (0 <= acc)%Z -> parse_digits acc s = Some n -> (0 <= n)%Z.
Proof.
  revert acc. induction s as [|a s IH]; intros acc Hacc Hp; simpl in Hp.
  - by inversion Hp; subst.
  - destruct (digit_of a) as [d|] eqn:Hd; [| done].
    apply (IH (10 * acc + d)%Z); [| done].
    unfold digit_of in Hd.
    destruct (Z.leb 48 (Z.of_nat (nat_of_ascii a)) && Z.leb (Z.of_nat (nat_of_ascii a)) 57)
      eqn:Hr; [| done].
    inversion Hd; subst d. apply andb_prop in Hr as [H1 _]. lia.
Qed.

Lemma Atoi_range (s : string) (v : Z) :
  Atoi s = Some v -> (- 2 ^ 63 <= v <= max_int)%Z.
Proof.
  unfold Atoi, max_int. intros H. repeat case_match; simplify_eq; lia.
Qed.

Lemma Atoi_no_minus (a : ascii) (s : string) :
  a <> "-"%char ->
  exists body, Atoi (String a s) = unsigned_value body.
Proof.
  intros Hminus.
  destruct a as [[|] [|] [|] [|] [|] [|] [|] [|]]; try done;
    first [ by exists s
          | by lazymatch goal with |- exists _, Atoi ?x = _ => exists x end ].
Qed.

Lemma Atoi_unsigned (s : string) (v : Z) :
  Contains s "-" = false -> Atoi s = Some v -> (0 <= v <= max_int)%Z.
Proof.
  intros Hc Hv. split; [| by apply Atoi_range in Hv as [_ ?]].
  destruct s as [|a s]; [done |].
  simpl in Hc. destruct (Ascii.eqb_spec a "-") as [-> | Hminus]; [done |].
  destruct (Atoi_no_minus a s Hminus) as (body & Hbody). rewrite Hbody in Hv.
  unfold unsigned_value in Hv. destruct body as [|b body]; [done |].
  destruct (parse_digits 0 (String b body)) as [n|] eqn:Hp; [| done].
  destruct (Z.leb (- 2 ^ 63) n && Z.leb n (2 ^ 63 - 1)); [| done].
  inversion Hv; subst v. by apply (parse_digits_nonneg (String b body) 0).
Qed.

(** **** The graph operations keep the graph well formed *)

Lemma AddConnection_inr (g g' : Graph) (a b : string) :
  AddConnection g a b = inr g' ->
  is_Some (Rooms g !! a) /\ is_Some (Rooms g !! b)
  /\ Rooms g' = Rooms g /\ AntCount g' = AntCount g
  /\ StartRoom g' = StartRoom g /\ EndRoom g' = EndRoom g
  /\ (a <> b ->
      forall k, adj g' k = if decide (k = a) then adj g a ++ [b]
                           else if decide (k = b) then adj g b ++ [a]
                           else adj g k).
Proof.
  unfold AddConnection. intros H.
  destruct (Rooms g !! a) as [ra|] eqn:Ha; [| done].
  destruct (Rooms g !! b) as [rb|] eqn:Hb; [| done].
  inversion H; subst g'; clear H. simpl.
  do 2 (split; [by eexists |]). do 4 (split; [done |]).
  intros Hab k. unfold adj. simpl.
  destruct (decide (k = a)) as [-> | Hka].
  - rewrite lookup_insert_ne by done. by rewrite lookup_insert_eq.
  - destruct (decide (k = b)) as [-> | Hkb].
    + rewrite lookup_insert_eq. simpl. by rewrite lookup_insert_ne.
    + by rewrite !lookup_insert_ne.
Qed.

Lemma connect_same (g : Graph) (a b : string) :
  Rooms (connect g a b) = Rooms g /\ AntCount (connect g a b) = AntCount g
  /\ StartRoom (connect g a b) = StartRoom g /\ EndRoom (connect g a b) = EndRoom g.
Proof.
  unfold connect. destruct (AddConnection g a b) as [msg | g'] eqn:H; [done |].
  apply AddConnection_inr in H as (_ & _ & ? & ? & ? & ? & _). done.
Qed.

Lemma graph_wf_connect (g : Graph) (a b : string) :
  graph_wf g -> a <> b -> b ∉ adj g a -> a ∉ adj g b -> graph_wf (connect g a b).
Proof.
  intros Hwf Hab Hba Hab'. unfold connect.
  destruct (AddConnection g a b) as [msg | g'] eqn:H; [done |].
  apply AddConnection_inr in H as (Ha & Hb & Hrooms & _ & Hs & He & Hadj).
  specialize (Hadj Hab). destruct Hwf as [Hr Har Hsym Hirr Hnd Hst Hen].
  assert (Hmem : forall x y, y ∈ adj g' x
                             <-> y ∈ adj g x \/ (x = a /\ y = b) \/ (x = b /\ y = a)).
  { intros x y. rewrite Hadj.
    repeat case_decide; subst; rewrite ?elem_of_app, ?list_elem_of_singleton;
      intuition congruence. }
  constructor.
  - intros name r. rewrite Hrooms. apply Hr.
  - intros x y. rewrite Hmem, !Hrooms.
    intros [Hy | [[-> ->] | [-> ->]]]; [by apply Har | done | done].
  - intros x y. rewrite !Hmem.
    intros [Hy | [[-> ->] | [-> ->]]]; [left; by apply Hsym | tauto | tauto].
  - intros x. rewrite Hmem.
    intros [Hx | [[-> Hx] | [-> Hx]]]; [by eapply Hirr | done | done].
  - intros x. rewrite Hadj.
    repeat case_decide; subst; try apply Hnd;
      (apply NoDup_app; split; [apply Hnd |]; split; [| apply NoDup_singleton]);
      intros y Hy Hy'; apply list_elem_of_singleton in Hy'; by subst.
  - rewrite Hs, Hrooms. apply Hst.
  - rewrite He, Hrooms. apply Hen.
Qed.

Lemma graph_wf_set_AntCount (g : Graph) (n : Z) :
  graph_wf g -> graph_wf (set_AntCount g n).
Proof. intros [? ? ? ? ? ? ?]. by constructor. Qed.

Lemma AddRoom_record (g g' : Graph) (name : string) (x y : Z) (isStart isEnd : bool) :
  AddRoom g name x y isStart isEnd = inr g' ->
  Rooms g !! name = None
  /\ Rooms g' = <[name := {| Name := name; X := x; Y := y;
                             IsStart := isStart; IsEnd := isEnd |}]> (Rooms g)
  /\ Connections g' = Connections g /\ AntCount g' = AntCount g
  /\ StartRoom g' = (if isStart then name else StartRoom g)
  /\ EndRoom g' = (if isEnd then name else EndRoom g).
Proof.
  unfold AddRoom. destruct (Rooms g !! name) eqn:Hn; [done |].
  intros H. by inversion H; subst.
Qed.

Lemma graph_wf_AddRoom (g g' : Graph) (name : string) (x y : Z) (isStart isEnd : bool) :
  AddRoom g name x y isStart isEnd = inr g' ->
  graph_wf g -> token name ->
  (0 <= x <= max_int)%Z -> (0 <= y <= max_int)%Z ->
  graph_wf g'.
Proof.
  intros H Hwf Htok Hx Hy.
  apply AddRoom_record in H as (Hfresh & Hrooms & Hconn & _ & Hs & He).
  destruct Hwf as [Hr Har Hsym Hirr Hnd Hst Hen].
  assert (Hadj : forall k, adj g' k = adj g k) by (intros k; unfold adj; by rewrite Hconn).
  assert (Hgrow : forall k, is_Some (Rooms g !! k) -> is_Some (Rooms g' !! k)).
  { intros k [r Hk]. rewrite Hrooms.
    destruct (decide (name = k)) as [-> | Hne]; [by rewrite Hfresh in Hk |].
    rewrite lookup_insert_ne by done. by eexists. }
  constructor.
  - intros k r. rewrite Hrooms.
    destruct (decide (name = k)) as [<- | Hne].
    + rewrite lookup_insert_eq. intros Hk. by inversion Hk; subst.
    + rewrite lookup_insert_ne by done. apply Hr.
  - intros a b. rewrite Hadj. intros Hb. destruct (Har a b Hb). split; by apply Hgrow.
  - intros a b. rewrite !Hadj. apply Hsym.
  - intros a. rewrite Hadj. apply Hirr.
  - intros a. rewrite Hadj. apply Hnd.
  - rewrite Hs, Hrooms. destruct isStart.
    + intros _. rewrite lookup_insert_eq. by eexists.
    + intros Hne. destruct (Hst Hne) as (r & Hr0 & Hflag).
      exists r. split; [| done]. rewrite lookup_insert_ne; [done |].
      intros ->. by rewrite Hfresh in Hr0.
  - rewrite He, Hrooms. destruct isEnd.
    + intros _. rewrite lookup_insert_eq. by eexists.
    + intros Hne. destruct (Hen Hne) as (r & Hr0 & Hflag).
      exists r. split; [| done]. rewrite lookup_insert_ne; [done |].
      intros ->. by rewrite Hfresh in Hr0.
Qed.

Lemma graph_wf_new : graph_wf NewGraph.
Proof.
  constructor; simpl; try done.
  - intros a b. unfold adj. simpl. rewrite lookup_empty. simpl. by intros ?%elem_of_nil.
  - intros a b. unfold adj. simpl. rewrite lookup_empty. simpl. by intros ?%elem_of_nil.
  - intros a. unfold adj. simpl. rewrite lookup_empty. simpl. by intros ?%elem_of_nil.
  - intros a. unfold adj. simpl. rewrite lookup_empty. constructor.
Qed.

(** **** The scanning loop *)

Lemma parse_wf_initial (lines : list string) : parse_wf lines 0 initial_parse_state.
Proof.
  constructor; simpl; try done.
  - apply graph_wf_new.
  - intros name [r Hr]. by rewrite lookup_empty in Hr.
Qed.

Lemma parse_wf_step (rt : Runtime) (lines : list string) (k : nat)
    (st st' : ParseState) (l : string) (out out' : Streams) :
  RuntimeOk rt ->
  parse_inv lines k st ->
  parse_wf lines k st ->
  lines !! k = Some l ->
  read_line rt st l out = Running st' out' ->
  parse_wf lines (S k) st'.
Proof.
  intros Hrt Hinv [Hwf Hfirst Hcount Hdecl] Hl Hrun.
  assert (Hold : forall name, is_Some (Rooms (graph st) !! name) ->
                              exists j, j < S k /\ room_line lines j name).
  { intros name Hn. destruct (Hdecl name Hn) as (j & Hj & Hroom).
    exists j. split; [lia | done]. }
  apply read_line_running in Hrun as [_ Hcases].
  destruct Hcases as [(Hp & Hg & Hn & _) | [(Hp & Hzero & n & Hatoi & Hpos & Hg & Hn & _)
    | [(Hp & Hnz & Hdash & a & b & Hsplit & Hab & Hex & Hg & Hn & _)
    | (Hp & Hnz & Hdash & name & xStr & yStr & x & y & g' & Hf & Hx & Hy & Hadd & Hg & Hn & _)]]].
  - constructor; rewrite Hg, ?Hn; done.
  - constructor; rewrite Hg, ?Hn; simpl.
    + by apply graph_wf_set_AntCount.
    + done.
    + intros _. apply Atoi_range in Hatoi. lia.
    + done.
  - destruct (connect_same (graph st) a b) as (Hrooms & Hants & _ & _).
    constructor; rewrite Hg, ?Hn, ?Hrooms, ?Hants; try done.
    apply graph_wf_connect; [done | done | |];
      intros Hin; apply not_true_iff_false in Hex; apply Hex;
      apply (connection_exists_spec rt (graph st) a b Hrt); unfold adj in Hin; tauto.
  - pose proof (AddRoom_record _ _ _ _ _ _ _ Hadd) as (Hfresh & Hrooms & _ & Hants & _).
    assert (Htok : forall f, f ∈ [name; xStr; yStr] -> token f).
    { intros f Hin. apply (Fields_token l); [done | by rewrite Hf]. }
    constructor; rewrite Hg, ?Hn.
    + eapply graph_wf_AddRoom; [exact Hadd | done | | |].
      * apply Htok, list_elem_of_here.
      * apply (Atoi_unsigned xStr); [| done].
        apply Htok, list_elem_of_further, list_elem_of_here.
      * apply (Atoi_unsigned yStr); [| done].
        apply Htok. do 2 apply list_elem_of_further. apply list_elem_of_here.
    + done.
    + rewrite Hants. done.
    + intros r. rewrite Hrooms. destruct (decide (name = r)) as [<- | Hne].
      * intros _. exists k. split; [lia |].
        exists l, xStr, yStr. split; [| done]. split; [done |]. split; [done |].
        destruct (pi_later _ _ _ Hinv Hnz) as (i & l0 & Hi & Hl0 & Hp0). by exists i, l0.
      * rewrite lookup_insert_ne by done. apply Hold.
Qed.

Lemma parse_wf_prefix (rt : Runtime) (lines : list string) (k : nat)
    (st : ParseState) (out : Streams) :
  RuntimeOk rt ->
  k <= length lines ->
  read_lines rt initial_parse_state (take k lines) out = Running st out ->
  parse_wf lines k st.
Proof.
  intros Hrt. revert st. induction k as [|k IH]; intros st Hk Hrun.
  - simpl in Hrun. inversion Hrun; subst. apply parse_wf_initial.
  - destruct (lookup_lt_is_Some_2 lines k) as [l Hl]; [lia |].
    rewrite (take_S_r _ _ _ Hl), read_lines_snoc in Hrun.
    destruct (read_lines_outcome rt (take k lines) initial_parse_state out)
      as [(stk & Hpre) | (code & out' & Hpre)]; rewrite Hpre in Hrun; [| done].
    eapply parse_wf_step; [done | | apply IH; [lia | done] | done | done].
    eapply parse_inv_prefix; [| done]. lia.
Qed.

Lemma readInput_running (rt : Runtime) (lines : list string) (scanErr : option string)
    (out out' : Streams) (g : Graph) (s e : string) (n : Z) :
  readInput rt (FileLines lines scanErr) out = Running (g, s, e, n) out' ->
  exists st,
    read_lines rt initial_parse_state lines (opened out) = Running st (opened out)
    /\ scanErr = None /\ out' = opened out
    /\ g = graph st /\ s = StartRoom g /\ e = EndRoom g /\ n = AntCount g
    /\ s <> "" /\ e <> "".
Proof.
  rewrite readInput_lines. intros H.
  destruct (read_lines_outcome rt lines initial_parse_state (opened out))
    as [(st & Hrun) | (code & o & Hrun)]; rewrite Hrun in H; [| done].
  destruct scanErr as [msg|]; [done |].
  destruct (String.eqb (StartRoom (graph st)) "" || String.eqb (EndRoom (graph st)) "")
    eqn:Hmiss; [done |].
  apply orb_false_iff in Hmiss as [Hs He]. apply String.eqb_neq in Hs, He.
  inversion H; subst. by exists st.
Qed.

Lemma readInput_graph_wf (rt : Runtime) (lines : list string)
    (scanErr : option string) (out out' : Streams) (g : Graph) (s e : string) (n : Z) :
  RuntimeOk rt ->
  readInput rt (FileLines lines scanErr) out = Running (g, s, e, n) out' ->
  graph_wf g /\ (1 <= AntCount g <= max_int)%Z.
Proof.
  intros Hrt Hparse.
  apply readInput_running in Hparse
    as (st & Hrun & -> & -> & -> & -> & -> & -> & Hs & He).
  assert (Hwf : parse_wf lines (length lines) st).
  { eapply (parse_wf_prefix rt); [done | done |]. by rewrite firstn_all. }
  destruct Hwf as [Hwf Hfirst Hcount _]. split; [done |].
  pose proof (wf_start _ Hwf Hs) as (r & Hr & Hflag).
  apply Hcount. intros Hzero. rewrite (Hfirst Hzero) in Hr. by rewrite lookup_empty in Hr.
Qed.

(** X1.  The graph of an accepted input.  When [readInput] returns, the
    scanner has met no error and nothing but the two opening lines was
    printed; the values returned are the start room, the end room and the ant
    count of the graph, the count is at least 1, and both rooms are declared.
    Every room is stored under its own name, which is not empty and holds no
    [-] and no white-space byte, with coordinates that are not negative.
    The tunnels form a simple undirected graph on the declared rooms: both
    ends of a tunnel are declared, each lists the other, no room lists itself
    and no room lists another twice. *)
Theorem accepted_graph_well_formed (rt : Runtime) (lines : list string)
    (scanErr : option string) (out out' : Streams) (g : Graph) (s e : string) (n : Z)
    (Hrt : RuntimeOk rt)
    (Hparse : readInput rt (FileLines lines scanErr) out = Running (g, s, e, n) out') :
  scanErr = None /\ out' = opened out
  /\ s = StartRoom g /\ e = EndRoom g /\ n = AntCount g
  /\ (1 <= n <= max_int)%Z
  /\ (exists r, Rooms g !! s = Some r /\ IsStart r = true)
  /\ (exists r, Rooms g !! e = Some r /\ IsEnd r = true)
  /\ graph_wf g.
Proof.
  destruct (readInput_graph_wf _ _ _ _ _ _ _ _ _ Hrt Hparse) as [Hwf Hcount].
  apply readInput_running in Hparse
    as (st & Hrun & -> & -> & -> & -> & -> & -> & Hs & He).
  do 5 (split; [done |]). split; [done |].
  split; [by apply (wf_start _ Hwf) | split; [by apply (wf_end _ Hwf) | done]].
Qed.

Lemma accepted_graph_well_formed_witness :
  RuntimeOk go_runtime
  /\ readInput go_runtime (FileLines two_lanes None) no_output
     = Running (parsed_graph two_lanes, "S", "T", 4%Z) (parsed_output two_lanes)
  /\ graph_wf (parsed_graph two_lanes).
Proof.
  assert (Hparse : readInput go_runtime (FileLines two_lanes None) no_output
                   = Running (parsed_graph two_lanes, "S", "T", 4%Z)
                             (parsed_output two_lanes)) by (vm_compute; reflexivity).
  split; [exact go_runtime_ok |]. split; [exact Hparse |].
  exact (proj2 (proj2 (proj2 (proj2 (proj2 (proj2 (proj2 (proj2
           (accepted_graph_well_formed go_runtime two_lanes None _ _ _ _ _ _
              go_runtime_ok Hparse))))))))).
Defined.

(** *** A tunnel to a room that is not declared yet is dropped *)

Lemma read_lines_app (rt : Runtime) (pre post : list string) (st : ParseState)
    (out : Streams) :
  read_lines rt st (pre ++ post) out
  = match read_lines rt st pre out with
    | Running st' out' => read_lines rt st' post out'
    | other => other
    end.
Proof.
  revert st out. induction pre as [|l pre IH]; intros st out; [done |].
  simpl. unfold proc_bind. destruct (read_line rt st l out); try done; apply IH.
Qed.

Lemma room_line_prefix (pre post : list string) (j : nat) (name : string) :
  j < length pre -> room_line (pre ++ post) j name -> room_line pre j name.
Proof.
  intros Hj (l & xStr & yStr & (Hl & Hp & i & l0 & Hi & Hl0 & Hp0) & Hdash & Hf).
  exists l, xStr, yStr. split; [| done]. split; [| split; [done |]].
  - by rewrite lookup_app_l in Hl.
  - exists i, l0. split; [done |]. split; [| done].
    rewrite lookup_app_l in Hl0; [done | lia].
Qed.

Lemma undeclared_tunnel_line (rt : Runtime) (pre : list string) (st : ParseState)
    (line a b : string) (out : Streams) :
  RuntimeOk rt ->
  read_lines rt initial_parse_state pre out = Running st out ->
  HasPrefix line "#" = false -> Contains line "-" = true ->
  Split line "-" = [a; b] -> a <> b ->
  (exists l0, l0 ∈ pre /\ HasPrefix l0 "#" = false) ->
  (forall j, ~ room_line pre j a) \/ (forall j, ~ room_line pre j b) ->
  read_line rt st line out = Running st out.
Proof.
  intros Hrt Hrun Hp Hdash Hsplit Hab (l0 & Hl0 & Hp0) Hundecl.
  assert (Hinv : parse_inv pre (length pre) st).
  { eapply parse_inv_prefix; [done |]. by rewrite firstn_all. }
  assert (Hwf : parse_wf pre (length pre) st).
  { eapply (parse_wf_prefix rt); [done | done |]. by rewrite firstn_all. }
  assert (Hnz : lineNumber st <> 0).
  { intros Hz. apply list_elem_of_lookup in Hl0 as [i Hi].
    pose proof (pi_first _ _ _ Hinv Hz i l0 (lookup_lt_Some _ _ _ Hi) Hi) as Hc.
    by rewrite Hp0 in Hc. }
  assert (Hmissing : Rooms (graph st) !! a = None \/ Rooms (graph st) !! b = None).
  { destruct Hundecl as [Ha | Hb]; [left | right]; apply eq_None_not_Some; intros Hsome;
      destruct (pw_declared _ _ _ Hwf _ Hsome) as (j & _ & Hroom); naive_solver. }
  assert (Hnew : connection_exists rt (graph st) a b = false).
  { apply not_true_iff_false. rewrite (connection_exists_spec rt _ a b Hrt).
    intros Hex.
    assert (Hboth : is_Some (Rooms (graph st) !! a) /\ is_Some (Rooms (graph st) !! b)).
    { destruct Hex as [Hex | Hex];
        destruct (wf_adj_rooms _ (pw_graph _ _ _ Hwf) _ _ Hex); done. }
    destruct Hboth as [[ra Ha] [rb Hb]]. destruct Hmissing; congruence. }
  unfold read_line. rewrite Hp.
  destruct (Nat.eqb (lineNumber st) 0) eqn:Hln; [by apply Nat.eqb_eq in Hln |].
  rewrite Hdash, Hsplit.
  destruct (String.eqb a b) eqn:Heq; [by apply String.eqb_eq in Heq |].
  rewrite Hnew. unfold proc_ret.
  assert (Hfail : exists msg, AddConnection (graph st) a b = inl msg).
  { unfold AddConnection. destruct (Rooms (graph st) !! a) eqn:Ha; [| by eexists].
    destruct (Rooms (graph st) !! b) eqn:Hb; [| by eexists].
    destruct Hmissing; congruence. }
  destruct Hfail as (msg & ->). by destruct st.
Qed.

(** X3.  A tunnel line [a-b] with [a <> b], standing after the line of the ant
    count, that names a room no earlier line declares, has no effect: the
    error that [AddConnection] returns is dropped, nothing is printed, and
    the parser ends as on the file without this line. *)
Theorem undeclared_tunnel_ignored (rt : Runtime) (pre post : list string)
    (line a b : string) (scanErr : option string) (out : Streams)
    (Hrt : RuntimeOk rt)
    (Hline : HasPrefix line "#" = false /\ Contains line "-" = true
             /\ Split line "-" = [a; b] /\ a <> b)
    (Hcount : exists l0, l0 ∈ pre /\ HasPrefix l0 "#" = false)
    (Hundeclared : (forall j, ~ room_line pre j a) \/ (forall j, ~ room_line pre j b)) :
  readInput rt (FileLines (pre ++ line :: post) scanErr) out
  = readInput rt (FileLines (pre ++ post) scanErr) out.
Proof.
  destruct Hline as (Hp & Hdash & Hsplit & Hab).
  rewrite !readInput_lines, !read_lines_app.
  destruct (read_lines_outcome rt pre initial_parse_state (opened out))
    as [(st & Hrun) | (code & o & Hrun)]; rewrite Hrun; [| done].
  simpl. unfold proc_bind.
  by rewrite (undeclared_tunnel_line rt pre st line a b (opened out)).
Qed.

Lemma undeclared_tunnel_ignored_witness :
  Split "B -1 0" "-" = ["B "; "1 0"]
  /\ readInput go_runtime
       (FileLines (["1"; "##start"; "A 0 0"] ++ "B -1 0" :: ["##end"; "C 1 0"; "A-C"]) None)
       no_output
     = readInput go_runtime
         (FileLines (["1"; "##start"; "A 0 0"] ++ ["##end"; "C 1 0"; "A-C"]) None)
         no_output.
Proof.
  split; [reflexivity |].
  apply (undeclared_tunnel_ignored go_runtime ["1"; "##start"; "A 0 0"]
           ["##end"; "C 1 0"; "A-C"] "B -1 0" "B " "1 0" None no_output go_runtime_ok).
  - repeat split; done.
  - exists "1". split; [apply list_elem_of_here | done].
  - left. intros j (l & xStr & yStr & (Hl & _) & _ & Hf).
    destruct j as [|[|[|j]]]; simpl in Hl; inversion Hl; subst l; vm_compute in Hf;
      congruence.
Defined.

(** *** Malformed lines *)

Lemma well_formed_line (rt : Runtime) (st st' : ParseState) (l : string)
    (out out' : Streams) :
  read_line rt st l out = Running st' out' ->
  HasPrefix l "#" = false -> lineNumber st <> 0 -> ~ malformed l.
Proof.
  intros Hrun Hp Hnz.
  apply read_line_running in Hrun as [_ Hcases].
  destruct Hcases as [(Hp' & _) | [(_ & Hzero & _)
    | [(_ & _ & Hdash & a & b & Hsplit & _)
    | (_ & _ & Hdash & name & xStr & yStr & x & y & g' & Hf & Hx & Hy & _)]]];
    [congruence | done | |].
  - intros [[_ Hlen] | [Hno _]]; [| congruence]. by rewrite Hsplit in Hlen.
  - intros [[Hyes _] | [_ [Hlen | (name' & x' & y' & Hf' & Hbad)]]]; [congruence | |].
    + by rewrite Hf in Hlen.
    + rewrite Hf in Hf'. inversion Hf'; subst. destruct Hbad; congruence.
Qed.

Lemma scan_rejects_malformed (rt : Runtime) (lines : list string) (st : ParseState)
    (out : Streams) :
  has_malformed_line lines ->
  read_lines rt initial_parse_state lines out = Running st out -> False.
Proof.
  intros Hbad Hrun. destruct Hbad as [(i & l & (Hl & Hp & Hfirst) & Hatoi)
                                     | (j & l & Hdata & Hbad)].
  - destruct (read_lines_prefix rt lines _ st out i l Hrun Hl)
      as (sti & sti' & Hpre & Hline & _).
    assert (Hinv : parse_inv lines i sti).
    { eapply parse_inv_prefix; [| done]. apply lookup_lt_Some in Hl. lia. }
    assert (Hzero : lineNumber sti = 0).
    { destruct (decide (lineNumber sti = 0)) as [| Hnz]; [done |].
      destruct (pi_later _ _ _ Hinv Hnz) as (k & l0 & Hk & Hl0 & Hp0).
      rewrite (Hfirst k l0 Hk Hl0) in Hp0. done. }
    apply read_line_running in Hline as [_ Hcases].
    destruct Hcases as [(Hp' & _) | [(_ & _ & n & Hn & _) | [(_ & Hnz & _) | (_ & Hnz & _)]]];
      congruence.
  - pose proof Hdata as (Hl & Hp & _).
    destruct (read_lines_prefix rt lines _ st out j l Hrun Hl)
      as (stj & stj' & Hpre & Hline & _).
    assert (Hinv : parse_inv lines j stj).
    { eapply parse_inv_prefix; [| done]. apply lookup_lt_Some in Hl. lia. }
    destruct (data_line_running rt lines j l stj stj' out Hinv Hdata Hline) as [_ Hnz].
    by apply (well_formed_line rt stj stj' l out out Hline Hp Hnz).
Qed.

(** X4.  A file whose ant-count line is not a number, or in which a later
    line that is not a comment is malformed (a line with [-] that does not
    split in two parts; a line without [-] that does not have three fields,
    or whose second or third field is not a number), ends the process in
    the parser, before any routing runs. *)
Theorem malformed_input_rejected (rt : Runtime) (fuel : nat) (exampleFile : string)
    (args : list string) (fs : string -> FileRead) (lines : list string)
    (scanErr : option string)
    (Hfile : fs exampleFile = FileLines lines scanErr)
    (Hbad : has_malformed_line lines) :
  exists code out,
    readInput rt (fs exampleFile) {| stdout := ""; stderr := "" |} = Exited code out
    /\ main rt fuel (exampleFile :: args) fs = Exited code out.
Proof.
  unfold main, main_body, proc_bind. rewrite Hfile, readInput_lines.
  destruct (read_lines_outcome rt lines initial_parse_state
              (opened {| stdout := ""; stderr := "" |}))
    as [(st & Hrun) | (c & o & Hrun)]; rewrite Hrun.
  - by destruct (scan_rejects_malformed rt lines st _ Hbad Hrun).
  - by exists c, o.
Qed.

Lemma malformed_input_rejected_witness :
  has_malformed_line ["1"; "##start"; "A 0 0"; "##end"; "B one 0"; "A-B"]
  /\ exists code out,
       readInput go_runtime
         (FileLines ["1"; "##start"; "A 0 0"; "##end"; "B one 0"; "A-B"] None)
         {| stdout := ""; stderr := "" |} = Exited code out
       /\ main go_runtime 10 ["farm.txt"]
            (fun _ => FileLines ["1"; "##start"; "A 0 0"; "##end"; "B one 0"; "A-B"] None)
          = Exited code out.
Proof.
  assert (Hbad : has_malformed_line ["1"; "##start"; "A 0 0"; "##end"; "B one 0"; "A-B"]).
  { right. exists 4, "B one 0". split.
    - split; [reflexivity |]. split; [reflexivity |].
      exists 0, "1". split; [lia |]. split; reflexivity.
    - right. split; [reflexivity |]. right. exists "B", "one", "0".
      split; [reflexivity |]. left. reflexivity. }
  split; [exact Hbad |].
  exact (malformed_input_rejected go_runtime 10 "farm.txt" []
           (fun _ => FileLines ["1"; "##start"; "A 0 0"; "##end"; "B one 0"; "A-B"] None)
           _ None eq_refl Hbad).
Defined.

(** *** How the parser rejects *)

Lemma read_line_error (rt : Runtime) (st : ParseState) (l : string) (out out' : Streams)
    (code : Z) :
  read_line rt st l out = Exited code out' ->
  (exists msg, out' = with_error out msg) /\ (code = 0%Z \/ code = 1%Z).
Proof.
  unfold read_line, proc_bind, println, print, exit, proc_ret, with_error, newline.
  repeat case_match; intros Hexit; inversion Hexit; subst;
    (split; [eexists; simpl; reflexivity | auto]).
Qed.

Lemma read_lines_error (rt : Runtime) (lines : list string) (st : ParseState)
    (out out' : Streams) (code : Z) :
  read_lines rt st lines out = Exited code out' ->
  (exists msg, out' = with_error out msg) /\ (code = 0%Z \/ code = 1%Z).
Proof.
  revert st. induction lines as [|l lines IH]; intros st; simpl; [done |].
  unfold proc_bind.
  destruct (read_line_outcome rt st l out) as [(st' & ->) | (c & o & Hl)].
  - apply IH.
  - rewrite Hl. intros H. inversion H; subst. by eapply read_line_error.
Qed.

(** X5.  When the parser ends the process on a file that could be opened, it
    has printed, after the two opening lines, exactly one more line to the
    standard output, which starts with [ERROR: ]; the exit status is 0 or 1. *)
Theorem rejection_prints_one_error (rt : Runtime) (lines : list string)
    (scanErr : option string) (out out' : Streams) (code : Z)
    (Hexit : readInput rt (FileLines lines scanErr) out = Exited code out') :
  (exists msg, out' = with_error (opened out) msg) /\ (code = 0%Z \/ code = 1%Z).
Proof.
  rewrite readInput_lines in Hexit.
  destruct (read_lines_outcome rt lines initial_parse_state (opened out))
    as [(st & Hrun) | (c & o & Hrun)]; rewrite Hrun in Hexit.
  - destruct scanErr as [msg|].
    + inversion Hexit; subst. split; [by exists msg | by left].
    + destruct (_ || _); [| done]. inversion Hexit; subst.
      split; [by exists "missing start or end room" | by left].
  - inversion Hexit; subst. by eapply read_lines_error.
Qed.

Lemma rejection_prints_one_error_witness :
  readInput go_runtime (FileLines self_loop_lines None) no_output
  = Exited 0 (with_error (opened no_output) "self referencing room: A-A")
  /\ exists msg,
       with_error (opened no_output) "self referencing room: A-A"
       = with_error (opened no_output) msg.
Proof.
  assert (H : readInput go_runtime (FileLines self_loop_lines None) no_output
              = Exited 0 (with_error (opened no_output) "self referencing room: A-A"))
    by (vm_compute; reflexivity).
  split; [exact H |].
  exact (proj1 (rejection_prints_one_error go_runtime self_loop_lines None no_output
                  _ _ H)).
Defined.

(** ** The path finder *)

(** *** The path finder finds every path *)

Lemma open_route_ext (g : Graph) (v v' : gmap string bool) (q : path) :
  (forall r, is_visited v' r = is_visited v r) ->
  open_route g v q -> open_route g v' q.
Proof.
  intros Hext (Hnd & Hlast & Hfresh & Hchain). repeat split; try done.
  eapply Forall_impl; [exact Hfresh |]. simpl. intros r Hr. by rewrite Hext.
Qed.

Lemma dfs_neighbours_exact (g : Graph) (pre : path)
    (visit : string -> gmap string bool -> list path -> option (gmap string bool * list path))
    (ns : list string) (v : gmap string bool) (all : list path)
    (res : gmap string bool * list path) :
  (forall n v0 a0 res0, is_visited v0 n = false -> visit n v0 a0 = Some res0 ->
                        dfs_exact g n v0 pre a0 res0) ->
  dfs_neighbours visit ns v all = Some res ->
  (forall r, is_visited res.1 r = is_visited v r)
  /\ exists new,
       res.2 = all ++ new
       /\ (forall p, p ∈ new <-> exists n q, n ∈ ns /\ p = pre ++ q /\ head q = Some n
                                             /\ open_route g v q)
       /\ (NoDup ns -> (forall a, NoDup (adj g a)) -> NoDup new).
Proof.
  intros Hvisit. revert v all.
  induction ns as [|n rest IH]; intros v all Hrun; simpl in Hrun.
  - inversion Hrun; subst; simpl. split; [done |]. exists [].
    split; [by rewrite app_nil_r |]. split; [| intros; constructor].
    intros p. split; [by intros ?%elem_of_nil |].
    intros (n & q & Hn & _). by apply elem_of_nil in Hn.
  - fold (is_visited v n) in Hrun.
    destruct (is_visited v n) eqn:Hvn; simpl in Hrun.
    + apply IH in Hrun as [Hreads (new & Hall & Hnew & Hnd)].
      split; [done |]. exists new. split; [done |]. split.
      * intros p. rewrite Hnew. split.
        -- intros (n' & q & Hn' & Hrest). exists n', q.
           split; [by apply list_elem_of_further | done].
        -- intros (n' & q & Hn' & Hp & Hhead & Hopen). exists n', q.
           split; [| done]. apply elem_of_cons in Hn' as [-> | Hn']; [| done].
           destruct Hopen as (_ & _ & Hfresh & _). destruct q as [|x q]; [done |].
           simpl in Hhead. inversion Hhead; subst x.
           apply Forall_cons in Hfresh as [Hfresh _]. congruence.
      * intros Hns. apply Hnd. by apply NoDup_cons in Hns as [_ ?].
    + destruct (visit n v all) as [[v1 all1]|] eqn:Hcall; [| done].
      apply Hvisit in Hcall as [Hreads (new1 & Hall1 & Hnew1 & Hnd1)]; [| done].
      simpl in Hreads, Hall1.
      apply IH in Hrun as [Hreads2 (new2 & Hall2 & Hnew2 & Hnd2)].
      split; [intros r; by rewrite Hreads2, Hreads |].
      exists (new1 ++ new2). split; [by rewrite Hall2, Hall1, app_assoc |].
      split.
      * intros p. rewrite elem_of_app, Hnew1, Hnew2. split.
        -- intros [(q & Hp & Hhead & Hopen) | (n' & q & Hn' & Hp & Hhead & Hopen)].
           ++ exists n, q. split; [apply list_elem_of_here | done].
           ++ exists n', q. split; [by apply list_elem_of_further |].
              split; [done |]. split; [done |].
              apply (open_route_ext g v1); [| done]. intros r. by rewrite Hreads.
        -- intros (n' & q & Hn' & Hp & Hhead & Hopen).
           apply elem_of_cons in Hn' as [-> | Hn'].
           ++ left. by exists q.
           ++ right. exists n', q. do 3 (split; [done |]).
              by apply (open_route_ext g v).
      * intros Hns Hadj. apply NoDup_cons in Hns as [Hn Hns].
        apply NoDup_app. split; [by apply Hnd1 |]. split; [| by apply Hnd2].
        intros p Hp1 Hp2.
        apply Hnew1 in Hp1 as (q1 & -> & Hhead1 & _).
        apply Hnew2 in Hp2 as (n' & q2 & Hn' & Heq & Hhead2 & _).
        apply app_inv_head in Heq. subst q2. congruence.
Qed.

Lemma last_cons_nonempty {A : Type} (x : A) (l : list A) :
  l <> [] -> last (x :: l) = last l.
Proof. by destruct l. Qed.

Lemma findAllPaths_exact (fuel : nat) (g : Graph) (cur : string)
    (v : gmap string bool) (pre : path) (all : list path)
    (res : gmap string bool * list path) :
  is_visited v cur = false ->
  findAllPaths fuel g cur v pre all = Some res ->
  dfs_exact g cur v pre all res.
Proof.
  revert cur v pre all res.
  induction fuel as [|fuel IH]; intros cur v pre all res Hcur Hrun; [done |].
  pose proof (findAllPaths_spec _ _ _ _ _ _ _ Hcur Hrun) as [Hreads _].
  split; [done |]. clear Hreads. simpl in Hrun.
  destruct (String.eqb cur (EndRoom g)) eqn:Hend.
  - apply String.eqb_eq in Hend. inversion Hrun; subst; clear Hrun. simpl.
    exists [pre ++ [EndRoom g]]. split; [done |]. split.
    + intros p. rewrite list_elem_of_singleton. split.
      * intros ->. exists [EndRoom g]. do 2 (split; [done |]).
        split; [apply NoDup_singleton |]. split; [done |].
        split; [by repeat constructor |]. simpl. split; [by intros b Hb | done].
      * intros (q & -> & Hhead & Hnd & Hlast & _).
        destruct q as [|x q]; [done |]. simpl in Hhead. inversion Hhead; subst x.
        destruct q as [|y q]; [done |].
        rewrite last_cons_nonempty in Hlast by done.
        apply NoDup_cons in Hnd as [Hnotin _]. destruct Hnotin.
        by apply last_Some_elem_of.
    + intros _. apply NoDup_singleton.
  - apply String.eqb_neq in Hend.
    destruct (dfs_neighbours _ _ _ _) as [[v2 all2]|] eqn:Hloop; [| done].
    inversion Hrun; subst; clear Hrun. simpl.
    apply (dfs_neighbours_exact g (pre ++ [cur])) in Hloop
      as [_ (new & Hall & Hnew & Hnd)].
    2:{ intros n v0 a0 res0 Hn Hcall. by apply IH. }
    simpl in Hall. exists new. split; [done |]. split.
    + intros p. rewrite Hnew. fold (adj g cur). split.
      * intros (n & q & Hn & -> & Hhead & Hnd' & Hlast & Hfresh & Hchain).
        exists (cur :: q). rewrite <- app_assoc. split; [done |]. split; [done |].
        assert (Hq : q <> []) by (by destruct q).
        repeat split.
        -- apply NoDup_cons. split; [| done]. intros Hin.
           rewrite Forall_forall in Hfresh. specialize (Hfresh cur Hin).
           rewrite is_visited_insert in Hfresh. by destruct (decide (cur = cur)).
        -- by rewrite last_cons_nonempty.
        -- constructor; [done |]. eapply Forall_impl; [exact Hfresh |]. simpl.
           intros r Hr. rewrite is_visited_insert in Hr. by destruct (decide (cur = r)).
        -- intros b Hb. congruence.
        -- done.
      * intros (q & -> & Hhead & Hnd' & Hlast & Hfresh & Hchain).
        destruct q as [|x q]; [done |]. simpl in Hhead. inversion Hhead; subst x.
        destruct q as [|n q]; [simpl in Hlast; congruence |].
        destruct Hchain as [Hstep Hchain].
        apply NoDup_cons in Hnd' as [Hnotin Hnd'].
        apply Forall_cons in Hfresh as [_ Hfresh].
        exists n, (n :: q). split; [by apply Hstep |].
        split; [by rewrite <- app_assoc |]. split; [done |].
        do 2 (split; [done |]). split; [| done].
        rewrite Forall_forall in *. intros r Hr. rewrite is_visited_insert.
        destruct (decide (cur = r)) as [<- | _]; [done | by apply Hfresh].
    + intros Hadj. apply Hnd; [exact (Hadj cur) | done].
Qed.

Lemma strongly_sorted_by_length (rt : Runtime) (l : list path) :
  RuntimeOk rt ->
  StronglySorted (fun p q : path => length p <= length q)
    (sortSlice rt path (fun p q => Nat.ltb (length p) (length q)) l).
Proof. intros Hrt. apply (sort_sorted rt Hrt path (@length string)). Qed.

Lemma findShortestPaths_exact (rt : Runtime) (g : Graph) (s : string) (fuel : nat)
    (paths : list path) :
  RuntimeOk rt ->
  findShortestPaths rt fuel g s = Some paths ->
  (forall p, p ∈ paths <-> route_of g s p)
  /\ StronglySorted (fun p q : path => length p <= length q) paths
  /\ ((forall a, NoDup (adj g a)) -> NoDup paths).
Proof.
  intros Hrt Hrun. unfold findShortestPaths in Hrun.
  destruct (findAllPaths fuel g s ∅ [] []) as [[v all]|] eqn:Hdfs; [| done].
  inversion Hrun; subst paths; clear Hrun.
  apply findAllPaths_exact in Hdfs as [_ (new & Hall & Hnew & Hnd)]; [| done].
  simpl in Hall. subst all.
  pose proof (sort_perm rt Hrt path (fun p q => Nat.ltb (length p) (length q)) new)
    as Hperm.
  split; [| split].
  - intros p. rewrite Hperm, Hnew. split.
    + intros (q & -> & Hhead & Hnd' & Hlast & _ & Hchain). by repeat split.
    + intros (Hhead & Hlast & Hnd' & Hchain). exists p. repeat split; try done.
      apply Forall_forall. intros r _. done.
  - by apply strongly_sorted_by_length.
  - intros Hadj. rewrite Hperm. by apply Hnd.
Qed.

(** X6.  The list that [findShortestPaths] returns holds exactly the paths
    that lead through tunnels of the graph from the start room to the end
    room and enter no room twice; it is ordered by length, shortest first;
    and it holds no path twice when no room lists a neighbour twice. *)
Theorem findShortestPaths_complete (rt : Runtime) (g : Graph) (s : string)
    (Hrt : RuntimeOk rt) :
  (exists paths, findShortestPaths rt (dfs_fuel g s) g s = Some paths)
  /\ forall fuel paths,
       findShortestPaths rt fuel g s = Some paths ->
       (forall p, p ∈ paths <-> route_of g s p)
       /\ StronglySorted (fun p q : path => length p <= length q) paths
       /\ ((forall a, NoDup (adj g a)) -> NoDup paths).
Proof.
  split; [apply findShortestPaths_terminates |].
  intros fuel paths Hrun. by apply (findShortestPaths_exact rt g s fuel).
Qed.

Lemma findShortestPaths_complete_witness :
  RuntimeOk go_runtime
  /\ findShortestPaths go_runtime 10 (parsed_graph two_lanes) "S" = Some lane_paths
  /\ forall p, p ∈ lane_paths <-> route_of (parsed_graph two_lanes) "S" p.
Proof.
  assert (H : findShortestPaths go_runtime 10 (parsed_graph two_lanes) "S"
              = Some lane_paths) by (vm_compute; reflexivity).
  split; [exact go_runtime_ok |]. split; [exact H |].
  exact (proj1 (proj2 (findShortestPaths_complete go_runtime (parsed_graph two_lanes) "S"
                         go_runtime_ok) 10 lane_paths H)).
Defined.

(** ** The solution groups *)

(** *** Compatibility is symmetric *)

(** X7.  [solutionsCompatible] does not depend on the order of its two
    paths, although only the rooms of the first are tested against the end
    points; and a path is compatible with itself only when it is made of the
    start and the end room alone. *)
Theorem solutionsCompatible_sym (p q : path) (s e : string) :
  solutionsCompatible p q s e = solutionsCompatible q p s e
  /\ (solutionsCompatible p p s e = true <-> Forall (fun r => r = s \/ r = e) p).
Proof.
  split.
  - apply Bool.eq_true_iff_eq. rewrite !solutionsCompatible_spec.
    split; apply internally_disjoint_sym.
  - rewrite solutionsCompatible_spec, Forall_forall. unfold internally_disjoint.
    split; intros H r Hr; [by apply H | intros _; by apply H].
Qed.

(** *** The groups: one per path, seeded and maximal *)

Lemma group_loop_extends (i j : nat) (rest group : list path) (s e : string) :
  exists sel,
    group_loop i j rest group s e = group ++ sel
    /\ sublist sel rest
    /\ forall k q, rest !! k = Some q ->
         q ∈ group ++ sel
         \/ j + k = i
         \/ exists p, p ∈ group ++ sel /\ ~ internally_disjoint p q s e.
Proof.
  revert j group. induction rest as [|path2 rest IH]; intros j group; simpl.
  - exists []. rewrite app_nil_r. split; [done |]. split; [done |]. intros k q Hk. done.
  - destruct (Nat.eqb i j) eqn:Hij.
    + apply Nat.eqb_eq in Hij. subst j.
      destruct (IH (S i) group) as (sel & Heq & Hsub & Hmax).
      exists sel. split; [done |]. split; [by apply sublist_cons |].
      intros [|k] q Hk; simpl in Hk.
      * right; left. lia.
      * destruct (Hmax k q Hk) as [H | [H | H]]; [by left | right; left; lia | by right; right].
    + apply Nat.eqb_neq in Hij.
      destruct (solutionCompatibleWithGroup path2 group s e) eqn:Hc.
      * destruct (IH (S j) (group ++ [path2])) as (sel & Heq & Hsub & Hmax).
        exists (path2 :: sel). rewrite Heq, <- app_assoc. simpl.
        split; [done |]. split; [by apply sublist_skip |].
        intros [|k] q Hk; simpl in Hk.
        -- inversion Hk; subst q. left. apply elem_of_app. right. apply list_elem_of_here.
        -- rewrite <- app_assoc in Hmax. simpl in Hmax.
           destruct (Hmax k q Hk) as [H | [H | H]];
             [by left | right; left; lia | by right; right].
      * destruct (IH (S j) group) as (sel & Heq & Hsub & Hmax).
        exists sel. split; [done |]. split; [by apply sublist_cons |].
        intros [|k] q Hk; simpl in Hk.
        -- inversion Hk; subst q. right; right.
           assert (Hnot : ~ Forall (fun p => internally_disjoint p path2 s e) group).
           { rewrite <- solutionCompatibleWithGroup_spec. by rewrite Hc. }
           apply not_Forall_Exists in Hnot.
           ++ apply Exists_exists in Hnot as (p & Hp & Hbad).
              exists p. split; [| done]. apply elem_of_app. by left.
           ++ intros p. destruct (solutionsCompatible p path2 s e) eqn:Hpc.
              ** left. by apply solutionsCompatible_spec.
              ** right. rewrite <- solutionsCompatible_spec. by rewrite Hpc.
        -- destruct (Hmax k q Hk) as [H | [H | H]];
             [by left | right; left; lia | by right; right].
Qed.

(** X8.  [calculateSolutionGroups] returns one group per path.  The group
    at index [i] starts with the path at index [i]; its other members are
    taken from the paths in their order; and it is maximal: every path is in
    the group or shares an inner room with a member of the group. *)
Theorem solution_groups_seeded_maximal (paths : list path) (s e : string) :
  length (calculateSolutionGroups paths s e) = length paths
  /\ forall i group,
       calculateSolutionGroups paths s e !! i = Some group ->
       exists seed others,
         paths !! i = Some seed
         /\ group = seed :: others
         /\ sublist others paths
         /\ forall q, q ∈ paths ->
              q ∈ group \/ exists p, p ∈ group /\ ~ internally_disjoint p q s e.
Proof.
  unfold calculateSolutionGroups.
  destruct (Nat.leb (length paths) 1) eqn:Hle.
  - apply Nat.leb_le in Hle. destruct paths as [|p [|q rest]]; simpl in *; [| | lia].
    + split; [done |]. intros i group Hi. by destruct i.
    + split; [done |]. intros [|i] group Hi; simpl in Hi; [| done].
      inversion Hi; subst group. exists p, []. repeat split; try done.
      * apply sublist_nil_l.
      * intros q Hq. by left.
  - split; [by rewrite length_imap |].
    intros i group Hi. rewrite list_lookup_imap in Hi.
    destruct (paths !! i) as [seed|] eqn:Hseed; simpl in Hi; [| done].
    inversion Hi; subst group. clear Hi.
    destruct (group_loop_extends i 0 paths [seed] s e) as (sel & Heq & Hsub & Hmax).
    exists seed, sel. rewrite Heq. simpl. repeat split; try done.
    intros q Hq. apply list_elem_of_lookup in Hq as [k Hk].
    destruct (Hmax k q Hk) as [H | [H | H]]; [by left | | by right].
    left. simpl in H. subst k. rewrite Hseed in Hk. inversion Hk; subst q.
    apply list_elem_of_here.
Qed.

(** ** The ant distributor *)

(** *** More ants never re-route the earlier ones *)

Lemma distribute_loop_app (paths : list path) (n m k : nat)
    (st : list nat * gmap nat path) :
  distribute_loop paths (n + m) k st
  = match distribute_loop paths n k st with
    | None => None
    | Some st' => distribute_loop paths m (k + n) st'
    end.
Proof.
  revert k st. induction n as [|n IH]; intros k st; simpl.
  - by rewrite Nat.add_0_r.
  - destruct (distribute_step paths k st) as [st'|]; [| done].
    rewrite IH. by replace (S k + n) with (k + S n) by lia.
Qed.

Lemma distribute_loop_frame (paths : list path) (n k : nat)
    (st st' : list nat * gmap nat path) :
  distribute_loop paths n k st = Some st' ->
  forall j, j < k \/ k + n <= j -> st'.2 !! j = st.2 !! j.
Proof.
  revert k st. induction n as [|n IH]; intros k st Hrun j Hj; simpl in Hrun.
  - by inversion Hrun.
  - destruct (distribute_step paths k st) as [st1|] eqn:Hstep; [| done].
    rewrite (IH _ _ Hrun j) by lia.
    unfold distribute_step in Hstep. destruct st as [loads a].
    repeat case_match; simplify_eq. simpl. apply lookup_insert_ne. lia.
Qed.

(** X9.  The assignment for [n + m] ants extends the assignment for [n]
    ants: whenever the distributor returns for [n + m] ants it returns for
    [n] ants, and the first [n] ants keep their paths. *)
Theorem distributeAnts_extends (paths : list path) (n m : nat) (more : gmap nat path)
    (Hmore : distributeAnts paths (n + m) = Some more) :
  exists fewer,
    distributeAnts paths n = Some fewer
    /\ fewer ⊆ more
    /\ forall k, k <= n -> more !! k = fewer !! k.
Proof.
  unfold distributeAnts in *. rewrite distribute_loop_app in Hmore.
  destruct (distribute_loop paths n 1 (initial_loads paths, ∅)) as [[loads fewer]|] eqn:Hn;
    [| done].
  destruct (distribute_loop paths m (1 + n) (loads, fewer)) as [[loads' a']|] eqn:Hm;
    [| done].
  inversion Hmore; subst a'. exists fewer. split; [done |].
  pose proof (distribute_loop_frame _ _ _ _ _ Hn) as Hfew.
  pose proof (distribute_loop_frame _ _ _ _ _ Hm) as Hmo. simpl in *.
  assert (Hkeep : forall k, k <= n -> more !! k = fewer !! k).
  { intros k Hk. apply Hmo. lia. }
  split; [| done].
  apply map_subseteq_spec. intros k p Hk.
  destruct (decide (k <= n)) as [Hle | Hgt]; [by rewrite Hkeep |].
  rewrite Hfew in Hk by lia. by rewrite lookup_empty in Hk.
Qed.

Lemma distributeAnts_extends_witness :
  distributeAnts lane_paths (2 + 2) = Some lane_assignment
  /\ exists fewer,
       distributeAnts lane_paths 2 = Some fewer
       /\ fewer ⊆ lane_assignment
       /\ forall k, k <= 2 -> lane_assignment !! k = fewer !! k.
Proof.
  assert (H : distributeAnts lane_paths (2 + 2) = Some lane_assignment)
    by (vm_compute; reflexivity).
  split; [exact H |]. exact (distributeAnts_extends lane_paths 2 2 lane_assignment H).
Defined.

(** *** The distributor keeps the paths balanced *)

(** X10.  The split that [distributeAnts] reaches is balanced: a path that
    got an ant has a load (its length plus its ants) at most one above the
    load of any other path, so no ant would arrive earlier on another
    path. *)
Theorem distributeAnts_balanced (paths : list path) (ants : nat)
    (Hpaths : paths <> []) :
  exists idx assignment,
    length idx = ants
    /\ distributeAnts paths ants = Some assignment
    /\ (forall t i, idx !! t = Some i ->
          exists p, paths !! i = Some p /\ assignment !! (S t) = Some p)
    /\ forall i j pi pj,
         i ∈ idx -> paths !! i = Some pi -> paths !! j = Some pj ->
         length pi + ants_on idx i <= length pj + ants_on idx j + 1.
Proof.
  destruct (distributeAnts_trace paths ants Hpaths)
    as (idx & assignment & Hlen & Hrun & Htrace & _).
  exists idx, assignment. do 2 (split; [done |]). split.
  - intros t i Hi. by destruct (Htrace t i Hi).
  - intros i j pi pj Hi Hpi Hpj.
    assert (Hbal : balanced paths idx).
    { apply balanced_trace. intros t k Hk. by destruct (Htrace t k Hk). }
    apply (Hbal i j (length pi + ants_on idx i) (length pj + ants_on idx j) Hi);
      rewrite loads_of_lookup; [by rewrite Hpi | by rewrite Hpj].
Qed.

Lemma distributeAnts_balanced_witness :
  lane_paths <> []
  /\ exists idx assignment,
       length idx = 4
       /\ distributeAnts lane_paths 4 = Some assignment
       /\ (forall t i, idx !! t = Some i ->
             exists p, lane_paths !! i = Some p /\ assignment !! (S t) = Some p)
       /\ forall i j pi pj,
            i ∈ idx -> lane_paths !! i = Some pi -> lane_paths !! j = Some pj ->
            length pi + ants_on idx i <= length pj + ants_on idx j + 1.
Proof.
  split; [done |]. apply (distributeAnts_balanced lane_paths 4). done.
Defined.

(** ** The turn simulator *)

(** *** The moves of a turn are listed by ant id *)

Lemma ant_step_ids (e : string) (st : TurnState) (a : AntAssignment) :
  exists new, map fst (moveStrings (ant_step e st a)) = map fst (moveStrings st) ++ new
              /\ sublist new [AntID a].
Proof.
  destruct (can_move st a) eqn:Hmove.
  - rewrite (ant_step_move e st a Hmove). simpl. exists [AntID a].
    split; [by rewrite map_app | done].
  - rewrite (ant_step_stay e st a Hmove). simpl. exists [].
    split; [by rewrite app_nil_r | apply sublist_nil_l].
Qed.

Lemma turn_ids (e : string) (l : list AntAssignment) (st : TurnState) :
  exists new, map fst (moveStrings (foldl (ant_step e) st l))
              = map fst (moveStrings st) ++ new
              /\ sublist new (map AntID l).
Proof.
  revert st. induction l as [|a l IH]; intros st; simpl.
  - exists []. split; [by rewrite app_nil_r | done].
  - destruct (IH (ant_step e st a)) as (new2 & Heq2 & Hsub2).
    destruct (ant_step_ids e st a) as (new1 & Heq1 & Hsub1).
    exists (new1 ++ new2). rewrite Heq2, Heq1, <- app_assoc. split; [done |].
    by apply (sublist_app new1 [AntID a] new2 (map AntID l)).
Qed.

Lemma turn_loop_turns (P : list (nat * string) -> Prop) (fuel : nat) (e : string)
    (assignments : list AntAssignment) (positions : gmap nat nat)
    (full : gmap string bool) (log final : list (list (nat * string))) :
  (forall positions full, P (moveStrings (run_turn e assignments positions full))) ->
  Forall P log ->
  turn_loop fuel e assignments positions full log = Some final ->
  Forall P final.
Proof.
  intros Hturn. revert positions full log.
  induction fuel as [|fuel IH]; intros positions full log Hlog Hrun; simpl in Hrun; [done |].
  set (st := run_turn e assignments positions full) in *.
  assert (Hlog' : Forall P (if Nat.ltb 0 (length (moveStrings st))
                            then log ++ [moveStrings st] else log)).
  { destruct (Nat.ltb 0 (length (moveStrings st))); [| done].
    apply Forall_app. split; [done |]. constructor; [apply Hturn | constructor]. }
  destruct (Nat.eqb (finishedAnts st) (length assignments)).
  - by inversion Hrun; subst.
  - by eapply IH.
Qed.

Lemma sorted_ids_strict (rt : Runtime) (assignment : gmap nat path) :
  RuntimeOk rt ->
  StronglySorted lt (map AntID (sorted_assignments rt assignment)).
Proof.
  intros Hrt. destruct (sorted_assignments_spec rt assignment Hrt) as [Hnd _].
  pose proof (sort_sorted rt Hrt AntAssignment AntID
                (map (fun e => {| AntID := e.1; Path := e.2 |})
                     (rangeAssignment rt assignment))) as Hs.
  fold (sorted_assignments rt assignment) in Hs.
  induction Hs as [|a l Hl IH Hall]; simpl; [constructor |].
  apply NoDup_cons in Hnd as [Hnotin Hnd]. constructor; [by apply IH |].
  apply Forall_forall. intros id Hid.
  apply list_elem_of_fmap in Hid as (b & -> & Hb).
  rewrite Forall_forall in Hall. specialize (Hall b Hb).
  assert (AntID a <> AntID b); [| lia].
  intros Heq. apply Hnotin. rewrite Heq. by apply list_elem_of_fmap_2.
Qed.

Lemma sublist_strongly_sorted {A : Type} (R : A -> A -> Prop) (l k : list A) :
  sublist l k -> StronglySorted R k -> StronglySorted R l.
Proof.
  induction 1 as [|x l k Hsub IH|x l k Hsub IH]; intros Hk; [done | |].
  - apply StronglySorted_cons in Hk as [Hx Hk]. apply StronglySorted_cons.
    split; [| by apply IH]. rewrite Forall_forall in *.
    intros y Hy. apply Hx. by eapply sublist_subseteq.
  - apply StronglySorted_cons in Hk as [_ Hk]. by apply IH.
Qed.

Lemma ant_step_destinations (e : string) (l : list AntAssignment) (st : TurnState)
    (a : AntAssignment) :
  a ∈ l ->
  Forall (fun m => exists b, b ∈ l /\ AntID b = m.1 /\ m.2 ∈ Path b) (moveStrings st) ->
  Forall (fun m => exists b, b ∈ l /\ AntID b = m.1 /\ m.2 ∈ Path b)
         (moveStrings (ant_step e st a)).
Proof.
  intros Ha Hst. destruct (can_move st a) eqn:Hmove.
  - rewrite (ant_step_move e st a Hmove). simpl.
    apply Forall_app. split; [done |]. constructor; [| constructor].
    exists a. split; [done |]. split; [done |]. simpl.
    destruct (can_move_inv st a Hmove) as (cur & nxt & _ & Hnxt & _).
    rewrite Hnxt. simpl. by eapply list_elem_of_lookup_2.
  - by rewrite (ant_step_stay e st a Hmove).
Qed.

Lemma turn_destinations (e : string) (l k : list AntAssignment) (st : TurnState) :
  k ⊆ l ->
  Forall (fun m => exists b, b ∈ l /\ AntID b = m.1 /\ m.2 ∈ Path b) (moveStrings st) ->
  Forall (fun m => exists b, b ∈ l /\ AntID b = m.1 /\ m.2 ∈ Path b)
         (moveStrings (foldl (ant_step e) st k)).
Proof.
  revert st. induction k as [|a k IH]; intros st Hk Hst; simpl; [done |].
  apply IH; [set_solver |]. apply ant_step_destinations; [| done].
  apply Hk, list_elem_of_here.
Qed.

Lemma ant_moves_log_turns (rt : Runtime) (fuel : nat) (assignment : gmap nat path)
    (e : string) (log : list (list (nat * string))) :
  RuntimeOk rt ->
  ant_moves_log rt fuel assignment e = Some log ->
  Forall (fun turn =>
            StronglySorted lt (map fst turn)
            /\ forall m, m ∈ turn -> exists p, assignment !! m.1 = Some p /\ m.2 ∈ p)
         log.
Proof.
  intros Hrt Hlog. unfold ant_moves_log in Hlog.
  apply (turn_loop_turns
           (fun turn =>
              StronglySorted lt (map fst turn)
              /\ forall m, m ∈ turn -> exists p, assignment !! m.1 = Some p /\ m.2 ∈ p)
           fuel e (sorted_assignments rt assignment) ∅ ∅ [] log);
    [| constructor | exact Hlog].
  intros positions full. unfold run_turn. split.
  - destruct (turn_ids e (sorted_assignments rt assignment)
                {| antPositions := positions; roomFull := full; tunnelsUsed := ∅;
                   moveStrings := []; finishedAnts := 0 |}) as (new & -> & Hsub).
    simpl. eapply sublist_strongly_sorted; [exact Hsub |]. by apply sorted_ids_strict.
  - intros m Hm.
    pose proof (turn_destinations e (sorted_assignments rt assignment)
                  (sorted_assignments rt assignment)
                  {| antPositions := positions; roomFull := full; tunnelsUsed := ∅;
                     moveStrings := []; finishedAnts := 0 |}) as Hd.
    assert (Hall : Forall (fun m => exists b, b ∈ sorted_assignments rt assignment
                                              /\ AntID b = m.1 /\ m.2 ∈ Path b)
                          (moveStrings (foldl (ant_step e)
                             {| antPositions := positions; roomFull := full;
                                tunnelsUsed := ∅; moveStrings := []; finishedAnts := 0 |}
                             (sorted_assignments rt assignment))))
      by (apply Hd; [done | constructor]).
    rewrite Forall_forall in Hall. destruct (Hall m Hm) as (b & Hb & Hid & Hroom).
    exists (Path b). split; [| done]. rewrite <- Hid.
    by apply (sorted_assignments_spec rt assignment Hrt).
Qed.


(** X11.  In every turn of the log the moves are listed by strictly increasing
    ant id, so no ant is moved twice in one turn, and every move takes an
    ant of the assignment to a room of its own path.  This holds for every
    assignment, whatever the order in which its map is ranged over. *)
Theorem turn_moves_by_ant_id (rt : Runtime) (fuel : nat) (assignment : gmap nat path)
    (e : string) (log : list (list (nat * string)))
    (Hrt : RuntimeOk rt)
    (Hlog : ant_moves_log rt fuel assignment e = Some log) :
  Forall (fun turn =>
            StronglySorted lt (map fst turn)
            /\ forall m, m ∈ turn -> exists p, assignment !! m.1 = Some p /\ m.2 ∈ p)
         log.
Proof. exact (ant_moves_log_turns rt fuel assignment e log Hrt Hlog). Qed.

Lemma turn_moves_by_ant_id_witness :
  RuntimeOk go_runtime
  /\ ant_moves_log go_runtime 10 chain_assignment "D"
     = Some [[(1, "B")]; [(1, "C"); (2, "B")]; [(1, "D"); (2, "C")]; [(2, "D")]]
  /\ Forall (fun turn =>
               StronglySorted lt (map fst turn)
               /\ forall m, m ∈ turn ->
                    exists p, chain_assignment !! m.1 = Some p /\ m.2 ∈ p)
            [[(1, "B")]; [(1, "C"); (2, "B")]; [(1, "D"); (2, "C")]; [(2, "D")]].
Proof.
  assert (H : ant_moves_log go_runtime 10 chain_assignment "D"
              = Some [[(1, "B")]; [(1, "C"); (2, "B")]; [(1, "D"); (2, "C")]; [(2, "D")]])
    by (vm_compute; reflexivity).
  split; [exact go_runtime_ok |]. split; [exact H |].
  exact (turn_moves_by_ant_id go_runtime 10 chain_assignment "D" _ go_runtime_ok H).
Defined.

(** *** The log in closed form *)

(** **** Ranks *)

Lemma rank_app (l1 l2 : list AntAssignment) (a : AntAssignment) :
  a ∉ l1 ->
  rank (l1 ++ a :: l2) a = length (filter (fun b => Path b = Path a) l1).
Proof.
  induction l1 as [|b l1 IH]; intros Hnotin; simpl.
  - by destruct (decide (a = a)).
  - apply not_elem_of_cons in Hnotin as [Hne Hnotin].
    destruct (decide (b = a)) as [-> | _]; [done |].
    rewrite filter_cons, IH by done.
    by destruct (decide (Path b = Path a)).
Qed.

Lemma filter_length_app {A : Type} (P : A -> Prop) `{!forall x, Decision (P x)}
    (l k : list A) :
  length (filter P (l ++ k)) = length (filter P l) + length (filter P k).
Proof. by rewrite filter_app, length_app. Qed.

Lemma rank_lt (l1 l2 : list AntAssignment) (a b : AntAssignment) :
  NoDup (l1 ++ a :: l2) -> Path b = Path a ->
  (b ∈ l1 -> rank (l1 ++ a :: l2) b < rank (l1 ++ a :: l2) a)
  /\ (b ∈ l2 -> rank (l1 ++ a :: l2) a < rank (l1 ++ a :: l2) b).
Proof.
  intros Hnd Hpath.
  assert (Ha : a ∉ l1).
  { apply NoDup_app in Hnd as (_ & Hdisj & _). intros Hin.
    apply (Hdisj a Hin), list_elem_of_here. }
  rewrite (rank_app l1 l2 a Ha). split; intros Hb.
  - apply list_elem_of_split in Hb as (k1 & k2 & ->).
    assert (Hb : b ∉ k1).
    { rewrite <- app_assoc in Hnd. apply NoDup_app in Hnd as (_ & Hdisj & _).
      intros Hin. apply (Hdisj b Hin), list_elem_of_here. }
    rewrite <- app_assoc. simpl. rewrite (rank_app k1 _ b Hb).
    rewrite filter_length_app, filter_cons, Hpath.
    case_decide; [simpl; lia | done].
  - apply list_elem_of_split in Hb as (k1 & k2 & ->).
    assert (Hb : b ∉ l1 ++ a :: k1).
    { replace (l1 ++ a :: k1 ++ b :: k2) with ((l1 ++ a :: k1) ++ b :: k2) in Hnd
        by (by rewrite <- app_assoc).
      apply NoDup_app in Hnd as (_ & Hdisj & _).
      intros Hin. apply (Hdisj b Hin), list_elem_of_here. }
    replace (l1 ++ a :: k1 ++ b :: k2) with ((l1 ++ a :: k1) ++ b :: k2)
      by (by rewrite <- app_assoc).
    rewrite (rank_app _ k2 b Hb), filter_length_app, filter_cons, Hpath.
    case_decide; [simpl; lia | done].
Qed.

Lemma filter_split_at {A : Type} (P : A -> Prop) `{!forall x, Decision (P x)}
    (l : list A) (k : nat) :
  k < length (filter P l) ->
  exists l1 b l2, l = l1 ++ b :: l2 /\ P b /\ length (filter P l1) = k.
Proof.
  revert k. induction l as [|x l IH]; intros k Hk; [simpl in Hk; lia |].
  rewrite filter_cons in Hk. destruct (decide (P x)) as [Hx | Hx].
  - destruct k as [|k].
    + by exists [], x, l.
    + simpl in Hk. destruct (IH k) as (l1 & b & l2 & -> & Hb & Hlen); [lia |].
      exists (x :: l1), b, l2. split; [done |]. split; [done |].
      rewrite filter_cons. destruct (decide (P x)); [simpl; lia | done].
  - destruct (IH k Hk) as (l1 & b & l2 & -> & Hb & Hlen).
    exists (x :: l1), b, l2. split; [done |]. split; [done |].
    rewrite filter_cons. by destruct (decide (P x)).
Qed.

Lemma rank_exists (l1 l2 : list AntAssignment) (a : AntAssignment) (k : nat) :
  NoDup (l1 ++ a :: l2) ->
  k < rank (l1 ++ a :: l2) a ->
  exists b, b ∈ l1 /\ Path b = Path a /\ rank (l1 ++ a :: l2) b = k.
Proof.
  intros Hnd Hk.
  assert (Ha : a ∉ l1).
  { apply NoDup_app in Hnd as (_ & Hdisj & _). intros Hin.
    apply (Hdisj a Hin), list_elem_of_here. }
  rewrite (rank_app l1 l2 a Ha) in Hk.
  apply filter_split_at in Hk as (k1 & b & k2 & -> & Hb & Hlen).
  exists b. split; [apply elem_of_app; right; apply list_elem_of_here |].
  split; [done |].
  assert (Hb' : b ∉ k1).
  { rewrite <- app_assoc in Hnd. apply NoDup_app in Hnd as (_ & Hdisj & _).
    intros Hin. apply (Hdisj b Hin), list_elem_of_here. }
  rewrite <- app_assoc. simpl. rewrite (rank_app k1 _ b Hb'). by rewrite Hb.
Qed.

(** **** One turn *)

Section ClosedForm.

Variables (s e : string) (l : list AntAssignment).

Hypothesis Hroutable : assignments_routable s e l.

Hypothesis Hlong : Forall (fun a => 3 <= length (Path a)) l.

Lemma routable_facts (a : AntAssignment) :
  a ∈ l ->
  head (Path a) = Some s /\ NoDup (Path a) /\ last (Path a) = Some e
  /\ ("" ∉ Path a) /\ 3 <= length (Path a).
Proof.
  intros Ha. destruct Hroutable as ([_ Hheads] & Hlasts & _).
  rewrite Forall_forall in Hheads, Hlasts, Hlong.
  destruct (Hheads a Ha), (Hlasts a Ha). repeat split; try done. by apply Hlong.
Qed.

Lemma routable_nodup : NoDup l.
Proof. destruct Hroutable as ([Hids _] & _). by apply NoDup_of_ids. Qed.

Lemma end_is_last (a : AntAssignment) (i : nat) :
  a ∈ l -> Path a !! i = Some e -> i = length (Path a) - 1.
Proof.
  intros Ha Hi. destruct (routable_facts a Ha) as (_ & Hnd & Hlast & _).
  rewrite last_lookup in Hlast.
  replace (pred (length (Path a))) with (length (Path a) - 1) in Hlast by lia.
  by eapply NoDup_lookup.
Qed.

Lemma shared_inner_room (a b : AntAssignment) (r : string) :
  a ∈ l -> b ∈ l -> r ∈ Path a -> r ∈ Path b -> r <> s -> r <> e -> Path a = Path b.
Proof.
  intros Ha Hb Hra Hrb Hs He. destruct Hroutable as (_ & _ & Hpair).
  destruct (Hpair a b Ha Hb) as [Heq | Hdisj]; [done |].
  destruct (Hdisj r Hra Hrb); done.
Qed.

Lemma same_place (a b : AntAssignment) (i j : nat) (r : string) :
  a ∈ l -> b ∈ l -> Path a !! i = Some r -> Path b !! j = Some r ->
  r <> s -> r <> e -> Path a = Path b /\ i = j.
Proof.
  intros Ha Hb Hi Hj Hs He.
  assert (Hpath : Path a = Path b).
  { eapply shared_inner_room; try done; by eapply list_elem_of_lookup_2. }
  split; [done |]. rewrite <- Hpath in Hj.
  destruct (routable_facts a Ha) as (_ & Hnd & _). by eapply NoDup_lookup.
Qed.

Lemma mid_turn_step (t : nat) (l1 l2 : list AntAssignment) (a : AntAssignment)
    (st : TurnState) :
  l = l1 ++ a :: l2 ->
  mid_turn e l t l1 (a :: l2) st ->
  mid_turn e l t (l1 ++ [a]) l2 (ant_step e st a).
Proof.
  intros Hl [Hdone Htodo Hinv Htun Hmoves].
  pose proof routable_nodup as Hnd. 
  assert (Ha : a ∈ l) by (rewrite Hl; apply elem_of_app; right; apply list_elem_of_here).
  destruct Hroutable as (Hok & _ & _).
  destruct (routable_facts a Ha) as (Hhead & Hndp & Hlast & Hnamed & Hlen).
  pose proof (Htodo a (list_elem_of_here _ _)) as Hpos.
  assert (Hinv' : sim_inv e l (antPositions (ant_step e st a))
                          (roomFull (ant_step e st a)))
    by (by apply (sim_inv_step s)).
  assert (Hbefore : forall b, b ∈ l1 -> Path b = Path a -> rank l b < rank l a).
  { intros b Hb Hp. rewrite Hl in Hnd |- *. by apply (rank_lt l1 l2 a b Hnd Hp). }
  assert (Hafter : forall b, b ∈ l2 -> Path b = Path a -> rank l a < rank l b).
  { intros b Hb Hp. rewrite Hl in Hnd |- *. by apply (rank_lt l1 l2 a b Hnd Hp). }
  assert (Hin1 : forall b, b ∈ l1 -> b ∈ l).
  { intros b Hb. rewrite Hl. apply elem_of_app. by left. }
  assert (Hin2 : forall b, b ∈ l2 -> b ∈ l).
  { intros b Hb. rewrite Hl. apply elem_of_app. right. by apply list_elem_of_further. }
  assert (Hsplit : forall b, b ∈ l -> b = a \/ b ∈ l1 \/ b ∈ l2).
  { intros b Hb. rewrite Hl in Hb. apply elem_of_app in Hb as [Hb | Hb]; [tauto |].
    apply elem_of_cons in Hb as [-> | Hb]; tauto. }
  assert (Hnot2 : a ∉ l2).
  { rewrite Hl in Hnd. apply NoDup_app in Hnd as (_ & _ & Hnd).
    by apply NoDup_cons in Hnd as [? _]. }
  set (p := posf l t a) in *.
  destruct (decide (posf l t a < posf l (S t) a)) as [Hmv | Hstay].
  - (* the ant moves *)
    assert (Hp : rank l a <= t /\ p = t - rank l a /\ S p < length (Path a)
                 /\ posf l (S t) a = S p) by (unfold p, posf in *; lia).
    destruct Hp as (Hrk & Hpeq & Hplt & Hnext).
    destruct (lookup_lt_is_Some_2 (Path a) p) as [cur Hcur]; [lia |].
    destruct (lookup_lt_is_Some_2 (Path a) (S p)) as [nxt Hnxt]; [lia |].
    assert (Hnxt_s : nxt <> s) by (eapply (later_room_not_start s (Path a) (S p)); [done | done | lia | done]).
    assert (Hnxt_named : nxt <> "").
    { intros ->. apply Hnamed. by eapply list_elem_of_lookup_2. }
    assert (Hfull : is_full (roomFull st) nxt = false).
    { destruct (is_full (roomFull st) nxt) eqn:Hf; [| done]. exfalso.
      destruct (inv_full_occupied _ _ _ _ Hinv nxt Hf) as (b & Hb & Hb0 & Hbr & Hne).
      destruct (same_place a b (S p) _ nxt Ha Hb Hnxt Hbr Hnxt_s Hne) as [Hpath Hidx].
      assert (Hnl : S p <> length (Path a) - 1).
      { intros Heq. rewrite last_lookup in Hlast.
        replace (pred (length (Path a))) with (S p) in Hlast by lia. congruence. }
      destruct (Hsplit b Hb) as [-> | [Hb1 | Hb2]].
      - fold p in Hpos. lia.
      - pose proof (Hdone b Hb1) as Hpb. pose proof (Hbefore b Hb1 (eq_sym Hpath)).
        unfold posf in Hpb. rewrite <- Hpath in Hpb. lia.
      - pose proof (Htodo b (list_elem_of_further _ _ _ Hb2)) as Hpb.
        pose proof (Hafter b Hb2 (eq_sym Hpath)).
        unfold posf in Hpb. rewrite <- Hpath in Hpb. lia. }
    assert (Htunnel : default "" (tunnelsUsed st !! cur) <> nxt).
    { destruct (tunnelsUsed st !! cur) as [n|] eqn:Hn; simpl; [| done].
      intros ->. destruct (Htun cur nxt Hn) as (b & Hb1 & Hbmv & Hbc & Hbn).
      assert (Hbrk : rank l b <= t /\ posf l t b = t - rank l b)
        by (unfold posf in *; lia).
      destruct (decide (p = 0)) as [Hp0 | Hp0].
      - assert (Hne : nxt <> e).
        { intros ->. apply (end_is_last a (S p) Ha) in Hnxt. lia. }
        destruct (same_place a b (S p) _ nxt Ha (Hin1 b Hb1) Hnxt Hbn Hnxt_s Hne)
          as [Hpath Hidx].
        pose proof (Hbefore b Hb1 (eq_sym Hpath)). lia.
      - assert (Hcs : cur <> s)
          by (eapply (later_room_not_start s (Path a) p); [done | done | lia | done]).
        assert (Hce : cur <> e).
        { intros ->. apply (end_is_last a p Ha) in Hcur. lia. }
        destruct (same_place a b p _ cur Ha (Hin1 b Hb1) Hcur Hbc Hcs Hce)
          as [Hpath Hidx].
        pose proof (Hbefore b Hb1 (eq_sym Hpath)). lia. }
    assert (Hcan : can_move st a = true).
    { unfold can_move. rewrite Hpos. fold p. rewrite Nat.add_1_r, Hcur, Hnxt. simpl.
      rewrite Hfull. simpl. apply andb_true_iff. split; [apply Nat.ltb_lt; lia |].
      apply negb_true_iff, String.eqb_neq. done. }
    rewrite (ant_step_move e st a Hcan) in Hinv' |- *.
    rewrite Hpos. fold p. rewrite Nat.add_1_r, Hcur, Hnxt. simpl.
    constructor; simpl.
    + intros x Hx. rewrite ant_pos_insert.
      destruct (decide (AntID a = AntID x)) as [Hid | Hid].
      * assert (x = a) as ->.
        { destruct Hok as [Hids _]. symmetry. eapply same_id; try done.
          apply elem_of_app in Hx as [Hx | Hx]; [by apply Hin1 |].
          by apply list_elem_of_singleton in Hx as ->. }
        lia.
      * apply elem_of_app in Hx as [Hx | Hx]; [by apply Hdone |].
        apply list_elem_of_singleton in Hx as ->. done.
    + intros x Hx. rewrite ant_pos_insert.
      destruct (decide (AntID a = AntID x)) as [Hid | Hid].
      * assert (x = a) as ->.
        { destruct Hok as [Hids _]. symmetry. eapply same_id; try done. by apply Hin2. }
        done.
      * apply Htodo. by apply list_elem_of_further.
    + rewrite Hpos in Hinv'. fold p in Hinv'.
      rewrite Nat.add_1_r, Hcur, Hnxt in Hinv'. exact Hinv'.
    + intros c n Hc. rewrite lookup_insert in Hc.
      destruct (decide (cur = c)) as [<- | Hne].
      * inversion Hc; subst n. exists a. split; [apply elem_of_app; right; apply list_elem_of_here |].
        fold p. by rewrite Hnext.
      * destruct (Htun c n Hc) as (b & Hb & Hrest). exists b.
        split; [apply elem_of_app; by left | done].
    + unfold turn_moves. rewrite omap_app, Hmoves. simpl. unfold move_of.
      destruct (decide (posf l t a < posf l (S t) a)); [| done].
      by rewrite Hnext, Hnxt.
  - (* the ant stays *)
    assert (Hsame : posf l (S t) a = p) by (unfold p, posf in *; lia).
    assert (Hcan : can_move st a = false).
    { destruct (decide (p = length (Path a) - 1)) as [Hfin | Hnot].
      - apply finished_cannot_move. unfold finished. rewrite Hpos. fold p.
        apply negb_true_iff, Nat.ltb_ge. lia.
      - assert (Hwait : t < rank l a /\ p = 0) by (unfold p, posf in *; lia).
        destruct Hwait as [Hwait Hp0].
        rewrite Hl in Hnd. pose proof Hwait as Hw. rewrite Hl in Hw.
        destruct (rank_exists l1 l2 a t Hnd Hw) as (b & Hb1 & Hpath & Hrkb).
        rewrite <- Hl in Hrkb.
        destruct (lookup_lt_is_Some_2 (Path a) 1) as [nxt Hnxt]; [lia |].
        assert (Hne : nxt <> e).
        { intros ->. apply (end_is_last a 1 Ha) in Hnxt. lia. }
        assert (Hpb : ant_pos (antPositions st) b = 1).
        { rewrite (Hdone b Hb1). unfold posf. rewrite Hpath. lia. }
        assert (Hf : is_full (roomFull st) nxt = true).
        { apply (inv_occupied_full _ _ _ _ Hinv b nxt); [by apply Hin1 | lia | | done].
          by rewrite Hpb, Hpath. }
        unfold can_move. rewrite Hpos. fold p. rewrite Hp0. simpl.
        rewrite Hnxt. simpl. rewrite Hf. simpl. by rewrite andb_false_r. }
    rewrite (ant_step_stay e st a Hcan). constructor; simpl.
    + intros x Hx. apply elem_of_app in Hx as [Hx | Hx]; [by apply Hdone |].
      apply list_elem_of_singleton in Hx as ->. by rewrite Hsame.
    + intros x Hx. apply Htodo. by apply list_elem_of_further.
    + done.
    + intros c n Hc. destruct (Htun c n Hc) as (b & Hb & Hrest). exists b.
      split; [apply elem_of_app; by left | done].
    + unfold turn_moves. rewrite omap_app, Hmoves. simpl. unfold move_of.
      destruct (decide (posf l t a < posf l (S t) a)); [done |].
      by rewrite app_nil_r.
Qed.

Lemma mid_turn_fold (t : nat) (l2 l1 : list AntAssignment) (st : TurnState) :
  l = l1 ++ l2 ->
  mid_turn e l t l1 l2 st ->
  mid_turn e l t l [] (foldl (ant_step e) st l2).
Proof.
  revert l1 st. induction l2 as [|a l2 IH]; intros l1 st Hl Hmid; simpl.
  - rewrite app_nil_r in Hl. by subst l1.
  - apply (IH (l1 ++ [a])).
    + by rewrite <- app_assoc.
    + by apply mid_turn_step.
Qed.

(** **** The turns of the loop *)

Lemma turn_closed (t : nat) (positions : gmap nat nat) (full : gmap string bool) :
  (forall a, a ∈ l -> ant_pos positions a = posf l t a) ->
  sim_inv e l positions full ->
  (forall a, a ∈ l ->
     ant_pos (antPositions (run_turn e l positions full)) a = posf l (S t) a)
  /\ sim_inv e l (antPositions (run_turn e l positions full))
                 (roomFull (run_turn e l positions full))
  /\ moveStrings (run_turn e l positions full) = turn_moves l t l.
Proof.
  intros Hpos Hinv. unfold run_turn.
  destruct (mid_turn_fold t l []
              {| antPositions := positions; roomFull := full; tunnelsUsed := ∅;
                 moveStrings := []; finishedAnts := 0 |} eq_refl)
    as [Hdone _ Hinv' _ Hmoves].
  - constructor; simpl; try done. by intros a ?%elem_of_nil.
  - done.
Qed.

Lemma max_list_le (xs : list nat) (t : nat) :
  max_list xs <= t <-> Forall (fun x => x <= t) xs.
Proof.
  induction xs as [|x xs IH]; simpl; [split; [constructor | lia] |].
  rewrite Forall_cons, <- IH. lia.
Qed.

Lemma all_finished_iff (t : nat) (positions : gmap nat nat) :
  (forall a, a ∈ l -> ant_pos positions a = posf l t a) ->
  Forall (fun a => finished positions a = true) l <-> turns_needed l <= t.
Proof.
  intros Hpos. unfold turns_needed. rewrite max_list_le, Forall_fmap, !Forall_forall.
  split; intros H a Ha; specialize (H a Ha); simpl in *;
    destruct (routable_facts a Ha) as (_ & _ & _ & _ & Hlen);
    unfold finished in *; rewrite (Hpos a Ha) in *; unfold posf in *.
  - apply negb_true_iff, Nat.ltb_ge in H. lia.
  - apply negb_true_iff, Nat.ltb_ge. lia.
Qed.

Lemma quiet_turn_moves (t : nat) : turns_needed l <= t -> turn_moves l t l = [].
Proof.
  intros Ht. unfold turns_needed in Ht. rewrite max_list_le, Forall_fmap in Ht.
  unfold turn_moves.
  assert (H : forall k, k ⊆ l -> omap (move_of l t) k = []).
  { induction k as [|a k IH]; intros Hk; [done |]. simpl.
    assert (Ha : a ∈ l) by (apply Hk, list_elem_of_here).
    rewrite Forall_forall in Ht. specialize (Ht a Ha). simpl in Ht.
    unfold move_of. destruct (decide (posf l t a < posf l (S t) a)) as [Hlt | _].
    - unfold posf in Hlt. lia.
    - apply IH. intros x Hx. by apply Hk, list_elem_of_further. }
  by apply H.
Qed.

Lemma turn_loop_closed (fuel t : nat) (positions : gmap nat nat)
    (full : gmap string bool) (log final : list (list (nat * string))) :
  (forall a, a ∈ l -> ant_pos positions a = posf l t a) ->
  sim_inv e l positions full ->
  turn_loop fuel e l positions full log = Some final ->
  final = log ++ map (fun t' => turn_moves l t' l) (seq t (turns_needed l - t)).
Proof.
  revert t positions full log.
  induction fuel as [|fuel IH]; intros t positions full log Hpos Hinv Hrun; [done |].
  simpl in Hrun.
  destruct (turn_closed t positions full Hpos Hinv) as (Hpos' & Hinv' & Hmoves).
  pose proof (turn_ends_iff e l positions full) as Hends.
  rewrite (all_finished_iff t positions Hpos) in Hends.
  destruct (Nat.eqb (finishedAnts (run_turn e l positions full)) (length l)) eqn:Hfin.
  - apply Nat.eqb_eq, Hends in Hfin.
    rewrite Hmoves, (quiet_turn_moves t Hfin) in Hrun. simpl in Hrun.
    inversion Hrun; subst final.
    replace (turns_needed l - t) with 0 by lia. simpl. by rewrite app_nil_r.
  - apply Nat.eqb_neq in Hfin.
    assert (Hlt : t < turns_needed l) by (destruct (decide (turns_needed l <= t)); [tauto | lia]).
    assert (Hsome : moveStrings (run_turn e l positions full) <> []).
    { apply (turn_progress s); [done | done |].
      destruct (decide (Forall (fun a => finished positions a = true) l)) as [Hall | Hnot].
      - apply (all_finished_iff t positions Hpos) in Hall. lia.
      - apply not_Forall_Exists in Hnot; [| intros a; apply _].
        apply Exists_exists in Hnot as (a & Ha & Hf).
        exists a. split; [done |]. by apply not_true_is_false. }
    destruct (moveStrings (run_turn e l positions full)) as [|m ms] eqn:Hms; [done |].
    simpl in Hrun. apply (IH (S t)) in Hrun; [| done | done].
    rewrite Hrun, <- app_assoc. f_equal.
    replace (turns_needed l - t) with (S (turns_needed l - S t)) by lia.
    simpl. by rewrite Hmoves.
Qed.

Lemma log_closed (fuel : nat) (log : list (list (nat * string))) :
  turn_loop fuel e l ∅ ∅ [] = Some log ->
  log = map (fun t => turn_moves l t l) (seq 0 (turns_needed l)).
Proof.
  intros Hrun. apply (turn_loop_closed fuel 0) in Hrun.
  - by rewrite Nat.sub_0_r in Hrun.
  - intros a Ha. unfold posf, ant_pos. rewrite lookup_empty. simpl. lia.
  - apply (sim_inv_initial s). by destruct Hroutable.
Qed.

End ClosedForm.

Lemma filter_none {A : Type} (P : A -> Prop) `{!forall x, Decision (P x)} (l : list A) :
  Forall (fun x => ~ P x) l -> filter P l = [].
Proof.
  induction 1 as [|x l Hx _ IH]; [done |]. rewrite filter_cons.
  by destruct (decide (P x)).
Qed.

Lemma rank_sorted (l : list AntAssignment) (a : AntAssignment) :
  StronglySorted lt (map AntID l) -> a ∈ l ->
  rank l a = length (filter (fun b => Path b = Path a /\ AntID b < AntID a) l).
Proof.
  induction l as [|b l IH]; intros Hs Ha; [by apply elem_of_nil in Ha |].
  simpl in Hs. apply StronglySorted_cons in Hs as [Hb Hs]. simpl.
  rewrite filter_cons. destruct (decide (b = a)) as [-> | Hne].
  - rewrite decide_False by lia. rewrite filter_none; [done |].
    apply Forall_forall. intros x Hx [_ Hlt].
    rewrite Forall_forall in Hb. specialize (Hb (AntID x) (list_elem_of_fmap_2 _ _ _ Hx)).
    lia.
  - apply elem_of_cons in Ha as [-> | Ha]; [done |].
    rewrite Forall_forall in Hb. specialize (Hb (AntID a) (list_elem_of_fmap_2 _ _ _ Ha)).
    rewrite (IH Hs Ha).
    destruct (decide (Path b = Path a)) as [Hp | Hp].
    + by rewrite decide_True.
    + rewrite decide_False; [done | tauto].
Qed.

Lemma rank_below_count (l : list AntAssignment) (a : AntAssignment) :
  NoDup l -> a ∈ l ->
  S (rank l a) <= length (filter (fun b => Path b = Path a) l).
Proof.
  intros Hnd Ha. apply list_elem_of_split in Ha as (l1 & l2 & ->).
  assert (Hnot : a ∉ l1).
  { apply NoDup_app in Hnd as (_ & Hdisj & _). intros Hin.
    apply (Hdisj a Hin), list_elem_of_here. }
  rewrite (rank_app l1 l2 a Hnot), filter_length_app, filter_cons.
  rewrite decide_True by done. simpl. lia.
Qed.

Lemma last_on_path (l : list AntAssignment) (a : AntAssignment) :
  NoDup l -> a ∈ l ->
  exists b, b ∈ l /\ Path b = Path a
            /\ S (rank l b) = length (filter (fun b => Path b = Path a) l).
Proof.
  intros Hnd Ha. pose proof (rank_below_count l a Hnd Ha) as Hle.
  destruct (filter_split_at (fun b => Path b = Path a) l
              (length (filter (fun b => Path b = Path a) l) - 1))
    as (l1 & b & l2 & Hl & Hb & Hlen); [lia |].
  exists b. rewrite Hl in Hnd.
  assert (Hnot : b ∉ l1).
  { apply NoDup_app in Hnd as (_ & Hdisj & _). intros Hin.
    apply (Hdisj b Hin), list_elem_of_here. }
  split; [rewrite Hl; apply elem_of_app; right; apply list_elem_of_here |].
  split; [done |].
  rewrite Hl at 1. rewrite (rank_app l1 l2 b Hnot), Hb, Hlen. lia.
Qed.

Lemma turns_needed_counts (l : list AntAssignment) :
  NoDup l ->
  turns_needed l
  = max_list (map (fun a => length (filter (fun b => Path b = Path a) l)
                            + (length (Path a) - 1) - 1) l).
Proof.
  intros Hnd. unfold turns_needed. apply Nat.le_antisymm; apply max_list_le, Forall_fmap,
    Forall_forall; intros a Ha; simpl.
  - pose proof (rank_below_count l a Hnd Ha) as Hle.
    etrans; [| apply max_list_elem_of_le, list_elem_of_In, in_map_iff;
               exists a; split; [reflexivity | by apply list_elem_of_In]].
    simpl. lia.
  - destruct (last_on_path l a Hnd Ha) as (b & Hb & Hpath & Hrank).
    etrans; [| apply max_list_elem_of_le, list_elem_of_In, in_map_iff;
               exists b; split; [reflexivity | by apply list_elem_of_In]].
    simpl. rewrite Hpath. lia.
Qed.

(** X12.  The log in closed form, for every candidate group of an accepted
    input in which no path is the direct tunnel from the start to the end
    room.  Call the rank of an ant the number of ants with a smaller id on
    the same path.  The ant leaves the start room in turn [rank + 1] and then
    advances one room in every turn until it arrives, so turn [t + 1] of
    the log lists exactly the ants with [rank <= t < rank + steps], each with
    the room at position [t - rank + 1] of its path, [steps] being the number
    of tunnels of the path.  The number of turns is the largest value, over
    the paths that carry an ant, of the number of its ants plus its number
    of tunnels minus one. *)
Theorem log_in_closed_form (rt : Runtime) (lines : list string)
    (scanErr : option string) (out out' : Streams) (g : Graph) (s e : string) (n : Z)
    (fuel0 fuel : nat) (paths group : list path) (ants : nat)
    (assignment : gmap nat path) (log : list (list (nat * string)))
    (Hrt : RuntimeOk rt)
    (Hparse : readInput rt (FileLines lines scanErr) out = Running (g, s, e, n) out')
    (Hpaths : findShortestPaths rt fuel0 g s = Some paths)
    (Hgroup : group ∈ calculateSolutionGroups paths s e)
    (Hdist : distributeAnts group ants = Some assignment)
    (Hlong : Forall (fun p => 3 <= length p) group)
    (Hlog : ant_moves_log rt fuel assignment e = Some log) :
  let l := sorted_assignments rt assignment in
  log = map (fun t => turn_moves l t l) (seq 0 (turns_needed l))
  /\ (forall a, a ∈ l ->
        rank l a = length (filter (fun b => Path b = Path a /\ AntID b < AntID a) l))
  /\ length log
     = max_list (map (fun a => length (filter (fun b => Path b = Path a) l)
                               + (length (Path a) - 1) - 1) l).
Proof.
  intros l.
  destruct (readInput_graph_named _ _ _ _ _ _ _ _ Hparse) as (Hnamed & -> & ->).
  pose proof (pipeline_assignments_routable rt g fuel0 paths group ants assignment
                Hrt Hnamed Hpaths Hgroup Hdist) as Hroutable.
  assert (Hlen : Forall (fun a => 3 <= length (Path a)) l).
  { apply Forall_forall. intros a Ha. rewrite Forall_forall in Hlong. apply Hlong.
    apply (sorted_assignments_spec rt assignment Hrt) in Ha.
    by eapply distributeAnts_values. }
  pose proof (log_closed _ _ l Hroutable Hlen fuel log Hlog) as Hclosed.
  split; [done |]. split.
  - intros a Ha. apply rank_sorted; [| done]. by apply sorted_ids_strict.
  - rewrite Hclosed at 1. rewrite length_map, length_seq.
    apply turns_needed_counts. destruct Hroutable as ([Hids _] & _).
    by apply NoDup_of_ids.
Qed.

Lemma log_in_closed_form_witness :
  Forall (fun p : path => 3 <= length p) lane_paths
  /\ ant_moves_log go_runtime 10 lane_assignment "T"
     = Some [[(1, "a"); (2, "b")]; [(1, "T"); (2, "T"); (3, "a"); (4, "b")];
             [(3, "T"); (4, "T")]]
  /\ [[(1, "a"); (2, "b")]; [(1, "T"); (2, "T"); (3, "a"); (4, "b")];
      [(3, "T"); (4, "T")]]
     = map (fun t => turn_moves (sorted_assignments go_runtime lane_assignment) t
                       (sorted_assignments go_runtime lane_assignment))
           (seq 0 (turns_needed (sorted_assignments go_runtime lane_assignment))).
Proof.
  assert (Hlong : Forall (fun p : path => 3 <= length p) lane_paths)
    by (repeat constructor).
  assert (Hlog : ant_moves_log go_runtime 10 lane_assignment "T"
                 = Some [[(1, "a"); (2, "b")]; [(1, "T"); (2, "T"); (3, "a"); (4, "b")];
                         [(3, "T"); (4, "T")]]) by (vm_compute; reflexivity).
  split; [exact Hlong |]. split; [exact Hlog |].
  refine (proj1 (log_in_closed_form go_runtime two_lanes None no_output
                   (parsed_output two_lanes) (parsed_graph two_lanes) "S" "T" 4
                   10 10 lane_paths lane_paths 4 lane_assignment _ go_runtime_ok
                   _ _ _ _ Hlong Hlog)).
  - vm_compute; reflexivity.
  - vm_compute; reflexivity.
  - vm_compute. apply list_elem_of_here.
  - vm_compute; reflexivity.
Defined.

(** *** The tunnel check remembers one tunnel per room *)

Lemma ant_step_moves (e : string) (st : TurnState) (a : AntAssignment) (cur nxt : string) :
  Path a !! ant_pos (antPositions st) a = Some cur ->
  Path a !! (ant_pos (antPositions st) a + 1) = Some nxt ->
  is_full (roomFull st) nxt = false ->
  default "" (tunnelsUsed st !! cur) <> nxt ->
  ant_step e st a =
  {| antPositions := <[AntID a := ant_pos (antPositions st) a + 1]> (antPositions st);
     roomFull := <[cur := false]>
                   (if negb (String.eqb nxt e) then <[nxt := true]> (roomFull st)
                    else roomFull st);
     tunnelsUsed := <[cur := nxt]> (tunnelsUsed st);
     moveStrings := moveStrings st ++ [(AntID a, nxt)];
     finishedAnts := finishedAnts st |}.
Proof.
  intros Hcur Hnxt Hfull Htun.
  assert (Hcan : can_move st a = true).
  { unfold can_move. rewrite Hcur, Hnxt. simpl. rewrite Hfull. simpl.
    apply andb_true_iff. split.
    - apply Nat.ltb_lt. apply lookup_lt_Some in Hnxt. lia.
    - by apply negb_true_iff, String.eqb_neq. }
  rewrite (ant_step_move e st a Hcan). by rewrite Hcur, Hnxt.
Qed.

(** X13.  [tunnelsUsed] keeps one destination per room, so the test
    [tunnelsUsed[currentRoom] != nextRoom] sees only the last ant that left
    the room.  When ants [a], [b], [c] are processed in this order in one
    turn, all standing in room [r], [a] and [c] bound for the end room and
    [b] for another room that is free, all three move: the tunnel from [r]
    to the end room carries two ants in the same turn. *)
Theorem tunnel_check_forgets (e r m : string) (st : TurnState) (a b c : AntAssignment)
    (Hids : AntID a <> AntID b /\ AntID a <> AntID c /\ AntID b <> AntID c)
    (Ha : Path a !! ant_pos (antPositions st) a = Some r
          /\ Path a !! (ant_pos (antPositions st) a + 1) = Some e)
    (Hb : Path b !! ant_pos (antPositions st) b = Some r
          /\ Path b !! (ant_pos (antPositions st) b + 1) = Some m)
    (Hc : Path c !! ant_pos (antPositions st) c = Some r
          /\ Path c !! (ant_pos (antPositions st) c + 1) = Some e)
    (Hrooms : m <> e /\ is_full (roomFull st) m = false /\ is_full (roomFull st) e = false)
    (Hunused : default "" (tunnelsUsed st !! r) <> e) :
  moveStrings (foldl (ant_step e) st [a; b; c])
  = moveStrings st ++ [(AntID a, e); (AntID b, m); (AntID c, e)].
Proof.
  destruct Hids as (Hab & Hac & Hbc), Ha as [Har Hae], Hb as [Hbr Hbm], Hc as [Hcr Hce].
  destruct Hrooms as (Hme & Hfm & Hfe). simpl.
  rewrite (ant_step_moves e st a r e Har Hae Hfe Hunused).
  rewrite String.eqb_refl. simpl.
  set (st1 := {| antPositions := _ |}).
  assert (Hb1 : ant_pos (antPositions st1) b = ant_pos (antPositions st) b).
  { unfold st1. simpl. rewrite ant_pos_insert. by destruct (decide (AntID a = AntID b)). }
  assert (Hc1 : ant_pos (antPositions st1) c = ant_pos (antPositions st) c).
  { unfold st1. simpl. rewrite ant_pos_insert. by destruct (decide (AntID a = AntID c)). }
  rewrite (ant_step_moves e st1 b r m).
  2: by rewrite Hb1.
  2: by rewrite Hb1.
  2:{ unfold st1. simpl. rewrite is_full_insert. by destruct (decide (r = m)). }
  2:{ unfold st1. simpl. rewrite lookup_insert_eq. simpl. congruence. }
  set (st2 := {| antPositions := _ |}).
  assert (Hc2 : ant_pos (antPositions st2) c = ant_pos (antPositions st) c).
  { unfold st2. simpl. rewrite ant_pos_insert.
    by destruct (decide (AntID b = AntID c)). }
  rewrite (ant_step_moves e st2 c r e).
  2: by rewrite Hc2.
  2: by rewrite Hc2.
  2:{ unfold st2. simpl. rewrite is_full_insert. destruct (decide (r = e)); [done |].
      destruct (negb (String.eqb m e)); [| unfold st1; simpl].
      - rewrite is_full_insert. destruct (decide (m = e)); [done |].
        unfold st1. simpl. rewrite is_full_insert. by destruct (decide (r = e)).
      - rewrite is_full_insert. by destruct (decide (r = e)). }
  2:{ unfold st2. simpl. rewrite lookup_insert_eq. simpl. done. }
  simpl. by rewrite <- !app_assoc.
Qed.

Lemma tunnel_check_forgets_witness :
  main go_runtime 10 ["farm.txt"] (fun _ => FileLines direct_tunnel None)
  = Exited 0 {| stdout := "File opened successfully!

Number of ants: 4
All paths found:
Path 1: S ->T
Path 2: S ->a ->T

Shortest path
L1-T L3-a L4-T
L2-T L3-T

Here you go!
Quickest path with 2 turns
"; stderr := "" |}
  /\ moveStrings
       (foldl (ant_step "T") initial_turn
          [{| AntID := 1; Path := ["S"; "T"] |}; {| AntID := 3; Path := ["S"; "a"; "T"] |};
           {| AntID := 4; Path := ["S"; "T"] |}])
     = [(1, "T"); (3, "a"); (4, "T")].
Proof.
  split; [vm_compute; reflexivity |].
  apply (tunnel_check_forgets "T" "S" "a" initial_turn
           {| AntID := 1; Path := ["S"; "T"] |} {| AntID := 3; Path := ["S"; "a"; "T"] |}
           {| AntID := 4; Path := ["S"; "T"] |}); vm_compute; repeat split; congruence.
Defined.

(** *** The log is a schedule of the farm *)

Lemma chain_lookup (g : Graph) (p : path) (i : nat) (a b : string) :
  chain g p -> p !! i = Some a -> p !! S i = Some b -> b ∈ adj g a.
Proof.
  revert i. induction p as [|x p IH]; intros i Hc Ha Hb; [done |].
  destruct Hc as [Hstep Hc]. destruct i as [|i]; simpl in *.
  - inversion Ha; subst x. apply Hstep. by destruct p.
  - by eapply IH.
Qed.

Lemma adjacent_spec (g : Graph) (a b : string) :
  adjacent g a b = true <-> b ∈ adj g a.
Proof.
  unfold adjacent, adj. rewrite existsb_exists. split.
  - intros (x & Hx & Heq). apply String.eqb_eq in Heq. subst x.
    by apply list_elem_of_In.
  - intros Hb. exists b. split; [by apply list_elem_of_In | apply String.eqb_refl].
Qed.

Lemma tunnel_used_false (used : list (string * string)) (a b : string) :
  (forall u, u ∈ used -> u <> (a, b) /\ u <> (b, a)) ->
  tunnel_used used a b = false.
Proof.
  intros H. unfold tunnel_used. apply not_true_iff_false. rewrite existsb_exists.
  intros ([x y] & Hin & Hm). apply list_elem_of_In in Hin.
  destruct (H _ Hin) as [H1 H2]. simpl in Hm.
  apply orb_true_iff in Hm as [Hm | Hm]; apply andb_true_iff in Hm as [Hx Hy];
    apply String.eqb_eq in Hx, Hy; subst; done.
Qed.

Lemma play_turn_move (g : Graph) (s : string) (ants id : nat) (dest cur : string)
    (rest : list (nat * string)) (loc : gmap nat string) (moved : list nat)
    (used : list (string * string)) :
  default s (loc !! id) = cur ->
  Nat.leb 1 id && Nat.leb id ants = true ->
  existsb (Nat.eqb id) moved = false ->
  adjacent g cur dest = true ->
  tunnel_used used cur dest = false ->
  play_turn g s ants ((id, dest) :: rest) loc moved used
  = play_turn g s ants rest (<[id := dest]> loc) (id :: moved) ((cur, dest) :: used).
Proof.
  intros Hcur H1 H2 H3 H4. unfold play_turn at 1. fold play_turn. cbn [fst snd].
  by rewrite Hcur, H1, H2, H3, H4.
Qed.

Section Schedule.

Variables (g : Graph) (s e : string) (l : list AntAssignment) (ants : nat).

Hypothesis Hroutable : assignments_routable s e l.

Hypothesis Hlong : Forall (fun a => 3 <= length (Path a)) l.

Hypothesis Hchain : forall a, a ∈ l -> chain g (Path a).

Hypothesis Hids : forall a, a ∈ l -> 1 <= AntID a <= ants.

Lemma room_at_lookup (a : AntAssignment) (i : nat) :
  i < length (Path a) -> Path a !! i = Some (room_at s a i).
Proof.
  intros Hi. unfold room_at. by destruct (lookup_lt_is_Some_2 (Path a) i Hi) as [r ->].
Qed.

Lemma posf_bound (t : nat) (a : AntAssignment) :
  a ∈ l -> posf l t a < length (Path a).
Proof.
  intros Ha. destruct (routable_facts s e l Hroutable Hlong a Ha) as (_ & _ & _ & _ & Hlen).
  unfold posf. lia.
Qed.

(** Two ants that move in the same turn do not use the same tunnel. *)
Lemma moves_use_different_tunnels (t : nat) (a b : AntAssignment) :
  a ∈ l -> b ∈ l -> a <> b ->
  posf l t a < posf l (S t) a -> posf l t b < posf l (S t) b ->
  (Path a = Path b -> rank l a <> rank l b) ->
  let u := (room_at s b (posf l t b), room_at s b (posf l (S t) b)) in
  u <> (room_at s a (posf l t a), room_at s a (posf l (S t) a))
  /\ u <> (room_at s a (posf l (S t) a), room_at s a (posf l t a)).
Proof.
  intros Ha Hb Hab Hma Hmb Hrank.
  destruct (routable_facts s e l Hroutable Hlong a Ha) as (Hha & Hnda & Hla & _ & Hlena).
  destruct (routable_facts s e l Hroutable Hlong b Hb) as (Hhb & Hndb & Hlb & _ & Hlenb).
  assert (Hpa : rank l a <= t /\ posf l t a = t - rank l a
                /\ posf l (S t) a = S (posf l t a) /\ S (posf l t a) < length (Path a))
    by (unfold posf in *; lia).
  assert (Hpb : rank l b <= t /\ posf l t b = t - rank l b
                /\ posf l (S t) b = S (posf l t b) /\ S (posf l t b) < length (Path b))
    by (unfold posf in *; lia).
  destruct Hpa as (Hra & Hpa & Hna & Hba), Hpb as (Hrb & Hpb & Hnb & Hbb).
  set (p := posf l t a) in *. set (q := posf l t b) in *. rewrite Hna, Hnb.
  pose proof (room_at_lookup a p ltac:(lia)) as Hca.
  pose proof (room_at_lookup a (S p) ltac:(lia)) as Hxa.
  pose proof (room_at_lookup b q ltac:(lia)) as Hcb.
  pose proof (room_at_lookup b (S q) ltac:(lia)) as Hxb.
  assert (Hsame : forall i j r, Path a !! i = Some r -> Path b !! j = Some r ->
                                0 < i -> i < length (Path a) - 1 ->
                                Path a = Path b /\ i = j).
  { intros i j r Hi Hj H0 Hlt.
    apply (same_place s e l Hroutable Hlong a b i j r); try done.
    - by eapply (later_room_not_start s (Path a) i).
    - intros ->. apply (end_is_last s e l Hroutable Hlong a i Ha) in Hi. lia. }
  simpl. split; intros Heq; inversion Heq as [[Hc Hx]].
  - (* the same tunnel in the same direction *)
    destruct (decide (S p < length (Path a) - 1)) as [Hin | Hlast].
    + destruct (Hsame (S p) (S q) _ Hxa) as [Hpath Hidx]; [congruence | lia | done |].
      apply Hrank; [done | lia].
    + destruct (Hsame p q _ Hca) as [Hpath Hidx]; [congruence | lia | lia |].
      apply Hrank; [done | lia].
  - (* the same tunnel in opposite directions *)
    assert (Hp0 : 0 < p).
    { destruct (decide (p = 0)) as [Hz | ?]; [| lia]. exfalso.
      assert (Hs0 : room_at s a p = s).
      { rewrite Hz. unfold room_at. destruct (Path a) as [|x pa]; [done |].
        simpl in *. congruence. }
      apply (later_room_not_start s (Path b) (S q) (room_at s b (S q)));
        [done | done | lia | done | congruence]. }
    destruct (Hsame p (S q) _ Hca) as [Hpath Hidx]; [congruence | done | lia |].
    assert (Hq : Path a !! q = Some (room_at s a (S p))) by congruence.
    pose proof (NoDup_lookup _ _ _ _ Hnda Hxa Hq). lia.
Qed.

(** One turn of the log, replayed move by move. *)
Lemma play_turn_closed (t : nat) (k k1 : list AntAssignment) (loc : gmap nat string)
    (moved : list nat) (used : list (string * string)) :
  l = k1 ++ k ->
  (forall a, a ∈ k1 -> default s (loc !! AntID a) = room_at s a (posf l (S t) a)) ->
  (forall a, a ∈ k -> default s (loc !! AntID a) = room_at s a (posf l t a)) ->
  (forall id, id ∈ moved -> exists b, b ∈ k1 /\ AntID b = id) ->
  (forall u, u ∈ used ->
     exists b, b ∈ k1 /\ posf l t b < posf l (S t) b
               /\ u = (room_at s b (posf l t b), room_at s b (posf l (S t) b))) ->
  exists loc',
    play_turn g s ants (turn_moves l t k) loc moved used = Some loc'
    /\ (forall a, a ∈ l -> default s (loc' !! AntID a) = room_at s a (posf l (S t) a))
    /\ (forall id, (forall a, a ∈ l -> AntID a <> id) -> loc' !! id = loc !! id).
Proof.
  pose proof (routable_nodup s e l Hroutable) as Hnd.
  destruct Hroutable as ([Hnoids _] & _ & _).
  revert k1 loc moved used.
  induction k as [|a k IH]; intros k1 loc moved used Hl Hdone Htodo Hmoved Hused.
  - exists loc. split; [done |]. split; [| done].
    intros a Ha. apply Hdone. by rewrite Hl, app_nil_r in Ha.
  - assert (Ha : a ∈ l) by (rewrite Hl; apply elem_of_app; right; apply list_elem_of_here).
    assert (Hk1 : forall b, b ∈ k1 -> b ∈ l /\ b <> a).
    { intros b Hb. split; [rewrite Hl; apply elem_of_app; by left |].
      intros ->. rewrite Hl in Hnd. apply NoDup_app in Hnd as (_ & Hdisj & _).
      apply (Hdisj a Hb), list_elem_of_here. }
    assert (Hl' : l = (k1 ++ [a]) ++ k) by (by rewrite <- app_assoc).
    unfold turn_moves.
    change (omap (move_of l t) (a :: k))
      with (match move_of l t a with
            | Some y => y :: omap (move_of l t) k
            | None => omap (move_of l t) k
            end).
    change (omap (move_of l t) k) with (turn_moves l t k). unfold move_of.
    destruct (decide (posf l t a < posf l (S t) a)) as [Hmv | Hstay].
    + pose proof (posf_bound (S t) a Ha) as Hb1.
      rewrite (room_at_lookup a (posf l (S t) a) Hb1).
      set (cur := room_at s a (posf l t a)). set (nxt := room_at s a (posf l (S t) a)).
      assert (Hnext : posf l (S t) a = S (posf l t a)) by (unfold posf in *; lia).
      assert (Hc1 : Nat.leb 1 (AntID a) && Nat.leb (AntID a) ants = true).
      { destruct (Hids a Ha). apply andb_true_iff. split; by apply Nat.leb_le. }
      assert (Hc2 : existsb (Nat.eqb (AntID a)) moved = false).
      { apply not_true_iff_false. rewrite existsb_exists. intros (id & Hin & Heq).
        apply Nat.eqb_eq in Heq. subst id. apply list_elem_of_In in Hin.
        destruct (Hmoved _ Hin) as (b & Hb & Hid). destruct (Hk1 b Hb) as [Hbl Hne].
        apply Hne. by eapply same_id. }
      assert (Hc3 : adjacent g cur nxt = true).
      { apply adjacent_spec. apply (chain_lookup g (Path a) (posf l t a)).
        - by apply Hchain.
        - apply room_at_lookup. pose proof (posf_bound t a Ha). lia.
        - rewrite <- Hnext. by apply room_at_lookup. }
      assert (Hc4 : tunnel_used used cur nxt = false).
      { apply tunnel_used_false. intros u Hu.
        destruct (Hused u Hu) as (b & Hb & Hbm & ->). destruct (Hk1 b Hb) as [Hbl Hne].
        apply moves_use_different_tunnels; try done.
        intros Hpath Hrk. rewrite Hl in Hnd.
        pose proof (proj1 (rank_lt k1 k a b Hnd (eq_sym Hpath)) Hb) as Hlt.
        rewrite <- Hl in Hlt. lia. }
      cbn [fmap option_fmap option_map].
      rewrite (play_turn_move g s ants (AntID a) nxt cur _ _ _ _
                 (Htodo a (list_elem_of_here _ _)) Hc1 Hc2 Hc3 Hc4).
      destruct (IH (k1 ++ [a]) (<[AntID a := nxt]> loc) (AntID a :: moved)
                  ((cur, nxt) :: used)) as (loc' & Hplay & Hall & Hframe); try done.
      * intros b Hb. apply elem_of_app in Hb as [Hb | Hb].
        -- destruct (Hk1 b Hb) as [Hbl Hne]. rewrite lookup_insert_ne; [by apply Hdone |].
           intros Hid. apply Hne. symmetry. by eapply same_id.
        -- apply list_elem_of_singleton in Hb as ->. by rewrite lookup_insert_eq.
      * intros b Hb. rewrite lookup_insert_ne; [by apply Htodo, list_elem_of_further |].
        intros Hid.
        assert (Hbl : b ∈ l) by (rewrite Hl; apply elem_of_app; right;
                                 by apply list_elem_of_further).
        assert (b = a) as -> by (symmetry; by eapply same_id).
        rewrite Hl in Hnd. apply NoDup_app in Hnd as (_ & _ & Hnd).
        by apply NoDup_cons in Hnd as [? _].
      * intros id Hid. apply elem_of_cons in Hid as [-> | Hid].
        -- exists a. split; [apply elem_of_app; right; apply list_elem_of_here | done].
        -- destruct (Hmoved id Hid) as (b & Hb & Hbid). exists b.
           split; [apply elem_of_app; by left | done].
      * intros u Hu. apply elem_of_cons in Hu as [-> | Hu].
        -- exists a. split; [apply elem_of_app; right; apply list_elem_of_here | done].
        -- destruct (Hused u Hu) as (b & Hb & Hrest). exists b.
           split; [apply elem_of_app; by left | done].
      * exists loc'. split; [done |]. split; [done |].
        intros id Hid. rewrite Hframe by done. apply lookup_insert_ne.
        intros Heq. by apply (Hid a Ha).
    + assert (Hsame : posf l (S t) a = posf l t a) by (unfold posf in *; lia).
      destruct (IH (k1 ++ [a]) loc moved used) as (loc' & Hplay & Hall & Hframe);
        try done.
      * intros b Hb. apply elem_of_app in Hb as [Hb | Hb]; [by apply Hdone |].
        apply list_elem_of_singleton in Hb as ->. rewrite Hsame.
        apply Htodo, list_elem_of_here.
      * intros b Hb. by apply Htodo, list_elem_of_further.
      * intros id Hid. destruct (Hmoved id Hid) as (b & Hb & Hbid). exists b.
        split; [apply elem_of_app; by left | done].
      * intros u Hu. destruct (Hused u Hu) as (b & Hb & Hrest). exists b.
        split; [apply elem_of_app; by left | done].
      * by exists loc'.
Qed.

Hypothesis Hall_ids : forall id, 1 <= id <= ants -> exists a, a ∈ l /\ AntID a = id.

Lemma rank_inj (a b : AntAssignment) :
  a ∈ l -> b ∈ l -> Path a = Path b -> rank l a = rank l b -> a = b.
Proof.
  intros Ha Hb Hpath Hrank. destruct (decide (a = b)) as [| Hne]; [done |]. exfalso.
  pose proof (routable_nodup s e l Hroutable) as Hnd.
  destruct (list_elem_of_split _ _ Ha) as (l1 & l2 & Hl). rewrite Hl in Hnd, Hb, Hrank.
  destruct (rank_lt l1 l2 a b Hnd (eq_sym Hpath)) as [H1 H2].
  apply elem_of_app in Hb as [Hb | Hb]; [specialize (H1 Hb); lia |].
  apply elem_of_cons in Hb as [-> | Hb]; [done |]. specialize (H2 Hb). lia.
Qed.

Lemma NoDup_filter_map {A B : Type} (P : B -> Prop) `{!forall x, Decision (P x)}
    (f : A -> B) (xs : list A) :
  NoDup xs ->
  (forall x y, x ∈ xs -> y ∈ xs -> P (f x) -> f x = f y -> x = y) ->
  NoDup (filter P (map f xs)).
Proof.
  induction 1 as [|x xs Hx Hnd IH]; intros Hinj; simpl; [constructor |].
  assert (Hrest : NoDup (filter P (map f xs))).
  { apply IH. intros y z Hy Hz. apply Hinj; by apply list_elem_of_further. }
  rewrite filter_cons. destruct (decide (P (f x))) as [HP | _]; [| done].
  apply NoDup_cons. split; [| done]. intros Hin.
  apply list_elem_of_filter in Hin as [_ Hin].
  apply list_elem_of_In, in_map_iff in Hin as (y & Heq & Hy).
  apply list_elem_of_In in Hy.
  assert (x = y); [| by subst].
  apply Hinj; [apply list_elem_of_here | by apply list_elem_of_further | done | done].
Qed.

Lemma rooms_hold_one_closed (t : nat) (loc : gmap nat string) :
  (forall a, a ∈ l -> default s (loc !! AntID a) = room_at s a (posf l t a)) ->
  rooms_hold_one s e ants loc = true.
Proof.
  intros Hloc. unfold rooms_hold_one. apply bool_decide_eq_true.
  apply NoDup_filter_map; [apply NoDup_seq |].
  intros x y Hx Hy [Hs He] Heq.
  apply elem_of_seq in Hx, Hy.
  destruct (Hall_ids x) as (a & Ha & <-); [lia |].
  destruct (Hall_ids y) as (b & Hb & <-); [lia |].
  rewrite (Hloc a Ha) in Hs, He, Heq. rewrite (Hloc b Hb) in Heq.
  pose proof (posf_bound t a Ha) as Hpa. pose proof (posf_bound t b Hb) as Hpb.
  pose proof (room_at_lookup a _ Hpa) as Hra. pose proof (room_at_lookup b _ Hpb) as Hrb.
  rewrite <- Heq in Hrb.
  destruct (same_place s e l Hroutable Hlong a b _ _ _ Ha Hb Hra Hrb Hs He)
    as [Hpath Hidx].
  destruct (routable_facts s e l Hroutable Hlong a Ha) as (Hhead & _ & Hlast & _ & Hlen).
  assert (H0 : posf l t a <> 0).
  { intros Hz. rewrite Hz in Hra. apply Hs. destruct (Path a); [done |].
    simpl in *. congruence. }
  assert (H1 : posf l t a <> length (Path a) - 1).
  { intros Hz. rewrite Hz in Hra. rewrite last_lookup in Hlast.
    replace (pred (length (Path a))) with (length (Path a) - 1) in Hlast by lia.
    congruence. }
  f_equal. apply rank_inj; [done | done | done |].
  unfold posf in *. rewrite <- Hpath in Hidx. lia.
Qed.

Lemma play_closed (n t : nat) (loc : gmap nat string) :
  (forall a, a ∈ l -> default s (loc !! AntID a) = room_at s a (posf l t a)) ->
  exists loc',
    play g s e ants (map (fun t' => turn_moves l t' l) (seq t n)) loc = Some loc'
    /\ forall a, a ∈ l -> default s (loc' !! AntID a) = room_at s a (posf l (t + n) a).
Proof.
  revert t loc. induction n as [|n IH]; intros t loc Hloc; simpl.
  - exists loc. split; [done |]. intros a Ha. rewrite Nat.add_0_r. by apply Hloc.
  - destruct (play_turn_closed t l [] loc [] []) as (loc1 & -> & Hloc1 & _); try done.
    + by intros a ?%elem_of_nil.
    + by intros id ?%elem_of_nil.
    + by intros u ?%elem_of_nil.
    + rewrite (rooms_hold_one_closed (S t) loc1 Hloc1).
      destruct (IH (S t) loc1 Hloc1) as (loc' & Hplay & Hloc').
      exists loc'. split; [done |]. intros a Ha.
      replace (t + S n) with (S t + n) by lia. by apply Hloc'.
Qed.

Lemma closed_log_valid :
  valid_schedule g s e ants (map (fun t => turn_moves l t l) (seq 0 (turns_needed l)))
  = true.
Proof.
  unfold valid_schedule.
  destruct (play_closed (turns_needed l) 0 ∅) as (loc & -> & Hloc).
  { intros a Ha. rewrite lookup_empty. simpl. unfold posf, room_at.
    replace (Nat.min (length (Path a) - 1) (0 - rank l a)) with 0 by lia.
    destruct (routable_facts s e l Hroutable Hlong a Ha) as (Hhead & _).
    destruct (Path a); [done |]. simpl in *. congruence. }
  apply forallb_forall. intros id Hid. apply list_elem_of_In, elem_of_seq in Hid.
  destruct (Hall_ids id) as (a & Ha & <-); [lia |].
  rewrite (Hloc a Ha). apply String.eqb_eq.
  destruct (routable_facts s e l Hroutable Hlong a Ha) as (_ & _ & Hlast & _ & Hlen).
  assert (Hmax : rank l a + (length (Path a) - 1) <= turns_needed l).
  { unfold turns_needed. apply max_list_elem_of_le.
    apply list_elem_of_In, in_map_iff. exists a. split; [done | by apply list_elem_of_In]. }
  unfold room_at, posf.
  replace (Nat.min (length (Path a) - 1) (0 + turns_needed l - rank l a))
    with (pred (length (Path a))) by lia.
  rewrite <- last_lookup, Hlast. done.
Qed.

End Schedule.

Lemma distributeAnts_dom (paths : list path) (ants : nat) (assignment : gmap nat path) :
  paths <> [] ->
  distributeAnts paths ants = Some assignment ->
  forall id, is_Some (assignment !! id) <-> 1 <= id <= ants.
Proof.
  intros Hne Hrun id.
  destruct (distributeAnts_trace paths ants Hne)
    as (idx & a' & Hlen & Hrun' & Htrace & Hout).
  rewrite Hrun in Hrun'. inversion Hrun'; subst a'. split.
  - intros Hsome. destruct (decide (1 <= id <= ants)) as [| Hno]; [done |].
    rewrite Hout in Hsome by lia. by destruct Hsome.
  - intros Hid. destruct id as [|t]; [lia |].
    destruct (lookup_lt_is_Some_2 idx t) as [i Hi]; [lia |].
    destruct (Htrace t i Hi) as (_ & p & _ & Hp). by eexists.
Qed.

(** X17.  For every candidate group of an accepted input in which no path is
    the direct tunnel from the start to the end room, the log that
    [getAntMoves] builds is a schedule of the farm: every move takes an ant
    1..ants through a tunnel of the graph, no ant moves twice in a turn, no
    tunnel is used twice in a turn (in either direction), after every turn
    each room other than the start and the end room holds at most one ant,
    and after the last turn every ant is in the end room. *)
Theorem log_is_valid_schedule (rt : Runtime) (lines : list string)
    (scanErr : option string) (out out' : Streams) (g : Graph) (s e : string) (n : Z)
    (fuel0 fuel : nat) (paths group : list path) (ants : nat)
    (assignment : gmap nat path) (log : list (list (nat * string)))
    (Hrt : RuntimeOk rt)
    (Hparse : readInput rt (FileLines lines scanErr) out = Running (g, s, e, n) out')
    (Hpaths : findShortestPaths rt fuel0 g s = Some paths)
    (Hgroup : group ∈ calculateSolutionGroups paths s e)
    (Hdist : distributeAnts group ants = Some assignment)
    (Hlong : Forall (fun p => 3 <= length p) group)
    (Hlog : ant_moves_log rt fuel assignment e = Some log) :
  valid_schedule g s e ants log = true.
Proof.
  set (l := sorted_assignments rt assignment).
  destruct (readInput_graph_named _ _ _ _ _ _ _ _ Hparse) as (Hnamed & -> & ->).
  pose proof (pipeline_assignments_routable rt g fuel0 paths group ants assignment
                Hrt Hnamed Hpaths Hgroup Hdist) as Hroutable.
  fold l in Hroutable.
  assert (Hin : forall a, a ∈ l -> Path a ∈ group).
  { intros a Ha. apply (sorted_assignments_spec rt assignment Hrt) in Ha.
    by eapply distributeAnts_values. }
  assert (Hlen : Forall (fun a => 3 <= length (Path a)) l).
  { apply Forall_forall. intros a Ha. rewrite Forall_forall in Hlong. by apply Hlong, Hin. }
  pose proof (log_closed _ _ l Hroutable Hlen fuel log Hlog) as ->.
  pose proof (distributeAnts_dom group ants assignment
                (calculateSolutionGroups_nonempty _ _ _ _ Hgroup) Hdist) as Hdom.
  apply (closed_log_valid g (StartRoom g) (EndRoom g) l ants Hroutable Hlen).
  - intros a Ha.
    destruct (findShortestPaths_exact rt g (StartRoom g) fuel0 paths Hrt Hpaths)
      as (Hroutes & _).
    assert (Hp : Path a ∈ paths).
    { eapply calculateSolutionGroups_subset; [exact Hgroup | by apply Hin]. }
    by apply Hroutes in Hp as (_ & _ & _ & ?).
  - intros a Ha. apply Hdom. apply (sorted_assignments_spec rt assignment Hrt) in Ha.
    by eexists.
  - intros id Hid. apply Hdom in Hid as [p Hp].
    exists {| AntID := id; Path := p |}. split; [| done].
    by apply (sorted_assignments_spec rt assignment Hrt).
Qed.

Lemma log_is_valid_schedule_witness :
  Forall (fun p : path => 3 <= length p) lane_paths
  /\ ant_moves_log go_runtime 10 lane_assignment "T"
     = Some [[(1, "a"); (2, "b")]; [(1, "T"); (2, "T"); (3, "a"); (4, "b")];
             [(3, "T"); (4, "T")]]
  /\ valid_schedule (parsed_graph two_lanes) "S" "T" 4
       [[(1, "a"); (2, "b")]; [(1, "T"); (2, "T"); (3, "a"); (4, "b")];
        [(3, "T"); (4, "T")]] = true.
Proof.
  assert (Hlong : Forall (fun p : path => 3 <= length p) lane_paths)
    by (repeat constructor).
  assert (Hlog : ant_moves_log go_runtime 10 lane_assignment "T"
                 = Some [[(1, "a"); (2, "b")]; [(1, "T"); (2, "T"); (3, "a"); (4, "b")];
                         [(3, "T"); (4, "T")]]) by (vm_compute; reflexivity).
  split; [exact Hlong |]. split; [exact Hlog |].
  refine (log_is_valid_schedule go_runtime two_lanes None no_output
            (parsed_output two_lanes) (parsed_graph two_lanes) "S" "T" 4
            10 10 lane_paths lane_paths 4 lane_assignment _ go_runtime_ok
            _ _ _ _ Hlong Hlog).
  - vm_compute; reflexivity.
  - vm_compute; reflexivity.
  - vm_compute. apply list_elem_of_here.
  - vm_compute; reflexivity.
Defined.

(** ** The main program *)

(** *** The number of lines of a log is its number of turns *)

Lemma Count_app (x y : string) (c : ascii) :
  Count (x +:+ y) c = Count x c + Count y c.
Proof. induction x as [|a x IH]; simpl; [done |]. rewrite IH. lia. Qed.

Lemma Count_Contains (x : string) (c : ascii) :
  Contains x c = false -> Count x c = 0.
Proof.
  induction x as [|a x IH]; simpl; [done |].
  destruct (Ascii.eqb a c); [done |]. intros H. by rewrite IH.
Qed.

Lemma Count_pretty_N_go (x : N) (s : string) :
  Count (pretty_N_go x s) "010" = Count s "010".
Proof.
  revert s. induction (N.lt_wf_0 x) as [x _ IH]; intros s.
  destruct (decide (x = 0)%N) as [-> | Hx]; [by rewrite pretty_N_go_0 |].
  rewrite pretty_N_go_step by lia. rewrite IH by (apply N.div_lt; lia).
  simpl. unfold pretty_N_char. by repeat case_match.
Qed.

Lemma Count_pretty_nat (n : nat) : Count (pretty n) "010" = 0.
Proof.
  unfold pretty, pretty_nat, pretty, pretty_N.
  destruct (decide (N.of_nat n = 0)%N); [done |]. by rewrite Count_pretty_N_go.
Qed.

Lemma Count_move_string (m : nat * string) :
  Count (move_string m) "010" = Count m.2 "010".
Proof.
  unfold move_string. rewrite !Count_app, Count_pretty_nat. simpl. lia.
Qed.

Lemma Count_concat (sep : string) (l : list string) (c : ascii) :
  Count sep c = 0 ->
  Count (String.concat sep l) c = sum_list (map (fun x => Count x c) l).
Proof.
  intros Hsep. induction l as [|x l IH]; [done |].
  destruct l as [|y l]; [simpl; lia |].
  change (String.concat sep (x :: y :: l)) with (x +:+ sep +:+ String.concat sep (y :: l)).
  rewrite !Count_app, IH, Hsep. simpl. lia.
Qed.

Lemma Count_render_turn (ms : list (nat * string)) :
  Forall (fun m => Contains m.2 "010" = false) ms ->
  Count (render_turn ms) "010" = 1.
Proof.
  intros Hms. unfold render_turn. rewrite Count_app, Count_concat by done.
  assert (H : sum_list (map (fun x => Count x "010") (map move_string ms)) = 0).
  { induction Hms as [|m ms Hm _ IH]; [done |].
    change (sum_list (map (fun x => Count x "010") (map move_string (m :: ms))))
      with (Count (move_string m) "010"
            + sum_list (map (fun x => Count x "010") (map move_string ms))).
    by rewrite Count_move_string, (Count_Contains _ _ Hm), IH. }
  rewrite H. done.
Qed.

Lemma Count_render_log (log : list (list (nat * string))) :
  Forall (Forall (fun m => Contains m.2 "010" = false)) log ->
  Count (render_log log) "010" = length log.
Proof.
  intros Hlog. unfold render_log.
  assert (H : forall acc,
             Count (foldl (fun antMoves ms => antMoves +:+ render_turn ms) acc log) "010"
             = Count acc "010" + length log).
  { induction Hlog as [|ms log Hms _ IH]; intros acc; simpl; [lia |].
    rewrite IH, Count_app, (Count_render_turn ms Hms). lia. }
  by rewrite H.
Qed.

Lemma token_no_newline (r : string) : token r -> Contains r "010" = false.
Proof.
  intros (_ & _ & Hws). rewrite Forall_forall in Hws. apply Hws.
  unfold ascii_space. simpl. apply list_elem_of_further, list_elem_of_here.
Qed.

Lemma path_rooms_tokens (rt : Runtime) (g : Graph) (fuel : nat) (paths : list path)
    (p : path) (r : string) :
  RuntimeOk rt -> graph_wf g -> StartRoom g <> "" ->
  findShortestPaths rt fuel g (StartRoom g) = Some paths ->
  p ∈ paths -> r ∈ p -> token r.
Proof.
  intros Hrt Hwf Hs Hpaths Hp Hr.
  pose proof (findShortestPaths_simple rt fuel g _ paths Hrt Hpaths) as Hsimple.
  rewrite Forall_forall in Hsimple.
  destruct (Hsimple p Hp) as (Hhead & _ & _ & Htail).
  assert (Hroom : is_Some (Rooms g !! r)).
  { destruct p as [|x p]; [by apply elem_of_nil in Hr |].
    simpl in Hhead, Htail. inversion Hhead; subst x.
    apply elem_of_cons in Hr as [-> | Hr].
    - destruct (wf_start _ Hwf Hs) as (r0 & Hr0 & _). by eexists.
    - rewrite Forall_forall in Htail. destruct (Htail r Hr) as (k & ns & Hk & Hin).
      apply (wf_adj_rooms _ Hwf k r). unfold adj. by rewrite Hk. }
  destruct Hroom as [room Hroom]. by destruct (wf_rooms _ Hwf _ _ Hroom) as (_ & ? & _).
Qed.

(** X14.  For every candidate group of an accepted input, the number of
    newlines in the string that [getAntMoves] returns (what [main] counts and
    prints as the number of turns) is the number of turns of the log: every
    turn is one line, because no room name holds a line feed. *)
Theorem printed_turns_are_turns (rt : Runtime) (lines : list string)
    (scanErr : option string) (out out' : Streams) (g : Graph) (s e : string) (n : Z)
    (fuel0 fuel : nat) (paths group : list path) (ants : nat)
    (assignment : gmap nat path) (antMoves : string)
    (Hrt : RuntimeOk rt)
    (Hparse : readInput rt (FileLines lines scanErr) out = Running (g, s, e, n) out')
    (Hpaths : findShortestPaths rt fuel0 g s = Some paths)
    (Hgroup : group ∈ calculateSolutionGroups paths s e)
    (Hdist : distributeAnts group ants = Some assignment)
    (Hmoves : getAntMoves rt fuel assignment e = Some antMoves) :
  exists log,
    ant_moves_log rt fuel assignment e = Some log
    /\ antMoves = render_log log
    /\ Count antMoves "010" = length log.
Proof.
  unfold getAntMoves in Hmoves.
  destruct (ant_moves_log rt fuel assignment e) as [log|] eqn:Hlog; [| done].
  inversion Hmoves; subst antMoves. exists log. do 2 (split; [done |]).
  apply Count_render_log.
  destruct (readInput_graph_wf _ _ _ _ _ _ _ _ _ Hrt Hparse) as [Hwf _].
  destruct (readInput_graph_named _ _ _ _ _ _ _ _ Hparse) as ([Hs _] & -> & ->).
  pose proof (ant_moves_log_turns rt fuel assignment _ log Hrt Hlog) as Hturns.
  eapply Forall_impl; [exact Hturns |]. simpl. intros turn [_ Hturn].
  apply Forall_forall. intros m Hm. destruct (Hturn m Hm) as (p & Hp & Hin).
  apply token_no_newline.
  eapply (path_rooms_tokens rt g fuel0 paths p); try done.
  eapply calculateSolutionGroups_subset; [exact Hgroup |].
  by eapply distributeAnts_values.
Qed.

Lemma printed_turns_are_turns_witness :
  exists log,
    ant_moves_log go_runtime 10 lane_assignment "T" = Some log
    /\ "L1-a L2-b
L1-T L2-T L3-a L4-b
L3-T L4-T
" = render_log log
    /\ Count "L1-a L2-b
L1-T L2-T L3-a L4-b
L3-T L4-T
" "010" = length log.
Proof.
  apply (printed_turns_are_turns go_runtime two_lanes None no_output
           (parsed_output two_lanes) (parsed_graph two_lanes) "S" "T" 4 10 10
           lane_paths lane_paths 4 lane_assignment _ go_runtime_ok).
  - vm_compute; reflexivity.
  - vm_compute; reflexivity.
  - vm_compute. apply list_elem_of_here.
  - vm_compute; reflexivity.
  - vm_compute; reflexivity.
Defined.

(** *** The program never panics, and where it ends *)

Lemma read_line_exit (rt : Runtime) (st : ParseState) (l : string) (out out' : Streams)
    (code : Z) :
  read_line rt st l out = Exited code out' -> code = 0%Z \/ code = 1%Z.
Proof.
  unfold read_line, proc_bind, println, print, exit, proc_ret.
  repeat case_match; intros Hexit; inversion Hexit; auto.
Qed.

Lemma read_lines_exit (rt : Runtime) (lines : list string) (st : ParseState)
    (out out' : Streams) (code : Z) :
  read_lines rt st lines out = Exited code out' -> code = 0%Z \/ code = 1%Z.
Proof.
  revert st out. induction lines as [|l lines IH]; intros st out; simpl; [done |].
  unfold proc_bind. destruct (read_line rt st l out) as [st1 o1 | c o1 | o1 |] eqn:Hl;
    try done.
  - apply IH.
  - intros H. inversion H; subst. by eapply read_line_exit.
Qed.

Lemma readInput_outcome (rt : Runtime) (file : FileRead) (out : Streams) :
  (exists g s e n out', readInput rt file out = Running (g, s, e, n) out')
  \/ (exists code out', readInput rt file out = Exited code out'
                        /\ (code = 0%Z \/ code = 1%Z)).
Proof.
  destruct file as [msg | lines scanErr].
  - right. do 2 eexists. split; [reflexivity | by right].
  - rewrite readInput_lines.
    destruct (read_lines rt initial_parse_state lines (opened out))
      as [st o | c o | o |] eqn:Hrun.
    + destruct scanErr as [msg|].
      * right. do 2 eexists. split; [reflexivity | by left].
      * destruct (_ || _).
        -- right. do 2 eexists. split; [reflexivity | by left].
        -- left. by do 5 eexists.
    + right. exists c, o. split; [done |]. by eapply read_lines_exit.
    + destruct (read_lines_outcome rt lines initial_parse_state (opened out))
        as [(? & H) | (? & ? & H)]; congruence.
    + destruct (read_lines_outcome rt lines initial_parse_state (opened out))
        as [(? & H) | (? & ? & H)]; congruence.
Qed.

Lemma groups_nonempty (paths : list path) (s e : string) :
  paths <> [] -> calculateSolutionGroups paths s e <> [].
Proof.
  intros Hne. unfold calculateSolutionGroups.
  destruct paths as [|p [|q rest]]; simpl; done.
Qed.

Lemma moves_of_groups_outcome (rt : Runtime) (fuel : nat) (ants : Z) (e : string)
    (groups : list (list path)) (out : Streams) :
  Forall (fun group => group <> []) groups ->
  (exists logs, moves_of_groups rt fuel ants e groups out = Running logs out
                /\ length logs = length groups)
  \/ moves_of_groups rt fuel ants e groups out = OutOfFuel.
Proof.
  induction groups as [|group groups IH]; intros Hall; simpl.
  - left. by exists [].
  - inversion Hall as [|? ? Hgroup Hrest]; subst.
    unfold moves_of_group, proc_bind.
    destruct (distributeAnts_int_outcome group fuel ants out Hgroup)
      as [(assignment & ->) | ->]; [| by right].
    destruct (getAntMoves rt fuel assignment e) as [antMoves|]; [| by right].
    unfold proc_ret. destruct (IH Hrest) as [(logs & -> & Hlen) | ->]; [| by right].
    left. exists (antMoves :: logs). split; [done |]. simpl. by rewrite Hlen.
Qed.

Lemma route_from_no_panic (rt : Runtime) (fuel : nat) (paths : list path)
    (s e : string) (ants : Z) (out : Streams) :
  (exists out', route_from rt fuel paths s e ants out = Running tt out')
  \/ route_from rt fuel paths s e ants out = OutOfFuel.
Proof.
  unfold route_from. destruct (Nat.eqb (length paths) 0) eqn:Hlen; [left; by eexists |].
  apply Nat.eqb_neq in Hlen.
  assert (Hne : paths <> []) by (by destruct paths).
  unfold proc_bind. destruct (debugPaths_runs paths out) as (out1 & ->).
  pose proof (groups_nonempty paths s e Hne) as Hgroups.
  destruct (Nat.eqb (length (calculateSolutionGroups paths s e)) 0) eqn:Hg.
  { left. by eexists. }
  destruct (moves_of_groups_outcome rt fuel ants e (calculateSolutionGroups paths s e) out1)
    as [(logs & -> & Hl) | ->]; [| | by right].
  { apply Forall_forall. intros group Hin.
    by eapply calculateSolutionGroups_nonempty. }
  apply Nat.eqb_neq in Hg. destruct logs as [|first rest]; [simpl in Hl; lia |].
  left. by eexists.
Qed.

Lemma route_from_runs (rt : Runtime) (g : Graph) (fuel0 : nat) (paths : list path)
    (ants : Z) :
  RuntimeOk rt ->
  graph_named g ->
  (ants < max_int)%Z ->
  findShortestPaths rt fuel0 g (StartRoom g) = Some paths ->
  exists fuel1, forall fuel out, fuel1 <= fuel ->
    exists out', route_from rt fuel paths (StartRoom g) (EndRoom g) ants out
                 = Running tt out'.
Proof.
  intros Hrt Hnamed Hants Hpaths.
  destruct (moves_of_groups_total rt g fuel0 paths ants
              (calculateSolutionGroups paths (StartRoom g) (EndRoom g))
              Hrt Hnamed Hants Hpaths) as (fuel1 & Hgroups).
  { by apply Forall_forall. }
  exists fuel1. intros fuel out Hfuel.
  destruct (route_from_no_panic rt fuel paths (StartRoom g) (EndRoom g) ants out)
    as [H | H]; [done |].
  exfalso. unfold route_from in H.
  destruct (Nat.eqb (length paths) 0); [done |].
  unfold proc_bind in H. destruct (debugPaths_runs paths out) as (out1 & Hd).
  rewrite Hd in H.
  destruct (Nat.eqb (length (calculateSolutionGroups paths (StartRoom g) (EndRoom g))) 0);
    [done |].
  destruct (Hgroups fuel out1 Hfuel) as (logs & Hrun & _). rewrite Hrun in H.
  by destruct logs.
Qed.

(** With an ant count of the largest int the ant loop of the first group is
    never left. *)
Lemma route_from_wraps (rt : Runtime) (fuel : nat) (paths : list path) (s e : string)
    (out : Streams) :
  paths <> [] -> route_from rt fuel paths s e max_int out = OutOfFuel.
Proof.
  intros Hne. unfold route_from.
  destruct (Nat.eqb (length paths) 0) eqn:Hlen.
  { apply Nat.eqb_eq in Hlen. by destruct paths. }
  unfold proc_bind. destruct (debugPaths_runs paths out) as (out1 & ->).
  pose proof (groups_nonempty paths s e Hne) as Hgroups.
  assert (Hall : forall group, group ∈ calculateSolutionGroups paths s e -> group <> []).
  { intros group Hin. by eapply calculateSolutionGroups_nonempty. }
  destruct (calculateSolutionGroups paths s e) as [|group groups]; [done |]. simpl.
  unfold moves_of_group, proc_bind.
  rewrite distributeAnts_int_wraps; [done |]. apply Hall, list_elem_of_here.
Qed.

Lemma findShortestPaths_fuel_agree (rt : Runtime) (g : Graph) (s : string)
    (fuel fuel' : nat) (paths paths' : list path) :
  findShortestPaths rt fuel g s = Some paths ->
  findShortestPaths rt fuel' g s = Some paths' ->
  paths = paths'.
Proof.
  unfold findShortestPaths. intros H1 H2.
  destruct (findAllPaths fuel g s ∅ [] []) as [[v all]|] eqn:E1; [| done].
  destruct (findAllPaths fuel' g s ∅ [] []) as [[v' all']|] eqn:E2; [| done].
  destruct (Nat.le_ge_cases fuel fuel') as [Hle | Hle].
  - rewrite (findAllPaths_fuel_mono _ _ _ _ _ _ _ _ Hle E1) in E2. by simplify_eq.
  - rewrite (findAllPaths_fuel_mono _ _ _ _ _ _ _ _ Hle E2) in E1. by simplify_eq.
Qed.

Lemma readInput_count (rt : Runtime) (file : FileRead) (out out' : Streams)
    (g : Graph) (s e : string) (n : Z) :
  RuntimeOk rt ->
  readInput rt file out = Running (g, s, e, n) out' ->
  (1 <= n <= max_int)%Z.
Proof.
  intros Hrt Hparse. destruct file as [msg | lines scanErr]; [done |].
  destruct (readInput_graph_wf _ _ _ _ _ _ _ _ _ Hrt Hparse) as [_ Hcount].
  by apply readInput_running in Hparse as (st & _ & _ & _ & _ & _ & _ & -> & _).
Qed.

(** X15.  On every command line and every file the program never panics:
    the distributor is never called on an empty group and the list of
    candidate logs is never empty where its first element is read.  And it
    ends with exit status 0 or 1, once its loops have fuel enough, with one
    exception: on a file that the parser accepts with the largest int as the
    ant count and in which the path finder finds a path, the program never
    ends, because the counter of the ant loop of [distributeAnts] wraps and
    the test [antIndex <= ants] never fails. *)
Theorem main_terminates (rt : Runtime) (args : list string) (fs : string -> FileRead)
    (Hrt : RuntimeOk rt) :
  (forall fuel out, main rt fuel args fs <> Panicked out)
  /\ ((exists fuel0, forall fuel, fuel0 <= fuel ->
         exists code out, main rt fuel args fs = Exited code out
                          /\ (code = 0%Z \/ code = 1%Z))
      \/ ((forall fuel, main rt fuel args fs = OutOfFuel)
          /\ exists exampleFile rest g s e out paths,
               args = exampleFile :: rest
               /\ readInput rt (fs exampleFile) {| stdout := ""; stderr := "" |}
                  = Running (g, s, e, max_int) out
               /\ findShortestPaths rt (dfs_fuel g s) g s = Some paths
               /\ paths <> [])).
Proof.
  unfold main, main_body. destruct args as [|exampleFile args].
  { split; [done |]. left. exists 0. intros fuel _. do 2 eexists.
    split; [reflexivity | by left]. }
  unfold proc_bind.
  destruct (readInput_outcome rt (fs exampleFile) {| stdout := ""; stderr := "" |})
    as [(g & s & e & n & out' & Hparse) | (code & out' & Hparse & Hcode)];
    rewrite Hparse.
  2:{ split; [done |]. left. exists 0. intros fuel _. by exists code, out'. }
  pose proof (readInput_count _ _ _ _ _ _ _ _ Hrt Hparse) as Hcount.
  destruct (readInput_graph_named _ _ _ _ _ _ _ _ Hparse) as (Hnamed & -> & ->).
  unfold debugAntCount, print, route. split.
  { intros fuel out. destruct (findShortestPaths rt fuel g (StartRoom g)) as [paths|];
      [| done].
    by destruct (route_from_no_panic rt fuel paths (StartRoom g) (EndRoom g) n
                   {| stdout := stdout out' +:+ "Number of ants: " +:+ pretty n +:+ newline;
                      stderr := stderr out' |}) as [(o & ->) | ->]. }
  destruct (findShortestPaths_terminates rt g (StartRoom g)) as (paths & Hpaths).
  assert (Hmono : forall fuel, dfs_fuel g (StartRoom g) <= fuel ->
                    findShortestPaths rt fuel g (StartRoom g) = Some paths).
  { intros fuel Hle. unfold findShortestPaths in *.
    destruct (findAllPaths (dfs_fuel g (StartRoom g)) g (StartRoom g) ∅ [] [])
      as [[v all]|] eqn:Hdfs; [| done].
    by rewrite (findAllPaths_fuel_mono _ fuel _ _ _ _ _ _ Hle Hdfs). }
  destruct (decide (n = max_int /\ paths <> [])) as [[-> Hne] | Hfine].
  - right. split.
    + intros fuel.
      destruct (findShortestPaths rt fuel g (StartRoom g)) as [paths'|] eqn:Hfuel;
        [| done].
      rewrite <- (findShortestPaths_fuel_agree _ _ _ _ _ _ _ Hpaths Hfuel).
      by rewrite route_from_wraps.
    + by exists exampleFile, args, g, (StartRoom g), (EndRoom g), out', paths.
  - left. destruct (decide (paths = [])) as [-> | Hne].
    + exists (dfs_fuel g (StartRoom g)). intros fuel Hfuel. rewrite (Hmono fuel Hfuel).
      do 2 eexists. split; [reflexivity | by left].
    + assert (Hants : (n < max_int)%Z).
      { destruct (decide (n = max_int)) as [-> | Hn]; [by destruct Hfine | lia]. }
      destruct (route_from_runs rt g _ paths n Hrt Hnamed Hants Hpaths) as (fuel1 & Hroute).
      exists (Nat.max fuel1 (dfs_fuel g (StartRoom g))). intros fuel Hfuel.
      rewrite (Hmono fuel) by lia.
      destruct (Hroute fuel
                  {| stdout := stdout out' +:+ "Number of ants: " +:+ pretty n +:+ newline;
                     stderr := stderr out' |}) as (o & ->); [lia |].
      exists 0%Z, o. split; [done | by left].
Qed.

Lemma main_terminates_witness :
  RuntimeOk go_runtime
  /\ exists fuel0, forall fuel, fuel0 <= fuel ->
       exists code out,
         main go_runtime fuel ["farm.txt"] (fun _ => FileLines two_lanes None)
         = Exited code out
         /\ (code = 0%Z \/ code = 1%Z).
Proof.
  split; [exact go_runtime_ok |].
  destruct (main_terminates go_runtime ["farm.txt"]
              (fun _ => FileLines two_lanes None) go_runtime_ok)
    as [_ [Hends | [_ Hwraps]]]; [exact Hends |].
  exfalso.
  destruct Hwraps as (exampleFile & rest & g & s & e & out & paths & _ & Hparse & _).
  vm_compute in Hparse. discriminate Hparse.
Defined.

(** *** The error stream *)

Lemma quiet_ret {A : Type} (a : A) : quiet (proc_ret a).
Proof. by intros s. Qed.

Lemma quiet_print (x : string) : quiet (print x).
Proof. by intros s. Qed.

Lemma quiet_println (x : string) : quiet (println x).
Proof. by intros s. Qed.

Lemma quiet_exit {A : Type} (code : Z) : quiet (@exit A code).
Proof. by intros s. Qed.

Lemma quiet_panic {A : Type} : quiet (@panic A).
Proof. by intros s. Qed.

Lemma quiet_out_of_fuel {A : Type} : quiet (@out_of_fuel A).
Proof. by intros s. Qed.

Lemma quiet_bind {A B : Type} (c : Proc A) (k : A -> Proc B) :
  quiet c -> (forall a, quiet (k a)) -> quiet (proc_bind c k).
Proof.
  intros Hc Hk s. unfold proc_bind. specialize (Hc s).
  destruct (c s) as [a s1 | code s1 | s1 |]; try done.
  specialize (Hk a s1). destruct (k a s1); congruence.
Qed.

Create HintDb quiet.

#[local] Hint Resolve quiet_ret quiet_print quiet_println quiet_exit quiet_panic
  quiet_out_of_fuel : quiet.

#[local] Hint Extern 1 (quiet (proc_bind _ _)) => apply quiet_bind; [| intros ?] : quiet.

Lemma quiet_read_line (rt : Runtime) (st : ParseState) (l : string) :
  quiet (read_line rt st l).
Proof. unfold read_line. repeat case_match; auto with quiet. Qed.

Lemma quiet_read_lines (rt : Runtime) (lines : list string) (st : ParseState) :
  quiet (read_lines rt st lines).
Proof.
  revert st. induction lines as [|l lines IH]; intros st; simpl; [auto with quiet |].
  apply quiet_bind; [apply quiet_read_line | intros st'; apply IH].
Qed.

Lemma quiet_readInput (rt : Runtime) (lines : list string) (scanErr : option string) :
  quiet (readInput rt (FileLines lines scanErr)).
Proof.
  unfold readInput. do 2 (apply quiet_bind; [auto with quiet | intros _]).
  apply quiet_bind; [apply quiet_read_lines |]. intros st.
  repeat case_match; auto with quiet.
Qed.

Lemma quiet_debugPaths (paths : list path) : quiet (debugPaths paths).
Proof.
  unfold debugPaths. apply quiet_bind; [auto with quiet | intros _].
  assert (H : forall (l : list (Proc unit)) (acc : Proc unit),
             quiet acc -> Forall quiet l ->
             quiet (foldl (fun a line => proc_bind a (fun _ => line)) acc l)).
  { induction l as [|p l IH]; intros acc Hacc Hall; simpl; [done |].
    inversion Hall; subst. apply IH; [| done]. by apply quiet_bind. }
  apply H; [auto with quiet |]. apply Forall_forall. intros p Hp.
  apply list_elem_of_lookup in Hp as [i Hi]. rewrite list_lookup_imap in Hi.
  destruct (paths !! i); simpl in Hi; [| done]. inversion Hi; subst. auto with quiet.
Qed.

Lemma quiet_distributeAnts_int (fuel : nat) (paths : list path) (ants : Z) :
  quiet (distributeAnts_int fuel paths ants).
Proof.
  unfold distributeAnts_int.
  generalize 1%Z, (initial_loads paths, (∅ : gmap nat path)).
  induction fuel as [|fuel IH]; intros antIndex st;
    cbn [distribute_loop_int]; [auto with quiet |].
  repeat case_match; auto with quiet.
Qed.

Lemma quiet_moves_of_groups (rt : Runtime) (fuel : nat) (ants : Z) (e : string)
    (groups : list (list path)) :
  quiet (moves_of_groups rt fuel ants e groups).
Proof.
  induction groups as [|group groups IH]; simpl; [auto with quiet |].
  apply quiet_bind.
  - unfold moves_of_group. apply quiet_bind; [apply quiet_distributeAnts_int |].
    intros assignment. case_match; auto with quiet.
  - intros antMoves. apply quiet_bind; [done | intros; auto with quiet].
Qed.

Lemma quiet_route (rt : Runtime) (fuel : nat) (g : Graph) (s e : string) (ants : Z) :
  quiet (route rt fuel g s e ants).
Proof.
  unfold route. destruct (findShortestPaths rt fuel g s) as [paths|]; [| auto with quiet].
  unfold route_from. destruct (Nat.eqb (length paths) 0); [auto with quiet |].
  apply quiet_bind; [apply quiet_debugPaths | intros _].
  destruct (Nat.eqb _ 0); [auto with quiet |].
  apply quiet_bind; [apply quiet_moves_of_groups |]. intros logs.
  destruct logs; [auto with quiet |]. unfold report. auto 10 with quiet.
Qed.

(** X16.  The program writes to the error stream only when the input file
    cannot be opened; then it writes [ERROR: ] and the reason there, nothing
    to the standard output, and exits with status 1.  In every other run,
    however it ends, the error stream stays empty: all other messages,
    errors included, go to the standard output. *)
Theorem error_stream_only_on_open (rt : Runtime) (fuel : nat) (args : list string)
    (fs : string -> FileRead) (code : Z) (out : Streams)
    (Hrun : main rt fuel args fs = Exited code out) :
  match args with
  | [] => stderr out = ""
  | exampleFile :: _ =>
      match fs exampleFile with
      | OpenError msg =>
          code = 1%Z /\ out = {| stdout := ""; stderr := "ERROR: " +:+ msg +:+ newline |}
      | FileLines _ _ => stderr out = ""
      end
  end.
Proof.
  unfold main, main_body in Hrun. destruct args as [|exampleFile args].
  { by inversion Hrun; subst. }
  destruct (fs exampleFile) as [msg | lines scanErr] eqn:Hfile.
  { by inversion Hrun; subst. }
  assert (Hq : quiet (let* r := readInput rt (FileLines lines scanErr) in
                      let '(g, startRoom, endRoom, ants) := r in
                      debugAntCount ants >>> route rt fuel g startRoom endRoom ants)).
  { apply quiet_bind; [apply quiet_readInput |]. intros [[[g s] e] n].
    apply quiet_bind; [apply quiet_print | intros _; apply quiet_route]. }
  specialize (Hq {| stdout := ""; stderr := "" |}). simpl in Hq.
  destruct (proc_bind _ _ _) as [[] s1 | c s1 | s1 |]; inversion Hrun; by subst.
Qed.

Lemma error_stream_only_on_open_witness :
  main go_runtime 10 ["farm.txt"] (fun _ => FileLines self_loop_lines None)
  = Exited 0 {| stdout := "File opened successfully!

ERROR: self referencing room: A-A
"; stderr := "" |}
  /\ stderr {| stdout := "File opened successfully!

ERROR: self referencing room: A-A
"; stderr := "" |} = "".
Proof.
  assert (H : main go_runtime 10 ["farm.txt"] (fun _ => FileLines self_loop_lines None)
              = Exited 0 {| stdout := "File opened successfully!

ERROR: self referencing room: A-A
"; stderr := "" |}) by (vm_compute; reflexivity).
  split; [exact H |].
  exact (error_stream_only_on_open go_runtime 10 ["farm.txt"]
           (fun _ => FileLines self_loop_lines None) _ _ H).
Defined.
